(** * Shallow embedding of parts of Blender (sculpt-dev excerpt)

    The development follows the source files it embeds:

    - [Subsurface]  : intern/cycles/kernel/integrator/kernel_subsurface.h
    - [Spreadsheet] : source/blender/editors/space_spreadsheet/space_spreadsheet.cc
    - [Profiler]    : source/blender/editors/space_profiler/profiler_draw.cc
    - [Offset]      : source/blender/gpencil_modifiers/intern/MOD_gpenciloffset.c
    - [Dyntopo]     : source/blender/blenkernel/intern/pbvh_bmesh.c
    - [CurveDraw]   : source/blender/editors/gpencil/gpencil_curve_draw.c

    Conventions.  C [int] values are integers of [Z] (the claims never reach
    the overflow range).  C [float] values are exact rationals of [Q]; where
    the code compares floats the model compares rationals, so rounding and
    NaN are outside the model.  Pointers into a list owned by the program are
    list positions or identifiers in a store. *)

From Stdlib Require Import ZArith QArith Qround Qabs Lia Lqa Bool.
From Stdlib Require Import Floats.SpecFloat.
From stdpp Require Import base decidable option list strings gmap.

Set Default Proof Using "Type".

(* ===================================================================== *)
(** * Subsurface-scattering integration step *)
(* ===================================================================== *)

Module Subsurface.

(** [float3] and the values an integrator-state member can hold.  Floats of
    the kernel are kept as IEEE values ([spec_float]); the kernel only
    stores the constant [0.0f]. *)
Record float3 := make_float3 { f3_x : spec_float; f3_y : spec_float; f3_z : spec_float }.

Inductive value :=
| VFloat (f : spec_float)
| VFloat3 (f : float3)
| VInt (i : Z).

Definition zero_f : spec_float := S754_zero false.

(** A member of the integrator state is addressed as
    [INTEGRATOR_STATE(nested_struct, member)]. *)
Definition member : Type := string * string.

Definition IntegratorState : Type := member -> value.

Definition INTEGRATOR_STATE (st : IntegratorState) (nested_struct mem : string) : value :=
  st (nested_struct, mem).

Definition INTEGRATOR_STATE_WRITE (st : IntegratorState) (nested_struct mem : string)
    (v : value) : IntegratorState :=
  fun k => if decide (k = (nested_struct, mem)) then v else st k.

Section kernel.

(** The identifiers of kernel_types.h are not part of the excerpt. *)
Variables OBJECT_NONE PRIM_NONE PRIMITIVE_NONE : Z.

Definition kernel_integrate_subsurface (st : IntegratorState) : IntegratorState :=
  (* Scatter. *)
  let throughput := INTEGRATOR_STATE st "path" "throughput" in
  let st := INTEGRATOR_STATE_WRITE st "isect" "t" (VFloat zero_f) in
  let st := INTEGRATOR_STATE_WRITE st "isect" "u" (VFloat zero_f) in
  let st := INTEGRATOR_STATE_WRITE st "isect" "v" (VFloat zero_f) in
  let st := INTEGRATOR_STATE_WRITE st "isect" "Ng"
              (VFloat3 (make_float3 zero_f zero_f zero_f)) in
  let st := INTEGRATOR_STATE_WRITE st "isect" "object" (VInt OBJECT_NONE) in
  let st := INTEGRATOR_STATE_WRITE st "isect" "prim" (VInt PRIM_NONE) in
  let st := INTEGRATOR_STATE_WRITE st "isect" "type" (VInt PRIMITIVE_NONE) in
  let st := INTEGRATOR_STATE_WRITE st "path" "throughput" throughput in
  (* Queue surface kernel or nothing. *)
  st.

(** The members of the intersection record. *)
Definition isect_members : list member :=
  [("isect", "t"); ("isect", "u"); ("isect", "v"); ("isect", "Ng");
   ("isect", "object"); ("isect", "prim"); ("isect", "type")]%string.

Lemma write_same st n m v : INTEGRATOR_STATE_WRITE st n m v (n, m) = v.
Proof. unfold INTEGRATOR_STATE_WRITE. by rewrite decide_True. Qed.

Lemma write_other st n m v k :
  k ≠ (n, m) -> INTEGRATOR_STATE_WRITE st n m v k = st k.
Proof. intros H. unfold INTEGRATOR_STATE_WRITE. by rewrite decide_False. Qed.

(** C8.  For every input state the kernel leaves the intersection record at
    its "no intersection" values (t, u, v and Ng zero, object, prim and type
    the three NONE identifiers), the path throughput is what it was, and
    every member outside the intersection record keeps its value. *)
Theorem kernel_integrate_subsurface_resets_isect (st : IntegratorState) :
  let st' := kernel_integrate_subsurface st in
  st' ("isect", "t")%string = VFloat zero_f /\
  st' ("isect", "u")%string = VFloat zero_f /\
  st' ("isect", "v")%string = VFloat zero_f /\
  st' ("isect", "Ng")%string = VFloat3 (make_float3 zero_f zero_f zero_f) /\
  st' ("isect", "object")%string = VInt OBJECT_NONE /\
  st' ("isect", "prim")%string = VInt PRIM_NONE /\
  st' ("isect", "type")%string = VInt PRIMITIVE_NONE /\
  st' ("path", "throughput")%string = st ("path", "throughput")%string /\
  (forall k : member, k ∉ isect_members -> st' k = st k).
Proof.
  cbn zeta. unfold kernel_integrate_subsurface, INTEGRATOR_STATE.
  repeat split;
    try (repeat first [ rewrite write_same; reflexivity
                      | rewrite write_other by discriminate ]).
  intros k Hk. unfold isect_members in Hk.
  destruct (decide (k = ("path", "throughput")%string)) as [->|Hp].
  - rewrite write_same. reflexivity.
  - rewrite write_other by assumption.
    repeat (rewrite write_other; [| intros ->; apply Hk; set_solver]).
    reflexivity.
Qed.

End kernel.

End Subsurface.

(* ===================================================================== *)
(** * Spreadsheet panel: rows requested for drawing *)
(* ===================================================================== *)

Module Spreadsheet.

Local Open Scope Z_scope.

Record rcti := { xmin : Z; xmax : Z; ymin : Z; ymax : Z }.

(** [header_drawer] and [cell_drawer] are pointers that may be null; only
    their presence matters to the loops. *)
Record SpreadsheetColumnLayout := {
  width : Z;
  header_drawer : bool;
  cell_drawer : bool
}.

Record SpreadsheetLayout := {
  index_column_width : Z;
  title_row_height : Z;
  row_height : Z;
  columns : list SpreadsheetColumnLayout
}.

Record ARegion := { winx : Z; winy : Z }.

(** C integer division truncates towards zero: [Z.quot]. *)
Definition get_visible_rows (spreadsheet_layout : SpreadsheetLayout) (region : ARegion)
    (scroll_offset_y : Z) : Z * Z :=
  let r_first_row := Z.quot (- scroll_offset_y) (row_height spreadsheet_layout) in
  let r_max_visible_rows := Z.quot (winy region) (row_height spreadsheet_layout) + 1 in
  (r_first_row, r_max_visible_rows).

(** [row_indices[i]] on a span: defined for [0 <= i < size] only. *)
Definition span_get (row_indices : list Z) (i : Z) : option Z :=
  if i <? 0 then None else row_indices !! Z.to_nat i.

(** One pass of a drawing loop body: the row position [i] it was entered
    with, the value read from [row_indices[i]] and the rectangle. *)
Record row_request := {
  req_row : Z;
  req_index : option Z;
  req_rect : rcti
}.

(** [for (const int i : IndexRange(first, n)) { if (i >= size) break; body }] *)
Fixpoint visible_row_loop (body : Z -> row_request) (size : Z) (i : Z) (n : nat)
    : list row_request :=
  match n with
  | O => []
  | S n' => if size <=? i then [] else body i :: visible_row_loop body size (i + 1) n'
  end.

Definition draw_row_indices (scroll_offset_y : Z) (row_indices : list Z)
    (region : ARegion) (spreadsheet_layout : SpreadsheetLayout) : list row_request :=
  let '(first_row, max_visible_rows) :=
    get_visible_rows spreadsheet_layout region scroll_offset_y in
  visible_row_loop
    (fun i =>
       let index := span_get row_indices i in
       let x := 0 in
       let y := winy region - title_row_height spreadsheet_layout
                - (i + 1) * row_height spreadsheet_layout - scroll_offset_y in
       let width := index_column_width spreadsheet_layout in
       let height := row_height spreadsheet_layout in
       {| req_row := i; req_index := index;
          req_rect := {| xmin := x; xmax := x + width; ymin := y; ymax := y + height |} |})
    (Z.of_nat (length row_indices)) first_row (Z.to_nat max_visible_rows).

(** The column loop threads [left_x]; every column runs the row loop.  The
    loop body reads [row_indices[i]] whether or not the column has a cell
    drawer, so the requests do not depend on [cell_drawer]. *)
Fixpoint draw_cell_columns (cols : list SpreadsheetColumnLayout) (left_x : Z)
    (rows : Z -> Z -> list row_request) : list row_request :=
  match cols with
  | [] => []
  | column_layout :: rest =>
      let right_x := left_x + width column_layout in
      rows left_x right_x ++ draw_cell_columns rest right_x rows
  end.

Definition draw_cell_contents (region : ARegion) (spreadsheet_layout : SpreadsheetLayout)
    (row_indices : list Z) (scroll_offset_x scroll_offset_y : Z) : list row_request :=
  let '(first_row, max_visible_rows) :=
    get_visible_rows spreadsheet_layout region scroll_offset_y in
  let left_x := index_column_width spreadsheet_layout - scroll_offset_x in
  draw_cell_columns (columns spreadsheet_layout) left_x
    (fun left_x right_x =>
       visible_row_loop
         (fun i =>
            let bottom_y := winy region - title_row_height spreadsheet_layout
                            - (i + 1) * row_height spreadsheet_layout - scroll_offset_y in
            let top_y := bottom_y + row_height spreadsheet_layout in
            {| req_row := i; req_index := span_get row_indices i;
               req_rect := {| xmin := left_x; xmax := right_x;
                              ymin := bottom_y; ymax := top_y |} |})
         (Z.of_nat (length row_indices)) first_row (Z.to_nat max_visible_rows)).

(** The rows a loop asks for stay below the size it breaks at. *)
Lemma visible_row_loop_below body size n : forall i,
  Forall (fun r => exists j, r = body j /\ j < size)
         (visible_row_loop body size i n).
Proof.
  induction n as [|n IH]; intros i; simpl; [constructor|].
  destruct (Z.leb_spec size i); constructor; [|apply IH].
  exists i. split; [reflexivity | lia].
Qed.

Lemma draw_cell_columns_Forall (P : row_request -> Prop) cols rows : forall left_x,
  (forall l r, Forall P (rows l r)) ->
  Forall P (draw_cell_columns cols left_x rows).
Proof.
  induction cols as [|c cols IH]; intros left_x H; simpl; [constructor|].
  apply Forall_app. split; [apply H | apply IH, H].
Qed.

Example get_visible_rows_demo :
  get_visible_rows {| index_column_width := 40; title_row_height := 30;
                      row_height := 20; columns := [] |}
                   {| winx := 800; winy := 500 |} (-40) = (2, 26).
Proof. reflexivity. Qed.

(** C7.  With row height 20 and region height 500 the number of rows
    requested is 26 whatever the scroll offset; the first requested row is 0
    at offset 0 and 2 at offset -40; and neither drawing loop enters its body
    with a row position at or beyond the number of rows. *)
Theorem visible_rows_computation :
  (forall icw trh cols wx scroll_offset_y,
     snd (get_visible_rows
            {| index_column_width := icw; title_row_height := trh;
               row_height := 20; columns := cols |}
            {| winx := wx; winy := 500 |} scroll_offset_y) = 26) /\
  (forall icw trh cols region,
     fst (get_visible_rows
            {| index_column_width := icw; title_row_height := trh;
               row_height := 20; columns := cols |} region 0) = 0) /\
  (forall icw trh cols region,
     fst (get_visible_rows
            {| index_column_width := icw; title_row_height := trh;
               row_height := 20; columns := cols |} region (-40)) = 2) /\
  (forall scroll_offset_y row_indices region spreadsheet_layout,
     Forall (fun r => req_row r < Z.of_nat (length row_indices))
            (draw_row_indices scroll_offset_y row_indices region spreadsheet_layout)) /\
  (forall region spreadsheet_layout row_indices scroll_offset_x scroll_offset_y,
     Forall (fun r => req_row r < Z.of_nat (length row_indices))
            (draw_cell_contents region spreadsheet_layout row_indices
                                scroll_offset_x scroll_offset_y)).
Proof.
  repeat split.
  - intros; unfold draw_row_indices, get_visible_rows.
    eapply Forall_impl; [apply visible_row_loop_below|].
    intros r (j & -> & Hj). exact Hj.
  - intros; unfold draw_cell_contents, get_visible_rows.
    apply draw_cell_columns_Forall. intros l r.
    eapply Forall_impl; [apply visible_row_loop_below|].
    intros q (j & -> & Hj). exact Hj.
Qed.

(** ** The other drawing passes of the panel *)

(** [immRecti(pos, x1, y1, x2, y2)]: the coordinates as they are passed. *)
Record immRecti_call := { rect_x1 : Z; rect_y1 : Z; rect_x2 : Z; rect_y2 : Z }.

Definition draw_index_column_background (region : ARegion)
    (spreadsheet_layout : SpreadsheetLayout) : immRecti_call :=
  {| rect_x1 := 0;
     rect_y1 := winy region - title_row_height spreadsheet_layout;
     rect_x2 := index_column_width spreadsheet_layout;
     rect_y2 := 0 |}.

(** C [%] truncates like [/]: [Z.rem].  [IndexRange(n)] runs over
    [0, 1, ..., n - 1]. *)
Definition draw_alternating_row_overlay (scroll_offset_y : Z) (region : ARegion)
    (spreadsheet_layout : SpreadsheetLayout) : list immRecti_call :=
  let row_pair_height := row_height spreadsheet_layout * 2 in
  let row_top_y := winy region - title_row_height spreadsheet_layout
                   - Z.rem scroll_offset_y row_pair_height in
  (fun i =>
     let x_left := 0 in
     let x_right := winx region in
     let y_top := row_top_y - i * row_pair_height in
     let y_bottom := y_top - row_height spreadsheet_layout in
     let y_top := Z.min y_top (winy region - title_row_height spreadsheet_layout) in
     let y_bottom := Z.min y_bottom (winy region - title_row_height spreadsheet_layout) in
     {| rect_x1 := x_left; rect_y1 := y_top; rect_x2 := x_right; rect_y2 := y_bottom |})
  <$> seqZ 0 (Z.quot (winy region) row_pair_height + 1).

Definition draw_title_row_background (region : ARegion)
    (spreadsheet_layout : SpreadsheetLayout) : immRecti_call :=
  {| rect_x1 := 0;
     rect_y1 := winy region;
     rect_x2 := winx region;
     rect_y2 := winy region - title_row_height spreadsheet_layout |}.

(** The vertices of the column separator lines; [line_x] is threaded through
    the columns. *)
Fixpoint separator_columns (cols : list SpreadsheetColumnLayout) (line_x : Z)
    (region : ARegion) (spreadsheet_layout : SpreadsheetLayout) : list (Z * Z) :=
  match cols with
  | [] => []
  | column :: rest =>
      let line_x := line_x + width column in
      (if index_column_width spreadsheet_layout <=? line_x
       then [(line_x, winy region); (line_x, 0)] else [])
      ++ separator_columns rest line_x region spreadsheet_layout
  end.

(** The result is the vertex budget given to [immBeginAtMost] and the
    vertices sent between it and [immEnd], in order. *)
Definition draw_separator_lines (scroll_offset_x : Z) (region : ARegion)
    (spreadsheet_layout : SpreadsheetLayout) : Z * list (Z * Z) :=
  let budget := Z.of_nat (length (columns spreadsheet_layout)) * 2 + 4 in
  (budget,
   [ (* Index column line. *)
     (index_column_width spreadsheet_layout, winy region);
     (index_column_width spreadsheet_layout, 0);
     (* Title row line. *)
     (0, winy region - title_row_height spreadsheet_layout);
     (winx region, winy region - title_row_height spreadsheet_layout) ]
   ++ (* Column separator lines. *)
   separator_columns (columns spreadsheet_layout)
     (index_column_width spreadsheet_layout - scroll_offset_x)
     region spreadsheet_layout).

(** One pass of the header loop: the rectangle and whether the column's
    header drawer is called with it. *)
Record header_request := { hdr_rect : rcti; hdr_drawn : bool }.

Fixpoint draw_header_columns (cols : list SpreadsheetColumnLayout) (left_x : Z)
    (region : ARegion) (spreadsheet_layout : SpreadsheetLayout) : list header_request :=
  match cols with
  | [] => []
  | column_layout :: rest =>
      let right_x := left_x + width column_layout in
      {| hdr_rect := {| xmin := left_x; xmax := right_x;
                        ymin := winy region - index_column_width spreadsheet_layout;
                        ymax := winy region |};
         hdr_drawn := header_drawer column_layout |}
      :: draw_header_columns rest right_x region spreadsheet_layout
  end.

Definition draw_column_headers (region : ARegion) (spreadsheet_layout : SpreadsheetLayout)
    (scroll_offset_x : Z) : list header_request :=
  let left_x := index_column_width spreadsheet_layout - scroll_offset_x in
  draw_header_columns (columns spreadsheet_layout) left_x region spreadsheet_layout.

(** The width and height given to [UI_view2d_totRect_set]. *)
Definition update_view2d_tot_rect (spreadsheet_layout : SpreadsheetLayout)
    (row_amount : Z) : Z * Z :=
  let column_width_sum :=
    foldl (fun column_width_sum column_layout => column_width_sum + width column_layout)
          0 (columns spreadsheet_layout) in
  (column_width_sum + index_column_width spreadsheet_layout,
   row_amount * row_height spreadsheet_layout + title_row_height spreadsheet_layout).

(** The panel of the fixtures: rows of height 20 under a title row of height
    30, three columns, seven rows of data. *)
Definition fixture_layout : SpreadsheetLayout :=
  {| index_column_width := 40; title_row_height := 30; row_height := 20;
     columns := [ {| width := 100; header_drawer := true; cell_drawer := true |};
                  {| width := 200; header_drawer := false; cell_drawer := true |};
                  {| width := 80; header_drawer := true; cell_drawer := false |} ] |}.

Definition fixture_region : ARegion := {| winx := 300; winy := 90 |}.

Definition fixture_rows : list Z := [0; 1; 2; 3; 4; 5; 6].

(** The loop enters its body at [i], [i + 1], ... only. *)
Lemma visible_row_loop_range body size n : forall i,
  Forall (fun r => exists j, r = body j /\ i <= j < size)
         (visible_row_loop body size i n).
Proof.
  induction n as [|n IH]; intros i; simpl; [constructor|].
  destruct (Z.leb_spec size i); constructor.
  - exists i. split; [reflexivity | lia].
  - eapply Forall_impl; [apply IH|].
    intros r (j & -> & Hj). exists j. split; [reflexivity | lia].
Qed.

Lemma visible_row_loop_elem body size n i r :
  r ∈ visible_row_loop body size i n -> exists j, r = body j /\ i <= j < size.
Proof.
  intros Hr. pose proof (visible_row_loop_range body size n i) as Hall.
  rewrite Forall_forall in Hall. exact (Hall r Hr).
Qed.

(** With enough rows the loop never breaks. *)
Lemma visible_row_loop_full body size n : forall i,
  i + Z.of_nat n <= size ->
  visible_row_loop body size i n = body <$> seqZ i (Z.of_nat n).
Proof.
  induction n as [|n IH]; intros i Hi; [reflexivity|].
  cbn [visible_row_loop].
  destruct (Z.leb_spec size i); [lia|].
  rewrite IH by lia.
  replace (Z.of_nat (S n)) with (Z.succ (Z.of_nat n)) by lia.
  rewrite (seqZ_cons i) by lia.
  rewrite fmap_cons, Z.pred_succ. reflexivity.
Qed.

Lemma span_get_Some row_indices i :
  0 <= i < Z.of_nat (length row_indices) -> is_Some (span_get row_indices i).
Proof.
  intros Hi. unfold span_get.
  destruct (Z.ltb_spec i 0); [lia|].
  apply lookup_lt_is_Some_2. lia.
Qed.

(** X1.  When the view is not scrolled above the first row
    ([scroll_offset_y <= 0]) and rows have a positive height, every pass of
    the row-index loop and of the cell loop reads [row_indices] at a position
    inside the span: no read is out of bounds. *)
Theorem row_reads_inside_span scroll_offset_x scroll_offset_y row_indices region
    spreadsheet_layout :
  scroll_offset_y <= 0 ->
  0 < row_height spreadsheet_layout ->
  let inside r :=
    0 <= req_row r < Z.of_nat (length row_indices) /\ is_Some (req_index r) in
  Forall inside (draw_row_indices scroll_offset_y row_indices region spreadsheet_layout) /\
  Forall inside (draw_cell_contents region spreadsheet_layout row_indices
                                    scroll_offset_x scroll_offset_y).
Proof.
  intros Hs Hrh inside.
  assert (Hfirst : 0 <= Z.quot (- scroll_offset_y) (row_height spreadsheet_layout))
    by (apply Z.quot_pos; lia).
  split.
  - unfold draw_row_indices, get_visible_rows.
    eapply Forall_impl; [apply visible_row_loop_range|].
    intros r (j & -> & Hj). unfold inside. cbn.
    split; [lia | apply span_get_Some; lia].
  - unfold draw_cell_contents, get_visible_rows.
    apply draw_cell_columns_Forall. intros l r.
    eapply Forall_impl; [apply visible_row_loop_range|].
    intros q (j & -> & Hj). unfold inside. cbn.
    split; [lia | apply span_get_Some; lia].
Qed.

Lemma row_reads_inside_span_witness :
  let inside (r : row_request) :=
    0 <= req_row r < Z.of_nat (length fixture_rows) /\ is_Some (req_index r) in
  Forall inside (draw_row_indices (-40) fixture_rows fixture_region fixture_layout) /\
  Forall inside (draw_cell_contents fixture_region fixture_layout fixture_rows 0 (-40)).
Proof.
  apply (row_reads_inside_span 0 (-40) fixture_rows fixture_region fixture_layout).
  - vm_compute. discriminate.
  - reflexivity.
Defined.

(** X2.  When the view is scrolled above the first row by a row height or
    more ([scroll_offset_y >= row_height > 0]) and there is at least one row,
    the first pass of the row-index loop is entered with a negative row
    position, before the start of the span. *)
Theorem row_read_before_span scroll_offset_y row_indices region spreadsheet_layout :
  0 < row_height spreadsheet_layout <= scroll_offset_y ->
  0 <= winy region ->
  row_indices <> [] ->
  exists r,
    head (draw_row_indices scroll_offset_y row_indices region spreadsheet_layout) = Some r /\
    req_row r < 0 /\ req_index r = None.
Proof.
  intros Hs Hw Hne. unfold draw_row_indices, get_visible_rows.
  set (rh := row_height spreadsheet_layout) in *.
  assert (Hfirst : Z.quot (- scroll_offset_y) rh < 0).
  { rewrite Z.quot_opp_l by lia.
    assert (1 <= Z.quot scroll_offset_y rh); [|lia].
    apply Z.quot_le_lower_bound; lia. }
  assert (Hmax : 0 <= Z.quot (winy region) rh) by (apply Z.quot_pos; lia).
  destruct (Z.to_nat (Z.quot (winy region) rh + 1)) as [|n] eqn:En; [lia|].
  cbn [visible_row_loop].
  destruct (Z.leb_spec (Z.of_nat (length row_indices)) (Z.quot (- scroll_offset_y) rh));
    [lia|].
  eexists. split; [reflexivity|]. cbn. split; [exact Hfirst|].
  unfold span_get. destruct (Z.ltb_spec (Z.quot (- scroll_offset_y) rh) 0); [reflexivity | lia].
Qed.

Lemma row_read_before_span_witness :
  exists r,
    head (draw_row_indices 20 fixture_rows fixture_region fixture_layout) = Some r /\
    req_row r < 0 /\ req_index r = None.
Proof.
  apply (row_read_before_span 20 fixture_rows fixture_region fixture_layout).
  - vm_compute. split; [reflexivity | discriminate].
  - vm_compute. discriminate.
  - discriminate.
Defined.


(** X3.  Not scrolled above the first row, with rows of positive height no
    higher than the title row and with enough rows of data, the row-index
    loop runs its full count, and its rectangles tile the cell area from top
    to bottom: the first one reaches the underside of the title row, each
    next one starts where the one before ends, and the last one ends below
    the bottom of the region. *)
Theorem row_requests_tile_cell_area scroll_offset_y row_indices region spreadsheet_layout :
  scroll_offset_y <= 0 ->
  0 < row_height spreadsheet_layout <= title_row_height spreadsheet_layout ->
  0 <= winy region ->
  fst (get_visible_rows spreadsheet_layout region scroll_offset_y)
  + snd (get_visible_rows spreadsheet_layout region scroll_offset_y)
    <= Z.of_nat (length row_indices) ->
  let reqs := draw_row_indices scroll_offset_y row_indices region spreadsheet_layout in
  Z.of_nat (length reqs) = snd (get_visible_rows spreadsheet_layout region scroll_offset_y) /\
  (forall r, head reqs = Some r ->
     winy region - title_row_height spreadsheet_layout <= ymax (req_rect r)) /\
  (forall k r r', reqs !! k = Some r -> reqs !! S k = Some r' ->
     ymax (req_rect r') = ymin (req_rect r)) /\
  (forall r, last reqs = Some r -> ymin (req_rect r) < 0).
Proof.
  intros Hs Hrh Hw. unfold draw_row_indices, get_visible_rows. cbn [fst snd].
  set (rh := row_height spreadsheet_layout) in *.
  set (trh := title_row_height spreadsheet_layout) in *.
  set (first := Z.quot (- scroll_offset_y) rh).
  set (n := Z.quot (winy region) rh + 1).
  intros Hsize.
  assert (Hn : 0 <= Z.quot (winy region) rh) by (apply Z.quot_pos; lia).
  assert (Hq := Z.quot_rem' (- scroll_offset_y) rh).
  assert (Hr := Z.rem_bound_pos (- scroll_offset_y) rh ltac:(lia) ltac:(lia)).
  assert (Hq' := Z.quot_rem' (winy region) rh).
  assert (Hr' := Z.rem_bound_pos (winy region) rh ltac:(lia) ltac:(lia)).
  fold first in Hq. fold n in Hsize.
  rewrite visible_row_loop_full by lia.
  rewrite Z2Nat.id by lia.
  cbv zeta. rewrite length_fmap, length_seqZ, Z2Nat.id by lia.
  split; [reflexivity|]. split; [|split].
  - intros r Hhead. rewrite head_lookup, list_lookup_fmap in Hhead.
    destruct (seqZ first n !! 0%nat) as [j|] eqn:Ej; [|discriminate].
    apply lookup_seqZ in Ej as [-> _]. injection Hhead as <-. cbn. nia.
  - intros k r r' Hk Hk'. rewrite list_lookup_fmap in Hk, Hk'.
    destruct (seqZ first n !! k) as [j|] eqn:Ej; [|discriminate].
    destruct (seqZ first n !! S k) as [j'|] eqn:Ej'; [|discriminate].
    apply lookup_seqZ in Ej as [-> _]. apply lookup_seqZ in Ej' as [-> _].
    injection Hk as <-. injection Hk' as <-. cbn. nia.
  - intros r Hlast. rewrite last_lookup, list_lookup_fmap in Hlast.
    rewrite length_fmap, length_seqZ in Hlast.
    destruct (seqZ first n !! Nat.pred (Z.to_nat n)) as [j|] eqn:Ej; [|discriminate].
    apply lookup_seqZ in Ej as [-> _]. injection Hlast as <-. cbn.
    replace (Z.of_nat (Nat.pred (Z.to_nat n))) with (n - 1) by lia.
    unfold n. nia.
Qed.

Lemma row_requests_tile_cell_area_witness :
  let reqs := draw_row_indices (-10) fixture_rows fixture_region fixture_layout in
  Z.of_nat (length reqs) = snd (get_visible_rows fixture_layout fixture_region (-10)) /\
  (forall r, head reqs = Some r ->
     winy fixture_region - title_row_height fixture_layout <= ymax (req_rect r)) /\
  (forall k r r', reqs !! k = Some r -> reqs !! S k = Some r' ->
     ymax (req_rect r') = ymin (req_rect r)) /\
  (forall r, last reqs = Some r -> ymin (req_rect r) < 0).
Proof.
  apply (row_requests_tile_cell_area (-10) fixture_rows fixture_region fixture_layout).
  - vm_compute. discriminate.
  - vm_compute. split; [reflexivity | discriminate].
  - vm_compute. discriminate.
  - vm_compute. discriminate.
Defined.

(** X4.  With rows of positive height, every stripe of the alternating row
    overlay spans the whole width of the region and stays under the title
    row, bottom at or under top; and stripe number [k] lies exactly on the
    row of even position [2 * (k - scroll_offset_y / (2 * row_height))]: its
    top and bottom are the top and bottom of that row's index rectangle, cut
    off at the underside of the title row. *)
Theorem overlay_stripes_on_even_rows scroll_offset_y row_indices region spreadsheet_layout :
  0 < row_height spreadsheet_layout ->
  let cell_top := winy region - title_row_height spreadsheet_layout in
  forall (k : nat) stripe,
    draw_alternating_row_overlay scroll_offset_y region spreadsheet_layout !! k
      = Some stripe ->
    rect_x1 stripe = 0 /\ rect_x2 stripe = winx region /\
    rect_y2 stripe <= rect_y1 stripe <= cell_top /\
    forall r,
      r ∈ draw_row_indices scroll_offset_y row_indices region spreadsheet_layout ->
      req_row r
        = 2 * (Z.of_nat k - Z.quot scroll_offset_y (row_height spreadsheet_layout * 2)) ->
      rect_y1 stripe = Z.min (ymax (req_rect r)) cell_top /\
      rect_y2 stripe = Z.min (ymin (req_rect r)) cell_top.
Proof.
  intros Hrh cell_top k stripe Hk.
  unfold draw_alternating_row_overlay in Hk. rewrite list_lookup_fmap in Hk.
  destruct (seqZ 0 _ !! k) as [i|] eqn:Ei; [|discriminate].
  apply lookup_seqZ in Ei as [-> _]. injection Hk as <-. cbn.
  set (rh := row_height spreadsheet_layout) in *.
  assert (Hq := Z.quot_rem' scroll_offset_y (rh * 2)).
  split; [reflexivity|]. split; [reflexivity|]. split; [lia|].
  - intros r Hr Hrow. unfold draw_row_indices, get_visible_rows in Hr.
    apply visible_row_loop_elem in Hr as (j & -> & _).
    cbn in Hrow |- *. subst j. fold cell_top. split; f_equal; nia.
Qed.

Lemma overlay_stripes_on_even_rows_witness :
  exists stripe r,
    draw_alternating_row_overlay (-50) fixture_region fixture_layout !! 1%nat = Some stripe /\
    r ∈ draw_row_indices (-50) fixture_rows fixture_region fixture_layout /\
    req_row r = 4 /\
    rect_y1 stripe = ymax (req_rect r) /\ rect_y2 stripe = ymin (req_rect r).
Proof.
  eexists _, {| req_row := 4; req_index := Some 4;
                req_rect := {| xmin := 0; xmax := 40; ymin := 10; ymax := 30 |} |}.
  pose proof (overlay_stripes_on_even_rows (-50) fixture_rows fixture_region fixture_layout
                eq_refl 1%nat _ eq_refl) as (_ & _ & _ & H).
  split; [reflexivity|].
  assert (Hin : {| req_row := 4; req_index := Some 4;
                   req_rect := {| xmin := 0; xmax := 40; ymin := 10; ymax := 30 |} |}
                ∈ draw_row_indices (-50) fixture_rows fixture_region fixture_layout).
  { apply (list_elem_of_lookup_2 _ 2%nat). reflexivity. }
  split; [exact Hin|]. split; [reflexivity|].
  destruct (H _ Hin eq_refl) as [H1 H2].
  split; [rewrite H1 | rewrite H2]; reflexivity.
Defined.


Lemma separator_columns_spec cols region spreadsheet_layout : forall line_x,
  let verts := separator_columns cols line_x region spreadsheet_layout in
  (length verts <= 2 * length cols)%nat /\
  Nat.Even (length verts) /\
  forall v, v ∈ verts ->
    index_column_width spreadsheet_layout <= fst v /\
    exists h, h ∈ draw_header_columns cols line_x region spreadsheet_layout /\
              fst v = xmax (hdr_rect h).
Proof.
  induction cols as [|c cols IH]; intros line_x; cbn zeta.
  - cbn. split; [lia|]. split; [exists 0%nat; reflexivity|].
    intros v Hv. by apply elem_of_nil in Hv.
  - cbn [separator_columns draw_header_columns].
    destruct (IH (line_x + width c)) as (Hlen & [m Hm] & Hin).
    rewrite length_app.
    assert (Hrest : forall v,
      v ∈ separator_columns cols (line_x + width c) region spreadsheet_layout ->
      index_column_width spreadsheet_layout <= fst v /\
      exists h, h ∈ {| hdr_rect := {| xmin := line_x; xmax := line_x + width c;
                                      ymin := winy region
                                              - index_column_width spreadsheet_layout;
                                      ymax := winy region |};
                       hdr_drawn := header_drawer c |}
                    :: draw_header_columns cols (line_x + width c) region
                         spreadsheet_layout /\
                fst v = xmax (hdr_rect h)).
    { intros v Hv. destruct (Hin v Hv) as (Hge & h & Hh & Hx).
      split; [exact Hge|]. exists h. split; [by apply elem_of_cons; right | exact Hx]. }
    destruct (Z.leb_spec (index_column_width spreadsheet_layout) (line_x + width c)).
    + cbn [length]. split; [lia|]. split; [exists (S m); lia|].
      intros v Hv. apply elem_of_app in Hv as [Hv|Hv]; [|by apply Hrest].
      assert (Hfst : fst v = line_x + width c).
      { apply elem_of_cons in Hv as [->|Hv]; [reflexivity|].
        apply list_elem_of_singleton in Hv as ->. reflexivity. }
      rewrite Hfst. split; [lia|].
      eexists. split; [apply elem_of_cons; left; reflexivity | reflexivity].
    + cbn [length]. split; [lia|]. split; [exists m; lia|].
      intros v Hv. apply elem_of_app in Hv as [Hv|Hv]; [|by apply Hrest].
      by apply elem_of_nil in Hv.
Qed.

(** X5.  The separator pass never sends more vertices than the budget it
    announced to [immBeginAtMost], and always an even number (whole lines).
    Every vertex after the four of the two fixed lines is at or right of the
    index column's edge, on the right edge of one of the header rectangles
    of the header pass run with the same scroll offset. *)
Theorem separator_lines_within_budget scroll_offset_x region spreadsheet_layout :
  let budget := fst (draw_separator_lines scroll_offset_x region spreadsheet_layout) in
  let verts := snd (draw_separator_lines scroll_offset_x region spreadsheet_layout) in
  Z.of_nat (length verts) <= budget /\
  Nat.Even (length verts) /\
  forall (k : nat) v, (4 <= k)%nat -> verts !! k = Some v ->
    index_column_width spreadsheet_layout <= fst v /\
    exists h, h ∈ draw_column_headers region spreadsheet_layout scroll_offset_x /\
              fst v = xmax (hdr_rect h).
Proof.
  unfold draw_separator_lines, draw_column_headers. cbn [fst snd].
  destruct (separator_columns_spec (columns spreadsheet_layout) region spreadsheet_layout
              (index_column_width spreadsheet_layout - scroll_offset_x))
    as (Hlen & [m Hm] & Hin).
  cbn zeta. rewrite length_app. cbn [length].
  split; [lia|]. split; [exists (S (S m)); lia|].
  intros k v Hk Hv.
  rewrite lookup_app_r in Hv by (cbn [length]; lia).
  apply Hin. by eapply list_elem_of_lookup_2.
Qed.

Lemma separator_lines_within_budget_witness :
  snd (draw_separator_lines 150 fixture_region fixture_layout)
    = [(40, 90); (40, 0); (0, 60); (300, 60); (190, 90); (190, 0); (270, 90); (270, 0)] /\
  let verts := snd (draw_separator_lines 150 fixture_region fixture_layout) in
  forall (k : nat) v, (4 <= k)%nat -> verts !! k = Some v ->
    index_column_width fixture_layout <= fst v /\
    exists h, h ∈ draw_column_headers fixture_region fixture_layout 150 /\
              fst v = xmax (hdr_rect h).
Proof.
  split; [reflexivity|].
  apply (separator_lines_within_budget 150 fixture_region fixture_layout).
Defined.

Lemma draw_header_columns_last cols region spreadsheet_layout : forall left_x h,
  last (draw_header_columns cols left_x region spreadsheet_layout) = Some h ->
  xmax (hdr_rect h) = left_x + foldl (fun s c => s + width c) 0 cols.
Proof.
  assert (Hshift : forall cs a, foldl (fun s c => s + width c) a cs
                                = a + foldl (fun s c => s + width c) 0 cs).
  { induction cs as [|c cs IH]; intros a; cbn [foldl]; [lia|].
    rewrite (IH (a + width c)), (IH (0 + width c)). lia. }
  induction cols as [|c cols IH]; intros left_x h Hlast; [discriminate|].
  cbn [draw_header_columns] in Hlast. cbn [foldl]. rewrite Hshift.
  destruct cols as [|c' cols].
  - cbn in Hlast. injection Hlast as <-. cbn. lia.
  - change (last (draw_header_columns (c' :: cols) (left_x + width c) region
                    spreadsheet_layout) = Some h) in Hlast.
    rewrite (IH _ _ Hlast). lia.
Qed.

Lemma draw_cell_columns_headers cols region spreadsheet_layout rows : forall left_x,
  (forall l r q, q ∈ rows l r -> xmin (req_rect q) = l /\ xmax (req_rect q) = r) ->
  forall q, q ∈ draw_cell_columns cols left_x rows ->
  exists h, h ∈ draw_header_columns cols left_x region spreadsheet_layout /\
            xmin (req_rect q) = xmin (hdr_rect h) /\
            xmax (req_rect q) = xmax (hdr_rect h).
Proof.
  induction cols as [|c cols IH]; intros left_x Hrows q Hq; cbn in Hq.
  - by apply elem_of_nil in Hq.
  - cbn [draw_header_columns]. apply elem_of_app in Hq as [Hq|Hq].
    + destruct (Hrows _ _ _ Hq) as [Hl Hr].
      eexists. split; [apply elem_of_cons; left; reflexivity|]. cbn. by split.
    + destruct (IH _ Hrows q Hq) as (h & Hh & Hx).
      exists h. split; [by apply elem_of_cons; right | exact Hx].
Qed.

(** X6.  The passes agree on the grid.  Every cell rectangle has the left
    and right edge of one of the header rectangles drawn with the same
    horizontal scroll offset, and the bottom and top edge of every row-index
    rectangle of the same row drawn with the same vertical scroll offset. *)
Theorem cells_align_with_headers_and_indices scroll_offset_x scroll_offset_y row_indices
    region spreadsheet_layout :
  forall q,
    q ∈ draw_cell_contents region spreadsheet_layout row_indices
          scroll_offset_x scroll_offset_y ->
    (exists h, h ∈ draw_column_headers region spreadsheet_layout scroll_offset_x /\
               xmin (req_rect q) = xmin (hdr_rect h) /\
               xmax (req_rect q) = xmax (hdr_rect h)) /\
    (forall r,
       r ∈ draw_row_indices scroll_offset_y row_indices region spreadsheet_layout ->
       req_row r = req_row q ->
       ymin (req_rect q) = ymin (req_rect r) /\ ymax (req_rect q) = ymax (req_rect r) /\
       req_index q = req_index r).
Proof.
  intros q Hq. split.
  - unfold draw_cell_contents, get_visible_rows in Hq. unfold draw_column_headers.
    eapply draw_cell_columns_headers; [|exact Hq].
    intros l r q' Hq'.
    cbv beta in Hq'. apply visible_row_loop_elem in Hq' as (j & -> & _). by cbn.
  - intros r Hr Hrow.
    unfold draw_row_indices, get_visible_rows in Hr.
    apply visible_row_loop_elem in Hr as (j & -> & _).
    cbn in Hrow. subst j.
    unfold draw_cell_contents, get_visible_rows in Hq.
    revert Hq. generalize (index_column_width spreadsheet_layout - scroll_offset_x).
    induction (columns spreadsheet_layout) as [|c cols IH]; intros left_x Hq; cbn in Hq.
    + by apply elem_of_nil in Hq.
    + apply elem_of_app in Hq as [Hq|Hq]; [|by eapply IH].
      apply visible_row_loop_elem in Hq as (j & -> & _). by cbn.
Qed.

Lemma cells_align_with_headers_and_indices_witness :
  let q := {| req_row := 1; req_index := Some 1;
              req_rect := {| xmin := 140; xmax := 340; ymin := 20; ymax := 40 |} |} in
  q ∈ draw_cell_contents fixture_region fixture_layout fixture_rows 0 0 /\
  (exists h, h ∈ draw_column_headers fixture_region fixture_layout 0 /\
             xmin (req_rect q) = xmin (hdr_rect h) /\
             xmax (req_rect q) = xmax (hdr_rect h)).
Proof.
  intros q.
  assert (Hq : q ∈ draw_cell_contents fixture_region fixture_layout fixture_rows 0 0).
  { apply (list_elem_of_lookup_2 _ 6%nat). reflexivity. }
  split; [exact Hq|].
  apply (cells_align_with_headers_and_indices 0 0 fixture_rows fixture_region
           fixture_layout q Hq).
Defined.

(** X7.  The scroll extent set by [update_view2d_tot_rect] is the extent of
    what the drawing passes lay out: the right edge of the last header
    rectangle is the total width moved left by the horizontal scroll offset,
    and the bottom edge of the rectangle of row [row_amount - 1] lies the
    total height under the top of the region, moved by the vertical scroll
    offset. *)
Theorem tot_rect_is_extent_of_grid scroll_offset_x scroll_offset_y row_indices region
    spreadsheet_layout row_amount :
  let tot := update_view2d_tot_rect spreadsheet_layout row_amount in
  (forall h,
     last (draw_column_headers region spreadsheet_layout scroll_offset_x) = Some h ->
     xmax (hdr_rect h) = fst tot - scroll_offset_x) /\
  (forall r,
     r ∈ draw_row_indices scroll_offset_y row_indices region spreadsheet_layout ->
     req_row r = row_amount - 1 ->
     ymin (req_rect r) = winy region - scroll_offset_y - snd tot).
Proof.
  cbn zeta. unfold update_view2d_tot_rect. cbn [fst snd]. split.
  - intros h Hlast. unfold draw_column_headers in Hlast.
    rewrite (draw_header_columns_last _ _ _ _ _ Hlast). lia.
  - intros r Hr Hrow. unfold draw_row_indices, get_visible_rows in Hr.
    apply visible_row_loop_elem in Hr as (j & -> & _).
    cbn in Hrow |- *. subst j. lia.
Qed.

Lemma tot_rect_is_extent_of_grid_witness :
  update_view2d_tot_rect fixture_layout 7 = (420, 170) /\
  (forall h,
     last (draw_column_headers fixture_region fixture_layout 150) = Some h ->
     xmax (hdr_rect h) = 420 - 150) /\
  (forall r,
     r ∈ draw_row_indices (-100) fixture_rows fixture_region fixture_layout ->
     req_row r = 7 - 1 ->
     ymin (req_rect r) = winy fixture_region - (-100) - 170).
Proof.
  split; [reflexivity|].
  apply (tot_rect_is_extent_of_grid 150 (-100) fixture_rows fixture_region fixture_layout 7).
Defined.


End Spreadsheet.

(* ===================================================================== *)
(** * Profiler panel: vertical extents of the sample tree *)
(* ===================================================================== *)

Module Profiler.

Local Open Scope Z_scope.

(** Modelled from the spec: [ProfileNode] is declared in profiler_layout.hh,
    outside the excerpt.  A node records its [top_y] and [bottom_y] and has
    direct (sequential) children and groups of parallel children.  The
    extents are integers; the code passes them through a [float] parameter,
    which is exact below 2^24 in magnitude. *)
#[warnings="-register-all"]
Inductive ProfileNode := Build_ProfileNode {
  top_y : Z;
  bottom_y : Z;
  direct_children : list ProfileNode;
  parallel_children : list (list ProfileNode)
}.

(** A node with everything under it, and what is under it. *)
Fixpoint subtree (node : ProfileNode) : list ProfileNode :=
  match node with
  | Build_ProfileNode _ _ direct parallel =>
      node :: (flat_map subtree direct ++ flat_map (flat_map subtree) parallel)
  end.

Definition descendants (node : ProfileNode) : list ProfileNode :=
  flat_map subtree (direct_children node)
  ++ flat_map (flat_map subtree) (parallel_children node).

Section ProfileNode_induction.

Variable P : ProfileNode -> Prop.
Hypothesis step : forall t b direct parallel,
  Forall P direct -> Forall (Forall P) parallel ->
  P (Build_ProfileNode t b direct parallel).

Fixpoint ProfileNode_nested_ind (node : ProfileNode) : P node :=
  match node with
  | Build_ProfileNode t b direct parallel =>
      let nodes_ind :=
        fix nodes_ind (l : list ProfileNode) : Forall P l :=
          match l with
          | [] => @List.Forall_nil _ P
          | n :: l' => @List.Forall_cons _ P n l' (ProfileNode_nested_ind n) (nodes_ind l')
          end in
      step t b direct parallel (nodes_ind direct)
        ((fix groups_ind (g : list (list ProfileNode)) : Forall (Forall P) g :=
            match g with
            | [] => @List.Forall_nil _ (Forall P)
            | l :: g' => @List.Forall_cons _ (Forall P) l g' (nodes_ind l) (groups_ind g')
            end) parallel)
  end.

End ProfileNode_induction.

Section ProfilerDrawer.

(** The fields of the drawer the layout reads. *)
Variables row_height_ parallel_padding_ : Z.

(** The loop of [compute_vertical_extends_of_nodes], over the function that
    stores [top_y] in a node and lays it out.  The result is the nodes as the
    loop leaves them and the value returned. *)
Definition nodes_loop (of_node : Z -> ProfileNode -> ProfileNode) (top_y : Z)
    : list ProfileNode -> Z -> list ProfileNode * Z :=
  fix nodes_loop (nodes : list ProfileNode) (bottom_y0 : Z) : list ProfileNode * Z :=
    match nodes with
    | [] => ([], bottom_y0)
    | node :: rest =>
        let node := of_node top_y node in
        let bottom_y0 := Z.min bottom_y0 (bottom_y node) in
        let '(rest, bottom_y0) := nodes_loop rest bottom_y0 in
        (node :: rest, bottom_y0)
    end.

(** The loop over [node.parallel_children()]; [bottom_y0] is the node's
    [bottom_y] as the loop goes. *)
Definition groups_loop (of_node : Z -> ProfileNode -> ProfileNode)
    : list (list ProfileNode) -> Z -> list (list ProfileNode) * Z :=
  fix groups_loop (groups : list (list ProfileNode)) (bottom_y0 : Z)
      : list (list ProfileNode) * Z :=
    match groups with
    | [] => ([], bottom_y0)
    | children :: rest =>
        let bottom_y0 := bottom_y0 - parallel_padding_ in
        let '(children, bottom_y0) := nodes_loop of_node bottom_y0 children bottom_y0 in
        let '(rest, bottom_y0) := groups_loop rest bottom_y0 in
        (children :: rest, bottom_y0)
    end.

(** The caller stores [top_y] in the node and then calls the function on
    it; the store is part of the function here, so that the recursion is on
    the node. *)
Fixpoint compute_vertical_extends_of_node (top_y0 : Z) (node : ProfileNode) : ProfileNode :=
  match node with
  | Build_ProfileNode _ _ direct parallel =>
      let bottom_y0 := top_y0 - row_height_ in
      let '(direct, bottom_y0) :=
        nodes_loop compute_vertical_extends_of_node bottom_y0 direct bottom_y0 in
      let '(parallel, bottom_y0) :=
        groups_loop compute_vertical_extends_of_node parallel bottom_y0 in
      Build_ProfileNode top_y0 bottom_y0 direct parallel
  end.

Definition compute_vertical_extends_of_nodes (nodes : list ProfileNode) (top_y0 : Z)
    : list ProfileNode * Z :=
  nodes_loop compute_vertical_extends_of_node top_y0 nodes top_y0.

(** [root_nodes] is the layout's list of groups of root nodes, [winy] the
    height of the region. *)
Fixpoint all_nodes_loop (root_nodes : list (list ProfileNode)) (top_y0 : Z)
    : list (list ProfileNode) :=
  match root_nodes with
  | [] => []
  | nodes :: rest =>
      let '(nodes, top_y0) := compute_vertical_extends_of_nodes nodes top_y0 in
      let top_y0 := top_y0 - parallel_padding_ in
      nodes :: all_nodes_loop rest top_y0
  end.

Definition compute_vertical_extends_of_all_nodes (root_nodes : list (list ProfileNode))
    (winy : Z) : list (list ProfileNode) :=
  let top_y0 := winy in
  all_nodes_loop root_nodes top_y0.

(** What the layout of one node at [top] guarantees. *)
Definition laid_out (top : Z) (node : ProfileNode) : Prop :=
  top_y node = top /\
  bottom_y node <= top - row_height_ /\
  (forall d, In d (subtree node) ->
     bottom_y node <= bottom_y d /\ bottom_y d <= top_y d - row_height_ /\ top_y d <= top) /\
  (forall d, In d (descendants node) -> top_y d <= top - row_height_).

Lemma subtree_descendants node : subtree node = node :: descendants node.
Proof. by destruct node. Qed.

Lemma nodes_loop_spec of_node top nodes : forall bottom_y0,
  0 <= row_height_ ->
  Forall (fun n => forall t, laid_out t (of_node t n)) nodes ->
  let '(nodes', b) := nodes_loop of_node top nodes bottom_y0 in
  b <= bottom_y0 /\
  (forall n, In n nodes' -> top_y n = top) /\
  (forall d, In d (flat_map subtree nodes') ->
     b <= bottom_y d /\ bottom_y d <= top_y d - row_height_ /\ top_y d <= top).
Proof.
  intros bottom_y0 Hrh Hall. revert bottom_y0.
  induction Hall as [|n nodes Hn _ IH]; intros bottom_y0; cbn [nodes_loop].
  - split; [lia|]. split; intros ? [].
  - specialize (IH (Z.min bottom_y0 (bottom_y (of_node top n)))).
    destruct (nodes_loop of_node top nodes _) as [rest b].
    destruct IH as (Hb & Htop & Hsub).
    destruct (Hn top) as (Ht & _ & Hd & _).
    split; [lia|]. split.
    + intros m [<-|Hm]; [exact Ht | by apply Htop].
    + intros d Hd'. cbn [flat_map] in Hd'. apply in_app_iff in Hd' as [Hd'|Hd'].
      * destruct (Hd d Hd') as (H1 & H2 & H3). lia.
      * by apply Hsub.
Qed.

Lemma groups_loop_spec of_node groups : forall bottom_y0,
  0 <= row_height_ -> 0 <= parallel_padding_ ->
  Forall (Forall (fun n => forall t, laid_out t (of_node t n))) groups ->
  let '(groups', b) := groups_loop of_node groups bottom_y0 in
  b <= bottom_y0 /\
  (forall d, In d (flat_map (flat_map subtree) groups') ->
     b <= bottom_y d /\ bottom_y d <= top_y d - row_height_ /\
     top_y d <= bottom_y0 - parallel_padding_) /\
  (forall (j : nat) group g, groups' !! j = Some group -> In g group ->
     top_y g + parallel_padding_ <= bottom_y0 /\
     forall d, In d (flat_map (flat_map subtree) (take j groups')) ->
       top_y g + parallel_padding_ <= bottom_y d).
Proof.
  intros bottom_y0 Hrh Hpad Hall. revert bottom_y0.
  induction Hall as [|children groups Hc _ IH]; intros bottom_y0; cbn [groups_loop].
  - split; [lia|]. split; [intros ? []|]. intros j group g Hj. by destruct j.
  - pose proof (nodes_loop_spec of_node (bottom_y0 - parallel_padding_) children
                  (bottom_y0 - parallel_padding_) Hrh Hc) as Hnodes.
    destruct (nodes_loop of_node _ children _) as [children' b1].
    destruct Hnodes as (Hb1 & Htop1 & Hsub1).
    specialize (IH b1). destruct (groups_loop of_node groups b1) as [rest b].
    destruct IH as (Hb & Hsub & Hstack).
    split; [lia|]. split.
    + intros d Hd. cbn [flat_map] in Hd. apply in_app_iff in Hd as [Hd|Hd].
      * destruct (Hsub1 d Hd) as (H1 & H2 & H3). lia.
      * destruct (Hsub d Hd) as (H1 & H2 & H3). lia.
    + intros [|j] group g Hj Hg.
      * injection Hj as <-. rewrite (Htop1 g Hg). split; [lia|]. intros d [].
      * destruct (Hstack j group g Hj Hg) as [H1 H2]. split; [lia|].
        intros d Hd. cbn [take flat_map] in Hd. apply in_app_iff in Hd as [Hd|Hd].
        -- destruct (Hsub1 d Hd) as (H3 & _). lia.
        -- by apply H2.
Qed.

Lemma compute_vertical_extends_of_node_unfold top node :
  compute_vertical_extends_of_node top node =
  let bottom_y0 := top - row_height_ in
  let '(direct, bottom_y0) :=
    nodes_loop compute_vertical_extends_of_node bottom_y0 (direct_children node)
               bottom_y0 in
  let '(parallel, bottom_y0) :=
    groups_loop compute_vertical_extends_of_node (parallel_children node) bottom_y0 in
  Build_ProfileNode top bottom_y0 direct parallel.
Proof. by destruct node. Qed.

Lemma compute_vertical_extends_of_node_laid_out node :
  0 <= row_height_ -> 0 <= parallel_padding_ ->
  forall top, laid_out top (compute_vertical_extends_of_node top node).
Proof.
  intros Hrh Hpad.
  induction node as [t0 b0 direct parallel IHd IHp] using ProfileNode_nested_ind.
  intros top. rewrite compute_vertical_extends_of_node_unfold. cbn zeta.
  cbn [direct_children parallel_children].
  pose proof (nodes_loop_spec compute_vertical_extends_of_node (top - row_height_) direct
                (top - row_height_) Hrh IHd) as Hnodes.
  destruct (nodes_loop _ _ direct _) as [direct' b1].
  destruct Hnodes as (Hb1 & Htop1 & Hsub1).
  pose proof (groups_loop_spec compute_vertical_extends_of_node parallel b1 Hrh Hpad IHp)
    as Hgroups.
  destruct (groups_loop _ parallel b1) as [parallel' b].
  destruct Hgroups as (Hb & Hsub & _).
  assert (Hdesc : forall d,
    In d (descendants (Build_ProfileNode top b direct' parallel')) ->
    b <= bottom_y d /\ bottom_y d <= top_y d - row_height_ /\ top_y d <= top - row_height_).
  { intros d Hd. unfold descendants in Hd. cbn [direct_children parallel_children] in Hd.
    apply in_app_iff in Hd as [Hd|Hd].
    - destruct (Hsub1 d Hd) as (H1 & H2 & H3). lia.
    - destruct (Hsub d Hd) as (H1 & H2 & H3). lia. }
  unfold laid_out. cbn [top_y bottom_y]. split; [reflexivity|]. split; [lia|]. split.
  - intros d Hd. rewrite subtree_descendants in Hd. destruct Hd as [<-|Hd].
    + cbn [top_y bottom_y]. lia.
    + destruct (Hdesc d Hd) as (H1 & H2 & H3). lia.
  - intros d Hd. by apply Hdesc.
Qed.

(** X8.  With a non-negative row height and padding, the layout of a node
    gives it the top it is laid out at and a bottom at least one row height
    under it, and the node's extent contains everything under it: every node
    of its subtree is at least one row high, ends at or above the node's
    bottom, and, if it is not the node itself, starts at least one row
    height under the node's top. *)
Theorem node_extent_contains_subtree top node :
  0 <= row_height_ -> 0 <= parallel_padding_ ->
  let node' := compute_vertical_extends_of_node top node in
  top_y node' = top /\
  bottom_y node' <= top - row_height_ /\
  (forall d, In d (subtree node') ->
     bottom_y node' <= bottom_y d /\ bottom_y d <= top_y d - row_height_) /\
  (forall d, In d (descendants node') -> top_y d <= top - row_height_).
Proof.
  intros Hrh Hpad node'.
  destruct (compute_vertical_extends_of_node_laid_out node Hrh Hpad top)
    as (H1 & H2 & H3 & H4).
  split; [exact H1|]. split; [exact H2|]. split; [|exact H4].
  intros d Hd. destruct (H3 d Hd) as (? & ? & ?). by split.
Qed.

(** X9.  The groups of parallel children of a node are stacked downwards:
    every node of a group starts at least the padding under the bottom of
    every node laid out before the group under the same parent, that is the
    subtrees of the direct children and of the groups before it; and at least
    the padding under the row of the parent. *)
Theorem parallel_groups_stack_downwards top node (j : nat) group g :
  0 <= row_height_ -> 0 <= parallel_padding_ ->
  let node' := compute_vertical_extends_of_node top node in
  parallel_children node' !! j = Some group ->
  In g group ->
  top_y g + parallel_padding_ <= top - row_height_ /\
  forall d,
    In d (flat_map subtree (direct_children node')
          ++ flat_map (flat_map subtree) (take j (parallel_children node'))) ->
    top_y g + parallel_padding_ <= bottom_y d.
Proof.
  intros Hrh Hpad. cbn zeta. rewrite compute_vertical_extends_of_node_unfold. cbn zeta.
  assert (IH : forall n t, laid_out t (compute_vertical_extends_of_node t n))
    by (intros n t; by apply compute_vertical_extends_of_node_laid_out).
  pose proof (nodes_loop_spec compute_vertical_extends_of_node (top - row_height_)
                (direct_children node) (top - row_height_) Hrh
                (proj2 (Forall_forall _ _) (fun n _ => IH n))) as Hnodes.
  destruct (nodes_loop _ _ (direct_children node) _) as [direct' b1].
  destruct Hnodes as (Hb1 & _ & Hsub1).
  pose proof (groups_loop_spec compute_vertical_extends_of_node (parallel_children node) b1
                Hrh Hpad
                (proj2 (Forall_forall _ _)
                   (fun l _ => proj2 (Forall_forall _ _) (fun n _ => IH n)))) as Hgroups.
  destruct (groups_loop _ (parallel_children node) b1) as [parallel' b].
  destruct Hgroups as (_ & _ & Hstack).
  cbn [direct_children parallel_children]. intros Hj Hg.
  destruct (Hstack j group g Hj Hg) as [H1 H2]. split; [lia|].
  intros d Hd. apply in_app_iff in Hd as [Hd|Hd].
  - destruct (Hsub1 d Hd) as (H3 & _). lia.
  - by apply H2.
Qed.


End ProfilerDrawer.

Lemma nodes_loop_relayout (f g : Z -> ProfileNode -> ProfileNode) top top' nodes :
  Forall (fun n => forall t t', f t (g t' n) = f t n) nodes ->
  forall b b', nodes_loop f top (nodes_loop g top' nodes b').1 b = nodes_loop f top nodes b.
Proof.
  induction 1 as [|n nodes Hn _ IH]; intros b b'; [reflexivity|].
  cbn [nodes_loop].
  specialize (IH (Z.min b (bottom_y (f top n))) (Z.min b' (bottom_y (g top' n)))).
  destruct (nodes_loop g top' nodes _) as [rest' c']. cbn [fst] in IH |- *.
  cbn [nodes_loop]. rewrite Hn, IH. reflexivity.
Qed.

Lemma groups_loop_relayout (f g : Z -> ProfileNode -> ProfileNode) pad pad' groups :
  Forall (Forall (fun n => forall t t', f t (g t' n) = f t n)) groups ->
  forall b b',
    groups_loop pad f (groups_loop pad' g groups b').1 b = groups_loop pad f groups b.
Proof.
  induction 1 as [|children groups Hc _ IH]; intros b b'; [reflexivity|].
  cbn [groups_loop].
  pose proof (nodes_loop_relayout f g (b - pad) (b' - pad') children Hc
                (b - pad) (b' - pad')) as Hn.
  destruct (nodes_loop g (b' - pad') children (b' - pad')) as [children' c'].
  cbn [fst] in Hn.
  specialize (IH (nodes_loop f (b - pad) children (b - pad)).2 c').
  destruct (groups_loop pad' g groups c') as [rest' d']. cbn [fst] in IH |- *.
  cbn [groups_loop]. rewrite Hn.
  destruct (nodes_loop f (b - pad) children (b - pad)) as [children1 c1].
  cbn [snd] in IH. rewrite IH. reflexivity.
Qed.

(** X10.  The layout is derived from the shape of the tree alone: laying out
    a tree that carries the extents of an earlier layout, made at any top
    with any row height and padding, gives the same result as laying out the
    tree afresh. *)
Theorem relayout_forgets_old_extents row_height_ parallel_padding_ row_height' padding'
    node :
  forall top top',
    compute_vertical_extends_of_node row_height_ parallel_padding_ top
      (compute_vertical_extends_of_node row_height' padding' top' node)
    = compute_vertical_extends_of_node row_height_ parallel_padding_ top node.
Proof.
  induction node as [t0 b0 direct parallel IHd IHp] using ProfileNode_nested_ind.
  intros top top'.
  rewrite (compute_vertical_extends_of_node_unfold row_height' padding' top').
  cbn zeta. cbn [direct_children parallel_children].
  pose proof (nodes_loop_relayout _ _ (top - row_height_) (top' - row_height') direct IHd
                (top - row_height_) (top' - row_height')) as Hn.
  destruct (nodes_loop _ (top' - row_height') direct _) as [direct' b1']. cbn [fst] in Hn.
  pose proof (fun b => groups_loop_relayout _ _ parallel_padding_ padding' parallel IHp
                         b b1') as Hg.
  destruct (groups_loop padding' _ parallel b1') as [parallel' b']. cbn [fst] in Hg.
  rewrite !(compute_vertical_extends_of_node_unfold row_height_ parallel_padding_ top).
  cbn zeta. cbn [direct_children parallel_children].
  rewrite Hn. destruct (nodes_loop _ (top - row_height_) direct _) as [direct1 b1].
  rewrite Hg. reflexivity.
Qed.

(** A tree of samples: a root with two direct children, the first with a
    child of its own, and two groups of parallel children. *)
Definition fixture_leaf : ProfileNode := Build_ProfileNode 0 0 [] [].

Definition fixture_root : ProfileNode :=
  Build_ProfileNode 7 7
    [Build_ProfileNode 0 0 [fixture_leaf] []; fixture_leaf]
    [[fixture_leaf; fixture_leaf]; [Build_ProfileNode 0 0 [] [[fixture_leaf]]]].

Example fixture_root_extents :
  let extents n := (top_y n, bottom_y n) in
  let node' := compute_vertical_extends_of_node 20 4 100 fixture_root in
  extents node' = (100, -32) /\
  map extents (direct_children node') = [(80, 40); (80, 60)] /\
  map (map extents) (parallel_children node') = [[(36, 16); (36, 16)]; [(12, -32)]].
Proof. by vm_compute. Qed.

Lemma node_extent_contains_subtree_witness :
  let node' := compute_vertical_extends_of_node 20 4 100 fixture_root in
  top_y node' = 100 /\
  bottom_y node' <= 100 - 20 /\
  (forall d, In d (subtree node') ->
     bottom_y node' <= bottom_y d /\ bottom_y d <= top_y d - 20) /\
  (forall d, In d (descendants node') -> top_y d <= 100 - 20).
Proof.
  apply (node_extent_contains_subtree 20 4 100 fixture_root).
  - vm_compute. discriminate.
  - vm_compute. discriminate.
Defined.

Lemma parallel_groups_stack_downwards_witness :
  let node' := compute_vertical_extends_of_node 20 4 100 fixture_root in
  let g := Build_ProfileNode 12 (-32) [] [[Build_ProfileNode (-12) (-32) [] []]] in
  top_y g + 4 <= 100 - 20 /\
  forall d,
    In d (flat_map subtree (direct_children node')
          ++ flat_map (flat_map subtree) (take 1 (parallel_children node'))) ->
    top_y g + 4 <= bottom_y d.
Proof.
  apply (parallel_groups_stack_downwards 20 4 100 fixture_root 1
           [Build_ProfileNode 12 (-32) [] [[Build_ProfileNode (-12) (-32) [] []]]]).
  - vm_compute. discriminate.
  - vm_compute. discriminate.
  - reflexivity.
  - left. reflexivity.
Defined.


End Profiler.

(* ===================================================================== *)
(** * Grease pencil offset modifier *)
(* ===================================================================== *)

Module Offset.

Local Open Scope Q_scope.

Definition V3 : Type := Q * Q * Q.

Definition v3_eq (a b : V3) : Prop :=
  let '(a0, a1, a2) := a in
  let '(b0, b1, b2) := b in
  a0 == b0 /\ a1 == b1 /\ a2 == b2.

(** [mul_v3_v3fl(r, a, f)]: [r = a * f]; [add_v3_fl(r, f)]: [r += f]. *)
Definition mul_v3_v3fl (a : V3) (f : Q) : V3 :=
  let '(a0, a1, a2) := a in (a0 * f, a1 * f, a2 * f).

Definition add_v3_fl (r : V3) (f : Q) : V3 :=
  let '(r0, r1, r2) := r in (r0 + f, r1 + f, r2 + f).

Record bGPDspoint := {
  x : Q; y : Q; z : Q;
  pressure : Q;
  strength : Q
}.

Definition pt_co (pt : bGPDspoint) : V3 := (x pt, y pt, z pt).

Record OffsetGpencilModifierData := {
  loc : V3;
  rot : V3;
  scale : V3;
  flag : Z;
  vgname : string
}.

Section deform.

(** Library code outside the excerpt: the 4x4 matrix helpers of BLI_math,
    the vertex-group weight lookup and stroke filter shared by all grease
    pencil modifiers, and the derived stroke data (bounding box, fill
    triangles) refreshed by [BKE_gpencil_stroke_geometry_update]. *)
Variable M4 : Type.
Variable loc_eul_size_to_mat4 : V3 -> V3 -> V3 -> M4.
Variable mul_m4_v3 : M4 -> V3 -> V3.

Variable MDeformVert : Type.
Variable get_modifier_point_weight : option MDeformVert -> bool -> Z -> Q.

Variable Object : Type.
Variable bGPDlayer : Type.
Variable BKE_object_defgroup_name_index : Object -> string -> Z.

Variable Geometry : Type.
Variable stroke_geometry : list bGPDspoint -> Geometry.

Variable GP_OFFSET_INVERT_VGROUP : Z.

Record bGPDstroke := {
  points : list bGPDspoint;   (* totpoints is the length *)
  dvert : option (list MDeformVert);
  geometry : Geometry
}.

Variable is_stroke_affected_by_modifier :
  Object -> OffsetGpencilModifierData -> bGPDlayer -> bGPDstroke -> bool.

Definition BKE_gpencil_stroke_geometry_update (gps : bGPDstroke) : bGPDstroke :=
  {| points := points gps; dvert := dvert gps;
     geometry := stroke_geometry (points gps) |}.

(** The weight the loop reads for point [i]. *)
Definition point_weight (mmd : OffsetGpencilModifierData) (def_nr : Z)
    (gps : bGPDstroke) (i : nat) : Q :=
  let dv := match dvert gps with
            | Some dverts => dverts !! i
            | None => None
            end in
  get_modifier_point_weight dv
    (negb (Z.land (flag mmd) GP_OFFSET_INVERT_VGROUP =? 0)%Z) def_nr.

(** The [scale] vector handed to [loc_eul_size_to_mat4]. *)
Definition point_scale (mmd : OffsetGpencilModifierData) (weight : Q) : V3 :=
  add_v3_fl (mul_v3_v3fl (scale mmd) weight) 1.

(** Body of the loop over the stroke points. *)
Definition deform_point (mmd : OffsetGpencilModifierData) (weight : Q)
    (pt : bGPDspoint) : bGPDspoint :=
  if Qlt_le_dec weight 0 then pt   (* continue *)
  else
    (* Calculate matrix. *)
    let loc := mul_v3_v3fl (loc mmd) weight in
    let rot := mul_v3_v3fl (rot mmd) weight in
    let scale := point_scale mmd weight in
    let mat := loc_eul_size_to_mat4 loc rot scale in
    (* Apply scale to thickness. *)
    let '(s0, s1, s2) := scale in
    let unit_scale := (s0 + s1 + s2) / 3 in
    let pressure' := pressure pt * unit_scale in
    let '(x', y', z') := mul_m4_v3 mat (pt_co pt) in
    {| x := x'; y := y'; z := z'; pressure := pressure'; strength := strength pt |}.

(** change stroke offsetness *)
Definition deformPolyline (mmd : OffsetGpencilModifierData) (ob : Object)
    (gpl : bGPDlayer) (gps : bGPDstroke) : bGPDstroke :=
  let def_nr := BKE_object_defgroup_name_index ob (vgname mmd) in
  if negb (is_stroke_affected_by_modifier ob mmd gpl gps) then gps
  else
    let pts := imap (fun i pt => deform_point mmd (point_weight mmd def_nr gps i) pt)
                    (points gps) in
    (* Calc geometry data. *)
    BKE_gpencil_stroke_geometry_update
      {| points := pts; dvert := dvert gps; geometry := geometry gps |}.

Lemma deformPolyline_lookup mmd ob gpl gps i :
  is_stroke_affected_by_modifier ob mmd gpl gps = true ->
  points (deformPolyline mmd ob gpl gps) !! i =
  deform_point mmd
    (point_weight mmd (BKE_object_defgroup_name_index ob (vgname mmd)) gps i)
    <$> points gps !! i.
Proof.
  intros Ha. unfold deformPolyline. rewrite Ha. simpl.
  by rewrite list_lookup_imap.
Qed.

Lemma point_scale_axes mmd w :
  let '(c0, c1, c2) := scale mmd in
  let '(s0, s1, s2) := point_scale mmd w in
  s0 == 1 + w * c0 /\ s1 == 1 + w * c1 /\ s2 == 1 + w * c2.
Proof.
  unfold point_scale. destruct (scale mmd) as [[c0 c1] c2]. simpl.
  repeat split; ring.
Qed.

(** C6.  On a stroke the modifier applies to, every point whose group weight
    [w] is not negative is moved by the matrix built from [w * loc],
    [w * rot] and the per-axis scale [1 + w * scale]; its pressure is
    multiplied by the mean of the three scale factors.  With [w = 1] the
    factors are [1 + scale]; with [w = 0] they are 1 and, the matrix of a
    zero offset, zero rotation and unit scale being the identity, position
    and pressure are unchanged. *)
Theorem deformPolyline_weight_scale
    (unit_mat4 : forall l r s p,
        v3_eq l (0, 0, 0) -> v3_eq r (0, 0, 0) -> v3_eq s (1, 1, 1) ->
        v3_eq (mul_m4_v3 (loc_eul_size_to_mat4 l r s) p) p)
    mmd ob gpl gps i pt
    (Haffected : is_stroke_affected_by_modifier ob mmd gpl gps = true)
    (Hpt : points gps !! i = Some pt)
    (Hweight : 0 <= point_weight mmd (BKE_object_defgroup_name_index ob (vgname mmd)) gps i) :
  let w := point_weight mmd (BKE_object_defgroup_name_index ob (vgname mmd)) gps i in
  let '(c0, c1, c2) := scale mmd in
  exists pt' s0 s1 s2,
    points (deformPolyline mmd ob gpl gps) !! i = Some pt' /\
    s0 == 1 + w * c0 /\ s1 == 1 + w * c1 /\ s2 == 1 + w * c2 /\
    pt_co pt' =
      mul_m4_v3 (loc_eul_size_to_mat4 (mul_v3_v3fl (loc mmd) w)
                                      (mul_v3_v3fl (rot mmd) w) (s0, s1, s2))
                (pt_co pt) /\
    pressure pt' == pressure pt * ((s0 + s1 + s2) / 3) /\
    (w == 1 -> s0 == 1 + c0 /\ s1 == 1 + c1 /\ s2 == 1 + c2) /\
    (w == 0 -> v3_eq (pt_co pt') (pt_co pt) /\ pressure pt' == pressure pt).
Proof.
  intros w. subst w.
  set (w := point_weight mmd _ gps i) in *.
  pose proof (point_scale_axes mmd w) as Hax.
  pose proof (deformPolyline_lookup mmd ob gpl gps i Haffected) as Hl.
  fold w in Hl. rewrite Hpt in Hl. simpl in Hl.
  unfold deform_point in Hl.
  destruct (Qlt_le_dec w 0) as [Hneg|_]; [exfalso; lra|].
  destruct (scale mmd) as [[c0 c1] c2] eqn:Hsc.
  destruct (point_scale mmd w) as [[s0 s1] s2] eqn:Hps.
  destruct Hax as (H0 & H1 & H2).
  destruct (mul_m4_v3 _ (pt_co pt)) as [[x' y'] z'] eqn:Hmul.
  eexists _, s0, s1, s2. split; [exact Hl|].
  split; [exact H0|]. split; [exact H1|]. split; [exact H2|].
  split; [unfold pt_co at 1; simpl; symmetry; exact Hmul|].
  split; [simpl; reflexivity|].
  split.
  - intros Hw. rewrite H0, H1, H2, Hw. repeat split; ring.
  - intros Hw. split.
    + assert (Hid : v3_eq (x', y', z') (pt_co pt)).
      { rewrite <- Hmul. apply unit_mat4.
        * destruct (loc mmd) as [[l0 l1] l2]. simpl. rewrite Hw. repeat split; ring.
        * destruct (rot mmd) as [[r0 r1] r2]. simpl. rewrite Hw. repeat split; ring.
        * simpl. rewrite H0, H1, H2, Hw. repeat split; ring. }
      exact Hid.
    + simpl. rewrite H0, H1, H2, Hw. field.
Qed.

(** ** The frame of [deformPolyline], baking, and the edit-curve variant *)

(** The points of [gps'] are those of [gps] up to equality of rationals. *)
Definition same_points (gps gps' : bGPDstroke) : Prop :=
  Forall2 (fun pt pt' =>
             v3_eq (pt_co pt') (pt_co pt) /\ pressure pt' == pressure pt /\
             strength pt' = strength pt)
          (points gps) (points gps').

(** [gpd->layers], each layer with its frames, each frame with its strokes.
    The stroke filter reads the layer, not its frames. *)
Definition bGPDframe : Type := list bGPDstroke.
Definition bGPdata : Type := list (bGPDlayer * list bGPDframe).

Definition bakeModifier (mmd : OffsetGpencilModifierData) (ob : Object) (gpd : bGPdata)
    : bGPdata :=
  (fun layer : bGPDlayer * list (list bGPDstroke) =>
     let '(gpl, frames) := layer in
     (gpl, (fun gpf : list bGPDstroke =>
              (fun gps => deformPolyline mmd ob gpl gps) <$> gpf) <$> frames))
  <$> (gpd : list (bGPDlayer * list (list bGPDstroke))).

(** The edit curve of a stroke: per control point the three vectors
    [bezt.vec[0..2]] and the pressure; the curve has deform vertices of its
    own. *)
Record BezTriple := { vec : V3 * V3 * V3 }.

Record bGPDcurve_point := {
  bezt : BezTriple;
  curve_pressure : Q   (* the field [pressure] of the curve point *)
}.

Record bGPDcurve := {
  curve_points : list bGPDcurve_point;   (* tot_curve_points is the length *)
  curve_dvert : option (list MDeformVert)
}.

(** A stroke in curve editing: the stroke, its [editcurve] and its [flag]. *)
Record bGPDstroke_curve := {
  stroke : bGPDstroke;
  editcurve : bGPDcurve;
  stroke_flag : Z
}.

Variable GP_STROKE_NEEDS_CURVE_UPDATE : Z.

(** [BKE_gpencil_stroke_geometry_update] on a stroke with an edit curve is
    outside the excerpt. *)
Variable BKE_gpencil_stroke_geometry_update_curve : bGPDstroke_curve -> bGPDstroke_curve.

Definition curve_point_weight (mmd : OffsetGpencilModifierData) (def_nr : Z)
    (gpc : bGPDcurve) (i : nat) : Q :=
  let dv := match curve_dvert gpc with
            | Some dverts => dverts !! i
            | None => None
            end in
  get_modifier_point_weight dv
    (negb (Z.land (flag mmd) GP_OFFSET_INVERT_VGROUP =? 0)%Z) def_nr.

(** Body of the loop over the curve points. *)
Definition deform_curve_point (mmd : OffsetGpencilModifierData) (weight : Q)
    (pt : bGPDcurve_point) : bGPDcurve_point :=
  if Qlt_le_dec weight 0 then pt   (* continue *)
  else
    (* Calculate matrix. *)
    let loc := mul_v3_v3fl (loc mmd) weight in
    let rot := mul_v3_v3fl (rot mmd) weight in
    let scale := add_v3_fl (mul_v3_v3fl (scale mmd) weight) 1 in
    let mat := loc_eul_size_to_mat4 loc rot scale in
    (* Apply scale to thickness. *)
    let '(s0, s1, s2) := scale in
    let unit_scale := (s0 + s1 + s2) / 3 in
    let pressure' := curve_pressure pt * unit_scale in
    let '(vec0, vec1, vec2) := vec (bezt pt) in
    {| bezt := {| vec := (mul_m4_v3 mat vec0, mul_m4_v3 mat vec1, mul_m4_v3 mat vec2) |};
       curve_pressure := pressure' |}.

(** The function up to its last call, and the whole of it. *)
Definition deformBezier_curve (mmd : OffsetGpencilModifierData) (ob : Object)
    (gps : bGPDstroke_curve) : bGPDstroke_curve :=
  let def_nr := BKE_object_defgroup_name_index ob (vgname mmd) in
  let gpc := editcurve gps in
  let pts := imap (fun i pt => deform_curve_point mmd (curve_point_weight mmd def_nr gpc i) pt)
                  (curve_points gpc) in
  {| stroke := stroke gps;
     editcurve := {| curve_points := pts; curve_dvert := curve_dvert gpc |};
     stroke_flag := Z.lor (stroke_flag gps) GP_STROKE_NEEDS_CURVE_UPDATE |}.

Definition deformBezier (mmd : OffsetGpencilModifierData) (ob : Object)
    (gpl : bGPDlayer) (gps : bGPDstroke_curve) : bGPDstroke_curve :=
  if negb (is_stroke_affected_by_modifier ob mmd gpl (stroke gps)) then gps
  else BKE_gpencil_stroke_geometry_update_curve (deformBezier_curve mmd ob gps).

(** X11.  [deformPolyline] never adds or removes a point and never touches
    the deform vertices or the strength of a point; a point whose weight is
    negative, and every point of a stroke the modifier does not apply to, is
    left exactly as it was. *)
Theorem deformPolyline_frame mmd ob gpl gps :
  let gps' := deformPolyline mmd ob gpl gps in
  let w := point_weight mmd (BKE_object_defgroup_name_index ob (vgname mmd)) gps in
  length (points gps') = length (points gps) /\
  dvert gps' = dvert gps /\
  forall (i : nat) pt, points gps !! i = Some pt ->
    exists pt', points gps' !! i = Some pt' /\
      strength pt' = strength pt /\
      (is_stroke_affected_by_modifier ob mmd gpl gps = false \/ w i < 0 -> pt' = pt).
Proof.
  cbn zeta.
  destruct (is_stroke_affected_by_modifier ob mmd gpl gps) eqn:Ha.
  - split; [|split].
    + unfold deformPolyline. rewrite Ha. cbn. apply length_imap.
    + unfold deformPolyline. rewrite Ha. reflexivity.
    + intros i pt Hpt. rewrite (deformPolyline_lookup _ _ _ _ _ Ha), Hpt.
      eexists. split; [reflexivity|]. unfold deform_point.
      destruct (Qlt_le_dec _ 0) as [Hneg|Hpos].
      * split; reflexivity.
      * destruct (point_scale mmd _) as [[s0 s1] s2].
        destruct (mul_m4_v3 _ _) as [[x' y'] z']. split; [reflexivity|].
        intros [Hf|Hw]; [discriminate | exfalso; lra].
  - unfold deformPolyline. rewrite Ha. cbn. split; [reflexivity|]. split; [reflexivity|].
    intros i pt Hpt. exists pt. by repeat split.
Qed.

Lemma neutral_scale mmd w :
  v3_eq (scale mmd) (0, 0, 0) -> v3_eq (point_scale mmd w) (1, 1, 1).
Proof.
  unfold point_scale. destruct (scale mmd) as [[c0 c1] c2]. cbn.
  intros (H0 & H1 & H2). rewrite H0, H1, H2. repeat split; ring.
Qed.

Lemma neutral_mul v w : v3_eq v (0, 0, 0) -> v3_eq (mul_v3_v3fl v w) (0, 0, 0).
Proof.
  destruct v as [[c0 c1] c2]. cbn.
  intros (H0 & H1 & H2). rewrite H0, H1, H2. repeat split; ring.
Qed.

Section neutral.

Hypothesis unit_mat4 : forall l r s p,
  v3_eq l (0, 0, 0) -> v3_eq r (0, 0, 0) -> v3_eq s (1, 1, 1) ->
  v3_eq (mul_m4_v3 (loc_eul_size_to_mat4 l r s) p) p.

Lemma neutral_deform_point mmd w pt :
  v3_eq (loc mmd) (0, 0, 0) -> v3_eq (rot mmd) (0, 0, 0) -> v3_eq (scale mmd) (0, 0, 0) ->
  let pt' := deform_point mmd w pt in
  v3_eq (pt_co pt') (pt_co pt) /\ pressure pt' == pressure pt /\ strength pt' = strength pt.
Proof using unit_mat4.
  intros Hl Hr Hs. cbn zeta. unfold deform_point.
  destruct (Qlt_le_dec w 0) as [_|_].
  - split; [|split]; try reflexivity.
    unfold pt_co, v3_eq. repeat split; reflexivity.
  - pose proof (neutral_scale mmd w Hs) as Hsc.
    pose proof (unit_mat4 _ _ _ (pt_co pt) (neutral_mul _ w Hl) (neutral_mul _ w Hr) Hsc)
      as Hid.
    destruct (point_scale mmd w) as [[s0 s1] s2].
    destruct (mul_m4_v3 _ _) as [[x' y'] z']. cbn.
    split; [exact Hid|]. split; [|reflexivity].
    cbn in Hsc. destruct Hsc as (H0 & H1 & H2). rewrite H0, H1, H2. field.
Qed.

Lemma neutral_deformPolyline mmd ob gpl gps :
  v3_eq (loc mmd) (0, 0, 0) -> v3_eq (rot mmd) (0, 0, 0) -> v3_eq (scale mmd) (0, 0, 0) ->
  same_points gps (deformPolyline mmd ob gpl gps).
Proof using unit_mat4.
  intros Hl Hr Hs. unfold same_points, deformPolyline.
  destruct (is_stroke_affected_by_modifier ob mmd gpl gps); cbn.
  - apply Forall2_same_length_lookup_2; [by rewrite length_imap|].
    intros i pt pt' Hpt Hpt'. rewrite list_lookup_imap, Hpt in Hpt'.
    injection Hpt' as <-. by apply neutral_deform_point.
  - apply Forall2_same_length_lookup_2; [reflexivity|].
    intros i pt pt' Hpt Hpt'. rewrite Hpt in Hpt'. injection Hpt' as <-.
    split; [|split]; try reflexivity.
    unfold pt_co, v3_eq. repeat split; reflexivity.
Qed.

(** X12.  Baking a modifier whose offset, rotation and scale are all zero
    changes no point: layers, frames and strokes are where they were, and
    every point of every stroke keeps its position, pressure and strength
    (the matrix of a zero offset, zero rotation and unit scale being the
    identity). *)
Theorem bake_neutral_modifier mmd ob gpd :
  v3_eq (loc mmd) (0, 0, 0) -> v3_eq (rot mmd) (0, 0, 0) -> v3_eq (scale mmd) (0, 0, 0) ->
  Forall2 (fun layer layer' =>
             fst layer' = fst layer /\
             Forall2 (Forall2 same_points) (snd layer) (snd layer'))
          gpd (bakeModifier mmd ob gpd).
Proof using unit_mat4.
  intros Hl Hr Hs. unfold bakeModifier.
  apply Forall2_fmap_r, Forall_Forall2_diag, Forall_forall.
  intros [gpl frames] _. cbn. split; [reflexivity|].
  apply Forall2_fmap_r, Forall_Forall2_diag, Forall_forall. intros gpf _.
  apply Forall2_fmap_r, Forall_Forall2_diag, Forall_forall. intros gps _.
  by apply neutral_deformPolyline.
Qed.

End neutral.

(** X13.  The edit-curve variant deforms a control point as the polyline
    variant deforms a stroke point: for the same weight, each of the three
    vectors of the control point goes where [deform_point] sends a stroke
    point at that place, and the pressure becomes what [deform_point] makes
    of it.  The pass sets the flag asking for a curve update and keeps the
    number of control points; [deformBezier] is this pass followed by the
    geometry update on a stroke the modifier applies to, and nothing
    otherwise. *)
Theorem deformBezier_as_deformPolyline mmd ob gpl gps (i : nat) cp :
  let gps' := deformBezier_curve mmd ob gps in
  let w := curve_point_weight mmd (BKE_object_defgroup_name_index ob (vgname mmd))
                              (editcurve gps) i in
  let as_point (v : V3) s :=
    {| x := v.1.1; y := v.1.2; z := v.2; pressure := curve_pressure cp; strength := s |} in
  curve_points (editcurve gps) !! i = Some cp ->
  deformBezier mmd ob gpl gps
    = (if is_stroke_affected_by_modifier ob mmd gpl (stroke gps)
       then BKE_gpencil_stroke_geometry_update_curve gps' else gps) /\
  Z.land (stroke_flag gps') GP_STROKE_NEEDS_CURVE_UPDATE = GP_STROKE_NEEDS_CURVE_UPDATE /\
  length (curve_points (editcurve gps')) = length (curve_points (editcurve gps)) /\
  exists cp', curve_points (editcurve gps') !! i = Some cp' /\
    forall s,
      pt_co (deform_point mmd w (as_point (vec (bezt cp)).1.1 s)) = (vec (bezt cp')).1.1 /\
      pt_co (deform_point mmd w (as_point (vec (bezt cp)).1.2 s)) = (vec (bezt cp')).1.2 /\
      pt_co (deform_point mmd w (as_point (vec (bezt cp)).2 s)) = (vec (bezt cp')).2 /\
      pressure (deform_point mmd w (as_point (vec (bezt cp)).2 s)) = curve_pressure cp'.
Proof.
  cbn zeta. intros Hcp. split.
  { unfold deformBezier. by destruct (is_stroke_affected_by_modifier _ _ _ _). }
  unfold deformBezier_curve. cbn [stroke_flag editcurve curve_points].
  split; [|split].
  - apply Z.bits_inj'. intros n _. rewrite Z.land_spec, Z.lor_spec.
    destruct (Z.testbit (stroke_flag gps) n), (Z.testbit GP_STROKE_NEEDS_CURVE_UPDATE n);
      reflexivity.
  - apply length_imap.
  - rewrite list_lookup_imap, Hcp. eexists. split; [reflexivity|]. intros s.
    unfold deform_point, deform_curve_point, point_scale.
    destruct (vec (bezt cp)) as [[[[a0 b0] c0] [[a1 b1] c1]] [[a2 b2] c2]] eqn:Hvec.
    destruct (Qlt_le_dec _ 0) as [_|_].
    + rewrite Hvec. by repeat split.
    + destruct (add_v3_fl _ 1) as [[s0 s1] s2].
      cbv beta iota zeta delta [fst snd pt_co x y z pressure strength].
      repeat match goal with
             | |- context [mul_m4_v3 ?m ?v] =>
                 let E := fresh "E" in destruct (mul_m4_v3 m v) as [[? ?] ?] eqn:E
             end.
      cbn. by repeat split.
Qed.


End deform.

(** A concrete instance: translation and scale only (no rotation), weights
    stored directly in the deform vertices, every stroke affected. *)
Definition fixture_mat4 (l r s : V3) : V3 * V3 := (l, s).

Definition fixture_mul (m : V3 * V3) (p : V3) : V3 :=
  let '((l0, l1, l2), (s0, s1, s2)) := m in
  let '(p0, p1, p2) := p in
  (s0 * p0 + l0, s1 * p1 + l1, s2 * p2 + l2).

Definition fixture_weight (dv : option Q) (inverse : bool) (def_nr : Z) : Q :=
  match dv with
  | Some w => if inverse then 1 - w else w
  | None => 1
  end.

Definition fixture_mmd : OffsetGpencilModifierData :=
  {| loc := (1, 2, 3); rot := (0, 0, 0); scale := (1, 1, 1);
     flag := 0%Z; vgname := "Group" |}.

Definition fixture_pt : bGPDspoint :=
  {| x := 1; y := 1; z := 1; pressure := 1; strength := 1 |}.

Definition fixture_stroke : bGPDstroke Q unit :=
  {| points := [fixture_pt; fixture_pt; fixture_pt];
     dvert := Some [0; 1 # 2; 1];
     geometry := tt |}.

Lemma fixture_unit_mat4 (l r s p : V3) :
  v3_eq l (0, 0, 0) -> v3_eq r (0, 0, 0) -> v3_eq s (1, 1, 1) ->
  v3_eq (fixture_mul (fixture_mat4 l r s) p) p.
Proof.
  destruct l as [[l0 l1] l2], s as [[s0 s1] s2], p as [[p0 p1] p2].
  simpl. intros (Hl0 & Hl1 & Hl2) _ (Hs0 & Hs1 & Hs2).
  rewrite Hl0, Hl1, Hl2, Hs0, Hs1, Hs2. repeat split; ring.
Qed.

Lemma deformPolyline_weight_scale_witness :
  exists pt',
    points _ _ (deformPolyline (V3 * V3) fixture_mat4 fixture_mul Q fixture_weight
                  unit unit (fun _ _ => 0%Z) unit (fun _ => tt) 1%Z
                  (fun _ _ _ _ => true) fixture_mmd tt tt fixture_stroke) !! 1%nat
    = Some pt' /\
    pressure pt' == 3 # 2.
Proof.
  destruct (deformPolyline_weight_scale (V3 * V3) fixture_mat4 fixture_mul Q
              fixture_weight unit unit (fun _ _ => 0%Z) unit (fun _ => tt) 1%Z
              (fun _ _ _ _ => true) fixture_unit_mat4 fixture_mmd tt tt
              fixture_stroke 1%nat fixture_pt eq_refl eq_refl
              ltac:(vm_compute; discriminate))
    as (pt' & s0 & s1 & s2 & Hl & H0 & H1 & H2 & _ & Hp & _).
  exists pt'. split; [exact Hl|].
  rewrite Hp, H0, H1, H2. vm_compute. reflexivity.
Defined.

(** A modifier that moves, turns and scales nothing, and a stroke in curve
    editing with one control point of weight one half. *)
Definition fixture_neutral_mmd : OffsetGpencilModifierData :=
  {| loc := (0, 0, 0); rot := (0, 0, 0); scale := (0, 0, 0);
     flag := 0%Z; vgname := "Group" |}.

Definition fixture_curve_point : bGPDcurve_point :=
  {| bezt := {| vec := ((0, 1, 0), (1, 1, 0), (2, 1, 0)) |}; curve_pressure := 2 |}.

Definition fixture_curve_stroke : bGPDstroke_curve Q unit :=
  {| stroke := fixture_stroke;
     editcurve := {| curve_points := [fixture_curve_point]; curve_dvert := Some [1 # 2] |};
     stroke_flag := 0%Z |}.

Lemma deformPolyline_frame_witness :
  let gps' := deformPolyline (V3 * V3) fixture_mat4 fixture_mul Q fixture_weight
                unit unit (fun _ _ => 0%Z) unit (fun _ => tt) 1%Z
                (fun _ _ _ _ => true) fixture_mmd tt tt fixture_stroke in
  length (points _ _ gps') = 3%nat /\
  exists pt', points _ _ gps' !! 2%nat = Some pt' /\ strength pt' = 1.
Proof.
  destruct (deformPolyline_frame (V3 * V3) fixture_mat4 fixture_mul Q fixture_weight
              unit unit (fun _ _ => 0%Z) unit (fun _ => tt) 1%Z
              (fun _ _ _ _ => true) fixture_mmd tt tt fixture_stroke)
    as (Hlen & _ & Hpts).
  split; [exact Hlen|].
  destruct (Hpts 2%nat fixture_pt eq_refl) as (pt' & Hl & Hs & _).
  exists pt'. split; [exact Hl | exact Hs].
Defined.

Lemma bake_neutral_modifier_witness :
  let gpd := [(tt, [[fixture_stroke; fixture_stroke]; []])] in
  Forall2 (fun layer layer' : unit * list (list (bGPDstroke Q unit)) =>
             fst layer' = fst layer /\
             Forall2 (Forall2 (same_points Q unit)) (snd layer) (snd layer'))
          gpd
          (bakeModifier (V3 * V3) fixture_mat4 fixture_mul Q fixture_weight
             unit unit (fun _ _ => 0%Z) unit (fun _ => tt) 1%Z
             (fun _ _ _ _ => true) fixture_neutral_mmd tt gpd).
Proof.
  apply (bake_neutral_modifier (V3 * V3) fixture_mat4 fixture_mul Q fixture_weight
           unit unit (fun _ _ => 0%Z) unit (fun _ => tt) 1%Z
           (fun _ _ _ _ => true) fixture_unit_mat4 fixture_neutral_mmd tt
           [(tt, [[fixture_stroke; fixture_stroke]; []])]);
    cbn; repeat split; reflexivity.
Defined.

Lemma deformBezier_as_deformPolyline_witness :
  let gps' := deformBezier_curve (V3 * V3) fixture_mat4 fixture_mul Q fixture_weight
                unit (fun _ _ => 0%Z) unit 1%Z 2%Z fixture_mmd tt fixture_curve_stroke in
  Z.land (stroke_flag _ _ gps') 2 = 2%Z /\
  exists cp', curve_points _ (editcurve _ _ gps') !! 0%nat = Some cp' /\
    pt_co (deform_point (V3 * V3) fixture_mat4 fixture_mul fixture_mmd (1 # 2)
             {| x := 1; y := 1; z := 0; pressure := 2; strength := 1 |})
    = (vec (bezt cp')).1.2.
Proof.
  destruct (deformBezier_as_deformPolyline (V3 * V3) fixture_mat4 fixture_mul Q
              fixture_weight unit unit (fun _ _ => 0%Z) unit 1%Z
              (fun _ _ _ _ => true) 2%Z (fun gps => gps) fixture_mmd tt tt
              fixture_curve_stroke 0%nat fixture_curve_point eq_refl)
    as (_ & Hflag & _ & cp' & Hl & Hv).
  split; [exact Hflag|]. exists cp'. split; [exact Hl|].
  destruct (Hv 1) as (_ & H1 & _). exact H1.
Defined.


End Offset.

(* ===================================================================== *)
(** * Dynamic topology: PBVH over a BMesh *)
(* ===================================================================== *)

Module Dyntopo.

Definition V3 : Type := Q * Q * Q.

(** [v[axis]] *)
Definition v3_get (v : V3) (axis : nat) : Q :=
  let '(a0, a1, a2) := v in
  match axis with O => a0 | S O => a1 | _ => a2 end.

(** ** Node flags

    [PBVHNodeFlags] is declared in BKE_pbvh.h, outside the excerpt; each
    flag is one bit of the [int] flag word.  The bit positions are a
    parameter ([flag_bit]); all that is used of them is that different flags
    are different bits. *)
Inductive PBVHNodeFlags :=
| PBVH_Leaf | PBVH_UpdateNormals | PBVH_UpdateBB | PBVH_UpdateOriginalBB
| PBVH_UpdateDrawBuffers | PBVH_UpdateRedraw | PBVH_UpdateMask
| PBVH_UpdateVisibility | PBVH_RebuildDrawBuffers | PBVH_FullyHidden
| PBVH_UpdateTopology | PBVH_UpdateColor | PBVH_Delete
| PBVH_UpdateCurvatureDir | PBVH_UpdateTris.

#[global] Instance PBVHNodeFlags_eq_dec : EqDecision PBVHNodeFlags.
Proof. solve_decision. Defined.

(** ** Mesh elements

    Vertices and faces are [BMVert*] / [BMFace*] in the code: identities.
    What the code reads through them is kept in the mesh record: the
    coordinates, the hidden flag, the paint mask, the "home node" custom-data
    integers and the vertices of a face in loop order. *)
Definition BMVert : Type := positive.
Definition BMFace : Type := positive.

Record BMEdge := { v1 : BMVert; v2 : BMVert }.

Definition DYNTOPO_NODE_NONE : Z := (-1)%Z.

Record BMesh := {
  v_co : BMVert -> V3;
  v_hidden : BMVert -> bool;
  v_mask : BMVert -> Q;
  v_node : BMVert -> Z;          (* BM_ELEM_CD_GET_INT(v, cd_vert_node_offset) *)
  f_node : BMFace -> Z;          (* BM_ELEM_CD_GET_INT(f, cd_face_node_offset) *)
  f_verts : BMFace -> list BMVert; (* l->v along the loop cycle of f *)
  f_hidden : BMFace -> bool
}.

Definition set_v_node (bm : BMesh) (v : BMVert) (ni : Z) : BMesh :=
  {| v_co := v_co bm; v_hidden := v_hidden bm; v_mask := v_mask bm;
     v_node := fun w => if decide (w = v) then ni else v_node bm w;
     f_node := f_node bm; f_verts := f_verts bm; f_hidden := f_hidden bm |}.

Definition set_f_node (bm : BMesh) (f : BMFace) (ni : Z) : BMesh :=
  {| v_co := v_co bm; v_hidden := v_hidden bm; v_mask := v_mask bm;
     v_node := v_node bm;
     f_node := fun g => if decide (g = f) then ni else f_node bm g;
     f_verts := f_verts bm; f_hidden := f_hidden bm |}.

(** ** TableGSet

    Modelled from the spec: the table sets of BLI_table_gset (a node's
    "member sets") are not in the excerpt.  A table keeps its elements in
    insertion order; [BLI_table_gset_add] leaves a table that already has
    the key as it is. *)
Definition TableGSet (A : Type) : Type := list A.

Definition BLI_table_gset_haskey `{EqDecision A} (ts : TableGSet A) (x : A) : bool :=
  bool_decide (x ∈ ts).

Definition BLI_table_gset_add `{EqDecision A} (ts : TableGSet A) (x : A) : TableGSet A :=
  if BLI_table_gset_haskey ts x then ts else ts ++ [x].

Definition BLI_table_gset_insert {A} (ts : TableGSet A) (x : A) : TableGSet A :=
  ts ++ [x].

Definition BLI_table_gset_len {A} (ts : TableGSet A) : Z := Z.of_nat (length ts).

(** ** Nodes *)
Record BB := { bmin : V3; bmax : V3 }.

Record PBVHNode := {
  flag : Z;
  children_offset : nat;
  bm_faces : option (TableGSet BMFace);
  bm_unique_verts : option (TableGSet BMVert);
  bm_other_verts : option (TableGSet BMVert);
  vb : BB;
  orig_vb : BB;
  subtree_tottri : Z;
  draw_buffers : bool;     (* non-NULL *)
  layer_disp : bool        (* non-NULL *)
}.

Definition zero_BB : BB := {| bmin := (0%Q, 0%Q, 0%Q); bmax := (0%Q, 0%Q, 0%Q) |}.

(** A node fresh from [pbvh_grow_nodes] (zeroed memory). *)
Definition zero_node : PBVHNode :=
  {| flag := 0%Z; children_offset := 0%nat;
     bm_faces := None; bm_unique_verts := None; bm_other_verts := None;
     vb := zero_BB; orig_vb := zero_BB; subtree_tottri := 0%Z;
     draw_buffers := false; layer_disp := false |}.

Definition set_flag (n : PBVHNode) (fl : Z) : PBVHNode :=
  {| flag := fl; children_offset := children_offset n;
     bm_faces := bm_faces n; bm_unique_verts := bm_unique_verts n;
     bm_other_verts := bm_other_verts n; vb := vb n; orig_vb := orig_vb n;
     subtree_tottri := subtree_tottri n;
     draw_buffers := draw_buffers n; layer_disp := layer_disp n |}.

Definition set_subtree_tottri (n : PBVHNode) (t : Z) : PBVHNode :=
  {| flag := flag n; children_offset := children_offset n;
     bm_faces := bm_faces n; bm_unique_verts := bm_unique_verts n;
     bm_other_verts := bm_other_verts n; vb := vb n; orig_vb := orig_vb n;
     subtree_tottri := t;
     draw_buffers := draw_buffers n; layer_disp := layer_disp n |}.

(** [pbvh->totnode] is the length of [nodes]. *)
Record PBVH := {
  nodes : list PBVHNode;
  leaf_limit : Z;
  bm_min_edge_len : Q;
  bm_max_edge_len : Q;
  cd_vert_mask_offset : Z;
  bm : BMesh
}.

Definition set_nodes (pbvh : PBVH) (ns : list PBVHNode) : PBVH :=
  {| nodes := ns; leaf_limit := leaf_limit pbvh;
     bm_min_edge_len := bm_min_edge_len pbvh; bm_max_edge_len := bm_max_edge_len pbvh;
     cd_vert_mask_offset := cd_vert_mask_offset pbvh; bm := bm pbvh |}.

Definition set_bm (pbvh : PBVH) (m : BMesh) : PBVH :=
  {| nodes := nodes pbvh; leaf_limit := leaf_limit pbvh;
     bm_min_edge_len := bm_min_edge_len pbvh; bm_max_edge_len := bm_max_edge_len pbvh;
     cd_vert_mask_offset := cd_vert_mask_offset pbvh; bm := m |}.

Definition set_node (pbvh : PBVH) (i : nat) (n : PBVHNode) : PBVH :=
  set_nodes pbvh (<[i := n]> (nodes pbvh)).

Definition totnode (pbvh : PBVH) : nat := length (nodes pbvh).

(** [MAX2] / [MIN2] of BLI_utildefines.h. *)
Definition MAX2 (a b : Q) : Q := if Qlt_le_dec b a then a else b.
Definition MIN2 (a b : Q) : Q := if Qlt_le_dec a b then a else b.

(** [(int)x] for a float [x]: truncation towards zero. *)
Definition Qtruncate (x : Q) : Z := Z.quot (Qnum x) (Zpos (Qden x)).

Definition DYNTOPO_MAX_ITER : Z := 4096%Z.

Section pbvh.

Variable flag_bit : PBVHNodeFlags -> nat.

Definition flag_mask (f : PBVHNodeFlags) : Z := Z.shiftl 1 (Z.of_nat (flag_bit f)).

(** [A | B | ...] *)
Definition flag_masks (fs : list PBVHNodeFlags) : Z :=
  foldr (fun f m => Z.lor (flag_mask f) m) 0%Z fs.

(** [node->flag & F] used as a condition. *)
Definition flag_test (n : PBVHNode) (f : PBVHNodeFlags) : bool :=
  negb (Z.land (flag n) (flag_mask f) =? 0)%Z.

(** [node->flag |= A | B | ...] and [node->flag &= ~F]. *)
Definition flag_or (n : PBVHNode) (fs : list PBVHNodeFlags) : PBVHNode :=
  set_flag n (Z.lor (flag n) (flag_masks fs)).

Definition flag_clear (n : PBVHNode) (f : PBVHNodeFlags) : PBVHNode :=
  set_flag n (Z.land (flag n) (Z.lnot (flag_mask f))).

(** Helpers of pbvh.c, outside the excerpt: bounding boxes and the two
    flag setters used when a node is finalized. *)
Variable BB_reset : BB.
Variable BB_expand : BB -> V3 -> BB.
Variable BB_expand_with_bb : BB -> BB -> BB.
Variable BB_widest_axis : BB -> nat.
Variable BBC_update_centroid : BB -> V3.
Variable BKE_pbvh_node_mark_rebuild_draw : Z -> Z.
Variable BKE_pbvh_node_fully_hidden_set : Z -> bool -> Z.

(** [len_v3v3] of BLI_math (a square root). *)
Variable len_v3v3 : V3 -> V3 -> Q.

(** *** Building: finalize, split, limit *)

Record BBC := { bbc_bb : BB; bcentroid : V3 }.

(** State threaded through the loops of [pbvh_bmesh_node_finalize]. *)
Record finalize_state := {
  fin_bm : BMesh;
  fin_unique : TableGSet BMVert;
  fin_other : TableGSet BMVert;
  fin_vb : BB;
  fin_has_visible : bool
}.

Definition finalize_vert (node_index : nat) (st : finalize_state) (v : BMVert)
    : finalize_state :=
  let st :=
    if BLI_table_gset_haskey (fin_unique st) v then st
    else if negb (v_node (fin_bm st) v =? DYNTOPO_NODE_NONE)%Z then
      {| fin_bm := fin_bm st; fin_unique := fin_unique st;
         fin_other := BLI_table_gset_add (fin_other st) v;
         fin_vb := fin_vb st; fin_has_visible := fin_has_visible st |}
    else
      {| fin_bm := set_v_node (fin_bm st) v (Z.of_nat node_index);
         fin_unique := BLI_table_gset_insert (fin_unique st) v;
         fin_other := fin_other st;
         fin_vb := fin_vb st; fin_has_visible := fin_has_visible st |} in
  (* Update node bounding box *)
  {| fin_bm := fin_bm st; fin_unique := fin_unique st; fin_other := fin_other st;
     fin_vb := BB_expand (fin_vb st) (v_co (fin_bm st) v);
     fin_has_visible := fin_has_visible st |}.

Definition finalize_face (node_index : nat) (st : finalize_state) (f : BMFace)
    : finalize_state :=
  (* Update ownership of faces *)
  let st := {| fin_bm := set_f_node (fin_bm st) f (Z.of_nat node_index);
               fin_unique := fin_unique st; fin_other := fin_other st;
               fin_vb := fin_vb st; fin_has_visible := fin_has_visible st |} in
  (* Update vertices *)
  let st := foldl (finalize_vert node_index) st (f_verts (fin_bm st) f) in
  {| fin_bm := fin_bm st; fin_unique := fin_unique st; fin_other := fin_other st;
     fin_vb := fin_vb st;
     fin_has_visible := fin_has_visible st || negb (f_hidden (fin_bm st) f) |}.

(** Update node data after splitting ([add_orco] is false on the paths
    embedded here). *)
Definition pbvh_bmesh_node_finalize (pbvh : PBVH) (node_index : nat) : option PBVH :=
  n ← nodes pbvh !! node_index;
  faces ← bm_faces n;
  let st := foldl (finalize_face node_index)
              {| fin_bm := bm pbvh; fin_unique := []; fin_other := [];
                 fin_vb := BB_reset; fin_has_visible := false |} faces in
  let fl := BKE_pbvh_node_mark_rebuild_draw (flag n) in
  let fl := BKE_pbvh_node_fully_hidden_set fl (negb (fin_has_visible st)) in
  let n' :=
    flag_or
      {| flag := fl; children_offset := children_offset n;
         bm_faces := bm_faces n;
         bm_unique_verts := Some (fin_unique st);
         bm_other_verts := Some (fin_other st);
         vb := fin_vb st; orig_vb := fin_vb st;
         subtree_tottri := subtree_tottri n;
         draw_buffers := draw_buffers n; layer_disp := layer_disp n |}
      [PBVH_UpdateNormals; PBVH_UpdateTopology; PBVH_UpdateCurvatureDir; PBVH_UpdateTris] in
  Some (set_node (set_bm pbvh (fin_bm st)) node_index n').

(** Recursively split the node if it exceeds the leaf_limit.  The code
    stops at [depth > 6]; [rem] is [7 - depth], so [rem = 0] is that test and
    the recursion is structural. *)
Fixpoint pbvh_bmesh_node_split (rem : nat) (pbvh : PBVH) (bbc_array : BMFace -> BBC)
    (node_index : nat) : option PBVH :=
  n ← nodes pbvh !! node_index;
  faces ← bm_faces n;
  match rem with
  | O => pbvh_bmesh_node_finalize pbvh node_index
  | S rem' =>
    if (BLI_table_gset_len faces <=? leaf_limit pbvh)%Z then
      (* Node limit not exceeded *)
      pbvh_bmesh_node_finalize pbvh node_index
    else
      (* Calculate bounding box around primitive centroids *)
      let cb := foldl (fun cb f => BB_expand cb (bcentroid (bbc_array f))) BB_reset faces in
      (* Find widest axis and its midpoint *)
      let axis := BB_widest_axis cb in
      let mid := ((v3_get (bmax cb) axis + v3_get (bmin cb) axis) * (1 # 2))%Q in
      (* Add two new child nodes *)
      let children := totnode pbvh in
      (* Partition the parent node's faces between the two children *)
      let in_c1 f := if Qlt_le_dec (v3_get (bcentroid (bbc_array f)) axis) mid
                     then true else false in
      let c1 := {| flag := Z.lor 0 (flag_mask PBVH_Leaf); children_offset := 0;
                   bm_faces := Some (filter (fun f => in_c1 f = true) faces);
                   bm_unique_verts := None; bm_other_verts := None;
                   vb := zero_BB; orig_vb := zero_BB; subtree_tottri := 0%Z;
                   draw_buffers := false; layer_disp := false |} in
      let c2 := {| flag := Z.lor 0 (flag_mask PBVH_Leaf); children_offset := 0;
                   bm_faces := Some (filter (fun f => in_c1 f = false) faces);
                   bm_unique_verts := None; bm_other_verts := None;
                   vb := zero_BB; orig_vb := zero_BB; subtree_tottri := 0%Z;
                   draw_buffers := false; layer_disp := false |} in
      (* Mark this node's unique verts as unclaimed *)
      let m := match bm_unique_verts n with
               | Some uv => foldl (fun m v => set_v_node m v DYNTOPO_NODE_NONE) (bm pbvh) uv
               | None => bm pbvh
               end in
      (* Unclaim faces *)
      let m := foldl (fun m f => set_f_node m f DYNTOPO_NODE_NONE) m faces in
      (* Clear this node *)
      let n' := flag_clear
                  {| flag := flag n; children_offset := children;
                     bm_faces := None; bm_unique_verts := None; bm_other_verts := None;
                     vb := vb n; orig_vb := orig_vb n;
                     subtree_tottri := subtree_tottri n;
                     draw_buffers := false; layer_disp := false |} PBVH_Leaf in
      let pbvh := set_bm (set_nodes pbvh (<[node_index := n']> (nodes pbvh) ++ [c1; c2])) m in
      (* Recurse *)
      pbvh ← pbvh_bmesh_node_split rem' pbvh bbc_array children;
      pbvh ← pbvh_bmesh_node_split rem' pbvh bbc_array (children + 1);
      (* Update bounding box *)
      n ← nodes pbvh !! node_index;
      ch1 ← nodes pbvh !! children_offset n;
      ch2 ← nodes pbvh !! (children_offset n + 1)%nat;
      let bb := BB_expand_with_bb (BB_expand_with_bb BB_reset (vb ch1)) (vb ch2) in
      Some (set_node pbvh node_index
              {| flag := flag n; children_offset := children_offset n;
                 bm_faces := bm_faces n; bm_unique_verts := bm_unique_verts n;
                 bm_other_verts := bm_other_verts n; vb := bb; orig_vb := bb;
                 subtree_tottri := subtree_tottri n;
                 draw_buffers := draw_buffers n; layer_disp := layer_disp n |})
  end.

(** Recursively split the node if it exceeds the leaf_limit *)
Definition pbvh_bmesh_node_limit_ensure (pbvh : PBVH) (node_index : nat)
    : option (PBVH * bool) :=
  n ← nodes pbvh !! node_index;
  faces ← bm_faces n;
  if (BLI_table_gset_len faces <=? leaf_limit pbvh)%Z then
    (* Node limit not exceeded *)
    Some (pbvh, false)
  else
    (* For each BMFace, store the AABB and AABB centroid *)
    let bbc_array f :=
      let bb := foldl (fun bb v => BB_expand bb (v_co (bm pbvh) v)) BB_reset
                      (f_verts (bm pbvh) f) in
      {| bbc_bb := bb; bcentroid := BBC_update_centroid bb |} in
    pbvh ← pbvh_bmesh_node_split 7 pbvh bbc_array node_index;
    Some (pbvh, true).

(** *** Edge queues *)

(** [q_elems] are the queued vertex pairs with their heap priority; the
    other fields are the running statistics of [EdgeQueueContext]. *)
Record EdgeQueueContext := {
  q_elems : list (Q * (BMVert * BMVert));
  avg_elen : Q;
  max_elen : Q;
  min_elen : Q;
  totedge : Q
}.

(** Return true if the vertex mask is less than 1.0, false otherwise *)
Definition check_mask (pbvh : PBVH) (v : BMVert) : bool :=
  if Qlt_le_dec (v_mask (bm pbvh) v) 1 then true else false.

Definition edge_queue_insert (pbvh : PBVH) (eq_ctx : EdgeQueueContext) (e : BMEdge)
    (priority : Q) : EdgeQueueContext :=
  if ((cd_vert_mask_offset pbvh =? -1)%Z
      || (check_mask pbvh (v1 e) || check_mask pbvh (v2 e)))
     && negb (v_hidden (bm pbvh) (v1 e) || v_hidden (bm pbvh) (v2 e))
  then
    let dis := len_v3v3 (v_co (bm pbvh) (v1 e)) (v_co (bm pbvh) (v2 e)) in
    {| q_elems := q_elems eq_ctx ++ [(priority, (v1 e, v2 e))];
       avg_elen := (avg_elen eq_ctx + dis)%Q;
       max_elen := MAX2 (max_elen eq_ctx) dis;
       min_elen := MIN2 (min_elen eq_ctx) dis;
       totedge := (totedge eq_ctx + 1)%Q |}
  else eq_ctx.

(** [eq_ctx->q->elems = NULL; eq_ctx->q->totelems = 0] at the start of a
    queue creation: the pairs are dropped, the statistics stay. *)
Definition queue_reset (eq_ctx : EdgeQueueContext) : EdgeQueueContext :=
  {| q_elems := []; avg_elen := avg_elen eq_ctx; max_elen := max_elen eq_ctx;
     min_elen := min_elen eq_ctx; totedge := totedge eq_ctx |}.

(** *** Topology update *)

Record TopologyArgs := {
  center : V3;
  view_normal : option V3;
  radius : Q;
  use_frontface : bool;
  use_projected : bool
}.

(** The mesh passes themselves are parameters of the entry point: the edges
    (with priority) that queue creation hands to [edge_queue_insert] after
    its traversal of the flagged leaves, the two drain loops and the valence
    cleanup.  The drain of the collapse queue never calls
    [edge_queue_insert]; the statistics it leaves are the ones it found. *)
Variable short_edge_queue_edges : PBVH -> TopologyArgs -> list (BMEdge * Q).
Variable long_edge_queue_edges : PBVH -> TopologyArgs -> list (BMEdge * Q).
Variable pbvh_bmesh_collapse_short_edges : EdgeQueueContext -> PBVH -> Z -> PBVH * bool.
Variable pbvh_bmesh_subdivide_long_edges : EdgeQueueContext -> PBVH -> Z -> PBVH * bool.
Variable cleanup_valence_3_4 : PBVH -> TopologyArgs -> PBVH * bool.

(** Bits of [PBVHTopologyUpdateMode] (BKE_pbvh.h). *)
Variables PBVH_Subdivide PBVH_Collapse PBVH_Cleanup : Z.

Definition short_edge_queue_create (eq_ctx : EdgeQueueContext) (pbvh : PBVH)
    (args : TopologyArgs) : EdgeQueueContext :=
  foldl (fun ctx ep => edge_queue_insert pbvh ctx (fst ep) (snd ep))
        (queue_reset eq_ctx) (short_edge_queue_edges pbvh args).

Definition long_edge_queue_create (eq_ctx : EdgeQueueContext) (pbvh : PBVH)
    (args : TopologyArgs) : EdgeQueueContext :=
  foldl (fun ctx ep => edge_queue_insert pbvh ctx (fst ep) (snd ep))
        (queue_reset eq_ctx) (long_edge_queue_edges pbvh args).

(** The passes in the order they are run, with the throttle ratio and the
    step bound each was given.  The log is not program state; it records
    the calls the entry point makes. *)
Inductive pass_kind := Collapse | Subdivide | Cleanup.

Record pass := {
  pass_of : pass_kind;
  pass_ratio : Q;
  pass_max_steps : Z
}.

Record topology_state := {
  ts_pbvh : PBVH;
  ts_eq_ctx : EdgeQueueContext;
  ts_ratio : Q;
  ts_modified : bool;
  ts_log : list pass
}.

Definition mode_has (mode bit : Z) : bool := negb (Z.land mode bit =? 0)%Z.

Definition collapse_ratio (pbvh : PBVH) (eq_ctx : EdgeQueueContext) (ratio : Q) : Q :=
  (* prevent remesher thrashing by throttling edge splitting in
     pathological case of skinny edges *)
  if Qlt_le_dec 0 (totedge eq_ctx) then
    let avg_elen := (avg_elen eq_ctx / totedge eq_ctx)%Q in
    let emax := max_elen eq_ctx in
    let emax := if Qeq_dec emax 0 then (1 # 10000)%Q else emax in
    if Qlt_le_dec 0 (bm_min_edge_len pbvh) then
      if Qlt_le_dec 0 avg_elen then
        let ratio := (avg_elen / (bm_min_edge_len pbvh * (1 # 2) + emax * (1 # 2)))%Q in
        let ratio := MAX2 ratio (1 # 4) in
        MIN2 ratio 5
      else ratio
    else ratio
  else ratio.

Definition subdivide_ratio (pbvh : PBVH) (eq_ctx : EdgeQueueContext) (ratio : Q) : Q :=
  if Qlt_le_dec 0 (totedge eq_ctx) then
    let avg_elen := (avg_elen eq_ctx / totedge eq_ctx)%Q in
    let emin := min_elen eq_ctx in
    let emin := if Qeq_dec emin 0 then (1 # 10000)%Q else emin in
    if Qlt_le_dec 0 avg_elen then
      let ratio := ((bm_max_edge_len pbvh * (1 # 2) + emin * (1 # 2)) / avg_elen)%Q in
      let ratio := MAX2 ratio (1 # 20) in
      MIN2 ratio 1
    else ratio
  else ratio.

Definition topology_collapse (args : TopologyArgs) (st : topology_state) : topology_state :=
  let eq_ctx := short_edge_queue_create (ts_eq_ctx st) (ts_pbvh st) args in
  let ratio := collapse_ratio (ts_pbvh st) eq_ctx (ts_ratio st) in
  let max_steps := Qtruncate (inject_Z DYNTOPO_MAX_ITER * ratio) in
  let '(pbvh, m) := pbvh_bmesh_collapse_short_edges eq_ctx (ts_pbvh st) max_steps in
  {| ts_pbvh := pbvh; ts_eq_ctx := eq_ctx; ts_ratio := ratio;
     ts_modified := ts_modified st || m;
     ts_log := ts_log st ++ [{| pass_of := Collapse; pass_ratio := ratio;
                                pass_max_steps := max_steps |}] |}.

Definition topology_subdivide (args : TopologyArgs) (st : topology_state) : topology_state :=
  let eq_ctx := long_edge_queue_create (ts_eq_ctx st) (ts_pbvh st) args in
  let ratio := subdivide_ratio (ts_pbvh st) eq_ctx (ts_ratio st) in
  let max_steps := Qtruncate (inject_Z DYNTOPO_MAX_ITER * ratio) in
  let '(pbvh, m) := pbvh_bmesh_subdivide_long_edges eq_ctx (ts_pbvh st) max_steps in
  {| ts_pbvh := pbvh; ts_eq_ctx := eq_ctx; ts_ratio := ratio;
     ts_modified := ts_modified st || m;
     ts_log := ts_log st ++ [{| pass_of := Subdivide; pass_ratio := ratio;
                                pass_max_steps := max_steps |}] |}.

Definition topology_cleanup (args : TopologyArgs) (st : topology_state) : topology_state :=
  let '(pbvh, m) := cleanup_valence_3_4 (ts_pbvh st) args in
  {| ts_pbvh := pbvh; ts_eq_ctx := ts_eq_ctx st; ts_ratio := ts_ratio st;
     ts_modified := ts_modified st || m;
     ts_log := ts_log st ++ [{| pass_of := Cleanup; pass_ratio := ts_ratio st;
                                pass_max_steps := 0%Z |}] |}.

(** The part of [BKE_pbvh_bmesh_update_topology] up to the flag loops. *)
Definition update_topology_passes (pbvh : PBVH) (mode : Z) (args : TopologyArgs)
    : topology_state :=
  let st := {| ts_pbvh := pbvh;
               ts_eq_ctx := {| q_elems := []; avg_elen := 0;
                               max_elen := - inject_Z (10 ^ 17);
                               min_elen := inject_Z (10 ^ 17);
                               totedge := 0 |};
               ts_ratio := 1; ts_modified := false; ts_log := [] |} in
  let st := if mode_has mode PBVH_Collapse then topology_collapse args st else st in
  let st := if mode_has mode PBVH_Subdivide then topology_subdivide args st else st in
  let st := if mode_has mode PBVH_Cleanup then topology_cleanup args st else st in
  st.

(** Body of the loop run when something was modified. *)
Definition unmark_modified_node (updatePBVH : bool) (pbvh : PBVH) (i : nat) : option PBVH :=
  node ← nodes pbvh !! i;
  if flag_test node PBVH_Leaf && flag_test node PBVH_UpdateTopology
     && negb (flag_test node PBVH_FullyHidden)
  then
    let pbvh := set_node pbvh i (flag_clear node PBVH_UpdateTopology) in
    (* Recursively split nodes that have gotten too many elements *)
    if updatePBVH then fst <$> pbvh_bmesh_node_limit_ensure pbvh i
    else Some pbvh
  else Some pbvh.

Fixpoint for_nodes (body : PBVH -> nat -> option PBVH) (idxs : list nat) (pbvh : PBVH)
    : option PBVH :=
  match idxs with
  | [] => Some pbvh
  | i :: idxs => pbvh ← body pbvh i; for_nodes body idxs pbvh
  end.

(** Body of the loop run when nothing was modified: still unmark nodes. *)
Definition unmark_node (node : PBVHNode) : PBVHNode :=
  if flag_test node PBVH_Leaf && flag_test node PBVH_UpdateTopology
  then flag_clear node PBVH_UpdateTopology
  else node.

Definition update_topology_unmark (pbvh : PBVH) (modified updatePBVH : bool)
    : option PBVH :=
  if modified then
    (* avoid potential infinite loops *)
    let totnode := totnode pbvh in
    for_nodes (unmark_modified_node updatePBVH) (seq 0 totnode) pbvh
  else
    Some (set_nodes pbvh (unmark_node <$> nodes pbvh)).

(** Collapse short edges, subdivide long edges *)
Definition BKE_pbvh_bmesh_update_topology (pbvh : PBVH) (mode : Z) (args : TopologyArgs)
    (updatePBVH : bool) : option (PBVH * bool * list pass) :=
  let st := update_topology_passes pbvh mode args in
  pbvh ← update_topology_unmark (ts_pbvh st) (ts_modified st) updatePBVH;
  Some (pbvh, ts_modified st, ts_log st).


(** *** Throttle ratio: bounds *)

Definition ratio_in_range (p : pass) : Prop :=
  match pass_of p with
  | Collapse => (1 # 4 <= pass_ratio p /\ pass_ratio p <= 5)%Q
  | Subdivide => (1 # 20 <= pass_ratio p /\ pass_ratio p <= 1)%Q
  | Cleanup => True
  end.

Definition steps_from_ratio (p : pass) : Prop :=
  match pass_of p with
  | Cleanup => True
  | _ => pass_max_steps p = Qtruncate (inject_Z DYNTOPO_MAX_ITER * pass_ratio p)
  end.

Lemma clamp_bounds (x lo hi : Q) :
  (lo <= hi -> lo <= MIN2 (MAX2 x lo) hi /\ MIN2 (MAX2 x lo) hi <= hi)%Q.
Proof.
  intros Hlh. unfold MIN2, MAX2.
  destruct (Qlt_le_dec lo x); destruct (Qlt_le_dec _ hi); split; lra.
Qed.

Lemma collapse_ratio_cases pbvh ctx r :
  collapse_ratio pbvh ctx r = r \/
  ((1 # 4 <= collapse_ratio pbvh ctx r /\ collapse_ratio pbvh ctx r <= 5) /\
   0 < totedge ctx /\ 0 < avg_elen ctx / totedge ctx)%Q.
Proof.
  unfold collapse_ratio.
  destruct (Qlt_le_dec 0 (totedge ctx)) as [Ht|]; [|by left].
  destruct (Qlt_le_dec 0 (bm_min_edge_len pbvh)); [|by left].
  destruct (Qlt_le_dec 0 (avg_elen ctx / totedge ctx)) as [Ha|]; [|by left].
  right. split; [apply clamp_bounds; lra | split; assumption].
Qed.

Lemma subdivide_ratio_cases pbvh ctx r :
  (subdivide_ratio pbvh ctx r = r /\
   ~ (0 < totedge ctx /\ 0 < avg_elen ctx / totedge ctx)%Q) \/
  (1 # 20 <= subdivide_ratio pbvh ctx r /\ subdivide_ratio pbvh ctx r <= 1)%Q.
Proof.
  unfold subdivide_ratio.
  destruct (Qlt_le_dec 0 (totedge ctx)) as [Ht|Ht]; [|left; split; [done|lra]].
  destruct (Qlt_le_dec 0 (avg_elen ctx / totedge ctx)) as [Ha|Ha];
    [|left; split; [done|lra]].
  right. apply clamp_bounds; lra.
Qed.

Lemma Qdiv_pos (a b : Q) : (0 < a -> 0 < b -> 0 < a / b)%Q.
Proof.
  intros Ha Hb. apply Qlt_shift_div_l; [assumption|]. lra.
Qed.

Lemma Qdiv_pos_inv (a b : Q) : (0 < b -> 0 < a / b -> 0 < a)%Q.
Proof.
  intros Hb Hd.
  assert (H : (a == (a / b) * b)%Q) by (field; lra).
  rewrite H. apply Qmult_lt_0_compat; assumption.
Qed.

Section stats.

Hypothesis len_v3v3_nonneg : forall a b, (0 <= len_v3v3 a b)%Q.

(** The edges seen so far have a positive count and a positive total
    length. *)
Definition stats_positive (ctx : EdgeQueueContext) : Prop :=
  (0 < totedge ctx /\ 0 < avg_elen ctx)%Q.

Lemma edge_queue_insert_positive pbvh ctx e pr :
  stats_positive ctx -> stats_positive (edge_queue_insert pbvh ctx e pr).
Proof using len_v3v3_nonneg.
  intros [Ht Ha]. unfold edge_queue_insert, stats_positive.
  destruct (_ && _); simpl; [|split; assumption].
  pose proof (len_v3v3_nonneg (v_co (bm pbvh) (v1 e)) (v_co (bm pbvh) (v2 e))).
  split; lra.
Qed.

Lemma queue_create_positive pbvh edges ctx :
  stats_positive ctx ->
  stats_positive (foldl (fun ctx ep => edge_queue_insert pbvh ctx (fst ep) (snd ep))
                        ctx edges).
Proof using len_v3v3_nonneg.
  revert ctx. induction edges as [|ep edges IH]; intros ctx H; simpl; [assumption|].
  apply IH, edge_queue_insert_positive, H.
Qed.

(** What holds of the shared [ratio] variable between the passes: it is in
    the collapse range and, when above 1, the collapse pass has seen edges
    of positive total length. *)
Definition ratio_inv (st : topology_state) : Prop :=
  (1 # 4 <= ts_ratio st /\ ts_ratio st <= 5)%Q /\
  ((ts_ratio st <= 1)%Q \/ stats_positive (ts_eq_ctx st)) /\
  Forall ratio_in_range (ts_log st) /\
  Forall steps_from_ratio (ts_log st).

Lemma log_snoc (P : pass -> Prop) log p : Forall P log -> P p -> Forall P (log ++ [p]).
Proof. intros Hl Hp. apply Forall_app. split; [assumption|]. by constructor. Qed.

Lemma topology_collapse_inv args st : ratio_inv st -> ratio_inv (topology_collapse args st).
Proof using len_v3v3_nonneg.
  intros (Hr & Hs & Hlog & Hsteps). unfold topology_collapse.
  set (ctx := short_edge_queue_create _ _ _).
  destruct (pbvh_bmesh_collapse_short_edges _ _ _) as [p m]. unfold ratio_inv. simpl.
  assert (Hctx : stats_positive (ts_eq_ctx st) -> stats_positive ctx).
  { intros H. apply queue_create_positive. exact H. }
  destruct (collapse_ratio_cases (ts_pbvh st) ctx (ts_ratio st))
    as [->|(Hb & Ht & Ha)].
  - split; [exact Hr|]. split; [destruct Hs; [by left | right; auto]|].
    split; (apply log_snoc; [assumption|]); [exact Hr | red; simpl; reflexivity].
  - split; [exact Hb|]. split.
    + right. split; [assumption|]. exact (Qdiv_pos_inv _ _ Ht Ha).
    + split; (apply log_snoc; [assumption|]); [exact Hb | red; simpl; reflexivity].
Qed.

Lemma topology_subdivide_log args st :
  ratio_inv st ->
  Forall ratio_in_range (ts_log (topology_subdivide args st)) /\
  Forall steps_from_ratio (ts_log (topology_subdivide args st)).
Proof using len_v3v3_nonneg.
  intros (Hr & Hs & Hlog & Hsteps). unfold topology_subdivide.
  set (ctx := long_edge_queue_create _ _ _).
  destruct (pbvh_bmesh_subdivide_long_edges _ _ _) as [p m]. simpl.
  assert (Hctx : stats_positive (ts_eq_ctx st) -> stats_positive ctx).
  { intros H. apply queue_create_positive. exact H. }
  split; (apply log_snoc; [assumption|]); [|red; simpl; reflexivity].
  unfold ratio_in_range. simpl.
  destruct (subdivide_ratio_cases (ts_pbvh st) ctx (ts_ratio st)) as [[-> Hn]|Hb];
    [|exact Hb].
  destruct Hs as [Hle|Hpos]; [lra|].
  exfalso. apply Hn. destruct (Hctx Hpos) as [Ht Ha].
  split; [assumption|]. apply Qdiv_pos; assumption.
Qed.

Lemma topology_cleanup_log args st :
  Forall ratio_in_range (ts_log st) /\ Forall steps_from_ratio (ts_log st) ->
  Forall ratio_in_range (ts_log (topology_cleanup args st)) /\
  Forall steps_from_ratio (ts_log (topology_cleanup args st)).
Proof.
  intros [H1 H2]. unfold topology_cleanup.
  destruct (cleanup_valence_3_4 _ _) as [p m]. simpl.
  split; (apply log_snoc; [assumption|]); exact I.
Qed.

End stats.

(** C1.  Edge lengths being non-negative, every pass the entry point runs
    is given a throttle ratio in its range: the collapse pass in
    [0.25, 5.0], the subdivision pass in [0.05, 1.0], whatever the edges
    found (zero-length edges included) and whether one or both of the two
    mode bits are set; the step bound of the pass is
    [(int)(DYNTOPO_MAX_ITER * ratio)]. *)
Theorem throttle_ratio_bounds
    (len_v3v3_nonneg : forall a b, (0 <= len_v3v3 a b)%Q)
    (pbvh : PBVH) (mode : Z) (args : TopologyArgs) :
  Forall ratio_in_range (ts_log (update_topology_passes pbvh mode args)) /\
  Forall steps_from_ratio (ts_log (update_topology_passes pbvh mode args)).
Proof.
  unfold update_topology_passes.
  set (st0 := {| ts_pbvh := pbvh; ts_eq_ctx := _; ts_ratio := 1;
                 ts_modified := false; ts_log := [] |}).
  assert (H0 : ratio_inv st0).
  { unfold ratio_inv; simpl. split; [lra|]. split; [left; lra|]. split; constructor. }
  set (st1 := if mode_has mode PBVH_Collapse then _ else st0).
  assert (H1 : ratio_inv st1).
  { unfold st1. destruct (mode_has mode PBVH_Collapse);
      [apply topology_collapse_inv; assumption | assumption]. }
  set (st2 := if mode_has mode PBVH_Subdivide then _ else st1).
  assert (H2 : Forall ratio_in_range (ts_log st2) /\ Forall steps_from_ratio (ts_log st2)).
  { unfold st2. destruct (mode_has mode PBVH_Subdivide);
      [apply topology_subdivide_log; assumption | apply H1]. }
  destruct (mode_has mode PBVH_Cleanup);
    [apply topology_cleanup_log; assumption | assumption].
Qed.


(** *** Flag words *)

Lemma flag_test_testbit n f :
  flag_test n f = Z.testbit (flag n) (Z.of_nat (flag_bit f)).
Proof.
  unfold flag_test, flag_mask. rewrite Z.shiftl_1_l.
  set (b := Z.of_nat (flag_bit f)). assert (Hb : (0 <= b)%Z) by lia.
  assert (H : Z.land (flag n) (2 ^ b) =
              if Z.testbit (flag n) b then (2 ^ b)%Z else 0%Z).
  { apply Z.bits_inj'. intros k Hk.
    rewrite Z.land_spec, Z.pow2_bits_eqb by assumption.
    destruct (Z.eqb_spec b k) as [<-|Hne].
    - rewrite andb_true_r. destruct (Z.testbit (flag n) b) eqn:E.
      + by rewrite Z.pow2_bits_true.
      + by rewrite Z.bits_0.
    - rewrite andb_false_r. destruct (Z.testbit (flag n) b).
      + by rewrite Z.pow2_bits_false.
      + by rewrite Z.bits_0. }
  rewrite H. destruct (Z.testbit (flag n) b); [|reflexivity].
  assert (0 < 2 ^ b)%Z by (apply Z.pow_pos_nonneg; lia).
  destruct (Z.eqb_spec (2 ^ b) 0); [lia | reflexivity].
Qed.

Section flag_bits.

(** Different flags are different bits. *)
Hypothesis flag_bit_inj : forall f g, flag_bit f = flag_bit g -> f = g.

Lemma flag_masks_testbit fs f :
  Z.testbit (flag_masks fs) (Z.of_nat (flag_bit f)) = bool_decide (f ∈ fs).
Proof using flag_bit_inj.
  induction fs as [|g fs IH]; simpl.
  - by rewrite Z.bits_0.
  - rewrite Z.lor_spec, IH. unfold flag_mask.
    rewrite Z.shiftl_1_l, Z.pow2_bits_eqb by lia.
    destruct (decide (f = g)) as [->|Hne].
    + rewrite Z.eqb_refl. simpl. symmetry. apply bool_decide_eq_true.
      apply elem_of_cons. by left.
    + destruct (Z.eqb_spec (Z.of_nat (flag_bit g)) (Z.of_nat (flag_bit f))) as [He|_].
      * exfalso. apply Hne. symmetry. apply flag_bit_inj. lia.
      * simpl. apply bool_decide_ext. rewrite elem_of_cons.
        split; [by right | intros [?|?]; [congruence | assumption]].
Qed.

Lemma flag_test_or n fs f :
  flag_test (flag_or n fs) f = flag_test n f || bool_decide (f ∈ fs).
Proof using flag_bit_inj.
  rewrite !flag_test_testbit. unfold flag_or. simpl.
  by rewrite Z.lor_spec, flag_masks_testbit.
Qed.

Lemma flag_test_clear n g f :
  flag_test (flag_clear n g) f = flag_test n f && negb (bool_decide (f = g)).
Proof using flag_bit_inj.
  rewrite !flag_test_testbit. unfold flag_clear, flag_mask. simpl.
  rewrite Z.land_spec, Z.lnot_spec, Z.shiftl_1_l, Z.pow2_bits_eqb by lia.
  f_equal. f_equal.
  destruct (decide (f = g)) as [->|Hne].
  - rewrite Z.eqb_refl. symmetry. by apply bool_decide_eq_true.
  - destruct (Z.eqb_spec (Z.of_nat (flag_bit g)) (Z.of_nat (flag_bit f))) as [He|_].
    + exfalso. apply Hne. symmetry. apply flag_bit_inj. lia.
    + symmetry. by apply bool_decide_eq_false.
Qed.

End flag_bits.

(** Clearing a flag clears it, whatever the bit positions. *)
Lemma flag_test_clear_same n g : flag_test (flag_clear n g) g = false.
Proof.
  rewrite flag_test_testbit. unfold flag_clear, flag_mask. simpl.
  rewrite Z.land_spec, Z.lnot_spec, Z.shiftl_1_l, Z.pow2_bits_true by lia.
  apply andb_false_r.
Qed.


(** *** Splitting a node: what it leaves in place *)

Lemma finalize_spec pbvh i n faces :
  nodes pbvh !! i = Some n -> bm_faces n = Some faces ->
  exists p',
    pbvh_bmesh_node_finalize pbvh i = Some p' /\
    length (nodes p') = length (nodes pbvh) /\
    leaf_limit p' = leaf_limit pbvh /\
    (forall j, j ≠ i -> nodes p' !! j = nodes pbvh !! j).
Proof.
  intros Hn Hf. unfold pbvh_bmesh_node_finalize. rewrite Hn. simpl. rewrite Hf. simpl.
  eexists. split; [reflexivity|]. simpl.
  split; [apply length_insert|]. split; [reflexivity|].
  intros j Hj. by apply list_lookup_insert_ne.
Qed.

Lemma node_split_spec rem : forall pbvh bbc i n faces,
  nodes pbvh !! i = Some n -> bm_faces n = Some faces ->
  exists p',
    pbvh_bmesh_node_split rem pbvh bbc i = Some p' /\
    length (nodes pbvh) <= length (nodes p') /\
    leaf_limit p' = leaf_limit pbvh /\
    (forall j, j < length (nodes pbvh) -> j ≠ i -> nodes p' !! j = nodes pbvh !! j) /\
    (rem ≠ 0 -> (leaf_limit pbvh < BLI_table_gset_len faces)%Z ->
     exists n',
       nodes p' !! i = Some n' /\
       flag n' = Z.land (flag n) (Z.lnot (flag_mask PBVH_Leaf)) /\
       children_offset n' = length (nodes pbvh) /\
       length (nodes pbvh) + 2 <= length (nodes p')).
Proof.
  induction rem as [|rem IH]; intros pbvh bbc i n faces Hn Hf.
  - destruct (finalize_spec pbvh i n faces Hn Hf) as (p' & Hp & Hlen & Hlim & Hfr).
    exists p'. simpl. rewrite Hn. simpl. rewrite Hf. simpl.
    split; [exact Hp|]. split; [lia|]. split; [exact Hlim|].
    split; [intros j _ Hj; by apply Hfr | intros H; by destruct H].
  - simpl. rewrite Hn. simpl. rewrite Hf. simpl.
    destruct (Z.leb_spec (BLI_table_gset_len faces) (leaf_limit pbvh)) as [Hle|Hgt].
    { destruct (finalize_spec pbvh i n faces Hn Hf) as (p' & Hp & Hlen & Hlim & Hfr).
      exists p'. split; [exact Hp|]. split; [lia|]. split; [exact Hlim|].
      split; [intros j _ Hj; by apply Hfr | intros _ H; lia]. }
    assert (Hi : i < length (nodes pbvh)) by (eapply lookup_lt_Some; eassumption).
    unfold totnode. set (len := length (nodes pbvh)) in *.
    match goal with
    | |- context [set_bm (set_nodes pbvh (<[i := ?n1]> (nodes pbvh) ++ [?c1; ?c2])) ?m] =>
        set (n' := n1); set (ch1 := c1); set (ch2 := c2);
        set (p0 := set_bm (set_nodes pbvh (<[i := n']> (nodes pbvh) ++ [ch1; ch2])) m)
    end.
    assert (Hlen0 : length (nodes p0) = len + 2).
    { unfold p0. simpl. rewrite length_app, length_insert. simpl. unfold len. lia. }
    assert (Hp0_lt : forall j, j < len -> nodes p0 !! j = <[i := n']> (nodes pbvh) !! j).
    { intros j Hj. unfold p0. simpl. apply lookup_app_l. by rewrite length_insert. }
    assert (Hc1 : nodes p0 !! len = Some ch1).
    { unfold p0. simpl. rewrite lookup_app_r by (rewrite length_insert; unfold len; lia).
      rewrite length_insert. unfold len. by rewrite Nat.sub_diag. }
    assert (Hc2 : nodes p0 !! (len + 1) = Some ch2).
    { unfold p0. simpl. rewrite lookup_app_r by (rewrite length_insert; unfold len; lia).
      rewrite length_insert. unfold len.
      replace (length (nodes pbvh) + 1 - length (nodes pbvh)) with 1 by lia.
      reflexivity. }
    destruct (IH p0 bbc len ch1 _ Hc1 eq_refl) as (p1 & Hs1 & Hl1 & Hlim1 & Hfr1 & _).
    rewrite Hs1. simpl.
    assert (Hc2' : nodes p1 !! (len + 1) = Some ch2).
    { rewrite Hfr1; [exact Hc2 | lia | lia]. }
    destruct (IH p1 bbc (len + 1) ch2 _ Hc2' eq_refl) as (p2 & Hs2 & Hl2 & Hlim2 & Hfr2 & _).
    rewrite Hs2. simpl.
    assert (Hni : nodes p2 !! i = Some n').
    { rewrite Hfr2 by lia. rewrite Hfr1 by lia. rewrite Hp0_lt by lia.
      by apply list_lookup_insert_eq. }
    rewrite Hni. simpl.
    assert (Hlen2 : len + 2 <= length (nodes p2)) by lia.
    destruct (lookup_lt_is_Some_2 (nodes p2) len ltac:(lia)) as [x1 Hx1].
    destruct (lookup_lt_is_Some_2 (nodes p2) (len + 1) ltac:(lia)) as [x2 Hx2].
    fold len. rewrite Hx1. simpl. rewrite Hx2. simpl.
    eexists. split; [reflexivity|]. simpl. rewrite length_insert.
    split; [fold len; lia|]. split; [by rewrite Hlim2, Hlim1|].
    split.
    + intros j Hj Hji. rewrite list_lookup_insert_ne by done.
      fold len in Hj. rewrite Hfr2 by lia. rewrite Hfr1 by lia. rewrite Hp0_lt by lia.
      by apply list_lookup_insert_ne.
    + intros _ _. eexists. split; [apply list_lookup_insert_eq; lia|].
      simpl. split; [reflexivity|]. split; [reflexivity | fold len; lia].
Qed.


#[local] Arguments pbvh_bmesh_node_split : simpl never.

Lemma limit_ensure_spec pbvh i n faces :
  nodes pbvh !! i = Some n -> bm_faces n = Some faces ->
  exists p' b,
    pbvh_bmesh_node_limit_ensure pbvh i = Some (p', b) /\
    length (nodes pbvh) <= length (nodes p') /\
    leaf_limit p' = leaf_limit pbvh /\
    (forall j, j < length (nodes pbvh) -> j ≠ i -> nodes p' !! j = nodes pbvh !! j) /\
    ((BLI_table_gset_len faces <= leaf_limit pbvh)%Z /\ p' = pbvh \/
     (leaf_limit pbvh < BLI_table_gset_len faces)%Z /\
     exists n',
       nodes p' !! i = Some n' /\
       flag n' = Z.land (flag n) (Z.lnot (flag_mask PBVH_Leaf)) /\
       children_offset n' = length (nodes pbvh) /\
       length (nodes pbvh) + 2 <= length (nodes p')).
Proof.
  intros Hn Hf. unfold pbvh_bmesh_node_limit_ensure. rewrite Hn. simpl. rewrite Hf. simpl.
  destruct (Z.leb_spec (BLI_table_gset_len faces) (leaf_limit pbvh)) as [Hle|Hgt].
  - exists pbvh, false. split; [reflexivity|]. split; [lia|]. split; [reflexivity|].
    split; [reflexivity | left; split; [assumption | reflexivity]].
  - match goal with
    | |- context [pbvh_bmesh_node_split 7 pbvh ?bbc i] =>
        destruct (node_split_spec 7 pbvh bbc i n faces Hn Hf)
          as (p' & Hs & Hlen & Hlim & Hfr & Hsplit)
    end.
    rewrite Hs. simpl. exists p', true. split; [reflexivity|].
    split; [exact Hlen|]. split; [exact Hlim|]. split; [exact Hfr|].
    right. split; [assumption|]. apply Hsplit; [discriminate | assumption].
Qed.

#[local] Arguments pbvh_bmesh_node_limit_ensure : simpl never.

(** *** The flag loops *)

(** A leaf the passes work on: flagged for topology update, not fully
    hidden. *)
Definition needs_update (node : PBVHNode) : bool :=
  flag_test node PBVH_Leaf && flag_test node PBVH_UpdateTopology
  && negb (flag_test node PBVH_FullyHidden).

Lemma flag_clear_then_split_unmarked node fl :
  fl = Z.land (flag (flag_clear node PBVH_UpdateTopology)) (Z.lnot (flag_mask PBVH_Leaf)) ->
  flag_test (set_flag node fl) PBVH_UpdateTopology = false /\
  flag_test (set_flag node fl) PBVH_Leaf = false.
Proof.
  intros ->. split.
  - rewrite flag_test_testbit. simpl. rewrite Z.land_spec.
    pose proof (flag_test_clear_same node PBVH_UpdateTopology) as H.
    rewrite flag_test_testbit in H. simpl in H. by rewrite H.
  - apply (flag_test_clear_same (flag_clear node PBVH_UpdateTopology) PBVH_Leaf).
Qed.

Section unmark.

Variable p : PBVH.
Hypothesis leaf_faces :
  forall j node, nodes p !! j = Some node -> needs_update node = true ->
                 is_Some (bm_faces node).

(** What the loop has done when it reaches index [k]. *)
Definition unmarked_below (updatePBVH : bool) (k : nat) (q : PBVH) : Prop :=
  length (nodes p) <= length (nodes q) /\
  leaf_limit q = leaf_limit p /\
  (forall j, k <= j < length (nodes p) -> nodes q !! j = nodes p !! j) /\
  (forall j node, j < k -> nodes p !! j = Some node -> needs_update node = true ->
     exists node',
       nodes q !! j = Some node' /\
       flag_test node' PBVH_UpdateTopology = false /\
       (updatePBVH = true ->
        forall faces, bm_faces node = Some faces ->
        (leaf_limit p < BLI_table_gset_len faces)%Z ->
        flag_test node' PBVH_Leaf = false /\
        length (nodes p) <= children_offset node' /\
        children_offset node' + 1 < length (nodes q))).

Lemma unmark_modified_node_step updatePBVH k q :
  k < length (nodes p) -> unmarked_below updatePBVH k q ->
  exists q', unmark_modified_node updatePBVH q k = Some q' /\
             unmarked_below updatePBVH (S k) q'.
Proof using leaf_faces.
  intros Hk (Hlen & Hlim & Hsame & Hdone).
  destruct (lookup_lt_is_Some_2 (nodes p) k Hk) as [node Hnode].
  assert (Hq : nodes q !! k = Some node) by (rewrite Hsame; [assumption | lia]).
  unfold unmark_modified_node. rewrite Hq. simpl. fold (needs_update node).
  destruct (needs_update node) eqn:Hneed.
  2:{ exists q. split; [reflexivity|]. split; [assumption|]. split; [assumption|].
      split; [intros j Hj; apply Hsame; lia|].
      intros j nd Hj Hnd Hneed'.
      destruct (decide (j = k)) as [->|Hne]; [congruence|].
      apply Hdone; [lia | assumption | assumption]. }
  destruct (leaf_faces k node Hnode Hneed) as [faces Hfaces].
  set (q1 := set_node q k (flag_clear node PBVH_UpdateTopology)).
  assert (Hq1k : nodes q1 !! k = Some (flag_clear node PBVH_UpdateTopology)).
  { unfold q1. simpl. apply list_lookup_insert_eq. lia. }
  assert (Hq1len : length (nodes q1) = length (nodes q)).
  { unfold q1. simpl. apply length_insert. }
  assert (Hq1ne : forall j, j ≠ k -> nodes q1 !! j = nodes q !! j).
  { intros j Hj. unfold q1. simpl. by apply list_lookup_insert_ne. }
  assert (Hkeep : forall q',
            length (nodes q) <= length (nodes q') ->
            (forall j, j < length (nodes q) -> j ≠ k -> nodes q' !! j = nodes q !! j) ->
            forall j nd, j < k -> nodes p !! j = Some nd -> needs_update nd = true ->
            exists node',
              nodes q' !! j = Some node' /\
              flag_test node' PBVH_UpdateTopology = false /\
              (updatePBVH = true ->
               forall fs, bm_faces nd = Some fs ->
               (leaf_limit p < BLI_table_gset_len fs)%Z ->
               flag_test node' PBVH_Leaf = false /\
               length (nodes p) <= children_offset node' /\
               children_offset node' + 1 < length (nodes q'))).
  { intros q' Hl Hfr j nd Hj Hnd Hneed'.
    destruct (Hdone j nd Hj Hnd Hneed') as (node' & Hl' & Hut & Hsplit).
    exists node'. split; [rewrite Hfr; [assumption | lia | lia]|].
    split; [assumption|]. intros Hu fs Hfs Hgt.
    destruct (Hsplit Hu fs Hfs Hgt) as (? & ? & ?). repeat split; [assumption | assumption | lia]. }
  destruct updatePBVH eqn:Hupd.
  - destruct (limit_ensure_spec q1 k _ faces Hq1k Hfaces)
      as (q' & b & Hle & Hlen' & Hlim' & Hfr & Hcase).
    rewrite Hle. simpl. exists q'. split; [reflexivity|].
    split; [lia|]. split; [unfold q1 in Hlim'; simpl in Hlim'; congruence|].
    split; [intros j Hj; rewrite Hfr by lia; rewrite Hq1ne by lia; apply Hsame; lia|].
    intros j nd Hj Hnd Hneed'.
    destruct (decide (j = k)) as [->|Hne].
    + assert (nd = node) by congruence. subst nd.
      destruct Hcase as [[Hsmall ->]|(Hbig & n' & Hn' & Hfl & Hch & Hgrow)].
      * exists (flag_clear node PBVH_UpdateTopology). split; [assumption|].
        split; [apply flag_test_clear_same|].
        intros _ fs Hfs Hgt. exfalso.
        assert (fs = faces) by congruence. subst fs.
        unfold q1 in Hsmall. simpl in Hsmall. lia.
      * exists n'. split; [assumption|].
        destruct (flag_clear_then_split_unmarked node (flag n') Hfl) as [Hut Hlf].
        unfold flag_test in Hut, Hlf |- *. simpl in Hut, Hlf.
        split; [exact Hut|]. intros _ fs Hfs Hgt.
        split; [exact Hlf|]. rewrite Hch. lia.
    + apply Hkeep; [lia | | lia | assumption | assumption].
      intros j' Hj' Hne'. rewrite Hfr by lia. by apply Hq1ne.
  - exists q1. split; [reflexivity|]. split; [lia|]. split; [assumption|].
    split; [intros j Hj; rewrite Hq1ne by lia; apply Hsame; lia|].
    intros j nd Hj Hnd Hneed'.
    destruct (decide (j = k)) as [->|Hne].
    + assert (nd = node) by congruence. subst nd.
      exists (flag_clear node PBVH_UpdateTopology). split; [assumption|].
      split; [apply flag_test_clear_same | intros Hu; discriminate].
    + apply Hkeep; [lia | | lia | assumption | assumption].
      intros j' Hj' Hne'. by apply Hq1ne.
Qed.

Lemma for_nodes_unmark updatePBVH m : forall k q,
  k + m = length (nodes p) -> unmarked_below updatePBVH k q ->
  exists q',
    for_nodes (unmark_modified_node updatePBVH) (seq k m) q = Some q' /\
    unmarked_below updatePBVH (length (nodes p)) q'.
Proof using leaf_faces.
  induction m as [|m IH]; intros k q Hkm Hinv; simpl.
  - exists q. split; [reflexivity|]. by replace (length (nodes p)) with k by lia.
  - destruct (unmark_modified_node_step updatePBVH k q ltac:(lia) Hinv) as (q1 & Hstep & Hinv1).
    rewrite Hstep. simpl. apply IH; [lia | assumption].
Qed.

End unmark.


(** *** Order of the passes *)

Definition requested (mode : Z) (k : pass_kind) : bool :=
  match k with
  | Collapse => mode_has mode PBVH_Collapse
  | Subdivide => mode_has mode PBVH_Subdivide
  | Cleanup => mode_has mode PBVH_Cleanup
  end.

Lemma update_topology_passes_order pbvh mode args :
  pass_of <$> ts_log (update_topology_passes pbvh mode args) =
  List.filter (requested mode) [Collapse; Subdivide; Cleanup].
Proof.
  unfold update_topology_passes, requested. simpl.
  destruct (mode_has mode PBVH_Collapse), (mode_has mode PBVH_Subdivide),
           (mode_has mode PBVH_Cleanup);
    unfold topology_collapse, topology_subdivide, topology_cleanup; simpl;
    repeat match goal with
           | |- context [let '(_, _) := ?x in _] => destruct x; simpl
           end;
    reflexivity.
Qed.

(** The edge-queue context the entry point starts from. *)
Definition eq_ctx_start : EdgeQueueContext :=
  {| q_elems := []; avg_elen := 0; max_elen := - inject_Z (10 ^ 17);
     min_elen := inject_Z (10 ^ 17); totedge := 0 |}.



(** *** Joining nodes after a stroke

    [pbvh_bmesh_join_nodes] has two phases.  The first stores the face
    counts of all subtrees and runs [BKE_pbvh_bmesh_corect_tree] from the
    root.  The second drops the nodes flagged [PBVH_Delete] from the node
    array, renumbers the rest and sets the owners of vertices and faces
    again.

    The three functions of the first phase recurse along
    [children_offset]; [fuel] bounds the depth of the recursion.  The face
    counts are [int] in the source and integers here.  The triangle buffers
    and index arrays of a node are not part of [PBVHNode]. *)

(** [TGSET_ITER (x, table) { body }] with a body that may fail. *)
Fixpoint for_each {S A : Type} (body : S -> A -> option S) (s : S) (l : list A)
    : option S :=
  match l with
  | [] => Some s
  | x :: l => s ← body s x; for_each body s l
  end.

Definition set_tables (n : PBVHNode) (faces : option (TableGSet BMFace))
    (unique other : option (TableGSet BMVert)) : PBVHNode :=
  {| flag := flag n; children_offset := children_offset n;
     bm_faces := faces; bm_unique_verts := unique; bm_other_verts := other;
     vb := vb n; orig_vb := orig_vb n; subtree_tottri := subtree_tottri n;
     draw_buffers := draw_buffers n; layer_disp := layer_disp n |}.

Fixpoint pbvh_count_subtree_verts (fuel : nat) (pbvh : PBVH) (n : nat)
    : option (PBVH * Z) :=
  match fuel with
  | O => None
  | S fuel =>
      node ← nodes pbvh !! n;
      if flag_test node PBVH_Leaf then
        faces ← bm_faces node;
        let tot := BLI_table_gset_len faces in
        Some (set_node pbvh n (set_subtree_tottri node tot), tot)
      else
        let ni := children_offset node in
        '(pbvh, ret1) ← pbvh_count_subtree_verts fuel pbvh ni;
        '(pbvh, ret2) ← pbvh_count_subtree_verts fuel pbvh (ni + 1);
        node ← nodes pbvh !! n;
        let ret := (ret1 + ret2)%Z in
        Some (set_node pbvh n (set_subtree_tottri node ret), ret)
  end.

(** The bodies of the two loops of [pbvh_bmesh_join_subnodes] over the
    tables of a leaf. *)
Definition join_vert (parent : nat) (pbvh : PBVH) (v : BMVert) : option PBVH :=
  par ← nodes pbvh !! parent;
  unique ← bm_unique_verts par;
  let par := set_tables par (bm_faces par) (Some (BLI_table_gset_add unique v))
               (bm_other_verts par) in
  Some (set_bm (set_node pbvh parent par) (set_v_node (bm pbvh) v DYNTOPO_NODE_NONE)).

Definition join_face (parent : nat) (pbvh : PBVH) (f : BMFace) : option PBVH :=
  par ← nodes pbvh !! parent;
  faces ← bm_faces par;
  let par := set_tables par (Some (BLI_table_gset_add faces f)) (bm_unique_verts par)
               (bm_other_verts par) in
  Some (set_bm (set_node pbvh parent par) (set_f_node (bm pbvh) f DYNTOPO_NODE_NONE)).

(** [node->flag |= PBVH_Delete] unless the node is the one joined into. *)
Definition mark_delete (pbvh : PBVH) (node parent : nat) : option PBVH :=
  if decide (node = parent) then Some pbvh
  else n ← nodes pbvh !! node; Some (set_node pbvh node (flag_or n [PBVH_Delete])).

Fixpoint pbvh_bmesh_join_subnodes (fuel : nat) (pbvh : PBVH) (node parent : nat)
    : option PBVH :=
  match fuel with
  | O => None
  | S fuel =>
      n ← nodes pbvh !! node;
      if negb (flag_test n PBVH_Leaf) then
        let ni := children_offset n in
        (* ni > 0 && ni < pbvh->totnode - 1 *)
        if decide (0 < ni /\ ni + 1 < totnode pbvh) then
          pbvh ← pbvh_bmesh_join_subnodes fuel pbvh ni parent;
          pbvh ← pbvh_bmesh_join_subnodes fuel pbvh (ni + 1) parent;
          mark_delete pbvh node parent
        else
          (* node corruption *)
          Some pbvh
      else
        pbvh ← mark_delete pbvh node parent;
        n ← nodes pbvh !! node;
        unique ← bm_unique_verts n;
        pbvh ← for_each (join_vert parent) pbvh unique;
        n ← nodes pbvh !! node;
        faces ← bm_faces n;
        for_each (join_face parent) pbvh faces
  end.

(** The flags a joined node gets. *)
Definition joined_flags : list PBVHNodeFlags :=
  [PBVH_Leaf; PBVH_UpdateRedraw; PBVH_UpdateBB; PBVH_UpdateDrawBuffers;
   PBVH_RebuildDrawBuffers; PBVH_UpdateOriginalBB; PBVH_UpdateMask;
   PBVH_UpdateVisibility; PBVH_UpdateColor; PBVH_UpdateTopology;
   PBVH_UpdateNormals; PBVH_UpdateTris].

(** The loop that rebuilds [bm_other_verts]: the loop vertices of the
    node's faces that are not among its unique vertices. *)
Definition rebuild_other (m : BMesh) (unique : TableGSet BMVert)
    (faces : TableGSet BMFace) : TableGSet BMVert :=
  foldl (fun other f =>
           foldl (fun other v =>
                    if BLI_table_gset_haskey unique v then other
                    else BLI_table_gset_add other v)
                 other (f_verts m f))
        [] faces.

(** [BB_reset], then [BB_expand] over the unique and the other vertices. *)
Definition rebuild_vb (m : BMesh) (unique other : TableGSet BMVert) : BB :=
  foldl (fun b v => BB_expand b (v_co m v))
        (foldl (fun b v => BB_expand b (v_co m v)) BB_reset unique) other.

(** The [parent] argument of the source is not used. *)
Fixpoint BKE_pbvh_bmesh_corect_tree (fuel : nat) (pbvh : PBVH) (node : nat)
    : option PBVH :=
  match fuel with
  | O => None
  | S fuel =>
      let size_lower := (leaf_limit pbvh - Z.shiftr (leaf_limit pbvh) 1)%Z in
      n ← nodes pbvh !! node;
      if flag_test n PBVH_Leaf then Some pbvh
      else if decide ((subtree_tottri n < size_lower)%Z /\ node <> 0) then
        (* join nodes if subtree lacks verts, unless node is root *)
        let pbvh := set_node pbvh node (set_tables n (Some []) (Some []) (Some [])) in
        pbvh ← pbvh_bmesh_join_subnodes fuel pbvh (children_offset n) node;
        n ← nodes pbvh !! node;
        pbvh ← pbvh_bmesh_join_subnodes fuel pbvh (children_offset n + 1) node;
        n ← nodes pbvh !! node;
        faces ← bm_faces n;
        unique ← bm_unique_verts n;
        let other := rebuild_other (bm pbvh) unique faces in
        let box := rebuild_vb (bm pbvh) unique other in
        let n := {| flag := flag (flag_or n joined_flags);
                    children_offset := 0;
                    bm_faces := Some faces;
                    bm_unique_verts := Some unique;
                    bm_other_verts := Some other;
                    vb := box; orig_vb := box;
                    subtree_tottri := subtree_tottri n;
                    draw_buffers := false;
                    layer_disp := layer_disp n |} in
        Some (set_bm (set_node pbvh node n)
                (foldl (fun m f => set_f_node m f DYNTOPO_NODE_NONE) (bm pbvh) faces))
      else
        let ni := children_offset n in
        pbvh ← BKE_pbvh_bmesh_corect_tree fuel pbvh ni;
        BKE_pbvh_bmesh_corect_tree fuel pbvh (ni + 1)
  end.

(** [pbvh_bmesh_join_nodes] up to the compaction of the node array. *)
Definition pbvh_bmesh_join_nodes_merge (pbvh : PBVH) : option PBVH :=
  if decide (totnode pbvh < 2) then Some pbvh
  else
    '(pbvh, _) ← pbvh_count_subtree_verts (totnode pbvh) pbvh 0;
    BKE_pbvh_bmesh_corect_tree (totnode pbvh) pbvh 0.

(** The compaction.  Its loops, in the order of the source. *)
Definition set_children_offset (n : PBVHNode) (c : nat) : PBVHNode :=
  {| flag := flag n; children_offset := c;
     bm_faces := bm_faces n; bm_unique_verts := bm_unique_verts n;
     bm_other_verts := bm_other_verts n; vb := vb n; orig_vb := orig_vb n;
     subtree_tottri := subtree_tottri n;
     draw_buffers := draw_buffers n; layer_disp := layer_disp n |}.

(** [BLI_table_gset_remove] (see [TableGSet]). *)
Definition BLI_table_gset_remove `{EqDecision A} (ts : TableGSet A) (x : A)
    : TableGSet A :=
  filter (fun y => y <> x) ts.

(** New, empty tables for a node that has none. *)
Definition ensure_tables (n : PBVHNode) : PBVHNode :=
  match bm_unique_verts n with
  | Some _ => n
  | None => set_tables n (Some []) (Some []) (Some [])
  end.

(** A kept inner node with one child flagged and one not gets the flagged
    child back as an empty leaf; with both flagged it becomes a leaf. *)
Definition join_nodes_undelete (pbvh : PBVH) (i : nat) : option PBVH :=
  n ← nodes pbvh !! i;
  if flag_test n PBVH_Delete || flag_test n PBVH_Leaf then Some pbvh
  else
    let c := children_offset n in
    n1 ← nodes pbvh !! c;
    n2 ← nodes pbvh !! (c + 1);
    if xorb (flag_test n1 PBVH_Delete) (flag_test n2 PBVH_Delete) then
      (* un-deleting an empty node *)
      let i3 := if flag_test n1 PBVH_Delete then c else c + 1 in
      n3 ← nodes pbvh !! i3;
      let n3 := set_flag n3 (flag_masks [PBVH_Leaf; PBVH_UpdateTris]) in
      Some (set_node pbvh i3 (set_tables n3 (Some []) (Some []) (Some [])))
    else if flag_test n1 PBVH_Delete && flag_test n2 PBVH_Delete then
      let n := set_children_offset (flag_or n [PBVH_Leaf; PBVH_UpdateTris]) 0 in
      Some (set_node pbvh i (ensure_tables n))
    else Some pbvh.

(** build idx map for child offsets: [map[i] = j++] for a kept node; the
    entry of a dropped node stays 0. *)
Definition join_nodes_map (ns : list PBVHNode) : list nat :=
  fst (foldl (fun '(map, j) n =>
                if flag_test n PBVH_Delete then (map ++ [0], j)
                else (map ++ [j], S j))
             ([], 0) ns).

(** A dropped node is freed. *)
Definition join_nodes_free (n : PBVHNode) : PBVHNode :=
  if flag_test n PBVH_Delete then
    {| flag := flag n; children_offset := children_offset n;
       bm_faces := None; bm_unique_verts := None; bm_other_verts := None;
       vb := vb n; orig_vb := orig_vb n; subtree_tottri := subtree_tottri n;
       draw_buffers := false; layer_disp := false |}
  else n.

(** compact node array: [nodes[j] = nodes[i]] for the kept nodes, with the
    child offset renumbered.  The write position never passes the read
    position, so every node is read as the earlier loops left it; the array
    ends after the last node written. *)
Definition join_nodes_compact (ns : list PBVHNode) (map : list nat) : list PBVHNode :=
  foldl (fun out n =>
           if flag_test n PBVH_Delete then out
           else if decide (length ns <= children_offset n + 1) then out
           else out ++ [set_children_offset n (default 0 (map !! children_offset n))])
        [] ns.

(** set vert/face node indices again *)
Definition join_nodes_own (pbvh : PBVH) (i : nat) : option PBVH :=
  n ← nodes pbvh !! i;
  if negb (flag_test n PBVH_Leaf) then Some pbvh
  else
    let n := ensure_tables n in
    unique ← bm_unique_verts n;
    faces ← bm_faces n;
    let m := foldl (fun m v => set_v_node m v (Z.of_nat i)) (bm pbvh) unique in
    let m := foldl (fun m f => set_f_node m f (Z.of_nat i)) m faces in
    Some (set_bm (set_node pbvh i n) m).

(** The other vertices of a leaf that no node owns become its own. *)
Definition join_nodes_adopt_vert (i : nat) (pbvh : PBVH) (v : BMVert) : option PBVH :=
  n ← nodes pbvh !! i;
  other ← bm_other_verts n;
  unique ← bm_unique_verts n;
  let n := set_tables n (bm_faces n) (Some (BLI_table_gset_add unique v))
             (Some (BLI_table_gset_remove other v)) in
  Some (set_bm (set_node pbvh i n) (set_v_node (bm pbvh) v (Z.of_nat i))).

Definition join_nodes_adopt (pbvh : PBVH) (i : nat) : option PBVH :=
  n ← nodes pbvh !! i;
  if negb (flag_test n PBVH_Leaf) then Some pbvh
  else
    other ← bm_other_verts n;
    let scratch := filter (fun v => v_node (bm pbvh) v = DYNTOPO_NODE_NONE) other in
    for_each (join_nodes_adopt_vert i) pbvh scratch.

Definition pbvh_bmesh_compact_nodes (pbvh : PBVH) : option PBVH :=
  pbvh ← for_nodes join_nodes_undelete (seq 0 (totnode pbvh)) pbvh;
  let map := join_nodes_map (nodes pbvh) in
  let ns := join_nodes_free <$> nodes pbvh in
  let pbvh := set_nodes pbvh (join_nodes_compact ns map) in
  pbvh ← for_nodes join_nodes_own (seq 0 (totnode pbvh)) pbvh;
  for_nodes join_nodes_adopt (seq 0 (totnode pbvh)) pbvh.

Definition pbvh_bmesh_join_nodes (pbvh : PBVH) : option PBVH :=
  if decide (totnode pbvh < 2) then Some pbvh
  else
    '(pbvh, _) ← pbvh_count_subtree_verts (totnode pbvh) pbvh 0;
    pbvh ← BKE_pbvh_bmesh_corect_tree (totnode pbvh) pbvh 0;
    pbvh_bmesh_compact_nodes pbvh.


(** **** The tree in the node array

    A node array is read as a binary tree along [children_offset]: a view
    names the position of every node of a subtree.  A node array in which
    every position is reached once from the root has one; positions are
    then pairwise different ([NoDup] of [indices]). *)
Inductive node_tree :=
| TLeaf (i : nat)
| TNode (i : nat) (l r : node_tree).

Definition root_of (t : node_tree) : nat :=
  match t with TLeaf i | TNode i _ _ => i end.

Fixpoint indices (t : node_tree) : list nat :=
  match t with
  | TLeaf i => [i]
  | TNode i l r => i :: indices l ++ indices r
  end.

Fixpoint depth (t : node_tree) : nat :=
  match t with
  | TLeaf _ => 0
  | TNode _ l r => S (Nat.max (depth l) (depth r))
  end.

(** The array has the subtree [t]: leaves are leaves with their tables
    allocated, the children of an inner node are at its [children_offset]
    and the position after it. *)
Fixpoint shape (ns : list PBVHNode) (t : node_tree) : Prop :=
  match t with
  | TLeaf i =>
      exists n, ns !! i = Some n /\ flag_test n PBVH_Leaf = true /\
                is_Some (bm_faces n) /\ is_Some (bm_unique_verts n)
  | TNode i l r =>
      exists n, ns !! i = Some n /\ flag_test n PBVH_Leaf = false /\
                children_offset n = root_of l /\ S (root_of l) = root_of r /\
                shape ns l /\ shape ns r
  end.

(** The faces and the unique vertices in the leaves of a subtree, from left
    to right. *)
Fixpoint subtree_faces (ns : list PBVHNode) (t : node_tree) : list BMFace :=
  match t with
  | TLeaf i => default [] (ns !! i ≫= bm_faces)
  | TNode _ l r => subtree_faces ns l ++ subtree_faces ns r
  end.

Fixpoint subtree_unique (ns : list PBVHNode) (t : node_tree) : list BMVert :=
  match t with
  | TLeaf i => default [] (ns !! i ≫= bm_unique_verts)
  | TNode _ l r => subtree_unique ns l ++ subtree_unique ns r
  end.

(** The face count of a subtree: the sum of the lengths of the face tables
    of its leaves. *)
Definition total (ns : list PBVHNode) (t : node_tree) : Z :=
  Z.of_nat (length (subtree_faces ns t)).

(** Every node of the subtree has its face count in [subtree_tottri]. *)
Fixpoint tottri_ok (ns : list PBVHNode) (t : node_tree) : Prop :=
  (exists n, ns !! root_of t = Some n /\ subtree_tottri n = total ns t) /\
  match t with
  | TLeaf _ => True
  | TNode _ l r => tottri_ok ns l /\ tottri_ok ns r
  end.

(** What the tree is read from. *)
Definition skeleton (n : PBVHNode)
    : Z * nat * option (TableGSet BMFace) * option (TableGSet BMVert) :=
  (flag n, children_offset n, bm_faces n, bm_unique_verts n).

Definition agree (ns ns' : list PBVHNode) (t : node_tree) : Prop :=
  forall j, j ∈ indices t -> skeleton <$> ns' !! j = skeleton <$> ns !! j.

Lemma root_in_indices t : root_of t ∈ indices t.
Proof. destruct t; simpl; apply elem_of_cons; by left. Qed.

Lemma agree_same ns ns' t :
  (forall j, j ∈ indices t -> ns' !! j = ns !! j) -> agree ns ns' t.
Proof. intros H j Hj. by rewrite H. Qed.

Lemma agree_node_l ns ns' i l r : agree ns ns' (TNode i l r) -> agree ns ns' l.
Proof.
  intros H j Hj. apply H. simpl. apply elem_of_cons. right.
  apply elem_of_app. by left.
Qed.

Lemma agree_node_r ns ns' i l r : agree ns ns' (TNode i l r) -> agree ns ns' r.
Proof.
  intros H j Hj. apply H. simpl. apply elem_of_cons. right.
  apply elem_of_app. by right.
Qed.

Lemma agree_lookup ns ns' t j n :
  agree ns ns' t -> j ∈ indices t -> ns !! j = Some n ->
  exists n', ns' !! j = Some n' /\ skeleton n' = skeleton n.
Proof.
  intros H Hj Hn. specialize (H j Hj). rewrite Hn in H. simpl in H.
  destruct (ns' !! j) as [n'|]; [|discriminate].
  exists n'. split; [reflexivity|]. simpl in H. unfold skeleton in *. congruence.
Qed.

Lemma skeleton_flag_test n n' f :
  skeleton n' = skeleton n -> flag_test n' f = flag_test n f.
Proof. intros H. injection H as Hf _ _ _. unfold flag_test. by rewrite Hf. Qed.

Lemma shape_agree ns ns' t : agree ns ns' t -> shape ns t -> shape ns' t.
Proof.
  induction t as [i|i l IHl r IHr]; simpl; intros Ha.
  - intros (n & Hn & Hleaf & Hf & Hu).
    destruct (agree_lookup ns ns' (TLeaf i) i n Ha (root_in_indices (TLeaf i)) Hn)
      as (n' & Hn' & Hs).
    exists n'. rewrite (skeleton_flag_test _ _ _ Hs).
    injection Hs as _ _ -> ->. auto.
  - intros (n & Hn & Hleaf & Hc & Hr & Hl & Hrr).
    destruct (agree_lookup ns ns' (TNode i l r) i n Ha (root_in_indices (TNode i l r)) Hn)
      as (n' & Hn' & Hs).
    exists n'. rewrite (skeleton_flag_test _ _ _ Hs).
    injection Hs as _ -> _ _.
    split; [assumption|]. split; [assumption|]. split; [assumption|].
    split; [assumption|].
    split; [apply IHl | apply IHr];
      eauto using agree_node_l, agree_node_r.
Qed.

Lemma subtree_faces_agree ns ns' t :
  agree ns ns' t -> subtree_faces ns' t = subtree_faces ns t.
Proof.
  induction t as [i|i l IHl r IHr]; simpl; intros Ha.
  - specialize (Ha i (root_in_indices (TLeaf i))).
    destruct (ns !! i) as [n|], (ns' !! i) as [n'|]; simpl in *;
      try discriminate; [|reflexivity].
    injection Ha as _ _ -> _. reflexivity.
  - rewrite IHl, IHr; eauto using agree_node_l, agree_node_r.
Qed.

Lemma subtree_unique_agree ns ns' t :
  agree ns ns' t -> subtree_unique ns' t = subtree_unique ns t.
Proof.
  induction t as [i|i l IHl r IHr]; simpl; intros Ha.
  - specialize (Ha i (root_in_indices (TLeaf i))).
    destruct (ns !! i) as [n|], (ns' !! i) as [n'|]; simpl in *;
      try discriminate; [|reflexivity].
    injection Ha as _ _ _ ->. reflexivity.
  - rewrite IHl, IHr; eauto using agree_node_l, agree_node_r.
Qed.

Lemma total_agree ns ns' t : agree ns ns' t -> total ns' t = total ns t.
Proof. intros Ha. unfold total. by rewrite (subtree_faces_agree _ _ _ Ha). Qed.

Lemma shape_root ns t : shape ns t -> exists n, ns !! root_of t = Some n.
Proof. destruct t; simpl; intros (n & Hn & _); eauto. Qed.

Lemma tottri_ok_same ns ns' t :
  (forall j, j ∈ indices t -> ns' !! j = ns !! j) -> tottri_ok ns t -> tottri_ok ns' t.
Proof.
  induction t as [i|i l IHl r IHr]; intros Hs [(n & Hn & Ht) Hrec].
  - split; [|exact I]. exists n. rewrite (total_agree ns ns') by by apply agree_same.
    split; [|assumption]. rewrite Hs; [assumption | apply root_in_indices].
  - split.
    + exists n. rewrite (total_agree ns ns') by by apply agree_same.
      split; [|assumption]. rewrite Hs; [assumption | apply root_in_indices].
    + destruct Hrec as [Hl Hr].
      split; [apply IHl | apply IHr]; try assumption;
        intros j Hj; apply Hs; simpl; apply elem_of_cons; right;
        apply elem_of_app; auto.
Qed.


(** **** Counting *)

(** Two node arrays that differ in the [subtree_tottri] fields only. *)
Definition only_tottri (ns ns' : list PBVHNode) : Prop :=
  length ns' = length ns /\
  forall j n, ns !! j = Some n -> exists x, ns' !! j = Some (set_subtree_tottri n x).

Lemma only_tottri_trans ns1 ns2 ns3 :
  only_tottri ns1 ns2 -> only_tottri ns2 ns3 -> only_tottri ns1 ns3.
Proof.
  intros [Hl1 H1] [Hl2 H2]. split; [congruence|].
  intros j n Hn. destruct (H1 j n Hn) as [x Hx]. destruct (H2 j _ Hx) as [y Hy].
  exists y. rewrite Hy. reflexivity.
Qed.

Lemma only_tottri_insert ns i n x :
  ns !! i = Some n -> only_tottri ns (<[i := set_subtree_tottri n x]> ns).
Proof.
  intros Hn. split; [apply length_insert|].
  intros j m Hm. destruct (decide (j = i)) as [->|Hne].
  - rewrite list_lookup_insert_eq by (eapply lookup_lt_Some; eassumption).
    exists x. congruence.
  - rewrite list_lookup_insert_ne by congruence.
    exists (subtree_tottri m). rewrite Hm. by destruct m.
Qed.

Lemma only_tottri_agree ns ns' t : only_tottri ns ns' -> agree ns ns' t.
Proof.
  intros [Hl H] j _. destruct (ns !! j) as [n|] eqn:E.
  - destruct (H j n E) as [x ->]. reflexivity.
  - apply lookup_ge_None in E. rewrite (lookup_ge_None_2 ns' j) by lia. reflexivity.
Qed.

Lemma total_node ns i l r : total ns (TNode i l r) = (total ns l + total ns r)%Z.
Proof. unfold total. simpl. rewrite length_app. lia. Qed.

Lemma count_subtree_spec t : forall fuel pbvh,
  shape (nodes pbvh) t -> NoDup (indices t) -> depth t < fuel ->
  exists pbvh',
    pbvh_count_subtree_verts fuel pbvh (root_of t)
      = Some (pbvh', total (nodes pbvh) t) /\
    bm pbvh' = bm pbvh /\ leaf_limit pbvh' = leaf_limit pbvh /\
    only_tottri (nodes pbvh) (nodes pbvh') /\
    (forall j, j ∉ indices t -> nodes pbvh' !! j = nodes pbvh !! j) /\
    tottri_ok (nodes pbvh') t.
Proof.
  induction t as [i|i l IHl r IHr]; intros fuel pbvh Hsh Hnd Hfuel.
  - destruct fuel as [|fuel]; [simpl in Hfuel; lia|].
    destruct Hsh as (n & Hn & Hleaf & [fs Hfs] & _).
    assert (Hi : i < length (nodes pbvh)) by (eapply lookup_lt_Some; eassumption).
    assert (Htot : total (nodes pbvh) (TLeaf i) = BLI_table_gset_len fs).
    { unfold total. simpl. rewrite Hn. simpl. rewrite Hfs. reflexivity. }
    simpl. rewrite Hn. simpl. rewrite Hleaf, Hfs. simpl. rewrite <- Htot.
    eexists. split; [reflexivity|]. simpl.
    split; [reflexivity|]. split; [reflexivity|].
    split; [by apply only_tottri_insert|].
    split.
    { intros j Hj. apply list_lookup_insert_ne. intros ->. apply Hj.
      apply elem_of_cons. by left. }
    split; [|exact I].
    eexists. split; [by apply list_lookup_insert_eq|]. simpl.
    symmetry. apply total_agree, only_tottri_agree. by apply only_tottri_insert.
  - destruct fuel as [|fuel]; [simpl in Hfuel; lia|]. simpl in Hfuel.
    destruct Hsh as (n & Hn & Hleaf & Hc & Hr & Hl & Hrr).
    simpl in Hnd. apply NoDup_cons in Hnd as [Hi Hnd].
    apply NoDup_app in Hnd as (Hndl & Hdisj & Hndr).
    apply not_elem_of_app in Hi as [Hil Hir].
    destruct (IHl fuel pbvh Hl Hndl ltac:(lia))
      as (p1 & Hc1 & Hbm1 & Hll1 & Hot1 & Hfr1 & Hok1).
    assert (Hsh1 : shape (nodes p1) r).
    { apply (shape_agree (nodes pbvh)); [|assumption]. apply agree_same.
      intros j Hj. apply Hfr1. intros Hjl. exact (Hdisj j Hjl Hj). }
    destruct (IHr fuel p1 Hsh1 Hndr ltac:(lia))
      as (p2 & Hc2 & Hbm2 & Hll2 & Hot2 & Hfr2 & Hok2).
    rewrite (total_agree (nodes pbvh) (nodes p1) r) in Hc2
      by by apply only_tottri_agree.
    assert (Hn2 : nodes p2 !! i = Some n) by (rewrite Hfr2, Hfr1; auto).
    assert (Hot : only_tottri (nodes pbvh)
                    (<[i := set_subtree_tottri n
                              (total (nodes pbvh) (TNode i l r))]> (nodes p2))).
    { eapply only_tottri_trans; [|by apply only_tottri_insert].
      eapply only_tottri_trans; eassumption. }
    simpl. rewrite Hn. simpl. rewrite Hleaf, Hc, Hc1. simpl.
    replace (root_of l + 1) with (root_of r) by lia. rewrite Hc2. simpl.
    rewrite Hn2. simpl. rewrite <- (total_node _ i).
    eexists. split; [reflexivity|]. simpl.
    split; [congruence|]. split; [congruence|].
    split; [exact Hot|].
    split.
    { intros j Hj. apply not_elem_of_cons in Hj as [Hji Hj].
      apply not_elem_of_app in Hj as [Hjl Hjr].
      rewrite list_lookup_insert_ne by congruence. rewrite Hfr2, Hfr1; auto. }
    split.
    { eexists. split.
      - apply list_lookup_insert_eq. eapply lookup_lt_Some; eassumption.
      - simpl. symmetry. apply total_agree, only_tottri_agree, Hot. }
    split.
    + apply (tottri_ok_same (nodes p1)); [|assumption].
      intros j Hj. rewrite list_lookup_insert_ne by (intros ->; contradiction).
      apply Hfr2. intros Hjr. exact (Hdisj j Hj Hjr).
    + apply (tottri_ok_same (nodes p2)); [|assumption].
      intros j Hj. apply list_lookup_insert_ne. intros ->. contradiction.
Qed.


(** **** Joining a subtree into a node *)

(** The mesh as the bounding boxes and the other-vertex tables read it. *)
Definition same_geometry (m m' : BMesh) : Prop :=
  v_co m' = v_co m /\ f_verts m' = f_verts m.

Lemma same_geometry_trans m1 m2 m3 :
  same_geometry m1 m2 -> same_geometry m2 m3 -> same_geometry m1 m3.
Proof. intros [H1 H2] [H3 H4]. split; congruence. Qed.

Lemma set_tables_id n fs us :
  bm_faces n = Some fs -> bm_unique_verts n = Some us ->
  set_tables n (Some fs) (Some us) (bm_other_verts n) = n.
Proof. destruct n; simpl; intros -> ->; reflexivity. Qed.

Lemma for_each_cons {S A : Type} (body : S -> A -> option S) s x l :
  for_each body s (x :: l) = body s x ≫= fun s => for_each body s l.
Proof. reflexivity. Qed.

Lemma for_each_join_vert p vs : forall pbvh par fs us,
  nodes pbvh !! p = Some par ->
  bm_faces par = Some fs -> bm_unique_verts par = Some us ->
  exists pbvh',
    for_each (join_vert p) pbvh vs = Some pbvh' /\
    nodes pbvh' !! p
      = Some (set_tables par (Some fs) (Some (foldl BLI_table_gset_add us vs))
                (bm_other_verts par)) /\
    (forall j, j <> p -> nodes pbvh' !! j = nodes pbvh !! j) /\
    length (nodes pbvh') = length (nodes pbvh) /\
    leaf_limit pbvh' = leaf_limit pbvh /\
    same_geometry (bm pbvh) (bm pbvh').
Proof.
  induction vs as [|v vs IH]; intros pbvh par fs us Hp Hfs Hus.
  - exists pbvh. simpl. rewrite set_tables_id by assumption.
    repeat split; auto.
  - assert (Hlt : p < length (nodes pbvh)) by (eapply lookup_lt_Some; eassumption).
    set (par1 := set_tables par (Some fs) (Some (BLI_table_gset_add us v))
                   (bm_other_verts par)).
    set (pbvh1 := set_bm (set_node pbvh p par1)
                    (set_v_node (bm pbvh) v DYNTOPO_NODE_NONE)).
    assert (Hstep : join_vert p pbvh v = Some pbvh1).
    { unfold join_vert. rewrite Hp. simpl. rewrite Hus. simpl.
      rewrite Hfs. reflexivity. }
    destruct (IH pbvh1 par1 fs (BLI_table_gset_add us v))
      as (pbvh' & Hrun & Hp' & Hfr & Hlen & Hll & Hg).
    { simpl. by apply list_lookup_insert_eq. }
    { reflexivity. }
    { reflexivity. }
    exists pbvh'.
    split; [rewrite for_each_cons, Hstep; exact Hrun|]. split; [exact Hp'|].
    split.
    { intros j Hj. rewrite Hfr by assumption. simpl.
      apply list_lookup_insert_ne. congruence. }
    split; [rewrite Hlen; simpl; apply length_insert|].
    split; [rewrite Hll; reflexivity|].
    eapply same_geometry_trans; [|exact Hg]. split; reflexivity.
Qed.

Lemma for_each_join_face p faces : forall pbvh par fs us,
  nodes pbvh !! p = Some par ->
  bm_faces par = Some fs -> bm_unique_verts par = Some us ->
  exists pbvh',
    for_each (join_face p) pbvh faces = Some pbvh' /\
    nodes pbvh' !! p
      = Some (set_tables par (Some (foldl BLI_table_gset_add fs faces)) (Some us)
                (bm_other_verts par)) /\
    (forall j, j <> p -> nodes pbvh' !! j = nodes pbvh !! j) /\
    length (nodes pbvh') = length (nodes pbvh) /\
    leaf_limit pbvh' = leaf_limit pbvh /\
    same_geometry (bm pbvh) (bm pbvh').
Proof.
  induction faces as [|f faces IH]; intros pbvh par fs us Hp Hfs Hus.
  - exists pbvh. simpl. rewrite set_tables_id by assumption.
    repeat split; auto.
  - assert (Hlt : p < length (nodes pbvh)) by (eapply lookup_lt_Some; eassumption).
    set (par1 := set_tables par (Some (BLI_table_gset_add fs f)) (Some us)
                   (bm_other_verts par)).
    set (pbvh1 := set_bm (set_node pbvh p par1)
                    (set_f_node (bm pbvh) f DYNTOPO_NODE_NONE)).
    assert (Hstep : join_face p pbvh f = Some pbvh1).
    { unfold join_face. rewrite Hp. simpl. rewrite Hfs. simpl.
      rewrite Hus. reflexivity. }
    destruct (IH pbvh1 par1 (BLI_table_gset_add fs f) us)
      as (pbvh' & Hrun & Hp' & Hfr & Hlen & Hll & Hg).
    { simpl. by apply list_lookup_insert_eq. }
    { reflexivity. }
    { reflexivity. }
    exists pbvh'.
    split; [rewrite for_each_cons, Hstep; exact Hrun|]. split; [exact Hp'|].
    split.
    { intros j Hj. rewrite Hfr by assumption. simpl.
      apply list_lookup_insert_ne. congruence. }
    split; [rewrite Hlen; simpl; apply length_insert|].
    split; [rewrite Hll; reflexivity|].
    eapply same_geometry_trans; [|exact Hg]. split; reflexivity.
Qed.


Lemma bind_Some {A B : Type} (m : option A) (f : A -> option B) x :
  m = Some x -> m ≫= f = f x.
Proof. by intros ->. Qed.

Lemma join_subnodes_spec t : forall fuel pbvh p par fs us,
  shape (nodes pbvh) t -> NoDup (indices t) ->
  p ∉ indices t -> 0 ∉ indices t -> depth t < fuel ->
  nodes pbvh !! p = Some par ->
  bm_faces par = Some fs -> bm_unique_verts par = Some us ->
  exists pbvh',
    pbvh_bmesh_join_subnodes fuel pbvh (root_of t) p = Some pbvh' /\
    nodes pbvh' !! p
      = Some (set_tables par
                (Some (foldl BLI_table_gset_add fs (subtree_faces (nodes pbvh) t)))
                (Some (foldl BLI_table_gset_add us (subtree_unique (nodes pbvh) t)))
                (bm_other_verts par)) /\
    (forall j n, j ∈ indices t -> nodes pbvh !! j = Some n ->
                 nodes pbvh' !! j = Some (flag_or n [PBVH_Delete])) /\
    (forall j, j ∉ indices t -> j <> p -> nodes pbvh' !! j = nodes pbvh !! j) /\
    length (nodes pbvh') = length (nodes pbvh) /\
    leaf_limit pbvh' = leaf_limit pbvh /\
    same_geometry (bm pbvh) (bm pbvh').
Proof.
  induction t as [i|i l IHl r IHr];
    intros fuel pbvh p par fs us Hsh Hnd Hp H0 Hfuel Hpar Hfs Hus.
  - destruct fuel as [|fuel]; [simpl in Hfuel; lia|].
    destruct Hsh as (n & Hn & Hleaf & [nfs Hnfs] & [nus Hnus]).
    apply not_elem_of_cons in Hp as [Hpi _].
    assert (Hi : i < length (nodes pbvh)) by (eapply lookup_lt_Some; eassumption).
    assert (Hmark : mark_delete pbvh i p
                    = Some (set_node pbvh i (flag_or n [PBVH_Delete]))).
    { unfold mark_delete. rewrite decide_False by congruence.
      rewrite Hn. reflexivity. }
    assert (Hn1 : nodes (set_node pbvh i (flag_or n [PBVH_Delete])) !! i
                  = Some (flag_or n [PBVH_Delete])).
    { simpl. by apply list_lookup_insert_eq. }
    assert (Hp1 : nodes (set_node pbvh i (flag_or n [PBVH_Delete])) !! p = Some par).
    { simpl. rewrite list_lookup_insert_ne by congruence. assumption. }
    destruct (for_each_join_vert p nus _ par fs us Hp1 Hfs Hus)
      as (pbvh2 & Hrun2 & Hp2 & Hfr2 & Hlen2 & Hll2 & Hg2).
    assert (Hn2 : nodes pbvh2 !! i = Some (flag_or n [PBVH_Delete])).
    { rewrite Hfr2 by congruence. exact Hn1. }
    destruct (for_each_join_face p nfs pbvh2 _ fs
                (foldl BLI_table_gset_add us nus) Hp2 eq_refl eq_refl)
      as (pbvh3 & Hrun3 & Hp3 & Hfr3 & Hlen3 & Hll3 & Hg3).
    exists pbvh3. split.
    { cbn [pbvh_bmesh_join_subnodes root_of].
      rewrite (bind_Some _ _ _ Hn). cbv beta. rewrite Hleaf. cbn [negb].
      rewrite (bind_Some _ _ _ Hmark). cbv beta.
      rewrite (bind_Some _ _ _ Hn1). cbv beta.
      rewrite (bind_Some _ (fun unique => _) nus) by exact Hnus.
      rewrite (bind_Some _ _ _ Hrun2). cbv beta.
      rewrite (bind_Some _ _ _ Hn2). cbv beta.
      rewrite (bind_Some _ (fun faces => _) nfs) by exact Hnfs.
      exact Hrun3. }
    split.
    { rewrite Hp3. simpl. rewrite Hn. simpl. rewrite Hnfs, Hnus. reflexivity. }
    split.
    { intros j m Hj Hm. apply list_elem_of_singleton in Hj. subst j.
      rewrite Hfr3, Hn2 by congruence. congruence. }
    split.
    { intros j Hj Hjp. rewrite Hfr3, Hfr2 by assumption. simpl.
      apply list_lookup_insert_ne. intros ->. apply Hj. apply elem_of_cons. by left. }
    split; [rewrite Hlen3, Hlen2; simpl; apply length_insert|].
    split; [rewrite Hll3, Hll2; reflexivity|].
    eapply same_geometry_trans; eassumption.
  - destruct fuel as [|fuel]; [simpl in Hfuel; lia|]. simpl in Hfuel.
    destruct Hsh as (n & Hn & Hleaf & Hc & Hr & Hl & Hrr).
    simpl in Hnd. apply NoDup_cons in Hnd as [Hi Hnd].
    apply NoDup_app in Hnd as (Hndl & Hdisj & Hndr).
    apply not_elem_of_app in Hi as [Hil Hir].
    simpl in Hp. apply not_elem_of_cons in Hp as [Hpi Hp].
    apply not_elem_of_app in Hp as [Hpl Hpr].
    simpl in H0. apply not_elem_of_cons in H0 as [H0i H0].
    apply not_elem_of_app in H0 as [H0l H0r].
    destruct (IHl fuel pbvh p par fs us Hl Hndl Hpl H0l ltac:(lia) Hpar Hfs Hus)
      as (p1 & Hrun1 & Hp1 & Hdel1 & Hfr1 & Hlen1 & Hll1 & Hg1).
    assert (Hag1 : forall j, j ∈ indices r -> nodes p1 !! j = nodes pbvh !! j).
    { intros j Hj. apply Hfr1; [|congruence]. intros Hjl. exact (Hdisj j Hjl Hj). }
    assert (Hsh1 : shape (nodes p1) r).
    { apply (shape_agree (nodes pbvh)); [|assumption]. by apply agree_same. }
    destruct (IHr fuel p1 p _ _ _ Hsh1 Hndr Hpr H0r ltac:(lia) Hp1 eq_refl eq_refl)
      as (p2 & Hrun2 & Hp2 & Hdel2 & Hfr2 & Hlen2 & Hll2 & Hg2).
    rewrite (subtree_faces_agree (nodes pbvh) (nodes p1) r) in Hp2
      by by apply agree_same.
    rewrite (subtree_unique_agree (nodes pbvh) (nodes p1) r) in Hp2
      by by apply agree_same.
    assert (Hn2 : nodes p2 !! i = Some n).
    { rewrite Hfr2, Hfr1; auto. }
    assert (Hmark : mark_delete p2 i p
                    = Some (set_node p2 i (flag_or n [PBVH_Delete]))).
    { unfold mark_delete. rewrite decide_False by congruence.
      rewrite Hn2. reflexivity. }
    assert (Hrl : 0 < root_of l /\ root_of l + 1 < totnode pbvh).
    { split.
      - pose proof (root_in_indices l). destruct (root_of l); [contradiction|lia].
      - destruct (shape_root _ _ Hrr) as [m Hm]. apply lookup_lt_Some in Hm.
        unfold totnode. lia. }
    assert (Hi2 : i < length (nodes p2)) by (eapply lookup_lt_Some; eassumption).
    eexists. split.
    { cbn [pbvh_bmesh_join_subnodes root_of].
      rewrite (bind_Some _ _ _ Hn). cbv beta. rewrite Hleaf. cbn [negb].
      rewrite Hc. rewrite decide_True by exact Hrl.
      rewrite (bind_Some _ _ _ Hrun1). cbv beta.
      replace (root_of l + 1) with (root_of r) by lia.
      rewrite (bind_Some _ _ _ Hrun2). cbv beta.
      exact Hmark. }
    simpl.
    split.
    { rewrite list_lookup_insert_ne by congruence. rewrite Hp2. simpl.
      by rewrite !foldl_app. }
    split.
    { intros j m Hj Hm. apply elem_of_cons in Hj as [->|Hj].
      - rewrite list_lookup_insert_eq by assumption. congruence.
      - apply elem_of_app in Hj as [Hj|Hj];
          (rewrite list_lookup_insert_ne by (intros ->; contradiction)).
        + rewrite Hfr2; [by apply Hdel1 | |congruence].
          intros Hjr. exact (Hdisj j Hj Hjr).
        + apply Hdel2; [assumption|]. by rewrite Hag1. }
    split.
    { intros j Hj Hjp. apply not_elem_of_cons in Hj as [Hji Hj].
      apply not_elem_of_app in Hj as [Hjl Hjr].
      rewrite list_lookup_insert_ne by congruence. rewrite Hfr2, Hfr1; auto. }
    split; [rewrite length_insert; congruence|].
    split; [congruence|].
    eapply same_geometry_trans; eassumption.
Qed.


(** **** Tables *)

Lemma elem_of_table_add {A} `{EqDecision A} (ts : TableGSet A) x y :
  y ∈ BLI_table_gset_add ts x <-> y ∈ ts \/ y = x.
Proof.
  unfold BLI_table_gset_add, BLI_table_gset_haskey. case_bool_decide as Hx.
  - split; [by left | intros [Hy| ->]; assumption].
  - rewrite elem_of_app, list_elem_of_singleton. reflexivity.
Qed.

Lemma elem_of_foldl_add {A} `{EqDecision A} (l : list A) : forall (ts : TableGSet A) y,
  y ∈ foldl BLI_table_gset_add ts l <-> y ∈ ts \/ y ∈ l.
Proof.
  induction l as [|x l IH]; intros ts y; simpl.
  - split; [by left | intros [Hy|Hy]; [assumption | by apply elem_of_nil in Hy]].
  - rewrite IH, elem_of_table_add, elem_of_cons.
    split; [intros [[Hy|Hy]|Hy] | intros [Hy|[Hy|Hy]]]; auto.
Qed.

Lemma NoDup_table_add {A} `{EqDecision A} (ts : TableGSet A) x :
  NoDup ts -> NoDup (BLI_table_gset_add ts x).
Proof.
  intros Hnd. unfold BLI_table_gset_add, BLI_table_gset_haskey.
  case_bool_decide as Hx; [assumption|].
  apply NoDup_app. split; [assumption|]. split; [|apply NoDup_singleton].
  intros y Hy Hyx. apply list_elem_of_singleton in Hyx. by subst y.
Qed.

Lemma NoDup_foldl_add {A} `{EqDecision A} (l : list A) : forall ts : TableGSet A,
  NoDup ts -> NoDup (foldl BLI_table_gset_add ts l).
Proof.
  induction l as [|x l IH]; intros ts Hnd; simpl; [assumption|].
  by apply IH, NoDup_table_add.
Qed.

Lemma rebuild_other_geometry m m' unique faces :
  same_geometry m m' -> rebuild_other m' unique faces = rebuild_other m unique faces.
Proof. intros [_ Hf]. unfold rebuild_other. by rewrite Hf. Qed.

Lemma rebuild_vb_geometry m m' unique other :
  same_geometry m m' -> rebuild_vb m' unique other = rebuild_vb m unique other.
Proof. intros [Hc _]. unfold rebuild_vb. by rewrite Hc. Qed.

Lemma rebuild_other_verts unique (vs : list BMVert) : forall (other : TableGSet BMVert) y,
  y ∈ foldl (fun other v =>
               if BLI_table_gset_haskey unique v then other
               else BLI_table_gset_add other v) other vs
  <-> y ∈ other \/ (y ∈ vs /\ y ∉ unique).
Proof.
  induction vs as [|v vs IH]; intros other y; simpl.
  - split; [by left | intros [Hy|[Hy _]]; [assumption | by apply elem_of_nil in Hy]].
  - rewrite IH, elem_of_cons. unfold BLI_table_gset_haskey.
    case_bool_decide as Hv.
    + split; [intros [Hy|[Hy Hu]]; auto | intros [Hy|[[->|Hy] Hu]]; auto].
      contradiction.
    + rewrite elem_of_table_add.
      split; [intros [[Hy| ->]|[Hy Hu]]; auto | intros [Hy|[[->|Hy] Hu]]; auto].
Qed.

Lemma NoDup_rebuild_other_verts unique (vs : list BMVert) :
  forall other : TableGSet BMVert,
  NoDup other ->
  NoDup (foldl (fun other v =>
                  if BLI_table_gset_haskey unique v then other
                  else BLI_table_gset_add other v) other vs).
Proof.
  induction vs as [|v vs IH]; intros other Hnd; simpl; [assumption|].
  apply IH. destruct (BLI_table_gset_haskey unique v); [assumption|].
  by apply NoDup_table_add.
Qed.

Lemma rebuild_other_spec m unique faces y :
  y ∈ rebuild_other m unique faces
  <-> (y ∉ unique) /\ exists f, f ∈ faces /\ y ∈ f_verts m f.
Proof.
  unfold rebuild_other.
  assert (Hgen : forall other,
             y ∈ foldl (fun other f =>
                          foldl (fun other v =>
                                   if BLI_table_gset_haskey unique v then other
                                   else BLI_table_gset_add other v)
                                other (f_verts m f)) other faces
             <-> y ∈ other \/ ((y ∉ unique) /\ exists f, f ∈ faces /\ y ∈ f_verts m f)).
  { induction faces as [|f faces IH]; intros other; simpl.
    - split; [by left | intros [Hy|[_ (f & Hf & _)]]; [assumption|]].
      by apply elem_of_nil in Hf.
    - rewrite IH, rebuild_other_verts. split.
      + intros [[Hy|[Hy Hu]]|[Hu (g & Hg & Hy)]]; [by left | |].
        * right. split; [assumption|]. exists f. split; [apply elem_of_cons; by left | assumption].
        * right. split; [assumption|]. exists g. split; [apply elem_of_cons; by right | assumption].
      + intros [Hy|[Hu (g & Hg & Hy)]]; [by left; left|].
        apply elem_of_cons in Hg as [->|Hg].
        * left. right. by split.
        * right. split; [assumption|]. by exists g. }
  rewrite Hgen. split; [intros [Hy|Hy]; [by apply elem_of_nil in Hy | assumption] | by right].
Qed.

Lemma NoDup_rebuild_other m unique faces : NoDup (rebuild_other m unique faces).
Proof.
  unfold rebuild_other.
  assert (Hgen : forall other, NoDup other ->
             NoDup (foldl (fun other f =>
                             foldl (fun other v =>
                                      if BLI_table_gset_haskey unique v then other
                                      else BLI_table_gset_add other v)
                                   other (f_verts m f)) other faces)).
  { induction faces as [|f faces IH]; intros other Hnd; simpl; [assumption|].
    by apply IH, NoDup_rebuild_other_verts. }
  apply Hgen, NoDup_nil_2.
Qed.

(** Setting a flag sets it, whatever the bit positions. *)
Lemma flag_test_or_elem n fs f : f ∈ fs -> flag_test (flag_or n fs) f = true.
Proof.
  intros Hf. rewrite flag_test_testbit. unfold flag_or. simpl.
  rewrite Z.lor_spec. apply orb_true_iff. right.
  induction fs as [|g fs IH]; [by apply elem_of_nil in Hf|].
  simpl. rewrite Z.lor_spec. apply orb_true_iff.
  apply elem_of_cons in Hf as [->|Hf]; [left | right; by apply IH].
  unfold flag_mask. rewrite Z.shiftl_1_l. apply Z.pow2_bits_true. lia.
Qed.


(** **** Correcting the tree *)

(** [n'] is node [n] after its subtree [t] was joined into it: a leaf with
    the faces and the unique vertices of the leaves of [t], the other
    vertices of these faces, the bounding box of its vertices, and all the
    update flags. *)
Definition joined (m : BMesh) (ns : list PBVHNode) (t : node_tree)
    (n n' : PBVHNode) : Prop :=
  exists faces unique other,
    bm_faces n' = Some faces /\ bm_unique_verts n' = Some unique /\
    bm_other_verts n' = Some other /\
    (forall f, f ∈ faces <-> f ∈ subtree_faces ns t) /\
    (forall v, v ∈ unique <-> v ∈ subtree_unique ns t) /\
    (forall v, v ∈ other <-> (v ∉ unique) /\ exists f, f ∈ faces /\ v ∈ f_verts m f) /\
    NoDup faces /\ NoDup unique /\ NoDup other /\
    vb n' = rebuild_vb m unique other /\ orig_vb n' = vb n' /\
    children_offset n' = 0 /\
    flag n' = flag (flag_or n joined_flags) /\
    (forall f, f ∈ joined_flags -> flag_test n' f = true) /\
    draw_buffers n' = false.

(** The node array [ns'] is [ns] corrected below the root of [t]: going
    down from the root, the first inner node of a branch that is not at
    position 0 and has a face count under [lower] is joined, the nodes under
    it are flagged [PBVH_Delete], and every node passed on the way, and every
    leaf reached, is as it was. *)
Fixpoint corrected (lower : Z) (m : BMesh) (ns ns' : list PBVHNode)
    (t : node_tree) : Prop :=
  match t with
  | TLeaf i => ns' !! i = ns !! i
  | TNode i l r =>
      if decide ((total ns (TNode i l r) < lower)%Z /\ i <> 0) then
        (exists n n', ns !! i = Some n /\ ns' !! i = Some n' /\
                      joined m ns (TNode i l r) n n') /\
        (forall j n, j ∈ indices l ++ indices r -> ns !! j = Some n ->
                     ns' !! j = Some (flag_or n [PBVH_Delete]))
      else
        ns' !! i = ns !! i /\
        corrected lower m ns ns' l /\ corrected lower m ns ns' r
  end.

Lemma joined_ext m m1 ns ns1 t n n' :
  agree ns ns1 t -> same_geometry m m1 ->
  joined m ns t n n' -> joined m1 ns1 t n n'.
Proof.
  intros Ha Hg (faces & unique & other & H).
  exists faces, unique, other.
  rewrite (subtree_faces_agree _ _ _ Ha), (subtree_unique_agree _ _ _ Ha).
  rewrite (rebuild_vb_geometry _ _ _ _ Hg). destruct Hg as [_ ->]. exact H.
Qed.

Lemma corrected_ext lower m m1 ns ns1 ns' ns1' t :
  (forall j, j ∈ indices t -> ns1 !! j = ns !! j) ->
  (forall j, j ∈ indices t -> ns1' !! j = ns' !! j) ->
  same_geometry m m1 ->
  corrected lower m ns ns' t -> corrected lower m1 ns1 ns1' t.
Proof.
  intros Hin Hout Hg. induction t as [i|i l IHl r IHr].
  - simpl. intros H. rewrite Hin, Hout by apply (root_in_indices (TLeaf i)).
    exact H.
  - assert (Hl : forall j, j ∈ indices l -> j ∈ indices (TNode i l r)).
    { intros j Hj. simpl. apply elem_of_cons. right. apply elem_of_app. by left. }
    assert (Hr : forall j, j ∈ indices r -> j ∈ indices (TNode i l r)).
    { intros j Hj. simpl. apply elem_of_cons. right. apply elem_of_app. by right. }
    assert (Hi : i ∈ indices (TNode i l r)) by apply (root_in_indices (TNode i l r)).
    cbn [corrected].
    rewrite (total_agree ns ns1 (TNode i l r)) by by apply agree_same.
    destruct (decide ((total ns (TNode i l r) < lower)%Z /\ i <> 0)) as [_|_].
    + intros [(n & n' & Hn & Hn' & Hj) Hdel]. split.
      * exists n, n'. rewrite Hin, Hout by assumption.
        split; [assumption|]. split; [assumption|].
        eapply joined_ext; [by apply agree_same | eassumption | eassumption].
      * intros j nj Hjj Hnj.
        assert (j ∈ indices (TNode i l r)).
        { simpl. apply elem_of_cons. by right. }
        rewrite Hin in Hnj by assumption. rewrite Hout by assumption.
        by apply Hdel.
    + intros (Hsame & Hcl & Hcr). rewrite Hin, Hout by assumption.
      split; [assumption|]. split; [apply IHl | apply IHr]; auto.
Qed.


Lemma same_geometry_sym m m' : same_geometry m m' -> same_geometry m' m.
Proof. intros [H1 H2]. split; congruence. Qed.

Lemma same_geometry_unlink fs : forall m,
  same_geometry m (foldl (fun m f => set_f_node m f DYNTOPO_NODE_NONE) m fs).
Proof.
  induction fs as [|f fs IH]; intros m; simpl; [split; reflexivity|].
  eapply same_geometry_trans; [|apply IH]. split; reflexivity.
Qed.

Lemma flag_test_flag n n' f : flag n' = flag n -> flag_test n' f = flag_test n f.
Proof. intros H. unfold flag_test. by rewrite H. Qed.

Lemma corect_tree_spec t : forall fuel pbvh,
  shape (nodes pbvh) t -> NoDup (indices t) -> tottri_ok (nodes pbvh) t ->
  (forall j, j ∈ indices t -> j = root_of t \/ j <> 0) ->
  depth t < fuel ->
  exists pbvh',
    BKE_pbvh_bmesh_corect_tree fuel pbvh (root_of t) = Some pbvh' /\
    corrected (leaf_limit pbvh - Z.shiftr (leaf_limit pbvh) 1) (bm pbvh)
      (nodes pbvh) (nodes pbvh') t /\
    (forall j, j ∉ indices t -> nodes pbvh' !! j = nodes pbvh !! j) /\
    length (nodes pbvh') = length (nodes pbvh) /\
    leaf_limit pbvh' = leaf_limit pbvh /\
    same_geometry (bm pbvh) (bm pbvh').
Proof.
  induction t as [i|i l IHl r IHr]; intros fuel pbvh Hsh Hnd Hok H0 Hfuel.
  - destruct fuel as [|fuel]; [simpl in Hfuel; lia|].
    destruct Hsh as (n & Hn & Hleaf & _).
    exists pbvh. split.
    { cbn [BKE_pbvh_bmesh_corect_tree root_of].
      rewrite (bind_Some _ _ _ Hn). cbv beta. rewrite Hleaf. reflexivity. }
    split; [reflexivity|]. split; [reflexivity|]. split; [reflexivity|].
    split; [reflexivity|]. split; reflexivity.
  - destruct fuel as [|fuel]; [simpl in Hfuel; lia|]. simpl in Hfuel.
    destruct Hsh as (n & Hn & Hleaf & Hc & Hr & Hl & Hrr).
    simpl in Hnd. apply NoDup_cons in Hnd as [Hi Hnd].
    apply NoDup_app in Hnd as (Hndl & Hdisj & Hndr).
    apply not_elem_of_app in Hi as [Hil Hir].
    destruct Hok as [(n_ & Hn_ & Htot) [Hokl Hokr]]. simpl in Hn_.
    assert (n_ = n) by congruence. subst n_.
    assert (H0l : 0 ∉ indices l).
    { intros Hz. destruct (H0 0) as [E|E]; [| |congruence].
      - simpl. apply elem_of_cons. right. apply elem_of_app. by left.
      - simpl in E. subst i. contradiction. }
    assert (H0r : 0 ∉ indices r).
    { intros Hz. destruct (H0 0) as [E|E]; [| |congruence].
      - simpl. apply elem_of_cons. right. apply elem_of_app. by right.
      - simpl in E. subst i. contradiction. }
    assert (Hlt : i < length (nodes pbvh)) by (eapply lookup_lt_Some; eassumption).
    destruct (decide ((total (nodes pbvh) (TNode i l r)
                       < leaf_limit pbvh - Z.shiftr (leaf_limit pbvh) 1)%Z /\ i <> 0))
      as [Hj|Hj].
    + (* the subtree is joined into the node *)
      pose (n0 := set_tables n (Some []) (Some []) (Some [])).
      pose (pbvh0 := set_node pbvh i n0).
      assert (Hn0 : nodes pbvh0 !! i = Some n0).
      { simpl. by apply list_lookup_insert_eq. }
      assert (Hag0 : forall j, j <> i -> nodes pbvh0 !! j = nodes pbvh !! j).
      { intros j Hji. simpl. apply list_lookup_insert_ne. congruence. }
      assert (Hagl : forall j, j ∈ indices l -> nodes pbvh0 !! j = nodes pbvh !! j).
      { intros j Hjl. apply Hag0. intros ->. contradiction. }
      assert (Hsh0 : shape (nodes pbvh0) l).
      { apply (shape_agree (nodes pbvh)); [|assumption]. by apply agree_same. }
      destruct (join_subnodes_spec l fuel pbvh0 i n0 [] [] Hsh0 Hndl Hil H0l
                  ltac:(lia) Hn0 eq_refl eq_refl)
        as (p1 & Hrun1 & Hp1 & Hdel1 & Hfr1 & Hlen1 & Hll1 & Hg1).
      rewrite (subtree_faces_agree (nodes pbvh) (nodes pbvh0) l) in Hp1
        by by apply agree_same.
      rewrite (subtree_unique_agree (nodes pbvh) (nodes pbvh0) l) in Hp1
        by by apply agree_same.
      assert (Hagr : forall j, j ∈ indices r -> nodes p1 !! j = nodes pbvh !! j).
      { intros j Hjr. rewrite Hfr1.
        - apply Hag0. intros ->. contradiction.
        - intros Hjl. exact (Hdisj j Hjl Hjr).
        - intros ->. contradiction. }
      assert (Hsh1 : shape (nodes p1) r).
      { apply (shape_agree (nodes pbvh)); [|assumption]. by apply agree_same. }
      destruct (join_subnodes_spec r fuel p1 i _ _ _ Hsh1 Hndr Hir H0r
                  ltac:(lia) Hp1 eq_refl eq_refl)
        as (p2 & Hrun2 & Hp2 & Hdel2 & Hfr2 & Hlen2 & Hll2 & Hg2).
      rewrite (subtree_faces_agree (nodes pbvh) (nodes p1) r) in Hp2
        by by apply agree_same.
      rewrite (subtree_unique_agree (nodes pbvh) (nodes p1) r) in Hp2
        by by apply agree_same.
      pose (faces := foldl BLI_table_gset_add
                       (foldl BLI_table_gset_add [] (subtree_faces (nodes pbvh) l))
                       (subtree_faces (nodes pbvh) r)).
      pose (unique := foldl BLI_table_gset_add
                        (foldl BLI_table_gset_add [] (subtree_unique (nodes pbvh) l))
                        (subtree_unique (nodes pbvh) r)).
      pose (other := rebuild_other (bm p2) unique faces).
      pose (nf := {| flag := flag (flag_or n joined_flags);
                     children_offset := 0;
                     bm_faces := Some faces;
                     bm_unique_verts := Some unique;
                     bm_other_verts := Some other;
                     vb := rebuild_vb (bm p2) unique other;
                     orig_vb := rebuild_vb (bm p2) unique other;
                     subtree_tottri := subtree_tottri n;
                     draw_buffers := false;
                     layer_disp := layer_disp n |}).
      assert (Hg : same_geometry (bm pbvh) (bm p2)).
      { eapply same_geometry_trans; [|exact Hg2].
        eapply same_geometry_trans; [|exact Hg1]. split; reflexivity. }
      exists (set_bm (set_node p2 i nf)
                (foldl (fun m f => set_f_node m f DYNTOPO_NODE_NONE) (bm p2) faces)).
      split.
      { cbn [BKE_pbvh_bmesh_corect_tree root_of].
        rewrite (bind_Some _ _ _ Hn). cbv beta zeta. rewrite Hleaf, Htot.
        rewrite decide_True by exact Hj. rewrite Hc.
        change (set_node pbvh i (set_tables n (Some []) (Some []) (Some [])))
          with pbvh0.
        rewrite (bind_Some _ _ _ Hrun1). cbv beta.
        rewrite (bind_Some _ _ _ Hp1). cbv beta.
        cbn [children_offset set_tables].
        change (children_offset n0) with (children_offset n). rewrite Hc.
        replace (root_of l + 1) with (root_of r) by lia.
        rewrite (bind_Some _ _ _ Hrun2). cbv beta.
        rewrite (bind_Some _ _ _ Hp2). cbv beta.
        reflexivity. }
      assert (Hi2 : i < length (nodes p2)).
      { rewrite Hlen2, Hlen1. simpl. by rewrite length_insert. }
      split.
      { cbn [corrected]. rewrite decide_True by exact Hj. split.
        - exists n, nf. split; [assumption|].
          split; [simpl; by apply list_lookup_insert_eq|].
          exists faces, unique, other.
          split; [reflexivity|]. split; [reflexivity|]. split; [reflexivity|].
          split.
          { intros f. unfold faces. rewrite !elem_of_foldl_add. simpl.
            rewrite elem_of_app. split.
            - intros [[Hf|Hf]|Hf]; auto. by apply elem_of_nil in Hf.
            - intros [Hf|Hf]; auto. }
          split.
          { intros v. unfold unique. rewrite !elem_of_foldl_add. simpl.
            rewrite elem_of_app. split.
            - intros [[Hv|Hv]|Hv]; auto. by apply elem_of_nil in Hv.
            - intros [Hv|Hv]; auto. }
          split.
          { intros v. unfold other.
            rewrite (rebuild_other_geometry _ _ _ _ Hg). apply rebuild_other_spec. }
          split; [apply NoDup_foldl_add, NoDup_foldl_add, NoDup_nil_2|].
          split; [apply NoDup_foldl_add, NoDup_foldl_add, NoDup_nil_2|].
          split; [apply NoDup_rebuild_other|].
          split.
          { simpl. unfold other.
            rewrite (rebuild_other_geometry _ _ _ _ Hg).
            apply (rebuild_vb_geometry _ _ _ _ Hg). }
          split; [reflexivity|]. split; [reflexivity|]. split; [reflexivity|].
          split; [|reflexivity].
          intros f Hf.
          rewrite (flag_test_flag (flag_or n joined_flags) nf) by reflexivity.
          by apply flag_test_or_elem.
        - intros j nj Hjj Hnj. simpl.
          apply elem_of_app in Hjj as [Hjl|Hjr];
            (rewrite list_lookup_insert_ne by (intros ->; contradiction)).
          + rewrite Hfr2.
            * apply Hdel1; [assumption|]. by rewrite Hagl.
            * intros Hjr. exact (Hdisj j Hjl Hjr).
            * intros ->. contradiction.
          + apply Hdel2; [assumption|]. by rewrite Hagr. }
      split.
      { intros j Hjn. apply not_elem_of_cons in Hjn as [Hji Hjn].
        apply not_elem_of_app in Hjn as [Hjl Hjr]. simpl.
        rewrite list_lookup_insert_ne by congruence.
        rewrite Hfr2, Hfr1 by assumption. by apply Hag0. }
      split.
      { simpl. rewrite length_insert, Hlen2, Hlen1. simpl. apply length_insert. }
      split; [simpl; rewrite Hll2, Hll1; reflexivity|].
      simpl. eapply same_geometry_trans; [exact Hg|]. apply same_geometry_unlink.
    + (* the node is passed *)
      destruct (IHl fuel pbvh Hl Hndl Hokl) as (p1 & Hrun1 & Hcor1 & Hfr1 & Hlen1 & Hll1 & Hg1).
      { intros j Hjl. right. intros ->. contradiction. }
      { lia. }
      assert (Hagr : forall j, j ∈ indices r -> nodes p1 !! j = nodes pbvh !! j).
      { intros j Hjr. apply Hfr1. intros Hjl. exact (Hdisj j Hjl Hjr). }
      assert (Hsh1 : shape (nodes p1) r).
      { apply (shape_agree (nodes pbvh)); [|assumption]. by apply agree_same. }
      assert (Hok1 : tottri_ok (nodes p1) r).
      { by apply (tottri_ok_same (nodes pbvh)). }
      destruct (IHr fuel p1 Hsh1 Hndr Hok1) as (p2 & Hrun2 & Hcor2 & Hfr2 & Hlen2 & Hll2 & Hg2).
      { intros j Hjr. right. intros ->. contradiction. }
      { lia. }
      exists p2. split.
      { cbn [BKE_pbvh_bmesh_corect_tree root_of].
        rewrite (bind_Some _ _ _ Hn). cbv beta zeta. rewrite Hleaf, Htot.
        rewrite decide_False by exact Hj. rewrite Hc.
        rewrite (bind_Some _ _ _ Hrun1). cbv beta.
        replace (root_of l + 1) with (root_of r) by lia. exact Hrun2. }
      split.
      { cbn [corrected]. rewrite decide_False by exact Hj.
        split; [rewrite Hfr2, Hfr1; auto|]. split.
        - apply (corrected_ext _ (bm pbvh) (bm pbvh) (nodes pbvh) (nodes pbvh)
                   (nodes p1) (nodes p2) l); [reflexivity | | split; reflexivity | assumption].
          intros j Hjl. apply Hfr2. intros Hjr. exact (Hdisj j Hjl Hjr).
        - rewrite Hll1 in Hcor2.
          apply (corrected_ext _ (bm p1) (bm pbvh) (nodes p1) (nodes pbvh)
                   (nodes p2) (nodes p2) r);
            [|reflexivity | by apply same_geometry_sym | assumption].
          intros j Hjr. symmetry. by apply Hagr. }
      split.
      { intros j Hjn. apply not_elem_of_cons in Hjn as [Hji Hjn].
        apply not_elem_of_app in Hjn as [Hjl Hjr]. rewrite Hfr2, Hfr1; auto. }
      split; [congruence|]. split; [congruence|].
      eapply same_geometry_trans; eassumption.
Qed.


(** The merge as the specification words it: every node other than the
    root whose subtree has a face count under half the leaf limit is, after
    the pass, the leaf its subtree was merged into. *)
Fixpoint subtrees (t : node_tree) : list node_tree :=
  t :: match t with
       | TLeaf _ => []
       | TNode _ l r => subtrees l ++ subtrees r
       end.

Definition spec_small_nodes_merged (pbvh pbvh' : PBVH) (t : node_tree) : Prop :=
  forall s, s ∈ subtrees t -> root_of s <> 0 ->
    (2 * total (nodes pbvh) s < leaf_limit pbvh)%Z ->
    exists n n',
      nodes pbvh !! root_of s = Some n /\ nodes pbvh' !! root_of s = Some n' /\
      joined (bm pbvh) (nodes pbvh) s n n'.

Lemma shape_indices_lt ns t j : shape ns t -> j ∈ indices t -> j < length ns.
Proof.
  induction t as [i|i l IHl r IHr]; simpl.
  - intros (n & Hn & _) Hj. apply list_elem_of_singleton in Hj. subst j.
    eapply lookup_lt_Some; eassumption.
  - intros (n & Hn & _ & _ & _ & Hl & Hr) Hj.
    apply elem_of_cons in Hj as [->|Hj]; [eapply lookup_lt_Some; eassumption|].
    apply elem_of_app in Hj as [Hj|Hj]; auto.
Qed.

Lemma depth_lt_indices t : depth t < length (indices t).
Proof.
  induction t as [i|i l IHl r IHr]; simpl; [lia|].
  rewrite length_app. lia.
Qed.

Lemma shape_depth_lt ns t : shape ns t -> NoDup (indices t) -> depth t < length ns.
Proof.
  intros Hsh Hnd. pose proof (depth_lt_indices t).
  assert (length (indices t) <= length (seq 0 (length ns))); [|rewrite length_seq in *; lia].
  apply submseteq_length, NoDup_submseteq; [assumption|].
  intros j Hj. apply elem_of_seq. pose proof (shape_indices_lt ns t j Hsh Hj). lia.
Qed.

(** **** The compaction *)

(** A node the compaction keeps, and its position afterwards: the number of
    kept nodes before it. *)
Definition kept (n : PBVHNode) : Prop := flag_test n PBVH_Delete = false.

#[global] Instance kept_dec (n : PBVHNode) : Decision (kept n).
Proof. unfold kept. apply _. Defined.

Definition new_index (ns : list PBVHNode) (i : nat) : nat :=
  length (filter kept (take i ns)).

(** The index map, entry by entry. *)
Fixpoint map_from (j : nat) (ns : list PBVHNode) : list nat :=
  match ns with
  | [] => []
  | n :: ns =>
      if flag_test n PBVH_Delete then 0 :: map_from j ns
      else j :: map_from (S j) ns
  end.

Lemma join_nodes_map_from ns : join_nodes_map ns = map_from 0 ns.
Proof.
  unfold join_nodes_map.
  assert (Hgen : forall map j,
             foldl (fun '(map, j) n =>
                      if flag_test n PBVH_Delete then (map ++ [0], j)
                      else (map ++ [j], S j)) (map, j) ns
             = (map ++ map_from j ns, j + length (filter kept ns))).
  { induction ns as [|n ns IH]; intros map j; simpl.
    - by rewrite app_nil_r, Nat.add_0_r.
    - destruct (flag_test n PBVH_Delete) eqn:Hd.
      + rewrite IH, <- app_assoc. simpl.
        rewrite filter_cons_False by (unfold kept; congruence). reflexivity.
      + rewrite IH, <- app_assoc. simpl.
        rewrite filter_cons_True by exact Hd. simpl. f_equal. lia. }
  rewrite Hgen. reflexivity.
Qed.

Lemma map_from_lookup ns : forall j i n,
  ns !! i = Some n -> kept n ->
  map_from j ns !! i = Some (j + length (filter kept (take i ns))).
Proof.
  induction ns as [|m ns IH]; intros j i n Hi Hk; [discriminate|].
  destruct i as [|i]; simpl in *.
  - injection Hi as ->. rewrite Hk. simpl. f_equal. lia.
  - destruct (flag_test m PBVH_Delete) eqn:Hd; simpl.
    + rewrite filter_cons_False by (unfold kept; congruence).
      by apply (IH j i n).
    + rewrite filter_cons_True by exact Hd. simpl.
      rewrite (IH (S j) i n) by assumption. f_equal. lia.
Qed.

Lemma join_nodes_map_lookup ns i n :
  ns !! i = Some n -> kept n -> join_nodes_map ns !! i = Some (new_index ns i).
Proof.
  intros Hi Hk. rewrite join_nodes_map_from.
  by rewrite (map_from_lookup ns 0 i n).
Qed.

Lemma filter_kept_lookup ns : forall i n,
  ns !! i = Some n -> kept n -> filter kept ns !! new_index ns i = Some n.
Proof.
  unfold new_index.
  induction ns as [|m ns IH]; intros i n Hi Hk; [discriminate|].
  destruct i as [|i]; simpl in *.
  - injection Hi as ->. by rewrite filter_cons_True.
  - destruct (decide (kept m)) as [Hm|Hm].
    + rewrite !filter_cons_True by assumption. simpl. by apply IH.
    + rewrite !filter_cons_False by assumption. by apply IH.
Qed.


(** A node array the compaction takes without a complaint: a kept inner
    node has both children kept, a kept leaf has its tables. *)
Definition compactable (ns : list PBVHNode) : Prop :=
  2 <= length ns /\
  forall i n, ns !! i = Some n -> kept n ->
    if flag_test n PBVH_Leaf then
      children_offset n + 1 < length ns /\
      is_Some (bm_faces n) /\ is_Some (bm_unique_verts n) /\
      is_Some (bm_other_verts n)
    else
      exists n1 n2,
        ns !! children_offset n = Some n1 /\
        ns !! (children_offset n + 1) = Some n2 /\ kept n1 /\ kept n2.

Lemma for_nodes_id (body : PBVH -> nat -> option PBVH) idxs pbvh :
  (forall i, i ∈ idxs -> body pbvh i = Some pbvh) ->
  for_nodes body idxs pbvh = Some pbvh.
Proof.
  induction idxs as [|i idxs IH]; intros H; [reflexivity|].
  cbn [for_nodes]. rewrite (bind_Some _ _ pbvh) by (apply H, elem_of_cons; by left).
  apply IH. intros j Hj. apply H, elem_of_cons. by right.
Qed.

Lemma join_nodes_undelete_id pbvh i :
  compactable (nodes pbvh) -> i < length (nodes pbvh) ->
  join_nodes_undelete pbvh i = Some pbvh.
Proof.
  intros [_ Hc] Hi. unfold join_nodes_undelete.
  destruct (lookup_lt_is_Some_2 _ _ Hi) as [n Hn]. rewrite Hn. simpl.
  destruct (flag_test n PBVH_Delete) eqn:Hd; [reflexivity|]. simpl.
  specialize (Hc i n Hn Hd).
  destruct (flag_test n PBVH_Leaf); [reflexivity|].
  destruct Hc as (n1 & n2 & H1 & H2 & Hk1 & Hk2).
  rewrite H1. simpl. rewrite H2. simpl. unfold kept in Hk1, Hk2.
  rewrite Hk1, Hk2. reflexivity.
Qed.

Lemma join_nodes_free_flag n : flag (join_nodes_free n) = flag n.
Proof. unfold join_nodes_free. by destruct (flag_test n PBVH_Delete). Qed.

Lemma join_nodes_free_kept n : kept n -> join_nodes_free n = n.
Proof. intros Hk. unfold join_nodes_free. by rewrite Hk. Qed.

Lemma join_nodes_compact_spec ns map :
  (forall n, n ∈ ns -> kept n -> children_offset n + 1 < length ns) ->
  join_nodes_compact (join_nodes_free <$> ns) map
  = (fun n => set_children_offset n (default 0 (map !! children_offset n)))
      <$> filter kept ns.
Proof.
  unfold join_nodes_compact. rewrite length_fmap.
  set (L := length ns). clearbody L. intros Hc.
  assert (Hgen : forall l out,
             (forall n, n ∈ l -> kept n -> children_offset n + 1 < L) ->
             foldl (fun out n =>
                      if flag_test n PBVH_Delete then out
                      else if decide (L <= children_offset n + 1) then out
                      else out ++ [set_children_offset n
                                     (default 0 (map !! children_offset n))])
                   out (join_nodes_free <$> l)
             = out ++ ((fun n => set_children_offset n
                                   (default 0 (map !! children_offset n)))
                         <$> filter kept l)).
  { induction l as [|n l IH]; intros out Hl; [simpl; by rewrite app_nil_r|].
    assert (Hl' : forall m, m ∈ l -> kept m -> children_offset m + 1 < L).
    { intros m Hm. apply Hl, elem_of_cons. by right. }
    rewrite fmap_cons. cbn [foldl].
    destruct (flag_test n PBVH_Delete) eqn:Hd.
    - rewrite (flag_test_flag n _ _ (join_nodes_free_flag n)), Hd.
      rewrite filter_cons_False by (unfold kept; congruence). by apply IH.
    - rewrite (join_nodes_free_kept n Hd), Hd.
      rewrite filter_cons_True by exact Hd.
      pose proof (Hl n ltac:(apply elem_of_cons; by left) Hd).
      rewrite decide_False by lia.
      rewrite IH by assumption. rewrite fmap_cons. by rewrite <- app_assoc. }
  rewrite Hgen by exact Hc. reflexivity.
Qed.

Lemma ensure_tables_id n : is_Some (bm_unique_verts n) -> ensure_tables n = n.
Proof. intros [us Hus]. unfold ensure_tables. by rewrite Hus. Qed.

Lemma for_nodes_own idxs : forall pbvh,
  (forall i, i ∈ idxs -> i < length (nodes pbvh)) ->
  (forall i n, nodes pbvh !! i = Some n -> flag_test n PBVH_Leaf = true ->
               is_Some (bm_faces n) /\ is_Some (bm_unique_verts n)) ->
  exists pbvh',
    for_nodes join_nodes_own idxs pbvh = Some pbvh' /\
    nodes pbvh' = nodes pbvh /\ leaf_limit pbvh' = leaf_limit pbvh.
Proof.
  induction idxs as [|i idxs IH]; intros pbvh Hlt Htab; [by exists pbvh|].
  destruct (lookup_lt_is_Some_2 _ _ (Hlt i ltac:(apply elem_of_cons; by left)))
    as [n Hn].
  assert (Hstep : exists p1, join_nodes_own pbvh i = Some p1 /\
                             nodes p1 = nodes pbvh /\ leaf_limit p1 = leaf_limit pbvh).
  { unfold join_nodes_own. rewrite Hn. simpl.
    destruct (flag_test n PBVH_Leaf) eqn:Hleaf; simpl; [|by exists pbvh].
    destruct (Htab i n Hn Hleaf) as [[fs Hfs] Hu].
    rewrite (ensure_tables_id n Hu). destruct Hu as [us Hus].
    rewrite Hus. simpl. rewrite Hfs. simpl.
    eexists. split; [reflexivity|]. simpl. split; [|reflexivity].
    by apply list_insert_id. }
  destruct Hstep as (p1 & Hrun1 & Hn1 & Hl1).
  destruct (IH p1) as (p2 & Hrun2 & Hn2 & Hl2).
  { rewrite Hn1. intros j Hj. apply Hlt, elem_of_cons. by right. }
  { rewrite Hn1. exact Htab. }
  exists p2. split; [|split; congruence].
  cbn [for_nodes]. rewrite (bind_Some _ _ _ Hrun1). exact Hrun2.
Qed.


(** What the last loop may do to a node: its unique vertices grow by
    vertices taken from its other vertices. *)
Definition grown (n n' : PBVHNode) : Prop :=
  flag n' = flag n /\ children_offset n' = children_offset n /\
  bm_faces n' = bm_faces n /\ vb n' = vb n /\ orig_vb n' = orig_vb n /\
  subtree_tottri n' = subtree_tottri n /\
  (forall us, bm_unique_verts n = Some us ->
     exists us', bm_unique_verts n' = Some us' /\ forall v, v ∈ us -> v ∈ us') /\
  (is_Some (bm_other_verts n) -> is_Some (bm_other_verts n')).

Definition all_grown (ns ns' : list PBVHNode) : Prop :=
  length ns' = length ns /\
  forall j n, ns !! j = Some n -> exists n', ns' !! j = Some n' /\ grown n n'.

Lemma grown_refl n : grown n n.
Proof.
  repeat split; try reflexivity; [|auto].
  intros us Hus. exists us. auto.
Qed.

Lemma grown_trans n1 n2 n3 : grown n1 n2 -> grown n2 n3 -> grown n1 n3.
Proof.
  intros (Ha1 & Ha2 & Ha3 & Ha4 & Ha5 & Ha6 & Ha7 & Ha8)
         (Hb1 & Hb2 & Hb3 & Hb4 & Hb5 & Hb6 & Hb7 & Hb8).
  split; [congruence|]. split; [congruence|]. split; [congruence|].
  split; [congruence|]. split; [congruence|]. split; [congruence|].
  split; [|auto].
  intros us Hus. destruct (Ha7 us Hus) as (us2 & Hus2 & Hsub2).
  destruct (Hb7 us2 Hus2) as (us3 & Hus3 & Hsub3). exists us3. auto.
Qed.

Lemma all_grown_refl ns : all_grown ns ns.
Proof. split; [reflexivity|]. intros j n Hn. exists n. split; [assumption | apply grown_refl]. Qed.

Lemma all_grown_trans ns1 ns2 ns3 :
  all_grown ns1 ns2 -> all_grown ns2 ns3 -> all_grown ns1 ns3.
Proof.
  intros [Hl1 H1] [Hl2 H2]. split; [congruence|].
  intros j n Hn. destruct (H1 j n Hn) as (n2 & Hn2 & Hg2).
  destruct (H2 j n2 Hn2) as (n3 & Hn3 & Hg3).
  exists n3. split; [assumption|]. eapply grown_trans; eassumption.
Qed.

Lemma all_grown_insert ns i n n' :
  ns !! i = Some n -> grown n n' -> all_grown ns (<[i := n']> ns).
Proof.
  intros Hn Hg. split; [apply length_insert|].
  intros j m Hm. destruct (decide (j = i)) as [->|Hne].
  - rewrite list_lookup_insert_eq by (eapply lookup_lt_Some; eassumption).
    exists n'. split; [reflexivity|]. congruence.
  - rewrite list_lookup_insert_ne by congruence.
    exists m. split; [assumption | apply grown_refl].
Qed.

Lemma for_each_adopt i vs : forall pbvh n,
  nodes pbvh !! i = Some n ->
  is_Some (bm_unique_verts n) -> is_Some (bm_other_verts n) ->
  exists pbvh',
    for_each (join_nodes_adopt_vert i) pbvh vs = Some pbvh' /\
    all_grown (nodes pbvh) (nodes pbvh') /\ leaf_limit pbvh' = leaf_limit pbvh.
Proof.
  induction vs as [|v vs IH]; intros pbvh n Hn [us Hus] [os Hos].
  - exists pbvh. split; [reflexivity|]. split; [apply all_grown_refl | reflexivity].
  - set (n1 := set_tables n (bm_faces n) (Some (BLI_table_gset_add us v))
                 (Some (BLI_table_gset_remove os v))).
    set (p1 := set_bm (set_node pbvh i n1) (set_v_node (bm pbvh) v (Z.of_nat i))).
    assert (Hstep : join_nodes_adopt_vert i pbvh v = Some p1).
    { unfold join_nodes_adopt_vert. rewrite Hn. simpl. rewrite Hos. simpl.
      rewrite Hus. reflexivity. }
    assert (Hg1 : grown n n1).
    { repeat split; try reflexivity.
      - intros us0 Hus0. exists (BLI_table_gset_add us v). split; [reflexivity|].
        intros w Hw. apply elem_of_table_add. left. congruence.
      - intros _. by eexists. }
    assert (Hi : i < length (nodes pbvh)) by (eapply lookup_lt_Some; eassumption).
    destruct (IH p1 n1) as (p2 & Hrun & Hg2 & Hl2).
    { simpl. by apply list_lookup_insert_eq. }
    { by eexists. }
    { by eexists. }
    exists p2. split; [rewrite for_each_cons, Hstep; exact Hrun|].
    split; [|rewrite Hl2; reflexivity].
    eapply all_grown_trans; [|exact Hg2]. simpl.
    exact (all_grown_insert _ i n n1 Hn Hg1).
Qed.

Lemma for_nodes_adopt idxs : forall pbvh,
  (forall i, i ∈ idxs -> i < length (nodes pbvh)) ->
  (forall i n, nodes pbvh !! i = Some n -> flag_test n PBVH_Leaf = true ->
               is_Some (bm_unique_verts n) /\ is_Some (bm_other_verts n)) ->
  exists pbvh',
    for_nodes join_nodes_adopt idxs pbvh = Some pbvh' /\
    all_grown (nodes pbvh) (nodes pbvh') /\ leaf_limit pbvh' = leaf_limit pbvh.
Proof.
  induction idxs as [|i idxs IH]; intros pbvh Hlt Htab.
  { exists pbvh. split; [reflexivity|]. split; [apply all_grown_refl | reflexivity]. }
  destruct (lookup_lt_is_Some_2 _ _ (Hlt i ltac:(apply elem_of_cons; by left)))
    as [n Hn].
  assert (Hstep : exists p1, join_nodes_adopt pbvh i = Some p1 /\
                             all_grown (nodes pbvh) (nodes p1) /\
                             leaf_limit p1 = leaf_limit pbvh).
  { unfold join_nodes_adopt. rewrite Hn. simpl.
    destruct (flag_test n PBVH_Leaf) eqn:Hleaf; simpl.
    - destruct (Htab i n Hn Hleaf) as [Hu [os Hos]]. rewrite Hos. simpl.
      apply (for_each_adopt i _ pbvh n Hn Hu). by eexists.
    - exists pbvh. split; [reflexivity|]. split; [apply all_grown_refl | reflexivity]. }
  destruct Hstep as (p1 & Hrun1 & [Hlen1 Hg1] & Hl1).
  destruct (IH p1) as (p2 & Hrun2 & Hg2 & Hl2).
  { rewrite Hlen1. intros j Hj. apply Hlt, elem_of_cons. by right. }
  { intros j m Hm Hleaf.
    destruct (lookup_lt_is_Some_2 (nodes pbvh) j) as [m0 Hm0].
    { rewrite <- Hlen1. eapply lookup_lt_Some; eassumption. }
    destruct (Hg1 j m0 Hm0) as (m' & Hm' & Hgr).
    assert (m' = m) by congruence. subst m'.
    destruct Hgr as (Hf & _ & _ & _ & _ & _ & Hu & Ho).
    rewrite (flag_test_flag m0 m _ Hf) in Hleaf.
    destruct (Htab j m0 Hm0 Hleaf) as [[us Hus] Hos].
    split; [|auto]. destruct (Hu us Hus) as (us' & Hus' & _). by eexists. }
  exists p2. split; [|split; [|congruence]].
  - cbn [for_nodes]. rewrite (bind_Some _ _ _ Hrun1). exact Hrun2.
  - eapply all_grown_trans; [split; eassumption | exact Hg2].
Qed.


Lemma compactable_offset ns n :
  compactable ns -> n ∈ ns -> kept n -> children_offset n + 1 < length ns.
Proof.
  intros [_ Hc] Hn Hk. apply list_elem_of_lookup in Hn as [i Hi].
  specialize (Hc i n Hi Hk). destruct (flag_test n PBVH_Leaf).
  - apply Hc.
  - destruct Hc as (n1 & n2 & _ & H2 & _). eapply lookup_lt_Some; eassumption.
Qed.

(** On such an array the compaction runs to its end; it keeps the kept
    nodes, in their order, with the child offsets renumbered, and lets the
    unique vertices of leaves grow. *)
Lemma compact_nodes_spec pbvh :
  compactable (nodes pbvh) ->
  exists final,
    pbvh_bmesh_compact_nodes pbvh = Some final /\
    leaf_limit final = leaf_limit pbvh /\
    length (nodes final) = length (filter kept (nodes pbvh)) /\
    forall i n, nodes pbvh !! i = Some n -> kept n ->
      exists n',
        nodes final !! new_index (nodes pbvh) i = Some n' /\
        grown (set_children_offset n
                 (default 0 (join_nodes_map (nodes pbvh) !! children_offset n))) n'.
Proof.
  intros Hc.
  set (g := fun n => set_children_offset n
                       (default 0 (join_nodes_map (nodes pbvh) !! children_offset n))).
  set (p1 := set_nodes pbvh (g <$> filter kept (nodes pbvh))).
  assert (HA : for_nodes join_nodes_undelete (seq 0 (totnode pbvh)) pbvh = Some pbvh).
  { apply for_nodes_id. intros i Hi. apply join_nodes_undelete_id; [assumption|].
    apply elem_of_seq in Hi. unfold totnode in Hi. lia. }
  assert (HC : join_nodes_compact (join_nodes_free <$> nodes pbvh)
                 (join_nodes_map (nodes pbvh))
               = g <$> filter kept (nodes pbvh)).
  { apply join_nodes_compact_spec. intros n. by apply compactable_offset. }
  assert (Hleaf1 : forall i m, nodes p1 !! i = Some m ->
                     flag_test m PBVH_Leaf = true ->
                     is_Some (bm_faces m) /\ is_Some (bm_unique_verts m) /\
                     is_Some (bm_other_verts m)).
  { intros i m Hm Hleaf. simpl in Hm. rewrite list_lookup_fmap in Hm.
    destruct (filter kept (nodes pbvh) !! i) as [n|] eqn:Hn; [|discriminate].
    simpl in Hm. injection Hm as <-.
    assert (Hin : n ∈ filter kept (nodes pbvh)) by (eapply list_elem_of_lookup_2; eassumption).
    apply list_elem_of_filter in Hin as [Hk Hin].
    apply list_elem_of_lookup in Hin as [j Hj].
    destruct Hc as [_ Hc]. specialize (Hc j n Hj Hk).
    change (flag_test (g n) PBVH_Leaf) with (flag_test n PBVH_Leaf) in Hleaf.
    rewrite Hleaf in Hc. apply Hc. }
  destruct (for_nodes_own (seq 0 (totnode p1)) p1) as (p2 & Hrun2 & Hn2 & Hl2).
  { intros i Hi. apply elem_of_seq in Hi. unfold totnode in Hi. lia. }
  { intros i m Hm Hleaf. destruct (Hleaf1 i m Hm Hleaf) as (? & ? & ?). auto. }
  destruct (for_nodes_adopt (seq 0 (totnode p2)) p2) as (p3 & Hrun3 & [Hlen3 Hg3] & Hl3).
  { intros i Hi. apply elem_of_seq in Hi. unfold totnode in Hi. lia. }
  { rewrite Hn2. intros i m Hm Hleaf. destruct (Hleaf1 i m Hm Hleaf) as (? & ? & ?). auto. }
  exists p3. split.
  { unfold pbvh_bmesh_compact_nodes. rewrite (bind_Some _ _ _ HA). cbv beta zeta.
    rewrite HC. fold p1. rewrite (bind_Some _ _ _ Hrun2). exact Hrun3. }
  split; [rewrite Hl3, Hl2; reflexivity|].
  split; [rewrite Hlen3, Hn2; simpl; apply length_fmap|].
  intros i n Hn Hk. apply Hg3. rewrite Hn2. simpl.
  rewrite list_lookup_fmap, (filter_kept_lookup _ i n Hn Hk). reflexivity.
Qed.


(** **** The corrected tree is compactable *)

Section kept_nodes.

Hypothesis flag_bit_inj : forall f g, flag_bit f = flag_bit g -> f = g.

(** A node array as it is between two passes: nothing is flagged for
    deletion, and a leaf has no child offset and has its table of other
    vertices. *)
Definition clean (ns : list PBVHNode) : Prop :=
  forall j n, ns !! j = Some n ->
    kept n /\
    (flag_test n PBVH_Leaf = true ->
     children_offset n = 0 /\ is_Some (bm_other_verts n)).

Lemma clean_only_tottri ns ns' : only_tottri ns ns' -> clean ns -> clean ns'.
Proof.
  intros [Hlen Hot] Hcl j n' Hn'.
  destruct (lookup_lt_is_Some_2 ns j) as [n Hn].
  { rewrite <- Hlen. eapply lookup_lt_Some; eassumption. }
  destruct (Hot j n Hn) as [x Hx]. assert (n' = set_subtree_tottri n x) by congruence.
  subst n'. apply (Hcl j n Hn).
Qed.

Lemma joined_kept m ns t n n' : kept n -> joined m ns t n n' -> kept n'.
Proof using flag_bit_inj.
  intros Hk (faces & unique & other & _ & _ & _ & _ & _ & _ & _ & _ & _ & _ & _ & _
             & Hflag & _).
  unfold kept. rewrite (flag_test_flag (flag_or n joined_flags) n' _ Hflag).
  rewrite (flag_test_or flag_bit_inj), Hk. reflexivity.
Qed.

(** After the correction the root of the subtree is kept; a kept leaf has
    its tables and no child offset; a kept inner node has both children
    kept. *)
Lemma corrected_status lower m ns ns' t :
  shape ns t -> clean ns -> corrected lower m ns ns' t ->
  (exists n', ns' !! root_of t = Some n' /\ kept n') /\
  forall j n', j ∈ indices t -> ns' !! j = Some n' -> kept n' ->
    if flag_test n' PBVH_Leaf then
      children_offset n' = 0 /\
      is_Some (bm_faces n') /\ is_Some (bm_unique_verts n') /\
      is_Some (bm_other_verts n')
    else
      exists n1 n2,
        ns' !! children_offset n' = Some n1 /\
        ns' !! (children_offset n' + 1) = Some n2 /\ kept n1 /\ kept n2.
Proof using flag_bit_inj.
  intros Hsh Hcl. induction t as [i|i l IHl r IHr]; cbn [corrected].
  - destruct Hsh as (n & Hn & Hleaf & Hf & Hu). intros Hsame.
    rewrite Hn in Hsame. destruct (Hcl i n Hn) as [Hk Hlf].
    split; [by exists n|].
    intros j n' Hj Hn' _. apply list_elem_of_singleton in Hj. subst j.
    assert (n' = n) by congruence. subst n'. rewrite Hleaf.
    destruct (Hlf Hleaf) as [Hc Ho]. auto.
  - destruct Hsh as (n & Hn & Hleaf & Hc & Hr & Hl & Hrr).
    destruct (Hcl i n Hn) as [Hk _].
    destruct (decide ((total ns (TNode i l r) < lower)%Z /\ i <> 0)) as [_|_].
    + intros [(n0 & n' & Hn0 & Hn' & Hj) Hdel].
      assert (n0 = n) by congruence. subst n0.
      pose proof (joined_kept _ _ _ _ _ Hk Hj) as Hk'.
      split; [by exists n'|].
      intros j nj Hjin Hnj Hkj. cbn [indices] in Hjin.
      apply elem_of_cons in Hjin as [->|Hjin].
      * assert (nj = n') by congruence. subst nj.
        destruct Hj as (faces & unique & other & Hf & Hu & Ho & _ & _ & _ & _ & _ & _
                        & _ & _ & Hco & _ & Hflags & _).
        rewrite (Hflags PBVH_Leaf) by (apply elem_of_cons; by left).
        split; [assumption|]. split; [by eexists|]. split; by eexists.
      * exfalso.
        destruct (lookup_lt_is_Some_2 ns j) as [n0 Hn0j].
        { apply (shape_indices_lt ns (TNode i l r)).
          - exists n. auto 10.
          - cbn [indices]. apply elem_of_cons. by right. }
        rewrite (Hdel j n0 Hjin Hn0j) in Hnj. injection Hnj as <-.
        unfold kept in Hkj.
        rewrite flag_test_or_elem in Hkj by (apply elem_of_cons; by left).
        discriminate.
    + intros (Hsame & Hcl' & Hcr').
      destruct (IHl Hl Hcl') as [(nl & Hnl & Hkl) Hstl].
      destruct (IHr Hrr Hcr') as [(nr & Hnr & Hkr) Hstr].
      rewrite Hn in Hsame.
      split; [by exists n|].
      intros j nj Hjin Hnj Hkj. cbn [indices] in Hjin.
      apply elem_of_cons in Hjin as [->|Hjin].
      * assert (nj = n) by congruence. subst nj. rewrite Hleaf.
        exists nl, nr. rewrite Hc.
        replace (root_of l + 1) with (root_of r) by lia. auto.
      * apply elem_of_app in Hjin as [Hjin|Hjin];
          [apply (Hstl j nj) | apply (Hstr j nj)]; assumption.
Qed.

End kept_nodes.


(** **** The merge phase *)

(** "Under half the leaf limit" is what the comparison with [size_lower]
    tests, also for an odd limit. *)
Lemma size_lower_half (x limit : Z) :
  (x < limit - Z.shiftr limit 1)%Z <-> (2 * x < limit)%Z.
Proof.
  rewrite Z.shiftr_div_pow2 by lia. change (2 ^ 1)%Z with 2%Z.
  pose proof (Z.div_mod limit 2 ltac:(lia)).
  pose proof (Z.mod_pos_bound limit 2 ltac:(lia)). lia.
Qed.

(** C4, as the code has it.  On a clean node array of at least two nodes
    that is a tree from position 0, [pbvh_bmesh_join_nodes] runs to its end.
    It first stores the face count of every subtree (nothing else changes).
    Then, going down from the root, the first inner node of a branch that is
    not the root and whose face count is under half the leaf limit is
    joined: it gets the faces and the unique vertices of all the leaves
    under it, its other vertices are those of its faces that are not unique
    to it, its bounding box is rebuilt from the reset box by expanding over
    its unique and other vertices, its original box is this box, it is a
    leaf and has every update flag set; the nodes under it are flagged
    [PBVH_Delete].  The nodes passed on the way down and the leaves reached
    are as they were, whatever their face count, and so is the root.  The
    compaction then keeps exactly the nodes that are not flagged, in their
    order, each with its flags, faces and boxes and with its child offset
    renumbered; the unique vertices of a node can only grow. *)
Theorem join_nodes_merges_small_subtrees
    (flag_bit_inj : forall f g, flag_bit f = flag_bit g -> f = g)
    (pbvh : PBVH) (t : node_tree)
    (Hshape : shape (nodes pbvh) t)
    (Hroot : root_of t = 0)
    (Hnodup : NoDup (indices t))
    (Hcover : forall j, j < totnode pbvh -> j ∈ indices t)
    (Hclean : clean (nodes pbvh))
    (Htotnode : 2 <= totnode pbvh) :
  exists counted merged final,
    pbvh_count_subtree_verts (totnode pbvh) pbvh 0
      = Some (counted, total (nodes pbvh) t) /\
    only_tottri (nodes pbvh) (nodes counted) /\
    tottri_ok (nodes counted) t /\
    pbvh_bmesh_join_nodes_merge pbvh = Some merged /\
    corrected (leaf_limit pbvh - Z.shiftr (leaf_limit pbvh) 1) (bm pbvh)
      (nodes counted) (nodes merged) t /\
    nodes merged !! 0 = nodes counted !! 0 /\
    pbvh_bmesh_join_nodes pbvh = Some final /\
    length (nodes final) = length (filter kept (nodes merged)) /\
    forall i n, nodes merged !! i = Some n -> kept n ->
      exists n',
        nodes final !! new_index (nodes merged) i = Some n' /\
        grown (set_children_offset n
                 (new_index (nodes merged) (children_offset n))) n'.
Proof.
  pose proof (shape_depth_lt _ _ Hshape Hnodup) as Hdepth.
  destruct (count_subtree_spec t (totnode pbvh) pbvh Hshape Hnodup Hdepth)
    as (counted & Hcount & Hbm & Hll & Hot & Hfr & Hok).
  rewrite Hroot in Hcount.
  assert (Hag : agree (nodes pbvh) (nodes counted) t) by by apply only_tottri_agree.
  assert (Hsh : shape (nodes counted) t) by by apply (shape_agree (nodes pbvh)).
  assert (Hlen : totnode counted = totnode pbvh) by apply Hot.
  assert (Hclean' : clean (nodes counted)) by by apply (clean_only_tottri (nodes pbvh)).
  destruct (corect_tree_spec t (totnode counted) counted Hsh Hnodup Hok)
    as (merged & Hrun & Hcor & Hfr' & Hlen' & Hll' & Hg').
  { intros j _. destruct (decide (j = 0)) as [->|Hj]; [left; by rewrite Hroot | by right]. }
  { rewrite Hlen. exact Hdepth. }
  rewrite Hroot in Hrun.
  destruct (corrected_status flag_bit_inj _ _ _ _ _ Hsh Hclean' Hcor)
    as [(root & Hroot' & Hkroot) Hstatus].
  rewrite Hroot in Hroot'.
  assert (Hcomp : compactable (nodes merged)).
  { split; [rewrite Hlen'; fold (totnode counted); lia|].
    intros i n Hn Hk.
    assert (Hi : i ∈ indices t).
    { apply Hcover. rewrite <- Hlen. unfold totnode. rewrite <- Hlen'.
      eapply lookup_lt_Some; eassumption. }
    pose proof (Hstatus i n Hi Hn Hk) as Hst.
    destruct (flag_test n PBVH_Leaf); [|exact Hst].
    destruct Hst as (Hc & Hrest). split; [|exact Hrest].
    rewrite Hc, Hlen'. fold (totnode counted). lia. }
  destruct (compact_nodes_spec merged Hcomp) as (final & Hfinal & _ & Hflen & Hfnodes).
  rewrite Hll, Hbm in Hcor.
  exists counted, merged, final.
  split; [exact Hcount|]. split; [exact Hot|]. split; [exact Hok|].
  split.
  { unfold pbvh_bmesh_join_nodes_merge. rewrite decide_False by lia.
    rewrite Hcount. exact Hrun. }
  split; [exact Hcor|].
  split.
  { destruct t as [i|i l r]; simpl in Hroot; subst i; cbn [corrected] in Hcor.
    - exact Hcor.
    - rewrite decide_False in Hcor by (intros [_ Hne]; by apply Hne).
      apply Hcor. }
  split.
  { unfold pbvh_bmesh_join_nodes. rewrite decide_False by lia.
    rewrite Hcount. cbn [mbind option_bind]. rewrite Hrun. exact Hfinal. }
  split; [exact Hflen|].
  intros i n Hn Hk. destruct (Hfnodes i n Hn Hk) as (n' & Hn' & Hgr).
  exists n'. split; [exact Hn'|].
  assert (Hmap : join_nodes_map (nodes merged) !! children_offset n
                 = Some (new_index (nodes merged) (children_offset n))).
  { assert (Hi : i ∈ indices t).
    { apply Hcover. rewrite <- Hlen. unfold totnode. rewrite <- Hlen'.
      eapply lookup_lt_Some; eassumption. }
    pose proof (Hstatus i n Hi Hn Hk) as Hst.
    destruct (flag_test n PBVH_Leaf).
    - destruct Hst as (-> & _). by apply (join_nodes_map_lookup _ 0 root).
    - destruct Hst as (n1 & n2 & H1 & _ & Hk1 & _).
      by apply (join_nodes_map_lookup _ _ n1). }
  rewrite Hmap in Hgr. exact Hgr.
Qed.


(** ** More on the building blocks *)

(** *** What enters an edge queue *)

(** The test of [edge_queue_insert] on an edge. *)
Definition queueable (pbvh : PBVH) (e : BMEdge) : Prop :=
  (cd_vert_mask_offset pbvh = (-1)%Z
   \/ (v_mask (bm pbvh) (v1 e) < 1)%Q \/ (v_mask (bm pbvh) (v2 e) < 1)%Q) /\
  v_hidden (bm pbvh) (v1 e) = false /\ v_hidden (bm pbvh) (v2 e) = false.

Lemma edge_queue_insert_cases pbvh ctx e pr :
  (queueable pbvh e /\
   q_elems (edge_queue_insert pbvh ctx e pr) = q_elems ctx ++ [(pr, (v1 e, v2 e))] /\
   totedge (edge_queue_insert pbvh ctx e pr) = (totedge ctx + 1)%Q) \/
  (~ queueable pbvh e /\ edge_queue_insert pbvh ctx e pr = ctx).
Proof.
  unfold edge_queue_insert, queueable, check_mask.
  destruct (Z.eqb_spec (cd_vert_mask_offset pbvh) (-1)) as [Hm|Hm];
    destruct (Qlt_le_dec (v_mask (bm pbvh) (v1 e)) 1) as [H1|H1];
    destruct (Qlt_le_dec (v_mask (bm pbvh) (v2 e)) 1) as [H2|H2];
    destruct (v_hidden (bm pbvh) (v1 e)), (v_hidden (bm pbvh) (v2 e)); cbn;
    first [ left; split; [|split; reflexivity]; split; [|split; reflexivity]; auto; fail
          | right; split; [|reflexivity];
            intros (Hmask & Hh1 & Hh2); try discriminate;
            destruct Hmask as [?|[?|?]]; try contradiction; lra ].
Qed.

Lemma queue_fold_spec pbvh edges : forall ctx,
  let ctx' := foldl (fun ctx ep => edge_queue_insert pbvh ctx (fst ep) (snd ep)) ctx edges in
  exists queued,
    q_elems ctx' = q_elems ctx ++ queued /\
    (totedge ctx' == totedge ctx + inject_Z (Z.of_nat (length queued)))%Q /\
    (forall pr a b, (pr, (a, b)) ∈ queued <->
       exists e, (e, pr) ∈ edges /\ v1 e = a /\ v2 e = b /\ queueable pbvh e).
Proof.
  induction edges as [|[e pr] edges IH]; intros ctx; cbn zeta.
  - exists []. cbn. split; [by rewrite app_nil_r|]. split; [ring|].
    intros pr a b. split.
    + intros Hin. by apply elem_of_nil in Hin.
    + intros (e & Hin & _). by apply elem_of_nil in Hin.
  - cbn [foldl fst snd].
    destruct (IH (edge_queue_insert pbvh ctx e pr)) as (queued & Hq & Ht & Hin).
    destruct (edge_queue_insert_cases pbvh ctx e pr) as [(Hok & Hq1 & Ht1)|(Hno & Hsame)].
    + exists ((pr, (v1 e, v2 e)) :: queued).
      split; [rewrite Hq, Hq1, <- app_assoc; reflexivity|].
      split.
      { rewrite Ht, Ht1. cbn [length].
        rewrite Nat2Z.inj_succ, <- Z.add_1_l, inject_Z_plus. ring. }
      intros pr' a b. rewrite elem_of_cons, Hin. split.
      * intros [Heq|(e' & He' & Hv)].
        -- injection Heq as -> -> ->. exists e. split; [apply elem_of_cons; by left|]. auto.
        -- exists e'. split; [apply elem_of_cons; by right | exact Hv].
      * intros (e' & He' & Ha & Hb & Hok').
        apply elem_of_cons in He' as [Heq|He'].
        -- injection Heq as -> ->. left. by rewrite Ha, Hb.
        -- right. exists e'. auto.
    + exists queued. rewrite Hsame in Hq, Ht |- *. split; [exact Hq|]. split; [exact Ht|].
      intros pr' a b. rewrite Hin. split.
      * intros (e' & He' & Hv). exists e'. split; [apply elem_of_cons; by right | exact Hv].
      * intros (e' & He' & Ha & Hb & Hok').
        apply elem_of_cons in He' as [Heq|He'].
        -- injection Heq as -> ->. contradiction.
        -- exists e'. auto.
Qed.

(** X19.  Both edge queues hold exactly the offered edges that pass the test
    of [edge_queue_insert]: the two end points are not hidden and, when the
    mesh has a mask layer, at least one of them is not fully masked.  The
    pairs queued before are dropped, and the edge count of the statistics
    grows by the number of pairs queued. *)
Theorem edge_queues_hold_unmasked_visible_edges
    (eq_ctx : EdgeQueueContext) (pbvh : PBVH) (args : TopologyArgs) :
  let holds (ctx' : EdgeQueueContext) (edges : list (BMEdge * Q)) :=
    (forall pr a b, (pr, (a, b)) ∈ q_elems ctx' <->
       exists e, (e, pr) ∈ edges /\ v1 e = a /\ v2 e = b /\ queueable pbvh e) /\
    (totedge ctx' == totedge eq_ctx + inject_Z (Z.of_nat (length (q_elems ctx'))))%Q in
  holds (short_edge_queue_create eq_ctx pbvh args) (short_edge_queue_edges pbvh args) /\
  holds (long_edge_queue_create eq_ctx pbvh args) (long_edge_queue_edges pbvh args).
Proof.
  cbn zeta. unfold short_edge_queue_create, long_edge_queue_create. split.
  - destruct (queue_fold_spec pbvh (short_edge_queue_edges pbvh args) (queue_reset eq_ctx))
      as (queued & Hq & Ht & Hin).
    cbn in Hq, Ht. rewrite Hq. split; [exact Hin | exact Ht].
  - destruct (queue_fold_spec pbvh (long_edge_queue_edges pbvh args) (queue_reset eq_ctx))
      as (queued & Hq & Ht & Hin).
    cbn in Hq, Ht. rewrite Hq. split; [exact Hin | exact Ht].
Qed.


(** *** Finalizing a node *)

Section finalize.

Variable node_index : nat.
Variable m0 : BMesh.

(** After the faces [done] of the node have been handled. *)
Definition finalized (done : list BMFace) (st : finalize_state) : Prop :=
  NoDup (fin_unique st) /\ NoDup (fin_other st) /\
  (forall v, v ∈ fin_unique st -> v_node m0 v = DYNTOPO_NODE_NONE) /\
  (forall v, v ∈ fin_other st -> v_node m0 v <> DYNTOPO_NODE_NONE) /\
  (forall v, v ∈ fin_unique st \/ v ∈ fin_other st <->
             exists f, f ∈ done /\ v ∈ f_verts m0 f) /\
  (forall v, v_node (fin_bm st) v
             = if decide (v ∈ fin_unique st) then Z.of_nat node_index else v_node m0 v) /\
  (forall f, f_node (fin_bm st) f
             = if decide (f ∈ done) then Z.of_nat node_index else f_node m0 f) /\
  f_verts (fin_bm st) = f_verts m0.

(** The same while the vertices [seen] of one more face [f] are handled. *)
Definition finalizing (done : list BMFace) (f : BMFace) (seen : list BMVert)
    (st : finalize_state) : Prop :=
  NoDup (fin_unique st) /\ NoDup (fin_other st) /\
  (forall v, v ∈ fin_unique st -> v_node m0 v = DYNTOPO_NODE_NONE) /\
  (forall v, v ∈ fin_other st -> v_node m0 v <> DYNTOPO_NODE_NONE) /\
  (forall v, v ∈ fin_unique st \/ v ∈ fin_other st <->
             (exists g, g ∈ done /\ v ∈ f_verts m0 g) \/ v ∈ seen) /\
  (forall v, v_node (fin_bm st) v
             = if decide (v ∈ fin_unique st) then Z.of_nat node_index else v_node m0 v) /\
  (forall g, f_node (fin_bm st) g
             = if decide (g ∈ done ++ [f]) then Z.of_nat node_index else f_node m0 g) /\
  f_verts (fin_bm st) = f_verts m0.

Lemma finalize_vert_finalizing done f seen st v :
  finalizing done f seen st ->
  finalizing done f (seen ++ [v]) (finalize_vert node_index st v).
Proof.
  intros (Hnu & Hno & Hu & Ho & Hcov & Hvn & Hfn & Hfv).
  assert (Hstep : forall U' O' : list BMVert,
    (forall x, x ∈ U' \/ x ∈ O' <-> (x ∈ fin_unique st \/ x ∈ fin_other st) \/ x = v) ->
    forall x, x ∈ U' \/ x ∈ O' <->
              (exists g, g ∈ done /\ x ∈ f_verts m0 g) \/ x ∈ seen ++ [v]).
  { intros U' O' H' x. rewrite H', elem_of_app, list_elem_of_singleton. split.
    - intros [Hx| ->]; [|by right; right].
      apply Hcov in Hx as [Hx|Hx]; [by left | by right; left].
    - intros [Hx|[Hx| ->]]; [| |by right].
      + left. apply Hcov. by left.
      + left. apply Hcov. by right. }
  unfold finalize_vert, BLI_table_gset_haskey, BLI_table_gset_add, BLI_table_gset_insert,
    BLI_table_gset_haskey, finalizing.
  case_bool_decide as Hin; [|destruct (Z.eqb_spec (v_node (fin_bm st) v) DYNTOPO_NODE_NONE)
                                as [Hnone|Hsome]]; cbn [negb].
  - (* already unique to this node *)
    cbn [fin_unique fin_other fin_bm].
    split; [exact Hnu|]. split; [exact Hno|]. split; [exact Hu|]. split; [exact Ho|].
    split; [|split; [exact Hvn|split; [exact Hfn | exact Hfv]]].
    apply Hstep. intros x. split; [intros Hx; by left|].
    intros [Hx| ->]; [exact Hx | by left].
  - (* unclaimed: it becomes unique *)
    assert (Hm0 : v_node m0 v = DYNTOPO_NODE_NONE).
    { rewrite Hvn, decide_False in Hnone by assumption. exact Hnone. }
    cbn [fin_unique fin_other fin_bm set_v_node v_node f_node f_verts].
    split; [|split; [exact Hno|split; [|split; [exact Ho|split; [|split;
      [|split; [exact Hfn | exact Hfv]]]]]]].
    + apply NoDup_app. split; [assumption|]. split; [|apply NoDup_singleton].
      intros x Hx Hx'. apply list_elem_of_singleton in Hx' as ->. contradiction.
    + intros x Hx. apply elem_of_app in Hx as [Hx|Hx]; [by apply Hu|].
      by apply list_elem_of_singleton in Hx as ->.
    + apply Hstep. intros x. rewrite elem_of_app, list_elem_of_singleton. split.
      * intros [[Hx| ->]|Hx]; [by left; left | by right | by left; right].
      * intros [[Hx|Hx]| ->]; [by left; left | by right | by left; right].
    + intros x. destruct (decide (x = v)) as [->|Hne].
      * rewrite decide_True by (apply elem_of_app; right; by apply list_elem_of_singleton).
        reflexivity.
      * rewrite Hvn. destruct (decide (x ∈ fin_unique st)) as [Hx|Hx].
        -- by rewrite decide_True by (apply elem_of_app; by left).
        -- rewrite decide_False; [reflexivity|].
           rewrite elem_of_app, list_elem_of_singleton. by intros [?|?].
  - (* owned by another node: it becomes an other vertex *)
    assert (Hm0 : v_node m0 v <> DYNTOPO_NODE_NONE).
    { rewrite Hvn, decide_False in Hsome by assumption. exact Hsome. }
    case_bool_decide as Hino; cbn [fin_unique fin_other fin_bm].
    + split; [exact Hnu|]. split; [exact Hno|]. split; [exact Hu|]. split; [exact Ho|].
      split; [|split; [exact Hvn|split; [exact Hfn | exact Hfv]]].
      apply Hstep. intros x. split; [intros Hx; by left|].
      intros [Hx| ->]; [exact Hx | by right].
    + split; [exact Hnu|]. split; [|split; [exact Hu|split; [|split; [|split;
        [exact Hvn|split; [exact Hfn | exact Hfv]]]]]].
      * apply NoDup_app. split; [assumption|]. split; [|apply NoDup_singleton].
        intros x Hx Hx'. apply list_elem_of_singleton in Hx' as ->. contradiction.
      * intros x Hx. apply elem_of_app in Hx as [Hx|Hx]; [by apply Ho|].
        by apply list_elem_of_singleton in Hx as ->.
      * apply Hstep. intros x. rewrite elem_of_app, list_elem_of_singleton. split.
        -- intros [Hx|[Hx| ->]]; [by left; left | by left; right | by right].
        -- intros [[Hx|Hx]| ->]; [by left | by right; left | by right; right].
Qed.

Lemma finalize_verts_finalizing done f vs : forall seen st,
  finalizing done f seen st ->
  finalizing done f (seen ++ vs) (foldl (finalize_vert node_index) st vs).
Proof.
  induction vs as [|v vs IH]; intros seen st Hst; cbn [foldl].
  - by rewrite app_nil_r.
  - replace (seen ++ v :: vs) with ((seen ++ [v]) ++ vs) by (by rewrite <- app_assoc).
    apply IH. by apply finalize_vert_finalizing.
Qed.

Lemma finalize_face_finalized done st f :
  finalized done st -> finalized (done ++ [f]) (finalize_face node_index st f).
Proof.
  intros (Hnu & Hno & Hu & Ho & Hcov & Hvn & Hfn & Hfv).
  unfold finalize_face.
  match goal with
  | |- context [foldl (finalize_vert node_index) ?st0 ?vs] =>
      assert (H0 : finalizing done f [] st0);
      [| pose proof (finalize_verts_finalizing done f vs [] st0 H0) as H1;
         destruct (foldl (finalize_vert node_index) st0 vs) as [bm1 u1 o1 vb1 hv1] eqn:E ]
  end.
  { unfold finalizing. cbn [fin_unique fin_other fin_bm set_f_node v_node f_node f_verts].
    split; [exact Hnu|]. split; [exact Hno|]. split; [exact Hu|]. split; [exact Ho|].
    split; [|split; [exact Hvn|split; [|exact Hfv]]].
    - intros v. rewrite Hcov. split; [intros Hv; by left|].
      intros [Hv|Hv]; [exact Hv | by apply elem_of_nil in Hv].
    - intros g. destruct (decide (g = f)) as [->|Hne].
      + rewrite decide_True by (apply elem_of_app; right; by apply list_elem_of_singleton).
        reflexivity.
      + rewrite Hfn. destruct (decide (g ∈ done)) as [Hg|Hg].
        * by rewrite decide_True by (apply elem_of_app; by left).
        * rewrite decide_False; [reflexivity|].
          rewrite elem_of_app, list_elem_of_singleton. by intros [?|?]. }
  cbn [fin_bm set_f_node f_verts] in H1. rewrite Hfv in H1. cbn [app] in H1.
  destruct H1 as (Hnu1 & Hno1 & Hu1 & Ho1 & Hcov1 & Hvn1 & Hfn1 & Hfv1).
  cbn [fin_unique fin_other fin_bm] in *. unfold finalized.
  cbn [fin_unique fin_other fin_bm].
  split; [exact Hnu1|]. split; [exact Hno1|]. split; [exact Hu1|]. split; [exact Ho1|].
  split; [|split; [exact Hvn1|split; [exact Hfn1 | exact Hfv1]]].
  intros v. rewrite Hcov1. split.
  - intros [(g & Hg & Hv)|Hv].
    + exists g. split; [apply elem_of_app; by left | exact Hv].
    + exists f. split; [apply elem_of_app; right; by apply list_elem_of_singleton | exact Hv].
  - intros (g & Hg & Hv). apply elem_of_app in Hg as [Hg|Hg].
    + left. by exists g.
    + apply list_elem_of_singleton in Hg as ->. by right.
Qed.

Lemma finalize_faces_finalized faces : forall done st,
  finalized done st ->
  finalized (done ++ faces) (foldl (finalize_face node_index) st faces).
Proof.
  induction faces as [|f faces IH]; intros done st Hst; cbn [foldl].
  - by rewrite app_nil_r.
  - replace (done ++ f :: faces) with ((done ++ [f]) ++ faces) by (by rewrite <- app_assoc).
    apply IH. by apply finalize_face_finalized.
Qed.

End finalize.

(** X20.  Finalizing a node claims its faces and their vertices.  The node
    keeps its faces; every face of it gets the node as its home.  Its unique
    vertices are the vertices of its faces that had no home, and they get
    the node as their home; its other vertices are the vertices of its faces
    that had a home already, which they keep.  Neither table holds a vertex
    twice and no vertex is in both; homes of other vertices and faces of the
    mesh do not change, and no other node is touched. *)
Theorem finalize_claims_faces_and_vertices pbvh (i : nat) n faces :
  nodes pbvh !! i = Some n ->
  bm_faces n = Some faces ->
  exists p' n' unique other,
    pbvh_bmesh_node_finalize pbvh i = Some p' /\
    nodes p' !! i = Some n' /\
    (forall j, j ≠ i -> nodes p' !! j = nodes pbvh !! j) /\
    bm_faces n' = Some faces /\
    bm_unique_verts n' = Some unique /\ bm_other_verts n' = Some other /\
    NoDup unique /\ NoDup other /\
    (forall v, v ∈ unique <->
       (exists f, f ∈ faces /\ v ∈ f_verts (bm pbvh) f) /\
       v_node (bm pbvh) v = DYNTOPO_NODE_NONE) /\
    (forall v, v ∈ other <->
       (exists f, f ∈ faces /\ v ∈ f_verts (bm pbvh) f) /\
       v_node (bm pbvh) v <> DYNTOPO_NODE_NONE) /\
    (forall v, v_node (bm p') v
               = if decide (v ∈ unique) then Z.of_nat i else v_node (bm pbvh) v) /\
    (forall f, f_node (bm p') f
               = if decide (f ∈ faces) then Z.of_nat i else f_node (bm pbvh) f).
Proof.
  intros Hn Hf. unfold pbvh_bmesh_node_finalize. rewrite Hn. cbn. rewrite Hf. cbn.
  match goal with
  | |- context [foldl (finalize_face i) ?st0 faces] =>
      assert (H0 : finalized i (bm pbvh) [] st0);
      [| pose proof (finalize_faces_finalized i (bm pbvh) faces [] st0 H0) as H1;
         destruct (foldl (finalize_face i) st0 faces) as [bm1 u1 o1 vb1 hv1] eqn:E ]
  end.
  { unfold finalized. cbn [fin_unique fin_other fin_bm].
    split; [apply NoDup_nil_2|]. split; [apply NoDup_nil_2|].
    split; [intros v Hv; by apply elem_of_nil in Hv|].
    split; [intros v Hv; by apply elem_of_nil in Hv|].
    split; [|split; [|split; [|reflexivity]]].
    - intros v. split.
      + intros [Hv|Hv]; by apply elem_of_nil in Hv.
      + intros (f & Hf' & _). by apply elem_of_nil in Hf'.
    - intros v. by rewrite decide_False by apply not_elem_of_nil.
    - intros f. by rewrite decide_False by apply not_elem_of_nil. }
  cbn [app] in H1. destruct H1 as (Hnu & Hno & Hu & Ho & Hcov & Hvn & Hfn & Hfv).
  cbn in Hnu, Hno, Hu, Ho, Hcov, Hvn, Hfn, Hfv.
  assert (Hi : i < length (nodes pbvh)) by (eapply lookup_lt_Some; eassumption).
  eexists _, _, u1, o1. split; [reflexivity|]. cbn.
  split; [by apply list_lookup_insert_eq|].
  split; [intros j Hj; by apply list_lookup_insert_ne|].
  split; [reflexivity|]. split; [reflexivity|]. split; [reflexivity|].
  split; [exact Hnu|]. split; [exact Hno|].
  split; [|split; [|split; [exact Hvn | exact Hfn]]].
  - intros v. split.
    + intros Hv. split; [apply Hcov; by left | by apply Hu].
    + intros (Hface & Hnone). apply Hcov in Hface as [Hv|Hv]; [exact Hv|].
      exfalso. by apply (Ho v Hv).
  - intros v. split.
    + intros Hv. split; [apply Hcov; by right | by apply Ho].
    + intros (Hface & Hsome). apply Hcov in Hface as [Hv|Hv]; [|exact Hv].
      exfalso. apply Hsome. by apply Hu.
Qed.


(** *** Splitting keeps the faces *)

Definition node_faces (n : PBVHNode) : list BMFace := default [] (bm_faces n).

(** The faces of all nodes, node after node. *)
Definition all_faces (ns : list PBVHNode) : list BMFace := flat_map node_faces ns.

Lemma all_faces_app ns1 ns2 : all_faces (ns1 ++ ns2) = all_faces ns1 ++ all_faces ns2.
Proof. apply flat_map_app. Qed.

Lemma all_faces_insert ns : forall i n n',
  ns !! i = Some n ->
  all_faces (<[i := n']> ns) ++ node_faces n ≡ₚ all_faces ns ++ node_faces n'.
Proof.
  induction ns as [|x ns IH]; intros [|i] n n' Hn; try discriminate.
  - injection Hn as ->.
    change (all_faces (<[0:=n']> (n :: ns))) with (node_faces n' ++ all_faces ns).
    change (all_faces (n :: ns)) with (node_faces n ++ all_faces ns).
    rewrite (Permutation_app_comm (node_faces n' ++ all_faces ns) (node_faces n)).
    rewrite <- (app_assoc (node_faces n)).
    apply Permutation_app_head, Permutation_app_comm.
  - cbn in Hn |- *. rewrite <- !app_assoc. apply Permutation_app_head. by apply IH.
Qed.

Lemma all_faces_insert_same ns i n n' :
  ns !! i = Some n -> bm_faces n' = bm_faces n ->
  all_faces (<[i := n']> ns) = all_faces ns.
Proof.
  revert i. induction ns as [|x ns IH]; intros [|i] Hn Hf; try discriminate.
  - injection Hn as ->. cbn. unfold node_faces. by rewrite Hf.
  - cbn in Hn |- *. f_equal. by apply IH.
Qed.

Lemma filter_partition (c : BMFace -> bool) (l : list BMFace) :
  filter (fun f => c f = true) l ++ filter (fun f => c f = false) l ≡ₚ l.
Proof.
  induction l as [|x l IH]; [reflexivity|].
  destruct (c x) eqn:Hc.
  - rewrite filter_cons_True by assumption.
    rewrite (filter_cons_False (fun f => c f = false)) by (rewrite Hc; discriminate).
    cbn. by rewrite IH.
  - rewrite filter_cons_False by (rewrite Hc; discriminate).
    rewrite (filter_cons_True (fun f => c f = false)) by assumption.
    rewrite <- Permutation_middle. by rewrite IH.
Qed.

Lemma finalize_faces pbvh i p' :
  pbvh_bmesh_node_finalize pbvh i = Some p' ->
  all_faces (nodes p') = all_faces (nodes pbvh) /\ length (nodes p') = length (nodes pbvh).
Proof.
  unfold pbvh_bmesh_node_finalize. intros Hfin.
  destruct (nodes pbvh !! i) as [n|] eqn:Hn; [|discriminate]. cbn in Hfin.
  destruct (bm_faces n) as [faces|] eqn:Hf; [|discriminate]. cbn in Hfin.
  injection Hfin as <-. cbn. split; [|apply length_insert].
  apply (all_faces_insert_same _ _ n); [exact Hn | by rewrite Hf].
Qed.

#[local] Arguments pbvh_bmesh_node_split : simpl nomatch.

Lemma node_split_faces rem : forall pbvh bbc i p',
  pbvh_bmesh_node_split rem pbvh bbc i = Some p' ->
  all_faces (nodes p') ≡ₚ all_faces (nodes pbvh) /\
  length (nodes pbvh) <= length (nodes p').
Proof.
  induction rem as [|rem IH]; intros pbvh bbc i p' Hs.
  - cbn [pbvh_bmesh_node_split] in Hs.
    destruct (nodes pbvh !! i) as [n|]; [|discriminate]. cbn in Hs.
    destruct (bm_faces n) as [faces|]; [|discriminate]. cbn in Hs.
    destruct (finalize_faces _ _ _ Hs) as [-> ->]. by split.
  - cbn [pbvh_bmesh_node_split] in Hs.
    destruct (nodes pbvh !! i) as [n|] eqn:Hn; [|discriminate]. cbn [mbind option_bind] in Hs.
    destruct (bm_faces n) as [faces|] eqn:Hf; [|discriminate]. cbn [mbind option_bind] in Hs.
    destruct (BLI_table_gset_len faces <=? leaf_limit pbvh)%Z.
    { destruct (finalize_faces _ _ _ Hs) as [-> ->]. by split. }
    cbv zeta in Hs.
    match type of Hs with
    | context [pbvh_bmesh_node_split rem ?p0 bbc (totnode pbvh)] =>
        set (q0 := p0) in Hs;
        destruct (pbvh_bmesh_node_split rem q0 bbc (totnode pbvh)) as [p1|] eqn:H1;
          [|discriminate]
    end.
    cbn [mbind option_bind] in Hs.
    destruct (pbvh_bmesh_node_split rem p1 bbc (totnode pbvh + 1)) as [p2|] eqn:H2;
      [|discriminate].
    cbn [mbind option_bind] in Hs.
    destruct (nodes p2 !! i) as [n2|] eqn:Hn2; [|discriminate]. cbn [mbind option_bind] in Hs.
    destruct (nodes p2 !! children_offset n2) as [c1|]; [|discriminate].
    cbn [mbind option_bind] in Hs.
    destruct (nodes p2 !! (children_offset n2 + 1)) as [c2|]; [|discriminate].
    cbn [mbind option_bind] in Hs.
    injection Hs as <-.
    destruct (IH _ _ _ _ H1) as [Hp1 Hl1]. destruct (IH _ _ _ _ H2) as [Hp2 Hl2].
    assert (Hq0 : all_faces (nodes q0) ≡ₚ all_faces (nodes pbvh)).
    { unfold q0. cbn [nodes set_bm set_nodes]. rewrite all_faces_app.
      match goal with
      | |- all_faces (<[i := ?n0]> _) ++ _ ≡ₚ _ =>
          pose proof (all_faces_insert (nodes pbvh) i n n0 Hn) as Hins
      end.
      unfold node_faces at 1 2 in Hins. rewrite Hf in Hins. cbn in Hins.
      rewrite app_nil_r in Hins. rewrite <- Hins.
      apply Permutation_app_head. cbn. unfold node_faces. cbn. rewrite app_nil_r.
      apply filter_partition. }
    assert (Hlq0 : length (nodes q0) = length (nodes pbvh) + 2).
    { unfold q0. cbn [nodes set_bm set_nodes]. rewrite length_app, length_insert.
      cbn. lia. }
    cbn [nodes set_node set_nodes]. rewrite length_insert. split; [|lia].
    rewrite (all_faces_insert_same _ _ n2) by (assumption || reflexivity).
    by rewrite Hp2, Hp1.
Qed.

#[local] Arguments pbvh_bmesh_node_split : simpl never.

(** X21.  Splitting loses no face and makes none up: after
    [pbvh_bmesh_node_split], at any depth, and after
    [pbvh_bmesh_node_limit_ensure], the faces held by the nodes are the
    faces held before, each as often as before (so a face that was in one
    node is in one node), and no node has gone; a node within the limit is
    not touched at all. *)
Theorem split_keeps_every_face pbvh (i : nat) :
  (forall rem bbc_array p',
     pbvh_bmesh_node_split rem pbvh bbc_array i = Some p' ->
     all_faces (nodes p') ≡ₚ all_faces (nodes pbvh) /\
     length (nodes pbvh) <= length (nodes p')) /\
  (forall p' b,
     pbvh_bmesh_node_limit_ensure pbvh i = Some (p', b) ->
     all_faces (nodes p') ≡ₚ all_faces (nodes pbvh) /\
     length (nodes pbvh) <= length (nodes p') /\
     (b = false -> p' = pbvh)).
Proof.
  split.
  - intros rem bbc p' Hs. by eapply node_split_faces.
  - intros p' b Hl. unfold pbvh_bmesh_node_limit_ensure in Hl.
    destruct (nodes pbvh !! i) as [n|]; [|discriminate]. cbn [mbind option_bind] in Hl.
    destruct (bm_faces n) as [faces|]; [|discriminate]. cbn [mbind option_bind] in Hl.
    destruct (BLI_table_gset_len faces <=? leaf_limit pbvh)%Z.
    + injection Hl as <- <-. by repeat split.
    + cbv zeta in Hl.
      destruct (pbvh_bmesh_node_split 7 pbvh _ i) as [p1|] eqn:Hs; [|discriminate].
      cbn [mbind option_bind] in Hl. injection Hl as <- <-.
      destruct (node_split_faces _ _ _ _ _ Hs) as [Hp Hlen].
      split; [exact Hp|]. split; [exact Hlen | discriminate].
Qed.


(** *** Vertices and faces leaving a node *)

(** The faces around a vertex, in the order [BM_FACES_OF_VERT] visits them;
    none of the functions below changes the topology of the mesh. *)
Variable BM_FACES_OF_VERT : BMVert -> list BMFace.

(** [ni >= 0 ? pbvh->nodes + ni : NULL]: a node pointer is the position of
    the node, [NULL] is [None]. *)
Definition node_pointer (ni : Z) : option nat :=
  if (0 <=? ni)%Z then Some (Z.to_nat ni) else None.

Definition pbvh_bmesh_node_from_vert (pbvh : PBVH) (key : BMVert) : option nat :=
  let ni := v_node (bm pbvh) key in
  node_pointer ni.

Definition pbvh_bmesh_node_from_face (pbvh : PBVH) (key : BMFace) : option nat :=
  let ni := f_node (bm pbvh) key in
  node_pointer ni.

(** The loop of [pbvh_bmesh_node_vert_use_count_at_most] from a face on,
    with the count so far. *)
Fixpoint use_count_loop (pbvh : PBVH) (node : nat) (count_max : Z)
    (fs : list BMFace) (count : Z) : Z :=
  match fs with
  | [] => count
  | f :: fs =>
      let f_node := pbvh_bmesh_node_from_face pbvh f in
      if decide (f_node = Some node) then
        let count := (count + 1)%Z in
        if (count =? count_max)%Z then count
        else use_count_loop pbvh node count_max fs count
      else use_count_loop pbvh node count_max fs count
  end.

Definition pbvh_bmesh_node_vert_use_count_at_most (pbvh : PBVH) (node : nat)
    (v : BMVert) (count_max : Z) : Z :=
  use_count_loop pbvh node count_max (BM_FACES_OF_VERT v) 0.

Definition pbvh_bmesh_node_vert_use_count_is_equal (pbvh : PBVH) (node : nat)
    (v : BMVert) (n : Z) : bool :=
  (pbvh_bmesh_node_vert_use_count_at_most pbvh node v (n + 1) =? n)%Z.

(** Return a node that uses vertex [v] other than its current owner *)
Definition pbvh_bmesh_vert_other_node_find (pbvh : PBVH) (v : BMVert) : option nat :=
  let current_node := pbvh_bmesh_node_from_vert pbvh v in
  (fix loop (fs : list BMFace) : option nat :=
     match fs with
     | [] => None
     | f :: fs =>
         let f_node := pbvh_bmesh_node_from_face pbvh f in
         if decide (f_node <> current_node) then f_node else loop fs
     end) (BM_FACES_OF_VERT v).

Definition pbvh_bmesh_vert_ownership_transfer (pbvh : PBVH) (new_owner : nat)
    (v : BMVert) : option PBVH :=
  let current_owner := pbvh_bmesh_node_from_vert pbvh v in
  pbvh ← match current_owner with
         | Some c =>
             n ← nodes pbvh !! c;
             (* mark node for update *)
             let n := flag_or n [PBVH_UpdateDrawBuffers; PBVH_UpdateBB] in
             (* Remove current ownership *)
             unique ← bm_unique_verts n;
             Some (set_node pbvh c
                     (set_tables n (bm_faces n) (Some (BLI_table_gset_remove unique v))
                                 (bm_other_verts n)))
         | None => Some pbvh
         end;
  (* Set new ownership *)
  let pbvh := set_bm pbvh (set_v_node (bm pbvh) v (Z.of_nat new_owner)) in
  n ← nodes pbvh !! new_owner;
  unique ← bm_unique_verts n;
  other ← bm_other_verts n;
  let n := set_tables n (bm_faces n) (Some (BLI_table_gset_insert unique v))
             (Some (BLI_table_gset_remove other v)) in
  (* mark node for update *)
  Some (set_node pbvh new_owner (flag_or n [PBVH_UpdateDrawBuffers; PBVH_UpdateBB])).

(** One pass of the loop of [pbvh_bmesh_vert_remove] over the faces around
    [v]; the state is the tree and [f_node_index_prev]. *)
Definition vert_remove_face (v : BMVert) (st : PBVH * Z) (f : BMFace)
    : option (PBVH * Z) :=
  let '(pbvh, f_node_index_prev) := st in
  let f_node_index := f_node (bm pbvh) f in
  if (f_node_index =? DYNTOPO_NODE_NONE)%Z then Some st   (* continue *)
  else
    (* faces often share the same node,
       quick check to avoid redundant BLI_table_gset_remove calls *)
    if negb (f_node_index_prev =? f_node_index)%Z then
      if (f_node_index <? 0)%Z then None   (* a node before the array *)
      else
        n ← nodes pbvh !! Z.to_nat f_node_index;
        let n := flag_or n [PBVH_UpdateDrawBuffers; PBVH_UpdateBB; PBVH_UpdateTris] in
        (* Remove current ownership *)
        other ← bm_other_verts n;
        Some (set_node pbvh (Z.to_nat f_node_index)
                (set_tables n (bm_faces n) (bm_unique_verts n)
                            (Some (BLI_table_gset_remove other v))),
              f_node_index)
    else Some st.

Definition pbvh_bmesh_vert_remove (pbvh : PBVH) (v : BMVert) : option PBVH :=
  (* never match for first time *)
  let f_node_index_prev := DYNTOPO_NODE_NONE in
  let v_node := pbvh_bmesh_node_from_vert pbvh v in
  pbvh ← match v_node with
         | Some c =>
             n ← nodes pbvh !! c;
             unique ← bm_unique_verts n;
             Some (set_node pbvh c
                     (set_tables n (bm_faces n) (Some (BLI_table_gset_remove unique v))
                                 (bm_other_verts n)))
         | None => Some pbvh
         end;
  let pbvh := set_bm pbvh (set_v_node (bm pbvh) v DYNTOPO_NODE_NONE) in
  (* Have to check each neighboring face's node *)
  '(pbvh, _) ← for_each (vert_remove_face v) (pbvh, f_node_index_prev)
                 (BM_FACES_OF_VERT v);
  Some pbvh.

(** One pass of the loop of [pbvh_bmesh_face_remove] over the vertices of
    the face. *)
Definition face_remove_vert (f_node : nat) (pbvh : PBVH) (v : BMVert) : option PBVH :=
  if pbvh_bmesh_node_vert_use_count_is_equal pbvh f_node v 1 then
    n ← nodes pbvh !! f_node;
    unique ← bm_unique_verts n;
    if BLI_table_gset_haskey unique v then
      (* Find a different node that uses 'v' *)
      let new_node := pbvh_bmesh_vert_other_node_find pbvh v in
      match new_node with
      | Some new_node => pbvh_bmesh_vert_ownership_transfer pbvh new_node v
      | None => Some pbvh
      end
    else
      (* Remove from other verts *)
      other ← bm_other_verts n;
      Some (set_node pbvh f_node
              (set_tables n (bm_faces n) (bm_unique_verts n)
                          (Some (BLI_table_gset_remove other v))))
  else Some pbvh.

(** The face log ([BM_log_face_removed]) is not part of the model. *)
Definition pbvh_bmesh_face_remove (pbvh : PBVH) (f : BMFace) : option PBVH :=
  match pbvh_bmesh_node_from_face pbvh f with
  | None => Some pbvh   (* "pbvh corruption" *)
  | Some f_node =>
      (* Check if any of this face's vertices need to be removed from the node *)
      pbvh ← for_each (face_remove_vert f_node) pbvh (f_verts (bm pbvh) f);
      (* Remove face from node and top level *)
      n ← nodes pbvh !! f_node;
      faces ← bm_faces n;
      let n := set_tables n (Some (BLI_table_gset_remove faces f)) (bm_unique_verts n)
                 (bm_other_verts n) in
      let pbvh := set_bm (set_node pbvh f_node n)
                    (set_f_node (bm pbvh) f DYNTOPO_NODE_NONE) in
      (* mark node for update *)
      n ← nodes pbvh !! f_node;
      Some (set_node pbvh f_node
              (flag_or n [PBVH_UpdateDrawBuffers; PBVH_UpdateNormals; PBVH_UpdateTris]))
  end.

(** The number of faces around [v] whose home is [node]. *)
Definition use_count (pbvh : PBVH) (node : nat) (v : BMVert) : Z :=
  Z.of_nat (length (filter (fun f => pbvh_bmesh_node_from_face pbvh f = Some node)
                           (BM_FACES_OF_VERT v))).

Lemma use_count_loop_spec pbvh node count_max fs : forall count,
  (count < count_max)%Z ->
  use_count_loop pbvh node count_max fs count
  = Z.min (count
           + Z.of_nat (length (filter (fun f => pbvh_bmesh_node_from_face pbvh f = Some node)
                                      fs)))
          count_max.
Proof.
  induction fs as [|f fs IH]; intros count Hc; cbn [use_count_loop].
  - cbn. lia.
  - cbv zeta. destruct (decide (pbvh_bmesh_node_from_face pbvh f = Some node)) as [Hf|Hf].
    + rewrite filter_cons_True by assumption. cbn [length].
      destruct (Z.eqb_spec (count + 1) count_max) as [He|Hne]; [lia|].
      rewrite IH by lia. lia.
    + rewrite filter_cons_False by assumption. by apply IH.
Qed.

(** X22.  Counting up to a maximum of at least one gives the smaller of the
    number of faces around the vertex that are in the node and the maximum;
    so the test [pbvh_bmesh_node_vert_use_count_is_equal], which counts up to
    [n + 1], holds exactly when that number is [n]. *)
Theorem vert_use_count_is_exact pbvh (node : nat) v :
  (forall count_max, (1 <= count_max)%Z ->
     pbvh_bmesh_node_vert_use_count_at_most pbvh node v count_max
     = Z.min (use_count pbvh node v) count_max) /\
  (forall n, (0 <= n)%Z ->
     pbvh_bmesh_node_vert_use_count_is_equal pbvh node v n = true
     <-> use_count pbvh node v = n).
Proof.
  assert (Hmost : forall count_max, (1 <= count_max)%Z ->
     pbvh_bmesh_node_vert_use_count_at_most pbvh node v count_max
     = Z.min (use_count pbvh node v) count_max).
  { intros count_max Hm. unfold pbvh_bmesh_node_vert_use_count_at_most.
    rewrite use_count_loop_spec by lia. reflexivity. }
  split; [exact Hmost|].
  intros n Hn. unfold pbvh_bmesh_node_vert_use_count_is_equal.
  rewrite Hmost by lia. rewrite Z.eqb_eq. lia.
Qed.


(** Every node that has a table of unique vertices holds in it, once each,
    exactly the vertices whose home it is. *)
Definition owned (pbvh : PBVH) : Prop :=
  forall (j : nat) n unique,
    nodes pbvh !! j = Some n -> bm_unique_verts n = Some unique ->
    NoDup unique /\ forall x, x ∈ unique <-> v_node (bm pbvh) x = Z.of_nat j.

Lemma elem_of_table_remove (ts : TableGSet BMVert) x y :
  y ∈ BLI_table_gset_remove ts x <-> y ∈ ts /\ y <> x.
Proof.
  unfold BLI_table_gset_remove. rewrite list_elem_of_filter. split; intros [? ?]; by split.
Qed.

Lemma NoDup_table_remove (ts : TableGSet BMVert) x :
  NoDup ts -> NoDup (BLI_table_gset_remove ts x).
Proof. apply NoDup_filter. Qed.

Lemma node_pointer_Some ni c : node_pointer ni = Some c -> ni = Z.of_nat c.
Proof.
  unfold node_pointer. destruct (Z.leb_spec 0 ni); [|discriminate].
  intros [= <-]. lia.
Qed.

Lemma node_pointer_None ni : node_pointer ni = None -> (ni < 0)%Z.
Proof. unfold node_pointer. by destruct (Z.leb_spec 0 ni). Qed.

(** X23.  Transferring a vertex to a new owner keeps ownership consistent.
    Given that every table of unique vertices holds exactly the vertices
    whose home the node is, that the present owner of the vertex, if it has
    one, is a node with such a table and is not the new owner, and that the
    new owner has both vertex tables: afterwards the new owner is the home
    of the vertex and has it among its unique vertices and not among its
    other vertices, the old owner no longer has it, no other vertex changes
    home or table, no face table changes, and the tables of unique vertices
    still hold exactly the vertices whose home their node is. *)
Theorem ownership_transfer_keeps_owned pbvh (new_owner : nat) v n unique other :
  owned pbvh ->
  nodes pbvh !! new_owner = Some n ->
  bm_unique_verts n = Some unique ->
  bm_other_verts n = Some other ->
  v_node (bm pbvh) v <> Z.of_nat new_owner ->
  (forall c, pbvh_bmesh_node_from_vert pbvh v = Some c ->
     exists nc uc, nodes pbvh !! c = Some nc /\ bm_unique_verts nc = Some uc) ->
  exists p' n',
    pbvh_bmesh_vert_ownership_transfer pbvh new_owner v = Some p' /\
    owned p' /\
    v_node (bm p') v = Z.of_nat new_owner /\
    (forall x, x <> v -> v_node (bm p') x = v_node (bm pbvh) x) /\
    f_node (bm p') = f_node (bm pbvh) /\
    nodes p' !! new_owner = Some n' /\
    bm_unique_verts n' = Some (unique ++ [v]) /\
    (exists other', bm_other_verts n' = Some other' /\ (v ∉ other') /\
       forall x, x <> v -> (x ∈ other' <-> x ∈ other)) /\
    length (nodes p') = length (nodes pbvh) /\
    (forall (j : nat) nj, nodes pbvh !! j = Some nj ->
       exists nj', nodes p' !! j = Some nj' /\ bm_faces nj' = bm_faces nj /\
         (j <> new_owner -> bm_other_verts nj' = bm_other_verts nj)).
Proof.
  intros Hown Hn Hu Ho Hne Hcur.
  unfold pbvh_bmesh_vert_ownership_transfer. cbv zeta.
  destruct (pbvh_bmesh_node_from_vert pbvh v) as [c|] eqn:Hc.
  - (* the vertex has an owner *)
    destruct (Hcur c eq_refl) as (nc & uc & Hnc & Huc).
    pose proof (node_pointer_Some _ _ Hc) as Hvc.
    assert (Hcn : c <> new_owner) by (intros ->; contradiction).
    rewrite Hnc. cbn [mbind option_bind flag_or set_flag bm_unique_verts]. rewrite Huc.
    cbn [mbind option_bind nodes set_node set_nodes set_bm bm].
    rewrite list_lookup_insert_ne by exact Hcn. rewrite Hn.
    cbn [mbind option_bind]. rewrite Hu. cbn [mbind option_bind]. rewrite Ho.
    cbn [mbind option_bind].
    assert (Hlc : c < length (nodes pbvh)) by (eapply lookup_lt_Some; eassumption).
    assert (Hln : new_owner < length (nodes pbvh)) by (eapply lookup_lt_Some; eassumption).
    eexists _, _. split; [reflexivity|].
    unfold set_node, set_nodes, set_bm. cbn [nodes bm v_node f_node set_v_node].
    split; [|split; [|split; [|split; [reflexivity|split; [|split; [|split; [|split]]]]]]].
    + (* owned *)
      intros j nj uj Hj Huj. cbn [nodes bm set_v_node v_node] in Hj |- *.
      destruct (decide (j = new_owner)) as [->|Hjn].
      * rewrite list_lookup_insert_eq in Hj by (rewrite length_insert; exact Hln).
        injection Hj as <-. cbn in Huj. injection Huj as <-.
        destruct (Hown _ _ _ Hn Hu) as [Hnd Hmem].
        unfold BLI_table_gset_insert. split.
        -- apply NoDup_app. split; [exact Hnd|]. split; [|apply NoDup_singleton].
           intros x Hx Hx'. apply list_elem_of_singleton in Hx' as ->.
           apply Hne. by apply Hmem.
        -- intros x. rewrite elem_of_app, list_elem_of_singleton, Hmem.
           destruct (decide (x = v)) as [->|Hxv]; split; auto.
           ++ intros [?|?]; [assumption | contradiction].
      * rewrite list_lookup_insert_ne in Hj by (intros E; by apply Hjn).
        destruct (decide (j = c)) as [->|Hjc].
        -- rewrite list_lookup_insert_eq in Hj by exact Hlc.
           injection Hj as <-. cbn in Huj. injection Huj as <-.
           destruct (Hown _ _ _ Hnc Huc) as [Hnd Hmem]. split.
           ++ by apply NoDup_table_remove.
           ++ intros x. rewrite elem_of_table_remove, Hmem.
              destruct (decide (x = v)) as [->|Hxv]; split.
              ** intros [_ ?]. contradiction.
              ** intros E. exfalso. apply Hcn. lia.
              ** intros [? _]. assumption.
              ** intros ?. by split.
        -- rewrite list_lookup_insert_ne in Hj by (intros E; by apply Hjc).
           destruct (Hown _ _ _ Hj Huj) as [Hnd Hmem]. split; [exact Hnd|].
           intros x. rewrite Hmem. destruct (decide (x = v)) as [->|Hxv]; [|reflexivity].
           split; intros E; exfalso; [apply Hjc | apply Hjn]; lia.
    + by rewrite decide_True.
    + intros x Hx. by rewrite decide_False.
    + apply list_lookup_insert_eq. rewrite length_insert. exact Hln.
    + reflexivity.
    + eexists. split; [reflexivity|]. split.
      * rewrite elem_of_table_remove. by intros [_ ?].
      * intros x Hx. rewrite elem_of_table_remove. split; [by intros [? _] | by split].
    + by rewrite !length_insert.
    + intros j nj Hj. destruct (decide (j = new_owner)) as [->|Hjn].
      * eexists. split; [apply list_lookup_insert_eq; rewrite length_insert; exact Hln|].
        split; [|intros E; by destruct E]. cbn. congruence.
      * rewrite list_lookup_insert_ne by (intros E; by apply Hjn).
        destruct (decide (j = c)) as [->|Hjc].
        -- eexists. split; [apply list_lookup_insert_eq; exact Hlc|].
           cbn. split; [congruence | intros _; congruence].
        -- rewrite list_lookup_insert_ne by (intros E; by apply Hjc).
           exists nj. auto.
  - (* the vertex has no owner *)
    pose proof (node_pointer_None _ Hc) as Hneg.
    cbn [mbind option_bind nodes set_node set_nodes set_bm bm]. rewrite Hn.
    cbn [mbind option_bind]. rewrite Hu. cbn [mbind option_bind]. rewrite Ho.
    cbn [mbind option_bind].
    assert (Hln : new_owner < length (nodes pbvh)) by (eapply lookup_lt_Some; eassumption).
    eexists _, _. split; [reflexivity|].
    unfold set_node, set_nodes, set_bm. cbn [nodes bm v_node f_node set_v_node].
    split; [|split; [|split; [|split; [reflexivity|split; [|split; [|split; [|split]]]]]]].
    + intros j nj uj Hj Huj. cbn [nodes bm set_v_node v_node] in Hj |- *.
      destruct (decide (j = new_owner)) as [->|Hjn].
      * rewrite list_lookup_insert_eq in Hj by exact Hln.
        injection Hj as <-. cbn in Huj. injection Huj as <-.
        destruct (Hown _ _ _ Hn Hu) as [Hnd Hmem].
        unfold BLI_table_gset_insert. split.
        -- apply NoDup_app. split; [exact Hnd|]. split; [|apply NoDup_singleton].
           intros x Hx Hx'. apply list_elem_of_singleton in Hx' as ->.
           apply Hne. by apply Hmem.
        -- intros x. rewrite elem_of_app, list_elem_of_singleton, Hmem.
           destruct (decide (x = v)) as [->|Hxv]; split; auto.
           ++ intros [?|?]; [assumption | contradiction].
      * rewrite list_lookup_insert_ne in Hj by (intros E; by apply Hjn).
        destruct (Hown _ _ _ Hj Huj) as [Hnd Hmem]. split; [exact Hnd|].
        intros x. rewrite Hmem. destruct (decide (x = v)) as [->|Hxv]; [|reflexivity].
        split; intros E; exfalso; [lia | apply Hjn; lia].
    + by rewrite decide_True.
    + intros x Hx. by rewrite decide_False.
    + by apply list_lookup_insert_eq.
    + reflexivity.
    + eexists. split; [reflexivity|]. split.
      * rewrite elem_of_table_remove. by intros [_ ?].
      * intros x Hx. rewrite elem_of_table_remove. split; [by intros [? _] | by split].
    + by rewrite length_insert.
    + intros j nj Hj. destruct (decide (j = new_owner)) as [->|Hjn].
      * eexists. split; [by apply list_lookup_insert_eq|].
        split; [|intros E; by destruct E]. cbn. congruence.
      * rewrite list_lookup_insert_ne by (intros E; by apply Hjn). exists nj. auto.
Qed.


(** [ns'] is [ns] with [v] taken out of some tables of other vertices (and
    flags set). *)
Definition thinned (v : BMVert) (ns ns' : list PBVHNode) : Prop :=
  length ns' = length ns /\
  forall (j : nat) nj, ns !! j = Some nj ->
    exists nj', ns' !! j = Some nj' /\
      bm_unique_verts nj' = bm_unique_verts nj /\ bm_faces nj' = bm_faces nj /\
      forall o, bm_other_verts nj = Some o ->
        exists o', bm_other_verts nj' = Some o' /\ forall x, x ∈ o' -> x ∈ o.

(** Node [j] has a table of other vertices, without [v]. *)
Definition cleaned (v : BMVert) (ns : list PBVHNode) (j : nat) : Prop :=
  exists nj o, ns !! j = Some nj /\ bm_other_verts nj = Some o /\ (v ∉ o).

Lemma thinned_refl v ns : thinned v ns ns.
Proof. split; [reflexivity|]. intros j nj Hj. exists nj. eauto 10. Qed.

Lemma thinned_trans v ns1 ns2 ns3 :
  thinned v ns1 ns2 -> thinned v ns2 ns3 -> thinned v ns1 ns3.
Proof.
  intros [Hl1 H1] [Hl2 H2]. split; [congruence|].
  intros j nj Hj. destruct (H1 j nj Hj) as (nj2 & Hj2 & Hu2 & Hf2 & Ho2).
  destruct (H2 j nj2 Hj2) as (nj3 & Hj3 & Hu3 & Hf3 & Ho3).
  exists nj3. split; [exact Hj3|]. split; [congruence|]. split; [congruence|].
  intros o Ho. destruct (Ho2 o Ho) as (o2 & Ho2' & Hsub2).
  destruct (Ho3 o2 Ho2') as (o3 & Ho3' & Hsub3). exists o3. auto.
Qed.

Lemma thinned_cleaned v ns ns' j : thinned v ns ns' -> cleaned v ns j -> cleaned v ns' j.
Proof.
  intros [_ H] (nj & o & Hj & Ho & Hv).
  destruct (H j nj Hj) as (nj' & Hj' & _ & _ & Ho').
  destruct (Ho' o Ho) as (o' & Ho'' & Hsub). exists nj', o'.
  split; [exact Hj'|]. split; [exact Ho''|]. intros Hin. apply Hv. by apply Hsub.
Qed.

Lemma vert_remove_face_step v pbvh prev f pbvh' prev' :
  vert_remove_face v (pbvh, prev) f = Some (pbvh', prev') ->
  (prev = DYNTOPO_NODE_NONE \/ (0 <= prev)%Z /\ cleaned v (nodes pbvh) (Z.to_nat prev)) ->
  bm pbvh' = bm pbvh /\ thinned v (nodes pbvh) (nodes pbvh') /\
  (prev' = DYNTOPO_NODE_NONE
   \/ (0 <= prev')%Z /\ cleaned v (nodes pbvh') (Z.to_nat prev')) /\
  (f_node (bm pbvh) f <> DYNTOPO_NODE_NONE ->
   cleaned v (nodes pbvh') (Z.to_nat (f_node (bm pbvh) f))).
Proof.
  unfold vert_remove_face. intros Hstep Hprev.
  destruct (Z.eqb_spec (f_node (bm pbvh) f) DYNTOPO_NODE_NONE) as [Hnone|Hsome].
  { injection Hstep as <- <-. split; [reflexivity|]. split; [apply thinned_refl|].
    split; [exact Hprev | contradiction]. }
  destruct (Z.eqb_spec prev (f_node (bm pbvh) f)) as [Hsame|Hdiff]; cbn [negb] in Hstep.
  { injection Hstep as <- <-. split; [reflexivity|]. split; [apply thinned_refl|].
    split; [exact Hprev|]. intros _. rewrite <- Hsame.
    destruct Hprev as [Hp|[_ Hp]]; [congruence | exact Hp]. }
  destruct (Z.ltb_spec (f_node (bm pbvh) f) 0) as [Hneg|Hpos]; [discriminate|].
  destruct (nodes pbvh !! Z.to_nat (f_node (bm pbvh) f)) as [n|] eqn:Hn; [|discriminate].
  cbn [mbind option_bind flag_or set_flag bm_other_verts] in Hstep.
  destruct (bm_other_verts n) as [other|] eqn:Ho; [|discriminate].
  cbn [mbind option_bind] in Hstep. injection Hstep as <- <-.
  assert (Hlt : Z.to_nat (f_node (bm pbvh) f) < length (nodes pbvh))
    by (eapply lookup_lt_Some; eassumption).
  assert (Hclean : cleaned v (nodes (set_node pbvh (Z.to_nat (f_node (bm pbvh) f))
                     (set_tables
                        (set_flag n (Z.lor (flag n)
                           (flag_masks [PBVH_UpdateDrawBuffers; PBVH_UpdateBB;
                                        PBVH_UpdateTris])))
                        (bm_faces n) (bm_unique_verts n)
                        (Some (BLI_table_gset_remove other v)))))
                   (Z.to_nat (f_node (bm pbvh) f))).
  { eexists _, _. cbn [nodes set_node set_nodes].
    split; [by apply list_lookup_insert_eq|]. split; [reflexivity|].
    rewrite elem_of_table_remove. by intros [_ ?]. }
  split; [reflexivity|]. split; [|split; [right; split; [exact Hpos | exact Hclean]|]].
  - split; [cbn; apply length_insert|]. intros j nj Hj. cbn [nodes set_node set_nodes].
    destruct (decide (j = Z.to_nat (f_node (bm pbvh) f))) as [->|Hj'].
    + rewrite list_lookup_insert_eq by exact Hlt. eexists. split; [reflexivity|].
      assert (nj = n) by congruence. subst nj. cbn.
      split; [reflexivity|]. split; [reflexivity|].
      intros o Ho'. eexists. split; [reflexivity|].
      intros x Hx. apply elem_of_table_remove in Hx as [Hx _]. congruence.
    + rewrite list_lookup_insert_ne by (intros E; by apply Hj'). exists nj. eauto 10.
  - intros _. exact Hclean.
Qed.

Lemma vert_remove_loop v fs : forall pbvh prev pbvh' prev',
  for_each (vert_remove_face v) (pbvh, prev) fs = Some (pbvh', prev') ->
  (prev = DYNTOPO_NODE_NONE \/ (0 <= prev)%Z /\ cleaned v (nodes pbvh) (Z.to_nat prev)) ->
  bm pbvh' = bm pbvh /\ thinned v (nodes pbvh) (nodes pbvh') /\
  forall f, f ∈ fs -> f_node (bm pbvh) f <> DYNTOPO_NODE_NONE ->
    cleaned v (nodes pbvh') (Z.to_nat (f_node (bm pbvh) f)).
Proof.
  induction fs as [|f fs IH]; intros pbvh prev pbvh' prev' Hrun Hprev.
  - injection Hrun as <- <-. split; [reflexivity|]. split; [apply thinned_refl|].
    intros f Hf. by apply elem_of_nil in Hf.
  - rewrite for_each_cons in Hrun.
    destruct (vert_remove_face v (pbvh, prev) f) as [[p1 prev1]|] eqn:Hstep; [|discriminate].
    cbn [mbind option_bind] in Hrun.
    destruct (vert_remove_face_step _ _ _ _ _ _ Hstep Hprev) as (Hbm1 & Hth1 & Hprev1 & Hcl1).
    destruct (IH _ _ _ _ Hrun Hprev1) as (Hbm & Hth & Hcl).
    split; [congruence|]. split; [by eapply thinned_trans|].
    intros g Hg Hsome. apply elem_of_cons in Hg as [->|Hg].
    + eapply thinned_cleaned; [exact Hth | by apply Hcl1].
    + rewrite <- Hbm1. apply Hcl; [exact Hg | by rewrite Hbm1].
Qed.

(** X24.  Removing a vertex from the tree leaves it nowhere.  With tables
    of unique vertices that hold exactly the vertices whose home their node
    is: when [pbvh_bmesh_vert_remove] has run, the vertex has no home, no
    node has it among its unique vertices, and the home node of every face
    around it does not have it among its other vertices.  No other vertex
    changes home, no face changes home or table, and the tables of unique
    vertices still hold exactly the vertices whose home their node is. *)
Theorem vert_remove_clears_vertex pbvh v p' :
  owned pbvh ->
  pbvh_bmesh_vert_remove pbvh v = Some p' ->
  v_node (bm p') v = DYNTOPO_NODE_NONE /\
  (forall x, x <> v -> v_node (bm p') x = v_node (bm pbvh) x) /\
  f_node (bm p') = f_node (bm pbvh) /\
  owned p' /\
  (forall (j : nat) nj unique,
     nodes p' !! j = Some nj -> bm_unique_verts nj = Some unique -> v ∉ unique) /\
  (forall f, f ∈ BM_FACES_OF_VERT v -> f_node (bm pbvh) f <> DYNTOPO_NODE_NONE ->
     exists nj other,
       nodes p' !! Z.to_nat (f_node (bm pbvh) f) = Some nj /\
       bm_other_verts nj = Some other /\ (v ∉ other)) /\
  length (nodes p') = length (nodes pbvh) /\
  (forall (j : nat) nj, nodes pbvh !! j = Some nj ->
     exists nj', nodes p' !! j = Some nj' /\ bm_faces nj' = bm_faces nj).
Proof.
  intros Hown Hrun. unfold pbvh_bmesh_vert_remove in Hrun. cbv zeta in Hrun.
  (* the vertex leaves the unique vertices of its owner *)
  assert (Hfirst : exists p1,
    match pbvh_bmesh_node_from_vert pbvh v with
    | Some c =>
        n ← nodes pbvh !! c;
        unique ← bm_unique_verts n;
        Some (set_node pbvh c
                (set_tables n (bm_faces n) (Some (BLI_table_gset_remove unique v))
                            (bm_other_verts n)))
    | None => Some pbvh
    end = Some p1 /\
    bm p1 = bm pbvh /\ length (nodes p1) = length (nodes pbvh) /\
    (forall (j : nat) nj, nodes pbvh !! j = Some nj ->
       exists nj', nodes p1 !! j = Some nj' /\ bm_faces nj' = bm_faces nj) /\
    (forall (j : nat) nj unique,
       nodes p1 !! j = Some nj -> bm_unique_verts nj = Some unique ->
       NoDup unique /\
       forall x, x ∈ unique <-> x <> v /\ v_node (bm pbvh) x = Z.of_nat j)).
  { destruct (pbvh_bmesh_node_from_vert pbvh v) as [c|] eqn:Hc.
    - pose proof (node_pointer_Some _ _ Hc) as Hvc.
      destruct (nodes pbvh !! c) as [n|] eqn:Hn; [|discriminate].
      cbn [mbind option_bind] in Hrun |- *.
      destruct (bm_unique_verts n) as [unique|] eqn:Hu; [|discriminate].
      cbn [mbind option_bind] in Hrun |- *.
      assert (Hlc : c < length (nodes pbvh)) by (eapply lookup_lt_Some; eassumption).
      eexists. split; [reflexivity|]. cbn [nodes set_node set_nodes bm].
      split; [reflexivity|]. split; [apply length_insert|]. split.
      + intros j nj Hj. destruct (decide (j = c)) as [->|Hjc].
        * rewrite list_lookup_insert_eq by exact Hlc. eexists. split; [reflexivity|].
          cbn. congruence.
        * rewrite list_lookup_insert_ne by (intros E; by apply Hjc). eauto.
      + intros j nj uj Hj Huj. destruct (decide (j = c)) as [->|Hjc].
        * rewrite list_lookup_insert_eq in Hj by exact Hlc. injection Hj as <-.
          cbn in Huj. injection Huj as <-.
          destruct (Hown _ _ _ Hn Hu) as [Hnd Hmem].
          split; [by apply NoDup_table_remove|].
          intros x. rewrite elem_of_table_remove, Hmem. split; intros [? ?]; by split.
        * rewrite list_lookup_insert_ne in Hj by (intros E; by apply Hjc).
          destruct (Hown _ _ _ Hj Huj) as [Hnd Hmem]. split; [exact Hnd|].
          intros x. rewrite Hmem. split; [|by intros [_ ?]].
          intros Hx. split; [|exact Hx]. intros ->. apply Hjc. lia.
    - pose proof (node_pointer_None _ Hc) as Hneg.
      exists pbvh. split; [reflexivity|]. split; [reflexivity|]. split; [reflexivity|].
      split; [eauto|].
      intros j nj uj Hj Huj. destruct (Hown _ _ _ Hj Huj) as [Hnd Hmem].
      split; [exact Hnd|]. intros x. rewrite Hmem. split; [|by intros [_ ?]].
      intros Hx. split; [|exact Hx]. intros ->. lia. }
  destruct Hfirst as (p1 & Hp1 & Hbm1 & Hlen1 & Hfaces1 & Hown1).
  rewrite Hp1 in Hrun. cbn [mbind option_bind] in Hrun.
  destruct (for_each _ _ _) as [[p2 prev2]|] eqn:Hloop; [|discriminate].
  cbn [mbind option_bind] in Hrun. injection Hrun as <-.
  destruct (vert_remove_loop _ _ _ _ _ _ Hloop (or_introl eq_refl)) as (Hbm2 & Hth & Hcl).
  cbn [bm set_bm nodes] in Hbm2, Hth, Hcl.
  assert (Hown2 : forall (j : nat) nj unique,
            nodes p2 !! j = Some nj -> bm_unique_verts nj = Some unique ->
            NoDup unique /\
            forall x, x ∈ unique <-> x <> v /\ v_node (bm pbvh) x = Z.of_nat j).
  { intros j nj uj Hj Huj. destruct Hth as [Hl2 Hth].
    destruct (lookup_lt_is_Some_2 (nodes p1) j) as [nj1 Hj1].
    { rewrite <- Hl2. eapply lookup_lt_Some; eassumption. }
    destruct (Hth j nj1 Hj1) as (nj' & Hj' & Hu' & _).
    assert (nj' = nj) by congruence. subst nj'.
    apply (Hown1 j nj1 uj Hj1). congruence. }
  rewrite Hbm2. cbn [v_node f_node set_v_node]. rewrite Hbm1.
  split; [by rewrite decide_True|]. split; [intros x Hx; by rewrite decide_False|].
  split; [reflexivity|]. split; [|split; [|split; [|split]]].
  - intros j nj uj Hj Huj. destruct (Hown2 j nj uj Hj Huj) as [Hnd Hmem].
    split; [exact Hnd|]. intros x. rewrite Hmem. cbn [bm set_bm v_node set_v_node].
    rewrite Hbm2. cbn [v_node set_v_node]. rewrite Hbm1.
    destruct (decide (x = v)) as [->|Hxv].
    + split; [by intros [? _]|]. unfold DYNTOPO_NODE_NONE. lia.
    + split; [by intros [_ ?] | by split].
  - intros j nj uj Hj Huj Hin. destruct (Hown2 j nj uj Hj Huj) as [_ Hmem].
    apply Hmem in Hin as [Hne _]. by apply Hne.
  - intros f Hf Hsome. cbn [f_node set_v_node] in Hcl. rewrite Hbm1 in Hcl.
    apply Hcl; assumption.
  - destruct Hth as [Hl2 _]. congruence.
  - intros j nj Hj. destruct (Hfaces1 j nj Hj) as (nj1 & Hj1 & Hf1).
    destruct Hth as [_ Hth]. destruct (Hth j nj1 Hj1) as (nj2 & Hj2 & _ & Hf2 & _).
    exists nj2. split; [exact Hj2 | congruence].
Qed.


(** [ns'] has the nodes of [ns] with the same face tables. *)
Definition same_faces (ns ns' : list PBVHNode) : Prop :=
  length ns' = length ns /\
  forall (j : nat) nj, ns !! j = Some nj ->
    exists nj', ns' !! j = Some nj' /\ bm_faces nj' = bm_faces nj.

Lemma same_faces_refl ns : same_faces ns ns.
Proof. split; [reflexivity|]. eauto. Qed.

Lemma same_faces_trans ns1 ns2 ns3 :
  same_faces ns1 ns2 -> same_faces ns2 ns3 -> same_faces ns1 ns3.
Proof.
  intros [Hl1 H1] [Hl2 H2]. split; [congruence|].
  intros j nj Hj. destruct (H1 j nj Hj) as (nj2 & Hj2 & Hf2).
  destruct (H2 j nj2 Hj2) as (nj3 & Hj3 & Hf3). exists nj3. split; [exact Hj3 | congruence].
Qed.

Lemma same_faces_insert ns (i : nat) n n' :
  ns !! i = Some n -> bm_faces n' = bm_faces n -> same_faces ns (<[i := n']> ns).
Proof.
  intros Hn Hf. split; [apply length_insert|]. intros j nj Hj.
  destruct (decide (j = i)) as [->|Hji].
  - rewrite list_lookup_insert_eq by (eapply lookup_lt_Some; eassumption).
    eexists. split; [reflexivity | congruence].
  - rewrite list_lookup_insert_ne by (intros E; by apply Hji). eauto.
Qed.

Lemma ownership_transfer_frame pbvh new_owner v p' :
  pbvh_bmesh_vert_ownership_transfer pbvh new_owner v = Some p' ->
  f_node (bm p') = f_node (bm pbvh) /\ f_verts (bm p') = f_verts (bm pbvh) /\
  same_faces (nodes pbvh) (nodes p').
Proof.
  unfold pbvh_bmesh_vert_ownership_transfer. cbv zeta. intros Hrun.
  assert (Hfirst : exists p1,
    match pbvh_bmesh_node_from_vert pbvh v with
    | Some c =>
        n ← nodes pbvh !! c;
        unique ← bm_unique_verts (flag_or n [PBVH_UpdateDrawBuffers; PBVH_UpdateBB]);
        Some (set_node pbvh c
                (set_tables (flag_or n [PBVH_UpdateDrawBuffers; PBVH_UpdateBB])
                   (bm_faces (flag_or n [PBVH_UpdateDrawBuffers; PBVH_UpdateBB]))
                   (Some (BLI_table_gset_remove unique v))
                   (bm_other_verts (flag_or n [PBVH_UpdateDrawBuffers; PBVH_UpdateBB]))))
    | None => Some pbvh
    end = Some p1 /\ bm p1 = bm pbvh /\ same_faces (nodes pbvh) (nodes p1)).
  { destruct (pbvh_bmesh_node_from_vert pbvh v) as [c|].
    - destruct (nodes pbvh !! c) as [n|] eqn:Hn; [|discriminate].
      cbn [mbind option_bind] in Hrun |- *.
      destruct (bm_unique_verts _) as [unique|]; [|discriminate].
      cbn [mbind option_bind]. eexists. split; [reflexivity|].
      split; [reflexivity|]. cbn [nodes set_node set_nodes].
      by apply (same_faces_insert _ _ n).
    - exists pbvh. split; [reflexivity|]. split; [reflexivity | apply same_faces_refl]. }
  destruct Hfirst as (p1 & Hp1 & Hbm1 & Hsf1).
  rewrite Hp1 in Hrun. cbn [mbind option_bind nodes set_bm bm] in Hrun.
  destruct (nodes p1 !! new_owner) as [n|] eqn:Hn; [|discriminate].
  cbn [mbind option_bind] in Hrun.
  destruct (bm_unique_verts n) as [unique|]; [|discriminate]. cbn [mbind option_bind] in Hrun.
  destruct (bm_other_verts n) as [other|]; [|discriminate]. cbn [mbind option_bind] in Hrun.
  injection Hrun as <-. cbn [bm nodes set_node set_nodes set_bm f_node f_verts set_v_node].
  rewrite Hbm1. split; [reflexivity|]. split; [reflexivity|].
  eapply same_faces_trans; [exact Hsf1|]. by apply (same_faces_insert _ _ n).
Qed.

Lemma face_remove_vert_frame f_node0 pbvh v p' :
  face_remove_vert f_node0 pbvh v = Some p' ->
  f_node (bm p') = f_node (bm pbvh) /\ f_verts (bm p') = f_verts (bm pbvh) /\
  same_faces (nodes pbvh) (nodes p').
Proof.
  unfold face_remove_vert. intros Hrun.
  destruct (pbvh_bmesh_node_vert_use_count_is_equal pbvh f_node0 v 1).
  2:{ injection Hrun as <-. split; [reflexivity|]. split; [reflexivity|].
      apply same_faces_refl. }
  destruct (nodes pbvh !! f_node0) as [n|] eqn:Hn; [|discriminate].
  cbn [mbind option_bind] in Hrun.
  destruct (bm_unique_verts n) as [unique|]; [|discriminate]. cbn [mbind option_bind] in Hrun.
  destruct (BLI_table_gset_haskey unique v).
  - cbv zeta in Hrun. destruct (pbvh_bmesh_vert_other_node_find pbvh v) as [new_node|].
    + by eapply ownership_transfer_frame.
    + injection Hrun as <-. split; [reflexivity|]. split; [reflexivity|].
      apply same_faces_refl.
  - destruct (bm_other_verts n) as [other|]; [|discriminate]. cbn [mbind option_bind] in Hrun.
    injection Hrun as <-. split; [reflexivity|]. split; [reflexivity|].
    cbn [nodes set_node set_nodes]. by apply (same_faces_insert _ _ n).
Qed.

Lemma face_remove_loop_frame f_node0 vs : forall pbvh p',
  for_each (face_remove_vert f_node0) pbvh vs = Some p' ->
  f_node (bm p') = f_node (bm pbvh) /\ same_faces (nodes pbvh) (nodes p').
Proof.
  induction vs as [|v vs IH]; intros pbvh p' Hrun.
  - injection Hrun as <-. split; [reflexivity | apply same_faces_refl].
  - rewrite for_each_cons in Hrun.
    destruct (face_remove_vert f_node0 pbvh v) as [p1|] eqn:Hstep; [|discriminate].
    cbn [mbind option_bind] in Hrun.
    destruct (face_remove_vert_frame _ _ _ _ Hstep) as (Hf1 & _ & Hs1).
    destruct (IH _ _ Hrun) as (Hf & Hs).
    split; [congruence | by eapply same_faces_trans].
Qed.

(** X25.  Removing a face from the tree unlinks that face and no other.  A
    face without a home node is reported and nothing is changed.  A face with
    home node [j]: when [pbvh_bmesh_face_remove] has run, the face has no
    home, the face table of node [j] is the one it had without the face, and
    node [j] is flagged for new draw buffers, normals and triangles; no other
    face changes home, no other node's face table changes, and no node comes
    or goes. *)
Theorem face_remove_unlinks_face pbvh f :
  (pbvh_bmesh_node_from_face pbvh f = None -> pbvh_bmesh_face_remove pbvh f = Some pbvh) /\
  (forall (j : nat) p',
     pbvh_bmesh_node_from_face pbvh f = Some j ->
     pbvh_bmesh_face_remove pbvh f = Some p' ->
     f_node (bm p') f = DYNTOPO_NODE_NONE /\
     (forall g, g <> f -> f_node (bm p') g = f_node (bm pbvh) g) /\
     length (nodes p') = length (nodes pbvh) /\
     (exists n n' faces,
        nodes pbvh !! j = Some n /\ nodes p' !! j = Some n' /\
        bm_faces n = Some faces /\
        bm_faces n' = Some (BLI_table_gset_remove faces f) /\
        (f ∉ BLI_table_gset_remove faces f) /\
        flag_test n' PBVH_UpdateDrawBuffers = true /\
        flag_test n' PBVH_UpdateNormals = true /\
        flag_test n' PBVH_UpdateTris = true) /\
     (forall (k : nat) nk, k <> j -> nodes pbvh !! k = Some nk ->
        exists nk', nodes p' !! k = Some nk' /\ bm_faces nk' = bm_faces nk)).
Proof.
  split.
  { intros Hnone. unfold pbvh_bmesh_face_remove. by rewrite Hnone. }
  intros j p' Hj Hrun. unfold pbvh_bmesh_face_remove in Hrun. rewrite Hj in Hrun.
  destruct (for_each _ _ _) as [p1|] eqn:Hloop; [|discriminate].
  cbn [mbind option_bind] in Hrun.
  destruct (face_remove_loop_frame _ _ _ _ Hloop) as (Hf1 & Hl1 & Hs1).
  destruct (nodes p1 !! j) as [n1|] eqn:Hn1; [|discriminate]. cbn [mbind option_bind] in Hrun.
  destruct (bm_faces n1) as [faces|] eqn:Hfaces; [|discriminate].
  cbn [mbind option_bind] in Hrun. cbv zeta in Hrun.
  assert (Hlj : j < length (nodes p1)) by (eapply lookup_lt_Some; eassumption).
  cbn [nodes set_node set_nodes set_bm] in Hrun.
  rewrite list_lookup_insert_eq in Hrun by exact Hlj. cbn [mbind option_bind] in Hrun.
  injection Hrun as <-. cbn [nodes bm set_node set_nodes set_bm f_node set_f_node].
  rewrite list_insert_insert_eq, length_insert.
  split; [by rewrite decide_True|].
  split; [intros g Hg; rewrite decide_False by exact Hg; by rewrite Hf1|].
  split; [exact Hl1|]. split.
  - destruct (lookup_lt_is_Some_2 (nodes pbvh) j) as [n Hn]; [by rewrite <- Hl1|].
    destruct (Hs1 j n Hn) as (n1' & Hn1' & Hfn).
    assert (n1' = n1) by congruence. subst n1'.
    eexists n, _, faces. split; [exact Hn|].
    split; [by apply list_lookup_insert_eq|]. split; [congruence|].
    split; [reflexivity|]. split.
    + unfold BLI_table_gset_remove. rewrite list_elem_of_filter. by intros [? _].
    + split; [|split]; apply flag_test_or_elem; rewrite !elem_of_cons; auto.
  - intros k nk Hk Hnk. destruct (Hs1 k nk Hnk) as (nk1 & Hnk1 & Hfk).
    exists nk1. split; [|exact Hfk].
    rewrite list_lookup_insert_ne by (intros E; apply Hk; by symmetry). exact Hnk1.
Qed.


End pbvh.

(** ** A concrete instance

    The parameters instantiated: the bit positions of BKE_pbvh.h, min/max
    bounding boxes, a rational length (the sum of the coordinate
    differences) and passes that report a modification without touching the
    mesh. *)

Definition fixture_flag_bit (f : PBVHNodeFlags) : nat :=
  match f with
  | PBVH_Leaf => 0 | PBVH_UpdateNormals => 1 | PBVH_UpdateBB => 2
  | PBVH_UpdateOriginalBB => 3 | PBVH_UpdateDrawBuffers => 4
  | PBVH_UpdateRedraw => 5 | PBVH_UpdateMask => 6
  | PBVH_UpdateVisibility => 8 | PBVH_RebuildDrawBuffers => 9
  | PBVH_FullyHidden => 10 | PBVH_UpdateTopology => 13
  | PBVH_UpdateColor => 14 | PBVH_Delete => 15
  | PBVH_UpdateCurvatureDir => 16 | PBVH_UpdateTris => 17
  end.

Definition fixture_FLT_MAX : Q := inject_Z (10 ^ 38).

Definition fixture_BB_reset : BB :=
  {| bmin := (fixture_FLT_MAX, fixture_FLT_MAX, fixture_FLT_MAX);
     bmax := (- fixture_FLT_MAX, - fixture_FLT_MAX, - fixture_FLT_MAX)%Q |}.

Definition v3_map2 (op : Q -> Q -> Q) (a b : V3) : V3 :=
  let '(a0, a1, a2) := a in
  let '(b0, b1, b2) := b in
  (op a0 b0, op a1 b1, op a2 b2).

Definition fixture_BB_expand (bb : BB) (co : V3) : BB :=
  {| bmin := v3_map2 MIN2 (bmin bb) co; bmax := v3_map2 MAX2 (bmax bb) co |}.

Definition fixture_BB_expand_with_bb (bb bb2 : BB) : BB :=
  {| bmin := v3_map2 MIN2 (bmin bb) (bmin bb2);
     bmax := v3_map2 MAX2 (bmax bb) (bmax bb2) |}.

Definition fixture_BB_widest_axis (bb : BB) : nat :=
  let '(d0, d1, d2) := v3_map2 Qminus (bmax bb) (bmin bb) in
  if Qlt_le_dec d1 d0
  then (if Qlt_le_dec d2 d0 then 0 else 2)
  else (if Qlt_le_dec d2 d1 then 1 else 2).

Definition fixture_BBC_update_centroid (bb : BB) : V3 :=
  v3_map2 (fun a b => ((a + b) * (1 # 2))%Q) (bmin bb) (bmax bb).

Definition fixture_mark_rebuild_draw (fl : Z) : Z :=
  Z.lor fl (flag_masks fixture_flag_bit
              [PBVH_RebuildDrawBuffers; PBVH_UpdateDrawBuffers; PBVH_UpdateRedraw]).

Definition fixture_fully_hidden_set (fl : Z) (hidden : bool) : Z :=
  if hidden then Z.lor fl (flag_mask fixture_flag_bit PBVH_FullyHidden)
  else Z.land fl (Z.lnot (flag_mask fixture_flag_bit PBVH_FullyHidden)).

Definition fixture_len (a b : V3) : Q :=
  let '(d0, d1, d2) := v3_map2 Qminus a b in
  (Qabs d0 + Qabs d1 + Qabs d2)%Q.

Lemma fixture_len_nonneg (a b : V3) : (0 <= fixture_len a b)%Q.
Proof.
  destruct a as [[a0 a1] a2], b as [[b0 b1] b2]. unfold fixture_len, v3_map2.
  pose proof (Qabs_nonneg (a0 - b0)). pose proof (Qabs_nonneg (a1 - b1)).
  pose proof (Qabs_nonneg (a2 - b2)). lra.
Qed.

(** Vertex [v] sits at [(v, 0, 0)]; face [f] has the vertices [f], [f+1],
    [f+2]; nothing is hidden, masked or owned yet. *)
Definition fixture_bm : BMesh :=
  {| v_co := fun v => (inject_Z (Zpos v), 0%Q, 0%Q);
     v_hidden := fun _ => false;
     v_mask := fun _ => 0%Q;
     v_node := fun _ => DYNTOPO_NODE_NONE;
     f_node := fun _ => DYNTOPO_NODE_NONE;
     f_verts := fun f => [f; Pos.succ f; Pos.succ (Pos.succ f)];
     f_hidden := fun _ => false |}.

Definition fixture_node (fs : list PBVHNodeFlags) (children : nat)
    (faces : option (list BMFace)) : PBVHNode :=
  {| flag := flag_masks fixture_flag_bit fs; children_offset := children;
     bm_faces := faces;
     bm_unique_verts := match faces with Some _ => Some [] | None => None end;
     bm_other_verts := match faces with Some _ => Some [] | None => None end;
     vb := zero_BB; orig_vb := zero_BB; subtree_tottri := 0%Z;
     draw_buffers := false; layer_disp := false |}.

(** A root with two leaves; the first leaf is flagged for topology update
    and holds three faces with a leaf limit of two. *)
Definition fixture_pbvh : PBVH :=
  {| nodes := [fixture_node [] 1 None;
               fixture_node [PBVH_Leaf; PBVH_UpdateTopology] 0 (Some [1; 4; 7]%positive);
               fixture_node [PBVH_Leaf] 0 (Some [10]%positive)];
     leaf_limit := 2%Z;
     bm_min_edge_len := (3 # 10)%Q;
     bm_max_edge_len := (3 # 4)%Q;
     cd_vert_mask_offset := (-1)%Z;
     bm := fixture_bm |}.

Definition fixture_args : TopologyArgs :=
  {| center := (0%Q, 0%Q, 0%Q); view_normal := None; radius := 1%Q;
     use_frontface := false; use_projected := false |}.

(** The collapse queue finds a zero-length edge and three edges of length
    30; the subdivision queue finds a zero-length edge. *)
Definition fixture_short_edges (_ : PBVH) (_ : TopologyArgs) : list (BMEdge * Q) :=
  [({| v1 := 1; v2 := 1 |}, 0%Q); ({| v1 := 1; v2 := 31 |}, 900%Q);
   ({| v1 := 2; v2 := 32 |}, 900%Q); ({| v1 := 3; v2 := 33 |}, 900%Q)]%positive.

Definition fixture_long_edges (_ : PBVH) (_ : TopologyArgs) : list (BMEdge * Q) :=
  [({| v1 := 2; v2 := 2 |}, 0%Q)]%positive.

Definition fixture_drain (_ : EdgeQueueContext) (pbvh : PBVH) (_ : Z) : PBVH * bool :=
  (pbvh, true).

Definition fixture_cleanup (pbvh : PBVH) (_ : TopologyArgs) : PBVH * bool :=
  (pbvh, false).

Definition fixture_passes (mode : Z) : topology_state :=
  update_topology_passes fixture_len fixture_short_edges fixture_long_edges
    fixture_drain fixture_drain fixture_cleanup 1 2 4 fixture_pbvh mode fixture_args.

Definition fixture_update_topology (mode : Z) (updatePBVH : bool)
    : option (PBVH * bool * list pass) :=
  BKE_pbvh_bmesh_update_topology fixture_flag_bit fixture_BB_reset fixture_BB_expand
    fixture_BB_expand_with_bb fixture_BB_widest_axis fixture_BBC_update_centroid
    fixture_mark_rebuild_draw fixture_fully_hidden_set fixture_len
    fixture_short_edges fixture_long_edges fixture_drain fixture_drain fixture_cleanup
    1 2 4 fixture_pbvh mode fixture_args updatePBVH.


Example fixture_passes_log :
  ts_log (fixture_passes 3) =
  [{| pass_of := Collapse; pass_ratio := 3600 # 2424; pass_max_steps := 6083 |};
   {| pass_of := Subdivide; pass_ratio := 1 # 20; pass_max_steps := 204 |}].
Proof. vm_compute. reflexivity. Qed.

(** Passes that do not commute: the collapse pass puts vertex 1 at x = 10
    and reports a modification, the subdivision pass doubles the x of
    vertex 1 and reports none.  With both requested the vertex ends at 20:
    the subdivision pass has worked on the mesh the collapse pass left. *)
Definition fixture_move_vert (f : Q -> Q) (pbvh : PBVH) : PBVH :=
  set_bm pbvh
    {| v_co := fun v => if decide (v = 1%positive)
                        then (f (v_co (bm pbvh) v).1.1, 0%Q, 0%Q)
                        else v_co (bm pbvh) v;
       v_hidden := v_hidden (bm pbvh); v_mask := v_mask (bm pbvh);
       v_node := v_node (bm pbvh); f_node := f_node (bm pbvh);
       f_verts := f_verts (bm pbvh); f_hidden := f_hidden (bm pbvh) |}.

Definition fixture_collapse_to_ten (_ : EdgeQueueContext) (pbvh : PBVH) (_ : Z)
    : PBVH * bool :=
  (fixture_move_vert (fun _ => 10%Q) pbvh, true).

Definition fixture_subdivide_double (_ : EdgeQueueContext) (pbvh : PBVH) (_ : Z)
    : PBVH * bool :=
  (fixture_move_vert (fun x => (2 * x)%Q) pbvh, false).

Definition fixture_ordered_passes (mode : Z) : topology_state :=
  update_topology_passes fixture_len fixture_short_edges fixture_long_edges
    fixture_collapse_to_ten fixture_subdivide_double fixture_cleanup 1 2 4
    fixture_pbvh mode fixture_args.

Example fixture_passes_in_order :
  map (fun mode => (v_co (bm (ts_pbvh (fixture_ordered_passes mode))) 1%positive,
                    ts_modified (fixture_ordered_passes mode)))
      [0; 1; 2; 3; 7]%Z
  = [((1, 0, 0)%Q, false); ((2, 0, 0)%Q, false); ((10, 0, 0)%Q, true);
     ((20, 0, 0)%Q, true); ((20, 0, 0)%Q, true)].
Proof. vm_compute. reflexivity. Qed.

Lemma throttle_ratio_bounds_witness :
  Forall ratio_in_range (ts_log (fixture_passes 3)) /\
  Forall steps_from_ratio (ts_log (fixture_passes 3)).
Proof.
  exact (throttle_ratio_bounds fixture_len fixture_short_edges fixture_long_edges
           fixture_drain fixture_drain fixture_cleanup 1 2 4
           fixture_len_nonneg fixture_pbvh 3 fixture_args).
Defined.

Lemma fixture_leaf_faces (j : nat) (node : PBVHNode) :
  nodes (ts_pbvh (fixture_passes 3)) !! j = Some node ->
  needs_update fixture_flag_bit node = true -> is_Some (bm_faces node).
Proof.
  destruct j as [|[|[|j]]]; simpl; intros [= <-]; try discriminate.
  vm_compute. eauto.
Qed.



(** ** A concrete tree

    Nine nodes with a leaf limit of eight, so that a face count under four
    is under half the limit:
<<
        0
       / \
      1   2
     / \ / \
    3  4 5  6
   / \
  7   8
>>
    The leaves 7, 8, 4 and 5 hold one face each, leaf 6 holds five. *)
Definition fixture_inner (children : nat) : PBVHNode :=
  fixture_node [] children None.

Definition fixture_leaf (faces : list BMFace) (unique : list BMVert) : PBVHNode :=
  {| flag := flag_masks fixture_flag_bit [PBVH_Leaf]; children_offset := 0;
     bm_faces := Some faces; bm_unique_verts := Some unique;
     bm_other_verts := Some [];
     vb := zero_BB; orig_vb := zero_BB; subtree_tottri := 0%Z;
     draw_buffers := true; layer_disp := false |}.

Definition fixture_tree_pbvh : PBVH :=
  {| nodes := [fixture_inner 1; fixture_inner 3; fixture_inner 5; fixture_inner 7;
               fixture_leaf [3] [4];
               fixture_leaf [20] [20; 21; 22];
               fixture_leaf [30; 31; 32; 33; 34] [30; 31; 32; 33; 34; 35; 36];
               fixture_leaf [1] [1; 2];
               fixture_leaf [2] [3]]%positive;
     leaf_limit := 8%Z;
     bm_min_edge_len := (3 # 10)%Q;
     bm_max_edge_len := (3 # 4)%Q;
     cd_vert_mask_offset := (-1)%Z;
     bm := fixture_bm |}.

Definition fixture_tree : node_tree :=
  TNode 0 (TNode 1 (TNode 3 (TLeaf 7) (TLeaf 8)) (TLeaf 4))
          (TNode 2 (TLeaf 5) (TLeaf 6)).

Definition fixture_tree_joined : PBVH :=
  match pbvh_bmesh_join_nodes_merge fixture_flag_bit fixture_BB_reset
          fixture_BB_expand fixture_tree_pbvh with
  | Some pbvh' => pbvh'
  | None => fixture_tree_pbvh
  end.

Definition fixture_tree_final : PBVH :=
  match pbvh_bmesh_join_nodes fixture_flag_bit fixture_BB_reset
          fixture_BB_expand fixture_tree_pbvh with
  | Some pbvh' => pbvh'
  | None => fixture_tree_pbvh
  end.

(** What a node looks like after the pass, for the examples. *)
Definition fixture_view (n : PBVHNode) :=
  (map (fun f => (f, flag_test fixture_flag_bit n f))
     [PBVH_Leaf; PBVH_UpdateBB; PBVH_UpdateRedraw; PBVH_Delete],
   children_offset n, subtree_tottri n,
   bm_faces n, bm_unique_verts n, bm_other_verts n, vb n).

Example fixture_tree_joined_nodes :
  pbvh_bmesh_join_nodes_merge fixture_flag_bit fixture_BB_reset fixture_BB_expand
    fixture_tree_pbvh = Some fixture_tree_joined /\
  (* node 1, three faces: joined *)
  fixture_view <$> nodes fixture_tree_joined !! 1
    = Some ([(PBVH_Leaf, true); (PBVH_UpdateBB, true); (PBVH_UpdateRedraw, true);
             (PBVH_Delete, false)],
            0, 3%Z, Some [1; 2; 3]%positive, Some [1; 2; 3; 4]%positive,
            Some [5]%positive,
            {| bmin := (1, 0, 0)%Q; bmax := (5, 0, 0)%Q |}) /\
  (* node 3, two faces, under node 1: flagged for deletion, not a leaf *)
  fixture_view <$> nodes fixture_tree_joined !! 3
    = Some ([(PBVH_Leaf, false); (PBVH_UpdateBB, false); (PBVH_UpdateRedraw, false);
             (PBVH_Delete, true)],
            7, 2%Z, None, None, None, zero_BB) /\
  (* leaf 5, one face: as it was, but for the face count *)
  nodes fixture_tree_joined !! 5
    = Some (set_subtree_tottri (fixture_leaf [20]%positive [20; 21; 22]%positive) 1) /\
  (* the root *)
  nodes fixture_tree_joined !! 0
    = Some (set_subtree_tottri (fixture_inner 1) 9).
Proof. vm_compute. repeat split; reflexivity. Qed.

(** After the compaction: nodes 0, 1, 2, 5 and 6 are left, in this order;
    the joined node has adopted vertex 5, which no leaf owned. *)
Example fixture_tree_final_nodes :
  pbvh_bmesh_join_nodes fixture_flag_bit fixture_BB_reset fixture_BB_expand
    fixture_tree_pbvh = Some fixture_tree_final /\
  map (fun n => (flag_test fixture_flag_bit n PBVH_Leaf, children_offset n,
                 bm_faces n, bm_unique_verts n, bm_other_verts n))
      (nodes fixture_tree_final)
    = [(false, 1%nat, None, None, None);
       (true, 0%nat, Some [1; 2; 3], Some [1; 2; 3; 4; 5], Some []);
       (false, 3%nat, None, None, None);
       (true, 0%nat, Some [20], Some [20; 21; 22], Some []);
       (true, 0%nat, Some [30; 31; 32; 33; 34], Some [30; 31; 32; 33; 34; 35; 36],
        Some [])]%positive /\
  map (v_node (bm fixture_tree_final)) [1; 5; 20; 36]%positive = [1; 1; 3; 4]%Z /\
  map (f_node (bm fixture_tree_final)) [1; 3; 20; 34]%positive = [1; 1; 3; 4]%Z.
Proof. vm_compute. repeat split; reflexivity. Qed.


(** C4, as stated, fails.  Leaf 5 is not the root and its one face is under
    half the leaf limit of eight, but its parent, node 2, counts six faces
    and is passed, and the pass returns at once on a leaf: leaf 5 keeps its
    flags and its bounding box, also through the compaction, after which it
    is node 3 of five.  Node 3 is not the root and counts two faces, but
    node 1 above it is joined first: node 3 is flagged for deletion and is
    no leaf. *)
Lemma small_nodes_merged_counterexample :
  pbvh_bmesh_join_nodes_merge fixture_flag_bit fixture_BB_reset fixture_BB_expand
    fixture_tree_pbvh = Some fixture_tree_joined /\
  pbvh_bmesh_join_nodes fixture_flag_bit fixture_BB_reset fixture_BB_expand
    fixture_tree_pbvh = Some fixture_tree_final /\
  length (nodes fixture_tree_final) = 5 /\
  (exists n', nodes fixture_tree_final !! 3 = Some n' /\
              bm_faces n' = Some [20%positive] /\
              flag_test fixture_flag_bit n' PBVH_UpdateBB = false /\
              flag_test fixture_flag_bit n' PBVH_UpdateRedraw = false /\
              vb n' = zero_BB) /\
  total (nodes fixture_tree_pbvh) (TLeaf 5) = 1%Z /\
  total (nodes fixture_tree_pbvh) (TNode 3 (TLeaf 7) (TLeaf 8)) = 2%Z /\
  leaf_limit fixture_tree_pbvh = 8%Z /\
  (exists n', nodes fixture_tree_joined !! 5 = Some n' /\
              flag_test fixture_flag_bit n' PBVH_UpdateBB = false /\
              flag_test fixture_flag_bit n' PBVH_UpdateRedraw = false /\
              vb n' = zero_BB) /\
  (exists n', nodes fixture_tree_joined !! 3 = Some n' /\
              flag_test fixture_flag_bit n' PBVH_Leaf = false /\
              flag_test fixture_flag_bit n' PBVH_Delete = true) /\
  ~ spec_small_nodes_merged fixture_flag_bit fixture_BB_reset fixture_BB_expand
      fixture_tree_pbvh fixture_tree_joined fixture_tree.
Proof.
  split; [vm_compute; reflexivity|].
  split; [vm_compute; reflexivity|].
  split; [vm_compute; reflexivity|].
  split; [eexists; split; [vm_compute; reflexivity|]; repeat split; reflexivity|].
  split; [reflexivity|]. split; [reflexivity|]. split; [reflexivity|].
  split; [eexists; split; [vm_compute; reflexivity|]; repeat split; reflexivity|].
  split; [eexists; split; [vm_compute; reflexivity|]; repeat split; reflexivity|].
  intros Hspec.
  destruct (Hspec (TLeaf 5)) as (n & n' & _ & Hn' & Hj).
  - unfold fixture_tree. cbn [subtrees app].
    do 7 (apply elem_of_cons; right). apply elem_of_cons. by left.
  - discriminate.
  - reflexivity.
  - destruct Hj as (_ & _ & _ & _ & _ & _ & _ & _ & _ & _ & _ & _ & _ & _ & _ & _ & Hflags & _).
    specialize (Hflags PBVH_UpdateBB).
    vm_compute in Hn'. injection Hn' as <-.
    assert (Hin : PBVH_UpdateBB ∈ joined_flags).
    { unfold joined_flags. do 2 (apply elem_of_cons; right). apply elem_of_cons. by left. }
    specialize (Hflags Hin). vm_compute in Hflags. discriminate Hflags.
Qed.

Lemma fixture_tree_shape :
  shape fixture_flag_bit (nodes fixture_tree_pbvh) fixture_tree.
Proof.
  unfold fixture_tree. cbn [shape root_of].
  repeat first [reflexivity | split | eexists].
Defined.

Lemma fixture_flag_bit_inj (f g : PBVHNodeFlags) :
  fixture_flag_bit f = fixture_flag_bit g -> f = g.
Proof. destruct f, g; simpl; intros H; first [reflexivity | discriminate H]. Defined.

Lemma fixture_tree_cover (j : nat) :
  j < totnode fixture_tree_pbvh -> j ∈ indices fixture_tree.
Proof.
  intros Hj. change (totnode fixture_tree_pbvh) with 9 in Hj.
  apply (bool_decide_unpack _).
  do 9 (destruct j as [|j]; [reflexivity|]). lia.
Defined.

Lemma fixture_tree_clean : clean fixture_flag_bit (nodes fixture_tree_pbvh).
Proof.
  intros j n Hn.
  do 9 (destruct j as [|j];
        [injection Hn as <-; split; [reflexivity|];
         intros Hleaf; first [discriminate Hleaf | split; [reflexivity | by eexists]]|]).
  discriminate Hn.
Defined.

Lemma join_nodes_merges_small_subtrees_witness :
  exists counted merged final,
    pbvh_count_subtree_verts fixture_flag_bit (totnode fixture_tree_pbvh)
      fixture_tree_pbvh 0
      = Some (counted, total (nodes fixture_tree_pbvh) fixture_tree) /\
    only_tottri (nodes fixture_tree_pbvh) (nodes counted) /\
    tottri_ok (nodes counted) fixture_tree /\
    pbvh_bmesh_join_nodes_merge fixture_flag_bit fixture_BB_reset fixture_BB_expand
      fixture_tree_pbvh = Some merged /\
    corrected fixture_flag_bit fixture_BB_reset fixture_BB_expand
      (leaf_limit fixture_tree_pbvh - Z.shiftr (leaf_limit fixture_tree_pbvh) 1)
      (bm fixture_tree_pbvh) (nodes counted) (nodes merged) fixture_tree /\
    nodes merged !! 0 = nodes counted !! 0 /\
    pbvh_bmesh_join_nodes fixture_flag_bit fixture_BB_reset fixture_BB_expand
      fixture_tree_pbvh = Some final /\
    length (nodes final) = length (filter (kept fixture_flag_bit) (nodes merged)) /\
    forall i n, nodes merged !! i = Some n -> kept fixture_flag_bit n ->
      exists n',
        nodes final !! new_index fixture_flag_bit (nodes merged) i = Some n' /\
        grown (set_children_offset n
                 (new_index fixture_flag_bit (nodes merged) (children_offset n))) n'.
Proof.
  apply (join_nodes_merges_small_subtrees fixture_flag_bit fixture_BB_reset
           fixture_BB_expand fixture_flag_bit_inj fixture_tree_pbvh fixture_tree).
  - exact fixture_tree_shape.
  - reflexivity.
  - apply (bool_decide_unpack _). vm_compute. reflexivity.
  - exact fixture_tree_cover.
  - exact fixture_tree_clean.
  - vm_compute. lia.
Defined.



(** ** A mesh with owners

    Two triangles that share an edge: face 1 over the vertices 1, 2, 3 in
    node 0 and face 2 over the vertices 2, 3, 4 in node 1.  Node 0 is the
    home of the vertices 1 and 2, node 1 of the vertices 3 and 4. *)
Definition fixture_owned_bm : BMesh :=
  {| v_co := fun v => (inject_Z (Zpos v), 0%Q, 0%Q);
     v_hidden := fun _ => false;
     v_mask := fun _ => 0%Q;
     v_node := fun v => if ((v =? 1) || (v =? 2))%positive then 0%Z
                        else if ((v =? 3) || (v =? 4))%positive then 1%Z
                        else DYNTOPO_NODE_NONE;
     f_node := fun f => if (f =? 1)%positive then 0%Z
                        else if (f =? 2)%positive then 1%Z
                        else DYNTOPO_NODE_NONE;
     f_verts := fun f => [f; Pos.succ f; Pos.succ (Pos.succ f)];
     f_hidden := fun _ => false |}.

Definition fixture_faces_of_vert (v : BMVert) : list BMFace :=
  filter (fun f => v ∈ f_verts fixture_owned_bm f) [1; 2]%positive.

Definition fixture_owned_leaf (faces : list BMFace) (unique other : list BMVert)
    : PBVHNode :=
  {| flag := flag_masks fixture_flag_bit [PBVH_Leaf]; children_offset := 0;
     bm_faces := Some faces; bm_unique_verts := Some unique;
     bm_other_verts := Some other;
     vb := zero_BB; orig_vb := zero_BB; subtree_tottri := 0%Z;
     draw_buffers := true; layer_disp := false |}.

Definition fixture_owned_pbvh : PBVH :=
  {| nodes := [fixture_owned_leaf [1] [1; 2] [3];
               fixture_owned_leaf [2] [3; 4] [2]]%positive;
     leaf_limit := 8%Z;
     bm_min_edge_len := (3 # 10)%Q;
     bm_max_edge_len := (3 # 4)%Q;
     cd_vert_mask_offset := (-1)%Z;
     bm := fixture_owned_bm |}.

Example fixture_faces_of_vert_values :
  map fixture_faces_of_vert [1; 2; 3; 4; 5]%positive
  = [[1]; [1; 2]; [1; 2]; [2]; []]%positive.
Proof. vm_compute. reflexivity. Qed.

Lemma fixture_owned : owned fixture_owned_pbvh.
Proof.
  intros j n unique Hj Hu.
  destruct j as [|[|j]]; [| |discriminate Hj];
    injection Hj as <-; injection Hu as <-;
    (split; [apply (bool_decide_unpack _); vm_compute; reflexivity|]);
    intros x; rewrite !elem_of_cons, elem_of_nil;
    cbn [bm fixture_owned_pbvh v_node fixture_owned_bm]; unfold DYNTOPO_NODE_NONE;
    destruct (Pos.eqb_spec x 1), (Pos.eqb_spec x 2), (Pos.eqb_spec x 3),
      (Pos.eqb_spec x 4); subst; cbn [orb]; split; intros Hx;
      first [reflexivity | discriminate | tauto | lia | intuition congruence].
Qed.

Definition fixture_vert_removed : PBVH :=
  match pbvh_bmesh_vert_remove fixture_flag_bit fixture_faces_of_vert
          fixture_owned_pbvh 2%positive with
  | Some p' => p'
  | None => fixture_owned_pbvh
  end.

Definition fixture_face_removed : PBVH :=
  match pbvh_bmesh_face_remove fixture_flag_bit fixture_faces_of_vert
          fixture_owned_pbvh 1%positive with
  | Some p' => p'
  | None => fixture_owned_pbvh
  end.

(** What the removals leave in the two nodes: faces, unique vertices, other
    vertices. *)
Definition fixture_tables (pbvh : PBVH) :=
  map (fun n => (bm_faces n, bm_unique_verts n, bm_other_verts n)) (nodes pbvh).

Example fixture_vert_removed_tables :
  pbvh_bmesh_vert_remove fixture_flag_bit fixture_faces_of_vert
    fixture_owned_pbvh 2%positive = Some fixture_vert_removed /\
  fixture_tables fixture_vert_removed
  = [(Some [1], Some [1], Some [3]); (Some [2], Some [3; 4], Some [])]%positive.
Proof. split; vm_compute; reflexivity. Qed.

Example fixture_face_removed_tables :
  pbvh_bmesh_face_remove fixture_flag_bit fixture_faces_of_vert
    fixture_owned_pbvh 1%positive = Some fixture_face_removed /\
  fixture_tables fixture_face_removed
  = [(Some [], Some [1], Some []); (Some [2], Some [3; 4; 2], Some [])]%positive.
Proof. split; vm_compute; reflexivity. Qed.


Lemma finalize_claims_faces_and_vertices_witness :
  exists p' n',
    pbvh_bmesh_node_finalize fixture_flag_bit fixture_BB_reset fixture_BB_expand
      fixture_mark_rebuild_draw fixture_fully_hidden_set fixture_pbvh 1 = Some p' /\
    nodes p' !! 1 = Some n' /\
    bm_faces n' = Some [1; 4; 7]%positive /\
    forall f, f_node (bm p') f
              = if decide (f ∈ [1; 4; 7]%positive) then 1%Z
                else f_node (bm fixture_pbvh) f.
Proof.
  destruct (finalize_claims_faces_and_vertices fixture_flag_bit fixture_BB_reset
              fixture_BB_expand fixture_mark_rebuild_draw fixture_fully_hidden_set
              fixture_pbvh 1
              (fixture_node [PBVH_Leaf; PBVH_UpdateTopology] 0 (Some [1; 4; 7]%positive))
              [1; 4; 7]%positive)
    as (p' & n' & unique & other & H1 & H2 & _ & H4 & _ & _ & _ & _ & _ & _ & _ & H12).
  - reflexivity.
  - reflexivity.
  - exists p', n'. split; [exact H1|]. split; [exact H2|]. split; [exact H4 | exact H12].
Defined.

Lemma split_keeps_every_face_witness :
  exists p' b,
    pbvh_bmesh_node_limit_ensure fixture_flag_bit fixture_BB_reset fixture_BB_expand
      fixture_BB_expand_with_bb fixture_BB_widest_axis fixture_BBC_update_centroid
      fixture_mark_rebuild_draw fixture_fully_hidden_set fixture_pbvh 1 = Some (p', b) /\
    all_faces (nodes p') ≡ₚ all_faces (nodes fixture_pbvh) /\
    length (nodes fixture_pbvh) <= length (nodes p').
Proof.
  destruct (pbvh_bmesh_node_limit_ensure fixture_flag_bit fixture_BB_reset
              fixture_BB_expand fixture_BB_expand_with_bb fixture_BB_widest_axis
              fixture_BBC_update_centroid fixture_mark_rebuild_draw
              fixture_fully_hidden_set fixture_pbvh 1) as [[p' b]|] eqn:E.
  - exists p', b. split; [reflexivity|].
    destruct (proj2 (split_keeps_every_face fixture_flag_bit fixture_BB_reset
                       fixture_BB_expand fixture_BB_expand_with_bb fixture_BB_widest_axis
                       fixture_BBC_update_centroid fixture_mark_rebuild_draw
                       fixture_fully_hidden_set fixture_pbvh 1) p' b E) as (H1 & H2 & _).
    split; [exact H1 | exact H2].
  - vm_compute in E. discriminate E.
Defined.

Lemma vert_use_count_is_exact_witness :
  pbvh_bmesh_node_vert_use_count_at_most fixture_faces_of_vert fixture_owned_pbvh 0
    2%positive 2
  = Z.min (use_count fixture_faces_of_vert fixture_owned_pbvh 0 2%positive) 2 /\
  (pbvh_bmesh_node_vert_use_count_is_equal fixture_faces_of_vert fixture_owned_pbvh 0
     2%positive 1 = true
   <-> use_count fixture_faces_of_vert fixture_owned_pbvh 0 2%positive = 1%Z).
Proof.
  destruct (vert_use_count_is_exact fixture_faces_of_vert fixture_owned_pbvh 0 2%positive)
    as [Hmost Hequal].
  split; [apply Hmost; lia | apply Hequal; lia].
Defined.

Lemma ownership_transfer_keeps_owned_witness :
  exists p',
    pbvh_bmesh_vert_ownership_transfer fixture_flag_bit fixture_owned_pbvh 1 2%positive
    = Some p' /\
    owned p' /\ v_node (bm p') 2%positive = 1%Z.
Proof.
  destruct (ownership_transfer_keeps_owned fixture_flag_bit fixture_owned_pbvh 1
              2%positive (fixture_owned_leaf [2] [3; 4] [2])%positive
              [3; 4]%positive [2]%positive)
    as (p' & n' & H1 & H2 & H3 & _).
  - exact fixture_owned.
  - reflexivity.
  - reflexivity.
  - reflexivity.
  - vm_compute. discriminate.
  - intros c Hc. vm_compute in Hc. injection Hc as <-.
    eexists _, _. split; reflexivity.
  - exists p'. split; [exact H1|]. split; [exact H2 | exact H3].
Defined.

Lemma vert_remove_clears_vertex_witness :
  v_node (bm fixture_vert_removed) 2%positive = DYNTOPO_NODE_NONE /\
  owned fixture_vert_removed.
Proof.
  destruct (vert_remove_clears_vertex fixture_flag_bit fixture_faces_of_vert
              fixture_owned_pbvh 2%positive fixture_vert_removed)
    as (H1 & _ & _ & H4 & _).
  - exact fixture_owned.
  - vm_compute. reflexivity.
  - split; [exact H1 | exact H4].
Defined.

Lemma face_remove_unlinks_face_witness :
  f_node (bm fixture_face_removed) 1%positive = DYNTOPO_NODE_NONE /\
  length (nodes fixture_face_removed) = 2.
Proof.
  destruct (proj2 (face_remove_unlinks_face fixture_flag_bit fixture_faces_of_vert
                     fixture_owned_pbvh 1%positive) 0 fixture_face_removed)
    as (H1 & _ & H3 & _).
  - reflexivity.
  - vm_compute. reflexivity.
  - split; [exact H1 | exact H3].
Defined.


End Dyntopo.

(* ===================================================================== *)
(** * Grease pencil curve-draw tool *)
(* ===================================================================== *)

Module CurveDraw.

Definition V3 : Type := Q * Q * Q.
Definition V2i : Type := Z * Z.

Definition zero_v3 : V3 := (0%Q, 0%Q, 0%Q).

(** [sub_v3_v3v3(r, a, b)]: [r = a - b]; [add_v3_v3(r, a)]: [r += a]. *)
Definition sub_v3_v3v3 (a b : V3) : V3 :=
  let '(a0, a1, a2) := a in
  let '(b0, b1, b2) := b in
  ((a0 - b0)%Q, (a1 - b1)%Q, (a2 - b2)%Q).

Definition add_v3_v3 (r a : V3) : V3 :=
  let '(r0, r1, r2) := r in
  let '(a0, a1, a2) := a in
  ((r0 + a0)%Q, (r1 + a1)%Q, (r2 + a2)%Q).

Definition sub_v2_v2v2_int (a b : V2i) : V2i := ((a.1 - b.1)%Z, (a.2 - b.2)%Z).

Definition len_manhattan_v2_int (v : V2i) : Z := (Z.abs v.1 + Z.abs v.2)%Z.

(** ** Structs & enums *)

Inductive eGPDcurve_draw_state :=
| IN_MOVE
| IN_SET_VECTOR
| IN_DRAG_ALIGNED_HANDLE
| IN_DRAG_FREE_HANDLE
| IN_SET_THICKNESS.

#[global] Instance eGPDcurve_draw_state_eq_dec : EqDecision eGPDcurve_draw_state.
Proof. solve_decision. Defined.

(** [eBezTriple_Handle] of DNA_curve_types.h; [HD_FREE] is the value 0 that
    zeroed memory holds. *)
Inductive eBezTriple_Handle :=
| HD_FREE | HD_AUTO | HD_VECT | HD_ALIGN | HD_AUTO_ANIM | HD_ALIGN_DOUBLESIDE.

#[global] Instance eBezTriple_Handle_eq_dec : EqDecision eBezTriple_Handle.
Proof. solve_decision. Defined.

(** [vec[0]] and [vec[2]] are the handles, [vec[1]] is the control point;
    [f1], [f2], [f3] are their selection flags. *)
Record BezTriple := {
  vec0 : V3; vec1 : V3; vec2 : V3;
  h1 : eBezTriple_Handle; h2 : eBezTriple_Handle;
  f1 : bool; f2 : bool; f3 : bool
}.

Record bGPDcurve_point := {
  bezt : BezTriple;
  cpt_pressure : Q;
  cpt_strength : Q;
  point_index : Z;
  cpt_select : bool          (* flag & GP_CURVE_POINT_SELECT *)
}.

(** [tot_curve_points] is the length of [curve_points]. *)
Record bGPDcurve := {
  curve_points : list bGPDcurve_point;
  gpc_flag : Z
}.

Record bGPDspoint := {
  pt_co : V3;
  pt_pressure : Q;
  pt_strength : Q
}.

(** [totpoints] is the length of [points] (a NULL array is the empty list);
    [editcurve] is a pointer into the curve store. *)
Record bGPDstroke := {
  points : list bGPDspoint;
  editcurve : option nat;
  gps_cyclic : bool;         (* flag & GP_STROKE_CYCLIC *)
  thickness : Z;
  hardeness : Q;
  aspect_ratio : Q * Q;
  mat_nr : Z
}.

(** The part of the data block the running tool works on, through
    [tcd->gpf], [tcd->gps] and [tcd->gpc]: the strokes and curves that are
    allocated, by address, and the stroke list of the tool's frame
    ([gpf->strokes]) as the list of the addresses linked in it.  The data
    block with its layers and frames is [bGPdata] below; [frame_world] is the
    view of it that the tool has once [gpencil_curve_draw_init] has obtained
    its frame. *)
Record world := {
  strokes : gmap nat bGPDstroke;
  curves : gmap nat bGPDcurve;
  frame_strokes : list nat
}.

(** The tool data.  [gps] and [gpc] are addresses in the stores; the members
    [gpl], [gpf] and [cframe], which no callback assigns after
    [gpencil_curve_draw_init], are held beside this record in [customdata];
    scene, region, object, brush and the drawing callback are read through
    [ToolEnv] or left out. *)
Record tGPDcurve_draw := {
  gps : nat;
  gpc : nat;
  imval : V2i;
  imval_prev : V2i;
  imval_start : V2i;
  imval_end : V2i;
  is_mouse_down : bool;
  is_cyclic : bool;
  prev_pressure : Q;
  resolution : Z;
  state : eGPDcurve_draw_state
}.

Definition CD_MODAL_CANCEL : Z := 1.
Definition CD_MODAL_CONFIRM : Z := 2.
Definition CD_MODAL_FREE_HANDLE_ON : Z := 3.
Definition CD_MODAL_FREE_HANDLE_OFF : Z := 4.
Definition CD_MODAL_CYCLIC_TOGGLE : Z := 5.
Definition CD_MODAL_DELETE_LAST : Z := 6.
Definition CD_MODAL_SET_THICKNESS : Z := 7.

(** Events: the three event types the modal callback tells apart, and any
    other. *)
Inductive event_type := EVT_MODAL_MAP | LEFTMOUSE | MOUSEMOVE | EVT_OTHER.

Record wmEvent := {
  type : event_type;
  val : Z;
  mval : V2i
}.

Inductive operator_return :=
| OPERATOR_RUNNING_MODAL
| OPERATOR_RUNNING_MODAL_PASS_THROUGH
| OPERATOR_FINISHED
| OPERATOR_CANCELLED.

(** ** The data block

    [float[4][4]]. *)
Definition mat4 : Type := list (list Q).

(** A frame of a layer: its frame number and its stroke list, the
    addresses of the strokes linked in it. *)
Record bGPDframe := {
  framenum : Z;
  gpf_strokes : list nat
}.

(** A layer: its name, its frames, the active frame ([actframe], a position
    in the list of frames, [None] for NULL) and its transform. *)
Record bGPDlayer := {
  gpl_info : string;
  gpl_frames : list bGPDframe;
  gpl_actframe : option nat;
  gpl_location : V3;
  gpl_rotation : V3;
  gpl_scale : V3;
  layer_mat : mat4;
  layer_invmat : mat4
}.

(** The grease pencil data block: its layers, the active layer (a position
    in the list of layers, what [CTX_data_active_gpencil_layer] returns) and
    the strokes and curves allocated. *)
Record bGPdata := {
  gpd_layers : list bGPDlayer;
  gpd_active : option nat;
  gpd_strokes : gmap nat bGPDstroke;
  gpd_curves : gmap nat bGPDcurve
}.

(** [op->customdata]: the tool data, with its members [gpl], [gpf] (the
    position of the frame in the layer) and [cframe]. *)
Record customdata := {
  tcd_gpl : nat;
  tcd_gpf : nat;
  tcd_cframe : Z;
  tcd_tool : tGPDcurve_draw
}.

(** The two modes [gpencil_curve_draw_init] asks
    [BKE_gpencil_layer_frame_get] for. *)
Inductive eGP_GetFrame_Mode := GP_GETFRAME_ADD_NEW | GP_GETFRAME_ADD_COPY.

(** ** Store updates *)

Definition set_curve (w : world) (c : nat) (x : bGPDcurve) : world :=
  {| strokes := strokes w; curves := <[c := x]> (curves w);
     frame_strokes := frame_strokes w |}.

Definition set_stroke (w : world) (s : nat) (x : bGPDstroke) : world :=
  {| strokes := <[s := x]> (strokes w); curves := curves w;
     frame_strokes := frame_strokes w |}.

(** [BLI_addtail] / [BLI_remlink] on the frame's stroke list. *)
Definition BLI_addtail (w : world) (s : nat) : world :=
  {| strokes := strokes w; curves := curves w;
     frame_strokes := frame_strokes w ++ [s] |}.

Definition BLI_remlink (w : world) (s : nat) : world :=
  {| strokes := strokes w; curves := curves w;
     frame_strokes := filter (fun x => x ≠ s) (frame_strokes w) |}.

Definition set_bezt (cpt : bGPDcurve_point) (b : BezTriple) : bGPDcurve_point :=
  {| bezt := b; cpt_pressure := cpt_pressure cpt; cpt_strength := cpt_strength cpt;
     point_index := point_index cpt; cpt_select := cpt_select cpt |}.

Definition set_handle_types (cpt : bGPDcurve_point) (t : eBezTriple_Handle)
    : bGPDcurve_point :=
  let b := bezt cpt in
  set_bezt cpt {| vec0 := vec0 b; vec1 := vec1 b; vec2 := vec2 b;
                  h1 := t; h2 := t; f1 := f1 b; f2 := f2 b; f3 := f3 b |}.

Definition set_vecs (cpt : bGPDcurve_point) (a b c : V3) : bGPDcurve_point :=
  let bz := bezt cpt in
  set_bezt cpt {| vec0 := a; vec1 := b; vec2 := c;
                  h1 := h1 bz; h2 := h2 bz; f1 := f1 bz; f2 := f2 bz; f3 := f3 bz |}.

Definition set_cpt_pressure (cpt : bGPDcurve_point) (p : Q) : bGPDcurve_point :=
  {| bezt := bezt cpt; cpt_pressure := p; cpt_strength := cpt_strength cpt;
     point_index := point_index cpt; cpt_select := cpt_select cpt |}.

(** The curve point zeroed memory holds. *)
Definition zero_curve_point : bGPDcurve_point :=
  {| bezt := {| vec0 := zero_v3; vec1 := zero_v3; vec2 := zero_v3;
                h1 := HD_FREE; h2 := HD_FREE; f1 := false; f2 := false; f3 := false |};
     cpt_pressure := 0%Q; cpt_strength := 0%Q; point_index := 0%Z;
     cpt_select := false |}.

(** [&gpc->curve_points[gpc->tot_curve_points - 1]]: there is no such point
    in an empty curve. *)
Definition last_index (gpc : bGPDcurve) : option nat :=
  match length (curve_points gpc) with
  | O => None
  | S k => Some k
  end.

Definition update_last (gpc : bGPDcurve) (f : bGPDcurve_point -> bGPDcurve_point)
    : option bGPDcurve :=
  i ← last_index gpc;
  cpt ← curve_points gpc !! i;
  Some {| curve_points := <[i := f cpt]> (curve_points gpc); gpc_flag := gpc_flag gpc |}.

(** ** What the tool calls outside the excerpt

    View-space functions of ED_view3d: [drawing_reference] is the point
    [ED_gpencil_drawing_reference_get] returns for the scene, object and
    alignment in use.  [KM_PRESS] / [KM_RELEASE] of WM_types.h.

    Modelled from the spec: BKE_gpencil_curve is not in the excerpt.
    [BKE_gpencil_editcurve_recalculate_handles] recalculates "handle
    directions ... from neighbors": [recalculate_handles] gives the two
    handle positions of every control point; control points, handle types
    and the number of points are not its to change.
    [BKE_gpencil_stroke_update_geometry_from_editcurve] regenerates the
    stroke samples from the curve at a resolution: [curve_samples] gives the
    samples and, per control point, the index of its sample.

    [curve_edit_resolution] is [gpd->curve_edit_resolution]; the four after
    it are what init reads from the brush; the last two are matrix helpers
    of BLI_math. *)
Class ToolEnv := {
  drawing_reference : V3;
  ED_view3d_calc_zfac : V3 -> Q;
  ED_view3d_project_float_global : V3 -> option (Q * Q);
  ED_view3d_win_to_delta : Q * Q -> Q -> V3;
  WM_event_drag_threshold : wmEvent -> Q;
  len_v2v2_int : V2i -> V2i -> Q;
  KM_PRESS : Z;
  KM_RELEASE : Z;
  recalculate_handles : bGPDstroke -> list bGPDcurve_point -> list (V3 * V3);
  curve_samples : Z -> bGPDstroke -> bGPDcurve -> list bGPDspoint * list Z;
  curve_edit_resolution : Z;
  brush_size : Z;
  brush_hardeness : Q;
  brush_aspect_ratio : Q * Q;
  mat_idx : Z;
  loc_eul_size_to_mat4 : V3 -> V3 -> V3 -> mat4;
  invert_m4_m4 : mat4 -> mat4
}.

Section tool.

Context `{ToolEnv}.

Definition gpencil_project_mval_to_v3 (mval_i : V2i) : V3 :=
  let mval_f := (inject_Z mval_i.1, inject_Z mval_i.2) in
  let rvec := drawing_reference in
  let zfac := ED_view3d_calc_zfac rvec in
  match ED_view3d_project_float_global rvec with
  | Some mval_prj =>
      let mval_f := ((mval_prj.1 - mval_f.1)%Q, (mval_prj.2 - mval_f.2)%Q) in
      let dvec := ED_view3d_win_to_delta mval_f zfac in
      sub_v3_v3v3 rvec dvec
  | None => zero_v3
  end.

Definition BKE_gpencil_editcurve_recalculate_handles (w : world) (gps : nat)
    : option world :=
  s ← strokes w !! gps;
  match editcurve s with
  | None => Some w
  | Some c =>
      gpc ← curves w !! c;
      let hs := recalculate_handles s (curve_points gpc) in
      let pts := imap (fun i cpt =>
                         match hs !! i with
                         | Some (a, b) => set_vecs cpt a (vec1 (bezt cpt)) b
                         | None => cpt
                         end) (curve_points gpc) in
      Some (set_curve w c {| curve_points := pts; gpc_flag := gpc_flag gpc |})
  end.

Definition BKE_gpencil_stroke_update_geometry_from_editcurve (w : world) (gps : nat)
    (resolution : Z) : option world :=
  s ← strokes w !! gps;
  match editcurve s with
  | None => Some w
  | Some c =>
      gpc ← curves w !! c;
      let '(samples, idx) := curve_samples resolution s gpc in
      let pts := imap (fun i cpt =>
                         match idx !! i with
                         | Some k =>
                             {| bezt := bezt cpt; cpt_pressure := cpt_pressure cpt;
                                cpt_strength := cpt_strength cpt; point_index := k;
                                cpt_select := cpt_select cpt |}
                         | None => cpt
                         end) (curve_points gpc) in
      let w := set_curve w c {| curve_points := pts; gpc_flag := gpc_flag gpc |} in
      Some (set_stroke w gps
              {| points := samples; editcurve := editcurve s;
                 gps_cyclic := gps_cyclic s; thickness := thickness s;
                 hardeness := hardeness s; aspect_ratio := aspect_ratio s;
                 mat_nr := mat_nr s |})
  end.

(** [BKE_gpencil_free_stroke]: the stroke and its edit curve are freed. *)
Definition BKE_gpencil_free_stroke (w : world) (gps : nat) : option world :=
  s ← strokes w !! gps;
  Some {| strokes := delete gps (strokes w);
          curves := match editcurve s with
                    | Some c => delete c (curves w)
                    | None => curves w
                    end;
          frame_strokes := frame_strokes w |}.

(** *** Helper functions *)

(** Helper: Add a new curve point at the end (duplicating the previous last) *)
Definition gpencil_push_curve_point (w : world) (tcd : tGPDcurve_draw) : option world :=
  gpc ← curves w !! gpc tcd;
  let old_num_points := length (curve_points gpc) in
  (* MEM_recallocN: one more, zeroed, point *)
  let pts := curve_points gpc ++ [zero_curve_point] in
  match old_num_points with
  | O => None   (* old_last is curve_points[-1] *)
  | S k =>
      old_last ← pts !! k;
      let new_last := set_handle_types old_last HD_VECT in
      let pts := <[S k := new_last]> pts in
      let w := set_curve w (CurveDraw.gpc tcd)
                 {| curve_points := pts; gpc_flag := gpc_flag gpc |} in
      BKE_gpencil_stroke_update_geometry_from_editcurve w (gps tcd) curve_edit_resolution
  end.

(** [tcd->gps = new_stroke; tcd->gpc = new_curve;] *)
Definition set_gps_gpc (tcd : tGPDcurve_draw) (g c : nat) : tGPDcurve_draw :=
  {| gps := g; gpc := c;
     imval := imval tcd; imval_prev := imval_prev tcd;
     imval_start := imval_start tcd; imval_end := imval_end tcd;
     is_mouse_down := is_mouse_down tcd; is_cyclic := is_cyclic tcd;
     prev_pressure := prev_pressure tcd; resolution := resolution tcd;
     state := state tcd |}.

(** Helper: Remove the last curve point *)
Definition gpencil_pop_curve_point (w : world) (tcd : tGPDcurve_draw)
    : option (world * tGPDcurve_draw) :=
  s ← strokes w !! gps tcd;
  gpc ← curves w !! gpc tcd;
  let old_num_points := length (curve_points gpc) in
  match old_num_points with
  | O => None   (* a curve of -1 points *)
  | S new_num_points =>
      (* Create new stroke and curve *)
      let new_stroke := fresh (dom (strokes w)) in
      let new_curve := fresh (dom (curves w)) in
      let w := set_curve w new_curve
                 {| curve_points := take new_num_points (curve_points gpc);
                    gpc_flag := gpc_flag gpc |} in
      let w := set_stroke w new_stroke
                 {| points := []; editcurve := Some new_curve;
                    gps_cyclic := gps_cyclic s; thickness := thickness s;
                    hardeness := hardeness s; aspect_ratio := aspect_ratio s;
                    mat_nr := mat_nr s |} in
      w ← BKE_gpencil_stroke_update_geometry_from_editcurve w new_stroke
            curve_edit_resolution;
      (* Remove and free old stroke and curve *)
      let w := BLI_remlink w (gps tcd) in
      w ← BKE_gpencil_free_stroke w (gps tcd);
      let tcd := set_gps_gpc tcd new_stroke new_curve in
      Some (BLI_addtail w new_stroke, tcd)
  end.

Definition gpencil_set_handle_type_last_point (w : world) (tcd : tGPDcurve_draw)
    (t : eBezTriple_Handle) : option world :=
  gpc ← curves w !! gpc tcd;
  gpc ← update_last gpc (fun cpt => set_handle_types cpt t);
  Some (set_curve w (CurveDraw.gpc tcd) gpc).

Definition gpencil_set_alpha_last_segment (w : world) (tcd : tGPDcurve_draw) (alpha : Q)
    : option world :=
  s ← strokes w !! gps tcd;
  gpc ← curves w !! gpc tcd;
  match length (curve_points gpc) with
  | S (S k) =>
      old_last ← curve_points gpc !! k;
      (* [uint32_t i = old_last->point_index]: a negative index wraps
         around to a value no stroke reaches *)
      let pts := imap (fun i pt =>
                         if ((0 <=? point_index old_last)
                             && (point_index old_last <=? Z.of_nat i))%Z
                         then {| pt_co := pt_co pt; pt_pressure := pt_pressure pt;
                                 pt_strength := alpha |}
                         else pt) (points s) in
      Some (set_stroke w (gps tcd)
              {| points := pts; editcurve := editcurve s;
                 gps_cyclic := gps_cyclic s; thickness := thickness s;
                 hardeness := hardeness s; aspect_ratio := aspect_ratio s;
                 mat_nr := mat_nr s |})
  | _ => Some w
  end.


(** *** Main drawing functions *)

Definition set_state (tcd : tGPDcurve_draw) (st : eGPDcurve_draw_state) : tGPDcurve_draw :=
  {| gps := gps tcd; gpc := gpc tcd;
     imval := imval tcd; imval_prev := imval_prev tcd;
     imval_start := imval_start tcd; imval_end := imval_end tcd;
     is_mouse_down := is_mouse_down tcd; is_cyclic := is_cyclic tcd;
     prev_pressure := prev_pressure tcd; resolution := resolution tcd;
     state := st |}.

(** The derived stroke data [BKE_gpencil_stroke_geometry_update] refreshes
    (bounding box, fill triangles), the dependency-graph tags, notifiers,
    cursor and header text are not part of [world]. *)
Definition gpencil_curve_draw_update (w : world) (tcd : tGPDcurve_draw) : option world :=
  gpc ← curves w !! gpc tcd;
  match state tcd with
  | IN_MOVE =>
      let co := gpencil_project_mval_to_v3 (imval tcd) in
      gpc ← update_last gpc (fun cpt => set_vecs cpt co co co);
      let w := set_curve w (CurveDraw.gpc tcd) gpc in
      w ← BKE_gpencil_editcurve_recalculate_handles w (gps tcd);
      w ← BKE_gpencil_stroke_update_geometry_from_editcurve w (gps tcd) (resolution tcd);
      gpencil_set_alpha_last_segment w tcd (1 # 10)
  | IN_DRAG_ALIGNED_HANDLE =>
      let co := gpencil_project_mval_to_v3 (imval tcd) in
      gpc ← update_last gpc
              (fun cpt =>
                 let b := bezt cpt in
                 let vec := sub_v3_v3v3 (vec1 b) co in
                 let vec := add_v3_v3 vec (vec1 b) in
                 set_vecs cpt vec (vec1 b) co);
      let w := set_curve w (CurveDraw.gpc tcd) gpc in
      BKE_gpencil_stroke_update_geometry_from_editcurve w (gps tcd) (resolution tcd)
  | IN_DRAG_FREE_HANDLE =>
      let co := gpencil_project_mval_to_v3 (imval tcd) in
      gpc ← update_last gpc
              (fun cpt => set_vecs cpt (vec0 (bezt cpt)) (vec1 (bezt cpt)) co);
      let w := set_curve w (CurveDraw.gpc tcd) gpc in
      BKE_gpencil_stroke_update_geometry_from_editcurve w (gps tcd) (resolution tcd)
  | IN_SET_THICKNESS =>
      let move := sub_v2_v2v2_int (imval tcd) (imval_start tcd) in
      let dir := if (0 <? move.1)%Z then 1%Z else (-1)%Z in
      let dist := len_manhattan_v2_int move in
      (* TODO: calculate correct radius. *)
      let dr := (inject_Z dir * (inject_Z dist / 10))%Q in
      let p := (prev_pressure tcd + dr)%Q in
      let p := if Qlt_le_dec p 0 then 0%Q else p in   (* CLAMP_MIN *)
      gpc ← update_last gpc (fun cpt => set_cpt_pressure cpt p);
      let w := set_curve w (CurveDraw.gpc tcd) gpc in
      BKE_gpencil_stroke_update_geometry_from_editcurve w (gps tcd) (resolution tcd)
  | IN_SET_VECTOR => Some w
  end.

(** [gpencil_curve_draw_init] from "Create stroke" on (lines 465-503), on
    the view [w] of the frame obtained before (lines 436-463, in
    [gpencil_curve_draw_init] below).  The members of the tool data set
    before ([imval], [imval_prev], [is_mouse_down], [state], [resolution])
    are set with the others when the record is made; [gpl], [gpf] and
    [cframe] are held beside the record, in [customdata]. *)
Definition curve_draw_init_stroke (w : world) (event : wmEvent)
    : option (world * tGPDcurve_draw) :=
  (* Create stroke. *)
  let first_pt := gpencil_project_mval_to_v3 (mval event) in
  let gps := fresh (dom (strokes w)) in
  let stroke := {| points := [{| pt_co := first_pt; pt_pressure := 1; pt_strength := 1 |}];
                   editcurve := None; gps_cyclic := false;
                   thickness := brush_size; hardeness := brush_hardeness;
                   aspect_ratio := brush_aspect_ratio; mat_nr := mat_idx |} in
  let w := BLI_addtail (set_stroke w gps stroke) gps in
  (* Create editcurve. *)
  let gpc := fresh (dom (curves w)) in
  let cpt := set_vecs zero_curve_point first_pt first_pt first_pt in
  let cpt := {| bezt := bezt cpt; cpt_pressure := 1; cpt_strength := 1;
                point_index := point_index cpt; cpt_select := cpt_select cpt |} in
  let w := set_curve w gpc {| curve_points := [cpt]; gpc_flag := 0 |} in
  let w := set_stroke w gps
             {| points := points stroke; editcurve := Some gpc;
                gps_cyclic := gps_cyclic stroke; thickness := thickness stroke;
                hardeness := hardeness stroke; aspect_ratio := aspect_ratio stroke;
                mat_nr := mat_nr stroke |} in
  (* Allocate temp curve draw data (zeroed), initialize mouse state. *)
  let tcd := {| gps := gps; gpc := gpc;
                imval := mval event; imval_prev := mval event;
                imval_start := (0, 0)%Z; imval_end := (0, 0)%Z;
                is_mouse_down := bool_decide (val event = KM_PRESS);
                is_cyclic := false; prev_pressure := 0;
                resolution := 32;
                state := IN_SET_VECTOR |} in
  w ← gpencil_curve_draw_update w tcd;
  Some (w, tcd).

Definition gpencil_curve_draw_confirm (w : world) (tcd : tGPDcurve_draw) : option world :=
  gpc ← curves w !! gpc tcd;
  gpc ← update_last gpc
          (fun cpt =>
             let b := bezt cpt in
             {| bezt := {| vec0 := vec0 b; vec1 := vec1 b; vec2 := vec2 b;
                           h1 := h1 b; h2 := h2 b;
                           f1 := false; f2 := false; f3 := false |};
                cpt_pressure := cpt_pressure cpt; cpt_strength := cpt_strength cpt;
                point_index := point_index cpt; cpt_select := false |});
  let w := set_curve w (CurveDraw.gpc tcd) gpc in
  BKE_gpencil_editcurve_recalculate_handles w (gps tcd).

(** [gpencil_curve_draw_exit]: the tool data is freed and
    [op->customdata] is NULL; strokes and curves are not touched. *)
Definition gpencil_curve_draw_exit (w : world) (tcd : tGPDcurve_draw)
    : world * option tGPDcurve_draw :=
  (w, None).

(** *** Operator callbacks *)

(** The invocation as the tool's frame sees it: [w] is the view of the
    frame obtained. *)
Definition curve_draw_invoke_stroke (w : world) (event : wmEvent)
    : option (world * option tGPDcurve_draw * operator_return) :=
  '(w, tcd) ← curve_draw_init_stroke w event;
  Some (w, Some tcd, OPERATOR_RUNNING_MODAL).

Definition set_imval (tcd : tGPDcurve_draw) (m : V2i) : tGPDcurve_draw :=
  {| gps := gps tcd; gpc := gpc tcd;
     imval := m; imval_prev := imval_prev tcd;
     imval_start := imval_start tcd; imval_end := imval_end tcd;
     is_mouse_down := is_mouse_down tcd; is_cyclic := is_cyclic tcd;
     prev_pressure := prev_pressure tcd; resolution := resolution tcd;
     state := state tcd |}.

(** End of the modal callback: [copy_v2_v2_int(tcd->imval_prev, tcd->imval)]. *)
Definition modal_continue (w : world) (tcd : tGPDcurve_draw) (r : operator_return)
    : option (world * option tGPDcurve_draw * operator_return) :=
  Some (w,
        Some {| gps := gps tcd; gpc := gpc tcd;
                imval := imval tcd; imval_prev := imval tcd;
                imval_start := imval_start tcd; imval_end := imval_end tcd;
                is_mouse_down := is_mouse_down tcd; is_cyclic := is_cyclic tcd;
                prev_pressure := prev_pressure tcd; resolution := resolution tcd;
                state := state tcd |},
        r).

Definition modal_keymap (w : world) (tcd : tGPDcurve_draw) (event : wmEvent)
    : option (world * option tGPDcurve_draw * operator_return) :=
  if decide (val event = CD_MODAL_CONFIRM) then
    (* Delete the 'preview' point. *)
    '(w, tcd) ← (if decide (state tcd = IN_MOVE)
                 then gpencil_pop_curve_point w tcd else Some (w, tcd));
    (* Create curve *)
    w ← gpencil_curve_draw_confirm w tcd;
    let '(w, customdata) := gpencil_curve_draw_exit w tcd in
    Some (w, customdata, OPERATOR_FINISHED)
  else if decide (val event = CD_MODAL_CANCEL) then
    (* Delete the stroke. *)
    let w := BLI_remlink w (gps tcd) in
    w ← BKE_gpencil_free_stroke w (gps tcd);
    let '(w, customdata) := gpencil_curve_draw_exit w tcd in
    Some (w, customdata, OPERATOR_CANCELLED)
  else if decide (val event = CD_MODAL_FREE_HANDLE_ON) then
    if decide (state tcd = IN_DRAG_ALIGNED_HANDLE) then
      let tcd := set_state tcd IN_DRAG_FREE_HANDLE in
      w ← gpencil_set_handle_type_last_point w tcd HD_FREE;
      w ← gpencil_curve_draw_update w tcd;
      modal_continue w tcd OPERATOR_RUNNING_MODAL
    else modal_continue w tcd OPERATOR_RUNNING_MODAL
  else if decide (val event = CD_MODAL_FREE_HANDLE_OFF) then
    if decide (state tcd = IN_DRAG_FREE_HANDLE) then
      let tcd := set_state tcd IN_DRAG_ALIGNED_HANDLE in
      w ← gpencil_set_handle_type_last_point w tcd HD_ALIGN;
      w ← gpencil_curve_draw_update w tcd;
      modal_continue w tcd OPERATOR_RUNNING_MODAL
    else modal_continue w tcd OPERATOR_RUNNING_MODAL
  else if decide (val event = CD_MODAL_CYCLIC_TOGGLE) then
    s ← strokes w !! gps tcd;
    let w := set_stroke w (gps tcd)
               {| points := points s; editcurve := editcurve s;
                  gps_cyclic := negb (is_cyclic tcd); thickness := thickness s;
                  hardeness := hardeness s; aspect_ratio := aspect_ratio s;
                  mat_nr := mat_nr s |} in
    let tcd := {| gps := gps tcd; gpc := gpc tcd;
                  imval := imval tcd; imval_prev := imval_prev tcd;
                  imval_start := imval_start tcd; imval_end := imval_end tcd;
                  is_mouse_down := is_mouse_down tcd;
                  is_cyclic := negb (is_cyclic tcd);
                  prev_pressure := prev_pressure tcd; resolution := resolution tcd;
                  state := state tcd |} in
    w ← gpencil_curve_draw_update w tcd;
    modal_continue w tcd OPERATOR_RUNNING_MODAL
  else if decide (val event = CD_MODAL_DELETE_LAST) then
    '(w, tcd) ← (if decide (state tcd = IN_MOVE) then gpencil_pop_curve_point w tcd
                 else if decide (state tcd = IN_DRAG_ALIGNED_HANDLE
                                 \/ state tcd = IN_DRAG_FREE_HANDLE)
                      then Some (w, set_state tcd IN_MOVE)
                      else Some (w, tcd));
    w ← gpencil_curve_draw_update w tcd;
    modal_continue w tcd OPERATOR_RUNNING_MODAL
  else if decide (val event = CD_MODAL_SET_THICKNESS) then
    if decide (state tcd = IN_SET_THICKNESS) then
      modal_continue w tcd OPERATOR_RUNNING_MODAL
    else
      let tcd := set_state tcd IN_SET_THICKNESS in
      gpc ← curves w !! gpc tcd;
      i ← last_index gpc;
      cpt_last ← curve_points gpc !! i;
      let tcd := {| gps := gps tcd; gpc := CurveDraw.gpc tcd;
                    imval := imval tcd; imval_prev := imval_prev tcd;
                    imval_start := imval tcd; imval_end := imval_end tcd;
                    is_mouse_down := is_mouse_down tcd; is_cyclic := is_cyclic tcd;
                    prev_pressure := cpt_pressure cpt_last;
                    resolution := resolution tcd;
                    state := state tcd |} in
      w ← gpencil_curve_draw_update w tcd;
      modal_continue w tcd OPERATOR_RUNNING_MODAL
  else modal_continue w tcd OPERATOR_RUNNING_MODAL.

Definition modal_leftmouse (w : world) (tcd : tGPDcurve_draw) (event : wmEvent)
    : option (world * option tGPDcurve_draw * operator_return) :=
  if decide (val event = KM_PRESS) then
    let tcd := {| gps := gps tcd; gpc := gpc tcd;
                  imval := imval tcd; imval_prev := imval_prev tcd;
                  imval_start := imval tcd; imval_end := imval_end tcd;
                  is_mouse_down := true; is_cyclic := is_cyclic tcd;
                  prev_pressure := prev_pressure tcd; resolution := resolution tcd;
                  state := state tcd |} in
    let tcd :=
      (* Set state to vector. *)
      if decide (state tcd = IN_MOVE) then set_state tcd IN_SET_VECTOR
      (* Reset state to move. *)
      else if decide (state tcd = IN_SET_THICKNESS) then set_state tcd IN_MOVE
      else tcd in
    modal_continue w tcd OPERATOR_RUNNING_MODAL
  else if decide (val event = KM_RELEASE) then
    let tcd := {| gps := gps tcd; gpc := gpc tcd;
                  imval := imval tcd; imval_prev := imval_prev tcd;
                  imval_start := imval_start tcd; imval_end := imval tcd;
                  is_mouse_down := false; is_cyclic := is_cyclic tcd;
                  prev_pressure := prev_pressure tcd; resolution := resolution tcd;
                  state := state tcd |} in
    (* Reset state to move. *)
    '(w, tcd) ← (if decide (state tcd = IN_SET_VECTOR
                            \/ state tcd = IN_DRAG_ALIGNED_HANDLE
                            \/ state tcd = IN_DRAG_FREE_HANDLE)
                 then
                   let tcd := set_state tcd IN_MOVE in
                   w ← gpencil_push_curve_point w tcd; Some (w, tcd)
                 else Some (w, tcd));
    w ← gpencil_curve_draw_update w tcd;
    modal_continue w tcd OPERATOR_RUNNING_MODAL
  else modal_continue w tcd OPERATOR_RUNNING_MODAL.

Definition modal_mousemove (w : world) (tcd : tGPDcurve_draw) (event : wmEvent)
    : option (world * option tGPDcurve_draw * operator_return) :=
  let drag_threshold := WM_event_drag_threshold event in
  '(w, tcd) ← (if decide (state tcd = IN_SET_VECTOR) then
                 if Qlt_le_dec drag_threshold (len_v2v2_int (imval tcd) (imval_start tcd))
                 then
                   let tcd := set_state tcd IN_DRAG_ALIGNED_HANDLE in
                   w ← gpencil_set_handle_type_last_point w tcd HD_ALIGN; Some (w, tcd)
                 else Some (w, tcd)
               else Some (w, tcd));
  w ← gpencil_curve_draw_update w tcd;
  modal_continue w tcd OPERATOR_RUNNING_MODAL.

Definition gpencil_curve_draw_modal (w : world) (tcd : tGPDcurve_draw) (event : wmEvent)
    : option (world * option tGPDcurve_draw * operator_return) :=
  let tcd := set_imval tcd (mval event) in
  match type event with
  (* Modal keymap event. *)
  | EVT_MODAL_MAP => modal_keymap w tcd event
  (* Event not in keymap. *)
  | LEFTMOUSE => modal_leftmouse w tcd event
  | MOUSEMOVE => modal_mousemove w tcd event
  | EVT_OTHER => modal_continue w tcd OPERATOR_RUNNING_MODAL_PASS_THROUGH
  end.

(** The operator's cancel callback. *)
Definition gpencil_curve_draw_cancel (w : world) (tcd : tGPDcurve_draw)
    : world * option tGPDcurve_draw :=
  gpencil_curve_draw_exit w tcd.

(** ** The tool on the data block *)

Definition set_gpl_frames (l : bGPDlayer) (fs : list bGPDframe) (act : option nat)
    : bGPDlayer :=
  {| gpl_info := gpl_info l; gpl_frames := fs; gpl_actframe := act;
     gpl_location := gpl_location l; gpl_rotation := gpl_rotation l;
     gpl_scale := gpl_scale l;
     layer_mat := layer_mat l; layer_invmat := layer_invmat l |}.

Definition set_layer_mat (l : bGPDlayer) (m inv : mat4) : bGPDlayer :=
  {| gpl_info := gpl_info l; gpl_frames := gpl_frames l; gpl_actframe := gpl_actframe l;
     gpl_location := gpl_location l; gpl_rotation := gpl_rotation l;
     gpl_scale := gpl_scale l;
     layer_mat := m; layer_invmat := inv |}.

Definition set_layer (gpd : bGPdata) (gpl : nat) (l : bGPDlayer) : bGPdata :=
  {| gpd_layers := <[gpl := l]> (gpd_layers gpd); gpd_active := gpd_active gpd;
     gpd_strokes := gpd_strokes gpd; gpd_curves := gpd_curves gpd |}.

Definition set_gpf_strokes (f : bGPDframe) (l : list nat) : bGPDframe :=
  {| framenum := framenum f; gpf_strokes := l |}.

(** The view the tool has of the data block through the frame [gpf] of the
    layer [gpl], and the data block when the tool has worked on that view:
    the stroke list of that frame and the allocations are the view's, all
    else is as it was. *)
Definition frame_world (gpd : bGPdata) (gpl gpf : nat) : option world :=
  l ← gpd_layers gpd !! gpl;
  f ← gpl_frames l !! gpf;
  Some {| strokes := gpd_strokes gpd; curves := gpd_curves gpd;
          frame_strokes := gpf_strokes f |}.

Definition set_frame_world (gpd : bGPdata) (gpl gpf : nat) (w : world) : bGPdata :=
  {| gpd_layers :=
       alter (fun l =>
                set_gpl_frames l
                  (alter (fun f => set_gpf_strokes f (frame_strokes w)) gpf (gpl_frames l))
                  (gpl_actframe l))
             gpl (gpd_layers gpd);
     gpd_active := gpd_active gpd;
     gpd_strokes := strokes w; gpd_curves := curves w |}.

Definition CTX_data_active_gpencil_layer (gpd : bGPdata) : option nat := gpd_active gpd.

(** Modelled from the spec: BKE_gpencil (gpencil.c), which has
    [BKE_gpencil_layer_addnew] and [BKE_gpencil_layer_frame_get], is not in
    the excerpt.  The spec has the invocation ensure that an active
    annotation layer exists, creating one named Curve if not, and that a
    current frame exists, with a policy to either duplicate the prior
    frame's content or start blank.  The new layer is the last layer, with no
    frame, no offset, no rotation and unit scale, and is the active one when
    [setactive] is set. *)
Definition BKE_gpencil_layer_addnew (gpd : bGPdata) (name : string) (setactive : bool)
    : bGPdata * nat :=
  let gpl := {| gpl_info := name; gpl_frames := []; gpl_actframe := None;
                gpl_location := zero_v3; gpl_rotation := zero_v3;
                gpl_scale := (1, 1, 1)%Q;
                layer_mat := loc_eul_size_to_mat4 zero_v3 zero_v3 (1, 1, 1)%Q;
                layer_invmat :=
                  invert_m4_m4 (loc_eul_size_to_mat4 zero_v3 zero_v3 (1, 1, 1)%Q) |} in
  ({| gpd_layers := gpd_layers gpd ++ [gpl];
      gpd_active := if setactive then Some (length (gpd_layers gpd)) else gpd_active gpd;
      gpd_strokes := gpd_strokes gpd; gpd_curves := gpd_curves gpd |},
   length (gpd_layers gpd)).

(** Modelled from the spec: a copy of a stroke for the duplicate of a
    frame's content, newly allocated, with a newly allocated copy of its
    edit curve when it has one. *)
Definition frame_duplicate_stroke (gpd : bGPdata) (gps : nat) : option (bGPdata * nat) :=
  s ← gpd_strokes gpd !! gps;
  let new_stroke := fresh (dom (gpd_strokes gpd)) in
  match editcurve s with
  | None =>
      Some ({| gpd_layers := gpd_layers gpd; gpd_active := gpd_active gpd;
               gpd_strokes := <[new_stroke := s]> (gpd_strokes gpd);
               gpd_curves := gpd_curves gpd |}, new_stroke)
  | Some c =>
      cv ← gpd_curves gpd !! c;
      let new_curve := fresh (dom (gpd_curves gpd)) in
      Some ({| gpd_layers := gpd_layers gpd; gpd_active := gpd_active gpd;
               gpd_strokes :=
                 <[new_stroke := {| points := points s; editcurve := Some new_curve;
                                    gps_cyclic := gps_cyclic s; thickness := thickness s;
                                    hardeness := hardeness s;
                                    aspect_ratio := aspect_ratio s;
                                    mat_nr := mat_nr s |}]> (gpd_strokes gpd);
               gpd_curves := <[new_curve := cv]> (gpd_curves gpd) |}, new_stroke)
  end.

Fixpoint frame_duplicate_strokes (gpd : bGPdata) (l : list nat)
    : option (bGPdata * list nat) :=
  match l with
  | [] => Some (gpd, [])
  | gps :: l =>
      '(gpd, new_stroke) ← frame_duplicate_stroke gpd gps;
      '(gpd, new_strokes) ← frame_duplicate_strokes gpd l;
      Some (gpd, new_stroke :: new_strokes)
  end.

(** Modelled from the spec: the frame of the layer at [cframe], which is
    made the active frame.  When the layer has none, one is added after the
    frames with a smaller number: blank, or with copies of the strokes of
    the prior frame (the last of those frames, when there is one). *)
Definition BKE_gpencil_layer_frame_get (gpd : bGPdata) (gpl : nat) (cframe : Z)
    (addnew : eGP_GetFrame_Mode) : option (bGPdata * nat) :=
  l ← gpd_layers gpd !! gpl;
  match list_find (fun f => framenum f = cframe) (gpl_frames l) with
  | Some (i, _) => Some (set_layer gpd gpl (set_gpl_frames l (gpl_frames l) (Some i)), i)
  | None =>
      let before := filter (fun f => (framenum f < cframe)%Z) (gpl_frames l) in
      let i := length before in
      '(gpd, new_strokes) ← match addnew, last before with
                            | GP_GETFRAME_ADD_COPY, Some prior =>
                                frame_duplicate_strokes gpd (gpf_strokes prior)
                            | _, _ => Some (gpd, [])
                            end;
      let new_frame := {| framenum := cframe; gpf_strokes := new_strokes |} in
      Some (set_layer gpd gpl
              (set_gpl_frames l
                 (take i (gpl_frames l) ++ new_frame :: drop i (gpl_frames l))
                 (Some i)),
            i)
  end.

(** [gpencil_curve_draw_init], lines 436-463: the layer and the frame the
    tool draws in.  [cfra] is the current frame of the scene;
    [retain_last] is [ts->gpencil_flags & GP_TOOL_FLAG_RETAIN_LAST].  The
    dependency-graph tag set when the layer had no active frame is, like
    the other tags and notifiers, not part of the data block. *)
Definition curve_draw_init_frame (gpd : bGPdata) (cfra : Z) (retain_last : bool)
    : option (bGPdata * nat * nat) :=
  (* Get active layer or create a new one. *)
  let '(gpd, gpl) := match CTX_data_active_gpencil_layer gpd with
                     | Some gpl => (gpd, gpl)
                     | None => BKE_gpencil_layer_addnew gpd "Curve" true
                     end in
  (* Recalculate layer transform matrix to avoid problems if props are animated. *)
  l ← gpd_layers gpd !! gpl;
  let m := loc_eul_size_to_mat4 (gpl_location l) (gpl_rotation l) (gpl_scale l) in
  let gpd := set_layer gpd gpl (set_layer_mat l m (invert_m4_m4 m)) in
  (* Get current frame or create new one. *)
  let add_frame_mode :=
    if retain_last then GP_GETFRAME_ADD_COPY else GP_GETFRAME_ADD_NEW in
  let cframe := cfra in
  '(gpd, gpf) ← BKE_gpencil_layer_frame_get gpd gpl cframe add_frame_mode;
  Some (gpd, gpl, gpf).

(** [gpencil_curve_draw_init]: the layer and the frame (lines 436-463) on
    the data block, then the stroke, the edit curve and the first update
    (lines 465-503) on the view of the frame obtained.  The brush of lines
    426-434 is read through [ToolEnv]. *)
Definition gpencil_curve_draw_init (gpd : bGPdata) (cfra : Z) (retain_last : bool)
    (event : wmEvent) : option (bGPdata * customdata) :=
  '(gpd, gpl, gpf) ← curve_draw_init_frame gpd cfra retain_last;
  w ← frame_world gpd gpl gpf;
  '(w, tcd) ← curve_draw_init_stroke w event;
  Some (set_frame_world gpd gpl gpf w,
        {| tcd_gpl := gpl; tcd_gpf := gpf; tcd_cframe := cfra; tcd_tool := tcd |}).

Definition gpencil_curve_draw_invoke (gpd : bGPdata) (cfra : Z) (retain_last : bool)
    (event : wmEvent) : option (bGPdata * option customdata * operator_return) :=
  '(gpd, cd) ← gpencil_curve_draw_init gpd cfra retain_last event;
  Some (gpd, Some cd, OPERATOR_RUNNING_MODAL).

(** The modal callback on the data block: [gpencil_curve_draw_modal] on the
    view of the tool's frame; [gpl], [gpf] and [cframe] are not assigned. *)
Definition curve_draw_modal_gpd (gpd : bGPdata) (cd : customdata) (event : wmEvent)
    : option (bGPdata * option customdata * operator_return) :=
  w ← frame_world gpd (tcd_gpl cd) (tcd_gpf cd);
  '(w, tcd, r) ← gpencil_curve_draw_modal w (tcd_tool cd) event;
  Some (set_frame_world gpd (tcd_gpl cd) (tcd_gpf cd) w,
        match tcd with
        | Some tcd => Some {| tcd_gpl := tcd_gpl cd; tcd_gpf := tcd_gpf cd;
                              tcd_cframe := tcd_cframe cd; tcd_tool := tcd |}
        | None => None   (* [op->customdata = NULL] *)
        end,
        r).

(** ** The tool's stroke in the frame

    [shape] is what the claims observe of an edit curve: per control point
    its two handle types and the control point position. *)

Definition shape_pt (cpt : bGPDcurve_point)
    : eBezTriple_Handle * eBezTriple_Handle * V3 :=
  (h1 (bezt cpt), h2 (bezt cpt), vec1 (bezt cpt)).

Definition shape (cv : bGPDcurve) : list (eBezTriple_Handle * eBezTriple_Handle * V3) :=
  shape_pt <$> curve_points cv.

(** While the tool runs on a world that was [w0] at invocation: the world is
    [w0] plus the tool's stroke [g], linked last in the frame, and its edit
    curve [c] of shape [sh]. *)
Definition tool_at (w0 w : world) (g c : nat)
    (sh : list (eBezTriple_Handle * eBezTriple_Handle * V3)) : Prop :=
  exists s cv,
    strokes w = <[g := s]> (strokes w0) /\ (strokes w0 !! g) = None /\
    editcurve s = Some c /\
    curves w = <[c := cv]> (curves w0) /\ (curves w0 !! c) = None /\
    frame_strokes w = frame_strokes w0 ++ [g] /\ (g ∉ frame_strokes w0) /\
    shape cv = sh.

Lemma tool_at_lookup w0 w g c sh :
  tool_at w0 w g c sh ->
  exists s cv, strokes w !! g = Some s /\ editcurve s = Some c /\
               curves w !! c = Some cv /\ shape cv = sh.
Proof.
  intros (s & cv & Hs & _ & He & Hc & _ & _ & _ & Hsh).
  exists s, cv. rewrite Hs, Hc, !lookup_insert_eq. auto.
Qed.

Lemma tool_at_set_curve w0 w g c sh cv' :
  tool_at w0 w g c sh -> tool_at w0 (set_curve w c cv') g c (shape cv').
Proof.
  intros (s & cv & Hs & Hs0 & He & Hc & Hc0 & Hf & Hg & Hsh).
  exists s, cv'. simpl. rewrite Hc, insert_insert_eq. auto 10.
Qed.

Lemma tool_at_set_stroke w0 w g c sh s' :
  tool_at w0 w g c sh -> editcurve s' = Some c -> tool_at w0 (set_stroke w g s') g c sh.
Proof.
  intros (s & cv & Hs & Hs0 & He & Hc & Hc0 & Hf & Hg & Hsh) He'.
  exists s', cv. simpl. rewrite Hs, insert_insert_eq. auto 10.
Qed.

Lemma shape_imap (g : nat -> bGPDcurve_point -> bGPDcurve_point) pts :
  (forall i cpt, shape_pt (g i cpt) = shape_pt cpt) ->
  shape_pt <$> imap g pts = shape_pt <$> pts.
Proof.
  revert g. induction pts as [|cpt pts IH]; intros g Hg; simpl; [reflexivity|].
  rewrite Hg. f_equal. apply IH. intros i x. apply Hg.
Qed.

Lemma shape_snoc_inv cv sh0 x :
  shape cv = sh0 ++ [x] ->
  exists pts0 cpt, curve_points cv = pts0 ++ [cpt] /\
                   shape_pt <$> pts0 = sh0 /\ shape_pt cpt = x.
Proof.
  unfold shape. intros Hs.
  apply fmap_app_inv in Hs as (pts0 & l2 & -> & Hl2 & ->).
  destruct l2 as [|cpt [|? ?]]; simpl in Hl2; try discriminate.
  injection Hl2 as ->. exists pts0, cpt. auto.
Qed.

Lemma update_last_snoc cv pts0 cpt f :
  curve_points cv = pts0 ++ [cpt] ->
  update_last cv f = Some {| curve_points := pts0 ++ [f cpt]; gpc_flag := gpc_flag cv |}.
Proof.
  intros Hp. unfold update_last, last_index. rewrite Hp, length_app. simpl.
  replace (length pts0 + 1) with (S (length pts0)) by lia. simpl.
  rewrite lookup_app_r by lia. rewrite Nat.sub_diag. simpl.
  do 2 f_equal. rewrite insert_app_r_alt by lia. by rewrite Nat.sub_diag.
Qed.

Lemma update_last_shape cv sh0 x f :
  shape cv = sh0 ++ [x] ->
  exists cv' cpt, update_last cv f = Some cv' /\ shape_pt cpt = x /\
                  shape cv' = sh0 ++ [shape_pt (f cpt)].
Proof.
  intros Hs. destruct (shape_snoc_inv cv sh0 x Hs) as (pts0 & cpt & Hp & Hs0 & Hx).
  eexists _, cpt. split; [apply update_last_snoc; eassumption|].
  split; [assumption|]. unfold shape. simpl. rewrite fmap_app. simpl. by rewrite Hs0.
Qed.

(** *** The library calls keep the shape *)

Lemma recalculate_handles_at w0 w g c sh :
  tool_at w0 w g c sh ->
  exists w', BKE_gpencil_editcurve_recalculate_handles w g = Some w' /\
             tool_at w0 w' g c sh.
Proof.
  intros Hat. destruct (tool_at_lookup _ _ _ _ _ Hat) as (s & cv & Hs & He & Hc & Hsh).
  unfold BKE_gpencil_editcurve_recalculate_handles. rewrite Hs. simpl. rewrite He, Hc. simpl.
  eexists. split; [reflexivity|].
  rewrite <- Hsh.
  match goal with
  | |- tool_at _ (set_curve _ _ ?cv') _ _ _ =>
      replace (shape cv) with (shape cv'); [by eapply tool_at_set_curve|]
  end.
  unfold shape. simpl. apply shape_imap. intros i cpt.
  destruct (_ !! i) as [[a b]|]; reflexivity.
Qed.

Lemma update_geometry_at w0 w g c sh res :
  tool_at w0 w g c sh ->
  exists w', BKE_gpencil_stroke_update_geometry_from_editcurve w g res = Some w' /\
             tool_at w0 w' g c sh.
Proof.
  intros Hat. destruct (tool_at_lookup _ _ _ _ _ Hat) as (s & cv & Hs & He & Hc & Hsh).
  unfold BKE_gpencil_stroke_update_geometry_from_editcurve.
  rewrite Hs. simpl. rewrite He, Hc. simpl.
  destruct (curve_samples res s cv) as [samples idx].
  eexists. split; [reflexivity|].
  apply tool_at_set_stroke; [|reflexivity].
  rewrite <- Hsh.
  match goal with
  | |- tool_at _ (set_curve _ _ ?cv') _ _ _ =>
      replace (shape cv) with (shape cv'); [by eapply tool_at_set_curve|]
  end.
  unfold shape. simpl. apply shape_imap. intros i cpt.
  destruct (_ !! i); reflexivity.
Qed.

Lemma set_alpha_at w0 w tcd sh alpha :
  tool_at w0 w (gps tcd) (gpc tcd) sh ->
  exists w', gpencil_set_alpha_last_segment w tcd alpha = Some w' /\
             tool_at w0 w' (gps tcd) (gpc tcd) sh.
Proof.
  intros Hat. destruct (tool_at_lookup _ _ _ _ _ Hat) as (s & cv & Hs & He & Hc & Hsh).
  unfold gpencil_set_alpha_last_segment. rewrite Hs. simpl. rewrite Hc. simpl.
  destruct (length (curve_points cv)) as [|[|k]] eqn:Hlen;
    [by exists w | by exists w |].
  destruct (lookup_lt_is_Some_2 (curve_points cv) k ltac:(lia)) as [old_last Hol].
  rewrite Hol. simpl. eexists. split; [reflexivity|].
  by apply tool_at_set_stroke.
Qed.

Lemma set_handle_type_at w0 w tcd sh0 a b v t :
  tool_at w0 w (gps tcd) (gpc tcd) (sh0 ++ [(a, b, v)]) ->
  exists w', gpencil_set_handle_type_last_point w tcd t = Some w' /\
             tool_at w0 w' (gps tcd) (gpc tcd) (sh0 ++ [(t, t, v)]).
Proof.
  intros Hat. destruct (tool_at_lookup _ _ _ _ _ Hat) as (s & cv & Hs & He & Hc & Hsh).
  unfold gpencil_set_handle_type_last_point. rewrite Hc. simpl.
  destruct (update_last_shape cv sh0 _ (fun cpt => set_handle_types cpt t) Hsh)
    as (cv' & cpt & Hu & Hx & Hsh').
  rewrite Hu. simpl. eexists. split; [reflexivity|].
  replace (sh0 ++ [(t, t, v)]) with (shape cv'); [by eapply tool_at_set_curve|].
  rewrite Hsh'. unfold shape_pt in Hx |- *. simpl. by injection Hx as _ _ ->.
Qed.


(** *** The tool's own steps *)

Lemma filter_ne_fresh (l : list nat) (g : nat) :
  g ∉ l -> filter (fun x => x ≠ g) (l ++ [g]) = l.
Proof.
  intros Hg. rewrite filter_app.
  rewrite (filter_cons_False _ g []) by (intros Hne; by apply Hne).
  rewrite filter_nil, app_nil_r.
  induction l as [|x l IH]; [reflexivity|].
  rewrite filter_cons_True by (intros ->; apply Hg; by left).
  f_equal. apply IH. intros Hin. apply Hg. by right.
Qed.

Lemma curve_draw_update_at w0 w tcd sh0 a b v :
  tool_at w0 w (gps tcd) (gpc tcd) (sh0 ++ [(a, b, v)]) ->
  exists w',
    gpencil_curve_draw_update w tcd = Some w' /\
    tool_at w0 w' (gps tcd) (gpc tcd)
      (sh0 ++ [(a, b, if decide (state tcd = IN_MOVE)
                      then gpencil_project_mval_to_v3 (imval tcd) else v)]).
Proof.
  intros Hat. destruct (tool_at_lookup _ _ _ _ _ Hat) as (s & cv & Hs & He & Hc & Hsh).
  unfold gpencil_curve_draw_update. rewrite Hc. simpl.
  destruct (state tcd) eqn:Hst; simpl.
  - (* IN_MOVE *)
    match goal with
    | |- context [update_last cv ?f] =>
        destruct (update_last_shape cv sh0 _ f Hsh) as (cv' & cpt & Hu & Hx & Hsh')
    end.
    rewrite Hu. simpl.
    pose proof (tool_at_set_curve _ _ _ _ _ cv' Hat) as Hat1. rewrite Hsh' in Hat1.
    destruct (recalculate_handles_at _ _ _ _ _ Hat1) as (w1 & Hr & Hat2). rewrite Hr. simpl.
    destruct (update_geometry_at _ _ _ _ _ (resolution tcd) Hat2) as (w2 & Hg & Hat3).
    rewrite Hg. simpl.
    destruct (set_alpha_at _ _ _ _ (1 # 10)%Q Hat3) as (w3 & Ha & Hat4).
    exists w3. split; [exact Ha|].
    unfold shape_pt in Hx, Hat4. simpl in Hat4. injection Hx as E1 E2 E3.
    rewrite E1, E2 in Hat4. exact Hat4.
  - (* IN_SET_VECTOR *)
    exists w. split; [reflexivity | exact Hat].
  - (* IN_DRAG_ALIGNED_HANDLE *)
    match goal with
    | |- context [update_last cv ?f] =>
        destruct (update_last_shape cv sh0 _ f Hsh) as (cv' & cpt & Hu & Hx & Hsh')
    end.
    rewrite Hu. simpl.
    pose proof (tool_at_set_curve _ _ _ _ _ cv' Hat) as Hat1. rewrite Hsh' in Hat1.
    destruct (update_geometry_at _ _ _ _ _ (resolution tcd) Hat1) as (w2 & Hg & Hat3).
    exists w2. split; [exact Hg|].
    unfold shape_pt in Hx, Hat3. simpl in Hat3. injection Hx as E1 E2 E3.
    rewrite E1, E2, E3 in Hat3. exact Hat3.
  - (* IN_DRAG_FREE_HANDLE *)
    match goal with
    | |- context [update_last cv ?f] =>
        destruct (update_last_shape cv sh0 _ f Hsh) as (cv' & cpt & Hu & Hx & Hsh')
    end.
    rewrite Hu. simpl.
    pose proof (tool_at_set_curve _ _ _ _ _ cv' Hat) as Hat1. rewrite Hsh' in Hat1.
    destruct (update_geometry_at _ _ _ _ _ (resolution tcd) Hat1) as (w2 & Hg & Hat3).
    exists w2. split; [exact Hg|].
    unfold shape_pt in Hx, Hat3. simpl in Hat3. injection Hx as E1 E2 E3.
    rewrite E1, E2, E3 in Hat3. exact Hat3.
  - (* IN_SET_THICKNESS *)
    match goal with
    | |- context [update_last cv ?f] =>
        destruct (update_last_shape cv sh0 _ f Hsh) as (cv' & cpt & Hu & Hx & Hsh')
    end.
    rewrite Hu. simpl.
    pose proof (tool_at_set_curve _ _ _ _ _ cv' Hat) as Hat1. rewrite Hsh' in Hat1.
    destruct (update_geometry_at _ _ _ _ _ (resolution tcd) Hat1) as (w2 & Hg & Hat3).
    exists w2. split; [exact Hg|].
    unfold shape_pt in Hx, Hat3. simpl in Hat3. injection Hx as E1 E2 E3.
    rewrite E1, E2, E3 in Hat3. exact Hat3.
Qed.

Lemma push_curve_point_at w0 w tcd sh0 a b v :
  tool_at w0 w (gps tcd) (gpc tcd) (sh0 ++ [(a, b, v)]) ->
  exists w',
    gpencil_push_curve_point w tcd = Some w' /\
    tool_at w0 w' (gps tcd) (gpc tcd) ((sh0 ++ [(a, b, v)]) ++ [(HD_VECT, HD_VECT, v)]).
Proof.
  intros Hat. destruct (tool_at_lookup _ _ _ _ _ Hat) as (s & cv & Hs & He & Hc & Hsh).
  destruct (shape_snoc_inv cv sh0 _ Hsh) as (pts0 & cpt & Hp & Hs0 & Hx).
  unfold gpencil_push_curve_point. rewrite Hc. simpl. rewrite Hp.
  rewrite length_app. simpl. replace (length pts0 + 1) with (S (length pts0)) by lia.
  rewrite <- app_assoc. rewrite lookup_app_r by lia. rewrite Nat.sub_diag. simpl.
  match goal with
  | |- context [set_curve w (gpc tcd) ?cv'] =>
      pose proof (tool_at_set_curve _ _ _ _ _ cv' Hat) as Hat1
  end.
  match type of Hat1 with
  | tool_at _ ?w1 _ _ _ =>
      destruct (update_geometry_at _ w1 _ _ _ curve_edit_resolution Hat1) as (w2 & Hg & Hat2)
  end.
  exists w2. split; [exact Hg|].
  revert Hat2. unfold shape. simpl.
  replace (<[S (length pts0) := set_handle_types cpt HD_VECT]>
             (pts0 ++ [cpt; zero_curve_point]))
    with ((pts0 ++ [cpt]) ++ [set_handle_types cpt HD_VECT]).
  2:{ rewrite <- app_assoc. simpl. rewrite insert_app_r_alt by lia.
      replace (S (length pts0) - length pts0) with 1 by lia. reflexivity. }
  rewrite !fmap_app, Hs0. simpl. unfold shape_pt in Hx |- *. simpl.
  injection Hx as E1 E2 E3. by rewrite E1, E2, E3.
Qed.

Lemma confirm_at w0 w tcd sh0 x :
  tool_at w0 w (gps tcd) (gpc tcd) (sh0 ++ [x]) ->
  exists w', gpencil_curve_draw_confirm w tcd = Some w' /\
             tool_at w0 w' (gps tcd) (gpc tcd) (sh0 ++ [x]).
Proof.
  intros Hat. destruct (tool_at_lookup _ _ _ _ _ Hat) as (s & cv & Hs & He & Hc & Hsh).
  unfold gpencil_curve_draw_confirm. rewrite Hc. simpl.
  match goal with
  | |- context [update_last cv ?f] =>
      destruct (update_last_shape cv sh0 _ f Hsh) as (cv' & cpt & Hu & Hx & Hsh')
  end.
  rewrite Hu. simpl.
  pose proof (tool_at_set_curve _ _ _ _ _ cv' Hat) as Hat1. rewrite Hsh' in Hat1.
  destruct (recalculate_handles_at _ _ _ _ _ Hat1) as (w1 & Hr & Hat2).
  exists w1. split; [exact Hr|]. unfold shape_pt in Hx, Hat2. simpl in Hat2.
  by rewrite <- Hx.
Qed.


(** Every stroke linked in the frame is allocated. *)
Definition world_wf (w0 : world) : Prop :=
  forall x, x ∈ frame_strokes w0 -> is_Some (strokes w0 !! x).

Lemma update_geometry_raw w g c res s cv :
  strokes w !! g = Some s -> editcurve s = Some c -> curves w !! c = Some cv ->
  exists s' cv',
    BKE_gpencil_stroke_update_geometry_from_editcurve w g res =
      Some {| strokes := <[g := s']> (strokes w);
              curves := <[c := cv']> (curves w);
              frame_strokes := frame_strokes w |} /\
    editcurve s' = Some c /\ shape cv' = shape cv.
Proof.
  intros Hs He Hc. unfold BKE_gpencil_stroke_update_geometry_from_editcurve.
  rewrite Hs. simpl. rewrite He, Hc. simpl.
  destruct (curve_samples res s cv) as [samples idx].
  eexists _, _. split; [reflexivity|]. split; [reflexivity|].
  unfold shape. simpl. apply shape_imap. intros i cpt.
  destruct (_ !! i); reflexivity.
Qed.

Lemma pop_curve_point_at w0 w tcd sh0 x :
  world_wf w0 ->
  tool_at w0 w (gps tcd) (gpc tcd) (sh0 ++ [x]) ->
  exists w' g' c',
    gpencil_pop_curve_point w tcd = Some (w', set_gps_gpc tcd g' c') /\
    tool_at w0 w' g' c' sh0 /\
    g' ≠ gps tcd /\ strokes w !! g' = None /\ strokes w' !! gps tcd = None /\
    curves w' !! gpc tcd = None.
Proof.
  intros Hwf Hat.
  destruct (tool_at_lookup _ _ _ _ _ Hat) as (s & cv & Hs & He & Hc & Hsh).
  destruct (shape_snoc_inv cv sh0 _ Hsh) as (pts0 & cpt & Hp & Hs0 & Hx).
  destruct Hat as (s_ & cv_ & HS & HS0 & He_ & HC & HC0 & HF & HG & Hsh_).
  assert (s_ = s) by (rewrite HS, lookup_insert_eq in Hs; congruence). subst s_.
  assert (cv_ = cv) by (rewrite HC, lookup_insert_eq in Hc; congruence). subst cv_.
  set (g := gps tcd) in *. set (c := gpc tcd) in *.
  set (g' := fresh (dom (strokes w))). set (c' := fresh (dom (curves w))).
  assert (Hg' : strokes w !! g' = None) by (apply not_elem_of_dom, is_fresh).
  assert (Hc' : curves w !! c' = None) by (apply not_elem_of_dom, is_fresh).
  assert (Hgg : g' ≠ g) by (intros E; rewrite E in Hg'; congruence).
  assert (Hcc : c' ≠ c) by (intros E; rewrite E in Hc'; congruence).
  assert (HS0' : strokes w0 !! g' = None).
  { rewrite HS, lookup_insert_ne in Hg' by done. exact Hg'. }
  assert (HC0' : curves w0 !! c' = None).
  { rewrite HC, lookup_insert_ne in Hc' by done. exact Hc'. }
  unfold gpencil_pop_curve_point. fold g c. rewrite Hs. simpl. rewrite Hc. simpl.
  rewrite Hp, length_app. simpl.
  replace (length pts0 + 1) with (S (length pts0)) by lia.
  rewrite take_app_length. fold g' c'.
  match goal with
  | |- context [BKE_gpencil_stroke_update_geometry_from_editcurve ?w2 g' ?res] =>
      destruct (update_geometry_raw w2 g' c' res _ _
                  (lookup_insert_eq _ _ _) eq_refl (lookup_insert_eq _ _ _))
        as (s2 & cv2 & Hg & He2 & Hsh2)
  end.
  rewrite Hg. simpl. unfold BKE_gpencil_free_stroke. simpl.
  rewrite insert_insert_eq, lookup_insert_ne, Hs by done. simpl. rewrite He.
  exists {| strokes := <[g' := s2]> (strokes w0);
            curves := <[c' := cv2]> (curves w0);
            frame_strokes := frame_strokes w0 ++ [g'] |}, g', c'.
  split.
  - do 2 f_equal. unfold BLI_addtail. simpl. f_equal.
    + rewrite delete_insert_ne by done. rewrite HS. by rewrite delete_insert_id.
    + rewrite insert_insert_eq. rewrite delete_insert_ne by done.
      rewrite HC. by rewrite delete_insert_id.
    + rewrite HF. by rewrite filter_ne_fresh.
  - split.
    + exists s2, cv2. simpl. split; [reflexivity|]. split; [assumption|].
      split; [assumption|]. split; [reflexivity|]. split; [assumption|].
      split; [reflexivity|]. split.
      * intros Hin. destruct (Hwf _ Hin) as [y Hy]. congruence.
      * rewrite Hsh2. unfold shape. simpl. exact Hs0.
    + split; [assumption|]. split; [assumption|]. simpl.
      rewrite !lookup_insert_ne by done. split; [exact HS0 | exact HC0].
Qed.

Lemma curve_draw_init_at w0 event :
  world_wf w0 ->
  exists w tcd,
    curve_draw_init_stroke w0 event = Some (w, tcd) /\
    tool_at w0 w (gps tcd) (gpc tcd)
      [(HD_FREE, HD_FREE, gpencil_project_mval_to_v3 (mval event))] /\
    state tcd = IN_SET_VECTOR /\ imval tcd = mval event /\
    imval_start tcd = (0, 0)%Z.
Proof.
  intros Hwf. unfold curve_draw_init_stroke.
  set (g := fresh (dom (strokes w0))). set (c := fresh (dom (curves w0))).
  assert (Hg : strokes w0 !! g = None) by (apply not_elem_of_dom, is_fresh).
  assert (Hc : curves w0 !! c = None) by (apply not_elem_of_dom, is_fresh).
  unfold gpencil_curve_draw_update. simpl. rewrite lookup_insert_eq. simpl.
  eexists _, _. split; [reflexivity|]. simpl.
  split; [|auto].
  eexists _, _. simpl. split; [apply insert_insert_eq|]. split; [assumption|].
  split; [reflexivity|]. split; [reflexivity|]. split; [assumption|].
  split; [reflexivity|]. split; [|reflexivity].
  intros Hin. destruct (Hwf _ Hin) as [y Hy]. congruence.
Qed.


(** *** The modal callback keeps the tool's stroke in place *)

(** One library or helper call in the hypothesis [Hm], run on a world known
    by [Hat]. *)
Ltac tool_call Hm Hat :=
  let w' := fresh "w" in
  let E := fresh "E" in
  let A := fresh "Hat" in
  match type of Hm with
  | context [gpencil_curve_draw_update ?w ?t] =>
      destruct (curve_draw_update_at _ w t _ _ _ _ Hat) as (w' & E & A)
  | context [gpencil_set_handle_type_last_point ?w ?t ?ty] =>
      destruct (set_handle_type_at _ w t _ _ _ _ ty Hat) as (w' & E & A)
  | context [gpencil_push_curve_point ?w ?t] =>
      destruct (push_curve_point_at _ w t _ _ _ _ Hat) as (w' & E & A)
  | context [gpencil_curve_draw_confirm ?w ?t] =>
      destruct (confirm_at _ w t _ _ Hat) as (w' & E & A)
  end;
  rewrite E in Hm; simpl in Hm; clear E.

Lemma update_move_empty w0 w tcd :
  tool_at w0 w (gps tcd) (gpc tcd) [] -> state tcd = IN_MOVE ->
  gpencil_curve_draw_update w tcd = None.
Proof.
  intros Hat Hst. destruct (tool_at_lookup _ _ _ _ _ Hat) as (s & cv & Hs & He & Hc & Hsh).
  unfold gpencil_curve_draw_update. rewrite Hc, Hst. simpl.
  unfold update_last, last_index. unfold shape in Hsh.
  apply fmap_nil_inv in Hsh. by rewrite Hsh.
Qed.

Lemma confirm_empty w0 w tcd :
  tool_at w0 w (gps tcd) (gpc tcd) [] -> gpencil_curve_draw_confirm w tcd = None.
Proof.
  intros Hat. destruct (tool_at_lookup _ _ _ _ _ Hat) as (s & cv & Hs & He & Hc & Hsh).
  unfold gpencil_curve_draw_confirm. rewrite Hc. simpl.
  unfold update_last, last_index. unfold shape in Hsh.
  apply fmap_nil_inv in Hsh. by rewrite Hsh.
Qed.

Definition shape_t : Type := list (eBezTriple_Handle * eBezTriple_Handle * V3).

Lemma modal_keymap_at w0 w tcd ev w' tcd' r (sh0 : shape_t) a b v :
  world_wf w0 ->
  tool_at w0 w (gps tcd) (gpc tcd) (sh0 ++ [(a, b, v)]) ->
  modal_keymap w tcd ev = Some (w', Some tcd', r) ->
  exists (sh0' : shape_t) x', tool_at w0 w' (gps tcd') (gpc tcd') (sh0' ++ [x']).
Proof.
  intros Hwf Hat Hm. unfold modal_keymap, modal_continue in Hm.
  repeat case_decide; simpl in Hm.
  - (* confirm ends the tool *)
    destruct (gpencil_pop_curve_point w tcd) as [[? ?]|]; simpl in Hm;
      [destruct (gpencil_curve_draw_confirm _ _); simpl in Hm|]; discriminate.
  - destruct (gpencil_curve_draw_confirm _ _); simpl in Hm; discriminate.
  - (* cancel ends the tool *)
    destruct (BKE_gpencil_free_stroke _ _); simpl in Hm; discriminate.
  - (* free handle on *)
    tool_call Hm Hat. tool_call Hm Hat0. injection Hm as <- <- <-. eauto.
  - injection Hm as <- <- <-. eauto.
  - (* free handle off *)
    tool_call Hm Hat. tool_call Hm Hat0. injection Hm as <- <- <-. eauto.
  - injection Hm as <- <- <-. eauto.
  - (* cyclic toggle *)
    destruct (tool_at_lookup _ _ _ _ _ Hat) as (s & cv & Hs & He & Hc & Hsh).
    rewrite Hs in Hm. simpl in Hm.
    match type of Hm with
    | context [set_stroke w (gps tcd) ?s'] =>
        pose proof (tool_at_set_stroke _ _ _ _ _ s' Hat He) as Hat1
    end.
    tool_call Hm Hat1. injection Hm as <- <- <-. eauto.
  - (* delete last, in move *)
    destruct (pop_curve_point_at _ _ _ _ _ Hwf Hat) as (w1 & g' & c' & Hp & Hat1 & _).
    rewrite Hp in Hm. simpl in Hm.
    destruct sh0 as [|[[a0 b0] v0] sh1 _] using rev_ind.
    + rewrite (update_move_empty w0 w1 (set_gps_gpc tcd g' c')) in Hm by assumption.
      discriminate.
    + tool_call Hm Hat1. injection Hm as <- <- <-. eauto.
  - (* delete last, in a drag state *)
    tool_call Hm Hat. injection Hm as <- <- <-. eauto.
  - tool_call Hm Hat. injection Hm as <- <- <-. eauto.
  - (* set thickness *)
    injection Hm as <- <- <-. eauto.
  - destruct (tool_at_lookup _ _ _ _ _ Hat) as (s & cv & Hs & He & Hc & Hsh).
    simpl in Hm. rewrite Hc in Hm. simpl in Hm.
    destruct (last_index cv) as [i|]; simpl in Hm; [|discriminate].
    destruct (curve_points cv !! i) as [cpt|]; simpl in Hm; [|discriminate].
    tool_call Hm Hat. injection Hm as <- <- <-. eauto.
  - injection Hm as <- <- <-. eauto.
Qed.


Lemma modal_leftmouse_at w0 w tcd ev w' tcd' r (sh0 : shape_t) a b v :
  tool_at w0 w (gps tcd) (gpc tcd) (sh0 ++ [(a, b, v)]) ->
  modal_leftmouse w tcd ev = Some (w', Some tcd', r) ->
  exists (sh0' : shape_t) x', tool_at w0 w' (gps tcd') (gpc tcd') (sh0' ++ [x']).
Proof.
  intros Hat Hm. unfold modal_leftmouse, modal_continue in Hm.
  repeat case_decide; simpl in Hm.
  - injection Hm as <- <- <-. eauto.
  - injection Hm as <- <- <-. eauto.
  - injection Hm as <- <- <-. eauto.
  - tool_call Hm Hat. tool_call Hm Hat0. injection Hm as <- <- <-. eauto.
  - tool_call Hm Hat. injection Hm as <- <- <-. eauto.
  - injection Hm as <- <- <-. eauto.
Qed.

Lemma modal_mousemove_at w0 w tcd ev w' tcd' r (sh0 : shape_t) a b v :
  tool_at w0 w (gps tcd) (gpc tcd) (sh0 ++ [(a, b, v)]) ->
  modal_mousemove w tcd ev = Some (w', Some tcd', r) ->
  exists (sh0' : shape_t) x', tool_at w0 w' (gps tcd') (gpc tcd') (sh0' ++ [x']).
Proof.
  intros Hat Hm. unfold modal_mousemove, modal_continue in Hm.
  case_decide; [destruct (Qlt_le_dec _ _)|]; simpl in Hm.
  - tool_call Hm Hat. tool_call Hm Hat0. injection Hm as <- <- <-. eauto.
  - tool_call Hm Hat. injection Hm as <- <- <-. eauto.
  - tool_call Hm Hat. injection Hm as <- <- <-. eauto.
Qed.

Lemma modal_at w0 w tcd ev w' tcd' r (sh0 : shape_t) x :
  world_wf w0 ->
  tool_at w0 w (gps tcd) (gpc tcd) (sh0 ++ [x]) ->
  gpencil_curve_draw_modal w tcd ev = Some (w', Some tcd', r) ->
  exists (sh0' : shape_t) x', tool_at w0 w' (gps tcd') (gpc tcd') (sh0' ++ [x']).
Proof.
  intros Hwf Hat Hm. destruct x as [[a b] v].
  unfold gpencil_curve_draw_modal in Hm. destruct (type ev).
  - eapply modal_keymap_at; [exact Hwf | | exact Hm]. exact Hat.
  - eapply modal_leftmouse_at; [| exact Hm]. exact Hat.
  - eapply modal_mousemove_at; [| exact Hm]. exact Hat.
  - unfold modal_continue in Hm. injection Hm as <- <- <-. eauto.
Qed.

(** ** States of the running tool *)

(** The tool was invoked with [ev0], [w0] being the view of the frame the
    invocation obtained, and has handled any number of events without
    ending.  The tool running on a data block is in such a state on the
    view of its frame ([reachable_gpd_view] below). *)
Inductive reachable (w0 : world) (ev0 : wmEvent) : world -> tGPDcurve_draw -> Prop :=
| reach_invoke w tcd r :
    curve_draw_invoke_stroke w0 ev0 = Some (w, Some tcd, r) ->
    reachable w0 ev0 w tcd
| reach_modal w tcd ev w' tcd' r :
    reachable w0 ev0 w tcd ->
    gpencil_curve_draw_modal w tcd ev = Some (w', Some tcd', r) ->
    reachable w0 ev0 w' tcd'.

Lemma reachable_at w0 ev0 w tcd :
  world_wf w0 -> reachable w0 ev0 w tcd ->
  exists (sh0 : shape_t) x, tool_at w0 w (gps tcd) (gpc tcd) (sh0 ++ [x]).
Proof.
  intros Hwf Hr. induction Hr as [w tcd r Hi | w tcd ev w' tcd' r _ IH Hm].
  - destruct (curve_draw_init_at w0 ev0 Hwf) as (w1 & tcd1 & Hinit & Hat & _).
    unfold curve_draw_invoke_stroke in Hi. rewrite Hinit in Hi. simpl in Hi.
    injection Hi as <- <- _. by exists [], (HD_FREE, HD_FREE, gpencil_project_mval_to_v3 (mval ev0)).
  - destruct IH as (sh0 & x & Hat). eapply modal_at; eassumption.
Qed.


(** ** What single commands do *)

(** One library or helper call in the goal, run on a world known by [Hat]. *)
Ltac tool_run Hat :=
  let w' := fresh "w" in
  let E := fresh "E" in
  let A := fresh "Hat" in
  match goal with
  | |- context [gpencil_curve_draw_update ?w ?t] =>
      destruct (curve_draw_update_at _ w t _ _ _ _ Hat) as (w' & E & A)
  | |- context [gpencil_set_handle_type_last_point ?w ?t ?ty] =>
      destruct (set_handle_type_at _ w t _ _ _ _ ty Hat) as (w' & E & A)
  | |- context [gpencil_push_curve_point ?w ?t] =>
      destruct (push_curve_point_at _ w t _ _ _ _ Hat) as (w' & E & A)
  | |- context [gpencil_curve_draw_confirm ?w ?t] =>
      destruct (confirm_at _ w t _ _ Hat) as (w' & E & A)
  end;
  rewrite E; simpl; clear E.

Lemma modal_drag_at w0 w tcd ev (sh0 : shape_t) a b v :
  tool_at w0 w (gps tcd) (gpc tcd) (sh0 ++ [(a, b, v)]) ->
  state tcd = IN_SET_VECTOR -> type ev = MOUSEMOVE ->
  (WM_event_drag_threshold ev < len_v2v2_int (mval ev) (imval_start tcd))%Q ->
  exists w' tcd',
    gpencil_curve_draw_modal w tcd ev = Some (w', Some tcd', OPERATOR_RUNNING_MODAL) /\
    state tcd' = IN_DRAG_ALIGNED_HANDLE /\
    tool_at w0 w' (gps tcd') (gpc tcd') (sh0 ++ [(HD_ALIGN, HD_ALIGN, v)]).
Proof.
  intros Hat Hst Hty Hdrag.
  unfold gpencil_curve_draw_modal, modal_mousemove, modal_continue. rewrite Hty. simpl.
  rewrite Hst. rewrite decide_True by reflexivity.
  destruct (Qlt_le_dec _ _) as [_|Hle]; [|exfalso; lra]. simpl.
  tool_run Hat. tool_run Hat0.
  eexists _, _. split; [reflexivity|]. simpl. split; [reflexivity|]. exact Hat1.
Qed.

Lemma modal_release_at w0 w tcd ev (sh0 : shape_t) a b v :
  tool_at w0 w (gps tcd) (gpc tcd) (sh0 ++ [(a, b, v)]) ->
  state tcd = IN_SET_VECTOR \/ state tcd = IN_DRAG_ALIGNED_HANDLE
    \/ state tcd = IN_DRAG_FREE_HANDLE ->
  type ev = LEFTMOUSE -> val ev = KM_RELEASE -> KM_PRESS ≠ KM_RELEASE ->
  exists w' tcd',
    gpencil_curve_draw_modal w tcd ev = Some (w', Some tcd', OPERATOR_RUNNING_MODAL) /\
    state tcd' = IN_MOVE /\
    tool_at w0 w' (gps tcd') (gpc tcd')
      ((sh0 ++ [(a, b, v)])
       ++ [(HD_VECT, HD_VECT, gpencil_project_mval_to_v3 (mval ev))]).
Proof.
  intros Hat Hst Hty Hval Hne.
  unfold gpencil_curve_draw_modal, modal_leftmouse, modal_continue. rewrite Hty. simpl.
  rewrite Hval. rewrite decide_False by (intros E; by apply Hne).
  rewrite decide_True by reflexivity. rewrite decide_True by exact Hst. simpl.
  tool_run Hat. tool_run Hat0.
  eexists _, _. split; [reflexivity|]. simpl. split; [reflexivity|]. exact Hat1.
Qed.

Lemma modal_confirm_move_at w0 w tcd ev (sh0 : shape_t) y x :
  world_wf w0 ->
  tool_at w0 w (gps tcd) (gpc tcd) ((sh0 ++ [y]) ++ [x]) ->
  state tcd = IN_MOVE -> type ev = EVT_MODAL_MAP -> val ev = CD_MODAL_CONFIRM ->
  exists w' g' c',
    gpencil_curve_draw_modal w tcd ev = Some (w', None, OPERATOR_FINISHED) /\
    tool_at w0 w' g' c' (sh0 ++ [y]).
Proof.
  intros Hwf Hat Hst Hty Hval.
  unfold gpencil_curve_draw_modal, modal_keymap. rewrite Hty. simpl.
  rewrite Hval. rewrite decide_True by reflexivity. rewrite decide_True by exact Hst.
  destruct (pop_curve_point_at w0 w (set_imval tcd (mval ev)) _ _ Hwf Hat)
    as (w1 & g' & c' & Hp & Hat1 & _).
  rewrite Hp. simpl.
  destruct (confirm_at w0 w1 (set_gps_gpc (set_imval tcd (mval ev)) g' c') _ _ Hat1)
    as (w2 & Hc & Hat2).
  rewrite Hc. simpl. exists w2, g', c'. split; [reflexivity | exact Hat2].
Qed.

Lemma modal_delete_last_move_at w0 w tcd ev (sh0 : shape_t) a b v x :
  world_wf w0 ->
  tool_at w0 w (gps tcd) (gpc tcd) ((sh0 ++ [(a, b, v)]) ++ [x]) ->
  state tcd = IN_MOVE -> type ev = EVT_MODAL_MAP -> val ev = CD_MODAL_DELETE_LAST ->
  exists w' tcd',
    gpencil_curve_draw_modal w tcd ev = Some (w', Some tcd', OPERATOR_RUNNING_MODAL) /\
    state tcd' = IN_MOVE /\
    gps tcd' ≠ gps tcd /\ strokes w !! gps tcd' = None /\
    strokes w' !! gps tcd = None /\ curves w' !! gpc tcd = None /\
    tool_at w0 w' (gps tcd') (gpc tcd')
      (sh0 ++ [(a, b, gpencil_project_mval_to_v3 (mval ev))]).
Proof.
  intros Hwf Hat Hst Hty Hval.
  unfold gpencil_curve_draw_modal, modal_keymap, modal_continue. rewrite Hty. simpl.
  rewrite Hval. do 5 (rewrite decide_False by discriminate).
  rewrite decide_True by reflexivity. rewrite decide_True by exact Hst.
  destruct (pop_curve_point_at w0 w (set_imval tcd (mval ev)) _ _ Hwf Hat)
    as (w1 & g' & c' & Hp & Hat1 & Hg' & Hfresh & Hold & Holdc).
  rewrite Hp. simpl.
  destruct (curve_draw_update_at w0 w1 (set_gps_gpc (set_imval tcd (mval ev)) g' c')
              _ _ _ _ Hat1) as (w2 & Hu & Hat2).
  rewrite Hu. simpl. simpl in Hat2. rewrite Hst in Hat2.
  rewrite decide_True in Hat2 by reflexivity.
  destruct (tool_at_lookup _ _ _ _ _ Hat1) as (s1 & cv1 & Hs1 & He1 & Hc1 & _).
  eexists _, _. split; [reflexivity|]. simpl.
  split; [exact Hst|]. split; [exact Hg'|]. split; [exact Hfresh|].
  destruct Hat1 as (? & ? & HS1 & HS0 & _ & HC1 & HC0 & _).
  destruct Hat2 as (s2 & cv2 & HS2 & ? & ? & HC2 & ? & ? & ? & ?).
  split; [rewrite HS2, lookup_insert_ne by done; rewrite HS1, lookup_insert_ne in Hold by done; exact Hold|].
  split; [|exists s2, cv2; auto 10].
  assert (c' ≠ gpc tcd).
  { intros E. rewrite HC1, E, lookup_insert_eq in Holdc. discriminate. }
  rewrite HC2, lookup_insert_ne by done.
  rewrite HC1, lookup_insert_ne in Holdc by done. exact Holdc.
Qed.

Lemma modal_delete_last_drag_at w0 w tcd ev (sh0 : shape_t) a b v :
  tool_at w0 w (gps tcd) (gpc tcd) (sh0 ++ [(a, b, v)]) ->
  state tcd = IN_DRAG_ALIGNED_HANDLE \/ state tcd = IN_DRAG_FREE_HANDLE ->
  type ev = EVT_MODAL_MAP -> val ev = CD_MODAL_DELETE_LAST ->
  exists w' tcd',
    gpencil_curve_draw_modal w tcd ev = Some (w', Some tcd', OPERATOR_RUNNING_MODAL) /\
    state tcd' = IN_MOVE /\ gps tcd' = gps tcd /\ gpc tcd' = gpc tcd /\
    tool_at w0 w' (gps tcd') (gpc tcd')
      (sh0 ++ [(a, b, gpencil_project_mval_to_v3 (mval ev))]).
Proof.
  intros Hat Hst Hty Hval.
  unfold gpencil_curve_draw_modal, modal_keymap, modal_continue. rewrite Hty. simpl.
  rewrite Hval. do 5 (rewrite decide_False by discriminate).
  rewrite decide_True by reflexivity.
  rewrite decide_False by (intros E; rewrite E in Hst; by destruct Hst).
  rewrite decide_True by exact Hst. simpl.
  tool_run Hat.
  eexists _, _. split; [reflexivity|]. simpl. auto.
Qed.


(** ** A session: invocation, then events until the tool ends *)

Fixpoint run_modal (w : world) (tcd : tGPDcurve_draw) (evs : list wmEvent)
    : option (world * option tGPDcurve_draw * operator_return) :=
  match evs with
  | [] => Some (w, Some tcd, OPERATOR_RUNNING_MODAL)
  | ev :: evs =>
      '(w', customdata, r) ← gpencil_curve_draw_modal w tcd ev;
      match customdata with
      | Some tcd' => run_modal w' tcd' evs
      | None => Some (w', None, r)
      end
  end.

Definition curve_draw_session (w0 : world) (ev0 : wmEvent) (evs : list wmEvent)
    : option (world * option tGPDcurve_draw * operator_return) :=
  '(w, customdata, r) ← curve_draw_invoke_stroke w0 ev0;
  match customdata with
  | Some tcd => run_modal w tcd evs
  | None => Some (w, None, r)
  end.

(** The edit-curve points of the stroke linked last in the frame. *)
Definition last_stroke_curve_points (w : world) : option (list bGPDcurve_point) :=
  g ← last (frame_strokes w);
  s ← strokes w !! g;
  c ← editcurve s;
  cv ← curves w !! c;
  Some (curve_points cv).

(** C2, as the code has it.  Invoking the tool with a click, dragging past
    the drag threshold, releasing and confirming ends the tool with one more
    stroke linked last in the frame; its edit curve has exactly one control
    point, at the unprojected position of the click, with aligned handles.
    The point with vector handles that the release appended is the preview
    point, which CONFIRM deletes.  The drag is past the threshold both from
    the click and from [imval_start], which is what the tool compares with
    and which is still (0, 0) while the first point is placed. *)
Theorem round_trip_one_aligned_point
    (w0 : world) (ev0 ev_drag ev_release ev_confirm : wmEvent)
    (Hwf : world_wf w0)
    (Hkm : KM_PRESS ≠ KM_RELEASE)
    (Hdrag_type : type ev_drag = MOUSEMOVE)
    (Hdrag_click : (WM_event_drag_threshold ev_drag
                    < len_v2v2_int (mval ev_drag) (mval ev0))%Q)
    (Hdrag : (WM_event_drag_threshold ev_drag
              < len_v2v2_int (mval ev_drag) (0, 0)%Z)%Q)
    (Hrelease_type : type ev_release = LEFTMOUSE)
    (Hrelease : val ev_release = KM_RELEASE)
    (Hconfirm_type : type ev_confirm = EVT_MODAL_MAP)
    (Hconfirm : val ev_confirm = CD_MODAL_CONFIRM) :
  exists w g c s cv p,
    curve_draw_session w0 ev0 [ev_drag; ev_release; ev_confirm]
      = Some (w, None, OPERATOR_FINISHED) /\
    frame_strokes w = frame_strokes w0 ++ [g] /\
    strokes w !! g = Some s /\ editcurve s = Some c /\ curves w !! c = Some cv /\
    curve_points cv = [p] /\
    h1 (bezt p) = HD_ALIGN /\ h2 (bezt p) = HD_ALIGN /\
    vec1 (bezt p) = gpencil_project_mval_to_v3 (mval ev0).
Proof.
  destruct (curve_draw_init_at w0 ev0 Hwf) as (w1 & tcd1 & Hinit & Hat1 & Hst1 & _ & Hstart).
  destruct (modal_drag_at w0 w1 tcd1 ev_drag [] _ _ _ Hat1 Hst1 Hdrag_type)
    as (w2 & tcd2 & Hm2 & Hst2 & Hat2); [by rewrite Hstart|].
  destruct (modal_release_at w0 w2 tcd2 ev_release [] _ _ _ Hat2
              ltac:(auto) Hrelease_type Hrelease Hkm)
    as (w3 & tcd3 & Hm3 & Hst3 & Hat3).
  destruct (modal_confirm_move_at w0 w3 tcd3 ev_confirm [] _ _ Hwf Hat3 Hst3
              Hconfirm_type Hconfirm)
    as (w4 & g & c & Hm4 & Hat4).
  destruct (tool_at_lookup _ _ _ _ _ Hat4) as (s & cv & Hs & He & Hc & Hsh).
  destruct (shape_snoc_inv cv [] _ Hsh) as (pts0 & p & Hp & Hs0 & Hx).
  apply fmap_nil_inv in Hs0. subst pts0.
  exists w4, g, c, s, cv, p.
  split.
  { unfold curve_draw_session, curve_draw_invoke_stroke. rewrite Hinit. simpl.
    rewrite Hm2. simpl. rewrite Hm3. simpl. rewrite Hm4. reflexivity. }
  destruct Hat4 as (? & ? & _ & _ & _ & _ & _ & Hf & _).
  unfold shape_pt in Hx. injection Hx as E1 E2 E3.
  auto 10.
Qed.

(** On a well-formed view, in whatever state the running tool is, the
    CANCEL command ends the tool with the frame's stroke list, the allocated
    strokes and the allocated curves exactly those of the view the tool
    started on: the tool's stroke is unlinked and freed together with its
    edit curve. *)
Lemma modal_cancel_at
    (w0 : world) (ev0 : wmEvent) (w : world) (tcd : tGPDcurve_draw) (ev : wmEvent)
    (Hwf : world_wf w0)
    (Hreach : reachable w0 ev0 w tcd)
    (Htype : type ev = EVT_MODAL_MAP)
    (Hval : val ev = CD_MODAL_CANCEL) :
  exists w',
    gpencil_curve_draw_modal w tcd ev = Some (w', None, OPERATOR_CANCELLED) /\
    frame_strokes w' = frame_strokes w0 /\
    strokes w' = strokes w0 /\ curves w' = curves w0 /\
    strokes w' !! gps tcd = None /\ curves w' !! gpc tcd = None.
Proof.
  destruct (reachable_at w0 ev0 w tcd Hwf Hreach) as (sh0 & x & Hat).
  destruct (tool_at_lookup _ _ _ _ _ Hat) as (s & cv & Hs & He & Hc & _).
  destruct Hat as (s_ & cv_ & HS & HS0 & _ & HC & HC0 & HF & HG & _).
  unfold gpencil_curve_draw_modal, modal_keymap. rewrite Htype. simpl.
  rewrite Hval. rewrite decide_False by discriminate.
  rewrite decide_True by reflexivity.
  unfold BKE_gpencil_free_stroke. simpl. rewrite Hs. simpl. rewrite He.
  eexists. split; [reflexivity|]. simpl.
  split; [rewrite HF; by apply filter_ne_fresh|].
  rewrite HS, HC, !delete_insert_id by assumption. auto.
Qed.

(** *** The view of the tool's frame *)

Lemma frame_world_set gpd gpl gpf w0 w :
  frame_world gpd gpl gpf = Some w0 ->
  frame_world (set_frame_world gpd gpl gpf w) gpl gpf = Some w.
Proof.
  unfold frame_world, set_frame_world. cbn [gpd_layers gpd_strokes gpd_curves].
  destruct (gpd_layers gpd !! gpl) as [l|] eqn:Hl; [|discriminate].
  cbn [mbind option_bind].
  destruct (gpl_frames l !! gpf) as [f|] eqn:Hf; [|discriminate]. intros _.
  rewrite list_lookup_alter_eq, Hl. cbn.
  rewrite list_lookup_alter_eq, Hf. cbn. by destruct w.
Qed.

Lemma set_frame_world_twice gpd gpl gpf w w' :
  set_frame_world (set_frame_world gpd gpl gpf w) gpl gpf w'
  = set_frame_world gpd gpl gpf w'.
Proof.
  unfold set_frame_world. cbn [gpd_layers gpd_active gpd_strokes gpd_curves]. f_equal.
  rewrite list_alter_alter_eq. apply list_alter_ext; [|reflexivity].
  intros l _. unfold compose, set_gpl_frames. cbn. f_equal.
  rewrite list_alter_alter_eq. by apply list_alter_ext.
Qed.

Lemma set_frame_world_id gpd gpl gpf w :
  frame_world gpd gpl gpf = Some w -> set_frame_world gpd gpl gpf w = gpd.
Proof.
  unfold frame_world, set_frame_world.
  destruct (gpd_layers gpd !! gpl) as [l|] eqn:Hl; [|discriminate].
  cbn [mbind option_bind].
  destruct (gpl_frames l !! gpf) as [f|] eqn:Hf; [|discriminate].
  intros [= <-]. cbn [strokes curves frame_strokes].
  destruct gpd as [layers active ss cs]. cbn in *. f_equal.
  rewrite <- (list_alter_id id layers gpl) at 2 by done.
  apply list_alter_ext; [|reflexivity]. intros l' Hl'.
  assert (l' = l) by congruence. subst l'.
  destruct l as [info frames act loc rot sc m inv].
  unfold set_gpl_frames. cbn in *. f_equal.
  rewrite <- (list_alter_id id frames gpf) at 2 by done.
  apply list_alter_ext; [|reflexivity]. intros f' Hf'.
  assert (f' = f) by congruence. subst f'. by destruct f.
Qed.

(** Every stroke linked in a frame of the data block is allocated. *)
Definition gpd_wf (gpd : bGPdata) : Prop :=
  forall (gpl gpf : nat) l f x,
    gpd_layers gpd !! gpl = Some l -> gpl_frames l !! gpf = Some f ->
    x ∈ gpf_strokes f -> is_Some (gpd_strokes gpd !! x).

Lemma frame_duplicate_strokes_spec l : forall gpd gpd' new_strokes,
  frame_duplicate_strokes gpd l = Some (gpd', new_strokes) ->
  gpd_layers gpd' = gpd_layers gpd /\ gpd_active gpd' = gpd_active gpd /\
  (forall x, is_Some (gpd_strokes gpd !! x) -> is_Some (gpd_strokes gpd' !! x)) /\
  (forall x, x ∈ new_strokes -> is_Some (gpd_strokes gpd' !! x)).
Proof.
  induction l as [|gps l IH]; intros gpd gpd' new_strokes Hrun.
  - injection Hrun as <- <-. split; [reflexivity|]. split; [reflexivity|].
    split; [auto|]. intros x Hx. by apply elem_of_nil in Hx.
  - cbn [frame_duplicate_strokes] in Hrun.
    destruct (frame_duplicate_stroke gpd gps) as [[gpd1 g]|] eqn:Hone; [|discriminate].
    cbn [mbind option_bind] in Hrun.
    destruct (frame_duplicate_strokes gpd1 l) as [[gpd2 gs]|] eqn:Hrest; [|discriminate].
    cbn [mbind option_bind] in Hrun. injection Hrun as <- <-.
    destruct (IH _ _ _ Hrest) as (Hl2 & Ha2 & Hkeep2 & Hnew2).
    assert (Hone' : gpd_layers gpd1 = gpd_layers gpd /\ gpd_active gpd1 = gpd_active gpd /\
                    (forall x, is_Some (gpd_strokes gpd !! x) ->
                               is_Some (gpd_strokes gpd1 !! x)) /\
                    is_Some (gpd_strokes gpd1 !! g)).
    { unfold frame_duplicate_stroke in Hone.
      destruct (gpd_strokes gpd !! gps) as [s|]; [|discriminate].
      cbn [mbind option_bind] in Hone.
      destruct (editcurve s) as [c|].
      - destruct (gpd_curves gpd !! c) as [cv|]; [|discriminate].
        cbn [mbind option_bind] in Hone. injection Hone as <- <-.
        cbn [gpd_layers gpd_active gpd_strokes].
        split; [reflexivity|]. split; [reflexivity|]. split.
        + intros x Hx. rewrite lookup_insert_is_Some. destruct (decide (fresh (dom (gpd_strokes gpd)) = x)); auto.
        + rewrite lookup_insert_eq. by eexists.
      - injection Hone as <- <-. cbn [gpd_layers gpd_active gpd_strokes].
        split; [reflexivity|]. split; [reflexivity|]. split.
        + intros x Hx. rewrite lookup_insert_is_Some. destruct (decide (fresh (dom (gpd_strokes gpd)) = x)); auto.
        + rewrite lookup_insert_eq. by eexists. }
    destruct Hone' as (Hl1 & Ha1 & Hkeep1 & Hg).
    split; [congruence|]. split; [congruence|]. split; [auto|].
    intros x Hx. apply elem_of_cons in Hx as [->|Hx]; auto.
Qed.

(** The frame obtained is a frame of the data block, and its view is well
    formed when the data block was. *)
Lemma curve_draw_init_frame_view gpd cfra retain_last acquired gpl gpf :
  gpd_wf gpd ->
  curve_draw_init_frame gpd cfra retain_last = Some (acquired, gpl, gpf) ->
  exists w0, frame_world acquired gpl gpf = Some w0 /\ world_wf w0.
Proof.
  intros Hwf Hrun. unfold curve_draw_init_frame in Hrun.
  (* the layer *)
  assert (Hlayer : exists gpd1,
    match CTX_data_active_gpencil_layer gpd with
    | Some gpl => (gpd, gpl)
    | None => BKE_gpencil_layer_addnew gpd "Curve" true
    end = (gpd1, gpl) /\
    gpd_strokes gpd1 = gpd_strokes gpd /\
    forall l f x, gpd_layers gpd1 !! gpl = Some l -> f ∈ gpl_frames l ->
                  x ∈ gpf_strokes f -> is_Some (gpd_strokes gpd !! x)).
  { destruct (CTX_data_active_gpencil_layer gpd) as [g|].
    - cbn in Hrun. destruct (gpd_layers gpd !! g) as [l|] eqn:Hl; [|discriminate].
      cbn [mbind option_bind] in Hrun.
      destruct (BKE_gpencil_layer_frame_get _ _ _ _) as [[a f]|]; [|discriminate].
      cbn in Hrun. injection Hrun as _ <- _.
      exists gpd. split; [reflexivity|]. split; [reflexivity|].
      intros l' f' x Hl' Hf' Hx. apply list_elem_of_lookup_1 in Hf' as [i Hi].
      by eapply Hwf.
    - unfold BKE_gpencil_layer_addnew in Hrun |- *. cbn [gpd_layers] in Hrun.
      rewrite list_lookup_middle in Hrun by reflexivity. cbn [mbind option_bind] in Hrun.
      destruct (BKE_gpencil_layer_frame_get _ _ _ _) as [[a f]|]; [|discriminate].
      cbn in Hrun. injection Hrun as _ <- _.
      eexists. split; [reflexivity|]. split; [reflexivity|].
      cbn [gpd_layers]. intros l' f' x Hl'.
      rewrite list_lookup_middle in Hl' by reflexivity. injection Hl' as <-.
      cbn [gpl_frames]. intros Hf'. by apply elem_of_nil in Hf'. }
  destruct Hlayer as (gpd1 & Heq & Hs1 & Hwf1). rewrite Heq in Hrun. clear Heq.
  destruct (gpd_layers gpd1 !! gpl) as [l|] eqn:Hl; [|discriminate].
  cbn [mbind option_bind] in Hrun. cbv zeta in Hrun.
  destruct (BKE_gpencil_layer_frame_get _ _ _ _) as [[a f]|] eqn:Hget; [|discriminate].
  cbn in Hrun. injection Hrun as -> <-.
  assert (Hlt : gpl < length (gpd_layers gpd1)) by (eapply lookup_lt_Some; eassumption).
  unfold BKE_gpencil_layer_frame_get in Hget. cbn [set_layer gpd_layers] in Hget.
  rewrite list_lookup_insert_eq in Hget by exact Hlt. cbn [mbind option_bind] in Hget.
  cbn [set_layer_mat gpl_frames] in Hget.
  destruct (list_find _ (gpl_frames l)) as [[i fr]|] eqn:Hfind.
  - injection Hget as <- <-. apply list_find_Some in Hfind as (Hi & _ & _).
    unfold frame_world. cbn [set_layer gpd_layers gpd_strokes gpd_curves].
    rewrite list_lookup_insert_eq by (by rewrite length_insert). cbn. rewrite Hi. cbn.
    eexists. split; [reflexivity|]. intros x Hx. cbn in Hx |- *. rewrite Hs1.
    eapply (Hwf1 l fr x eq_refl); [|exact Hx]. by eapply list_elem_of_lookup_2.
  - cbv zeta in Hget.
    set (before := filter (fun f0 => (framenum f0 < cfra)%Z) (gpl_frames l)) in *.
    match type of Hget with
    | context [mbind _ ?m] => destruct m as [[gpd2 new_strokes]|] eqn:Hnew
    end; [|discriminate].
    cbn [mbind option_bind] in Hget. injection Hget as <- <-.
    assert (Hnew' : gpd_layers gpd2 = <[gpl := set_layer_mat l
                       (loc_eul_size_to_mat4 (gpl_location l) (gpl_rotation l) (gpl_scale l))
                       (invert_m4_m4 (loc_eul_size_to_mat4 (gpl_location l)
                                        (gpl_rotation l) (gpl_scale l)))]>
                                      (gpd_layers gpd1) /\
                    forall x, x ∈ new_strokes -> is_Some (gpd_strokes gpd2 !! x)).
    { destruct retain_last, (last before) as [prior|];
        try (injection Hnew as <- <-; split; [reflexivity|];
             intros x Hx; by apply elem_of_nil in Hx).
      destruct (frame_duplicate_strokes_spec _ _ _ _ Hnew) as (Hl2 & _ & _ & Hn).
      split; [exact Hl2 | exact Hn]. }
    destruct Hnew' as (Hl2 & Hn).
    unfold frame_world. cbn [set_layer gpd_layers gpd_strokes gpd_curves].
    rewrite Hl2, list_lookup_insert_eq by (by rewrite !length_insert). cbn.
    rewrite list_lookup_middle.
    2:{ rewrite length_take_le; [reflexivity|]. apply length_filter. }
    cbn. eexists. split; [reflexivity|]. intros x Hx. cbn in Hx |- *. by apply Hn.
Qed.

(** The tool was invoked on the data block [gpd0] with [ev0], at the scene
    frame [cfra], and has handled any number of events without ending. *)
Inductive reachable_gpd (gpd0 : bGPdata) (cfra : Z) (retain_last : bool) (ev0 : wmEvent)
    : bGPdata -> customdata -> Prop :=
| reach_gpd_invoke gpd cd r :
    gpencil_curve_draw_invoke gpd0 cfra retain_last ev0 = Some (gpd, Some cd, r) ->
    reachable_gpd gpd0 cfra retain_last ev0 gpd cd
| reach_gpd_modal gpd cd ev gpd' cd' r :
    reachable_gpd gpd0 cfra retain_last ev0 gpd cd ->
    curve_draw_modal_gpd gpd cd ev = Some (gpd', Some cd', r) ->
    reachable_gpd gpd0 cfra retain_last ev0 gpd' cd'.

(** The running tool on the data block is the running tool on the view of
    the frame obtained at invocation. *)
Lemma reachable_gpd_view gpd0 cfra retain_last ev0 gpd cd :
  reachable_gpd gpd0 cfra retain_last ev0 gpd cd ->
  exists acquired w0 w,
    curve_draw_init_frame gpd0 cfra retain_last
      = Some (acquired, tcd_gpl cd, tcd_gpf cd) /\
    frame_world acquired (tcd_gpl cd) (tcd_gpf cd) = Some w0 /\
    reachable w0 ev0 w (tcd_tool cd) /\
    gpd = set_frame_world acquired (tcd_gpl cd) (tcd_gpf cd) w.
Proof.
  intros Hr. induction Hr as [gpd cd r Hi | gpd cd ev gpd' cd' r _ IH Hm].
  - unfold gpencil_curve_draw_invoke, gpencil_curve_draw_init in Hi.
    destruct (curve_draw_init_frame gpd0 cfra retain_last) as [[[acquired gpl] gpf]|];
      [|discriminate].
    cbn [mbind option_bind] in Hi.
    destruct (frame_world acquired gpl gpf) as [w0|] eqn:Hw0; [|discriminate].
    cbn [mbind option_bind] in Hi.
    destruct (curve_draw_init_stroke w0 ev0) as [[w tcd]|] eqn:Hinit; [|discriminate].
    cbn [mbind option_bind] in Hi. injection Hi as <- <- _.
    exists acquired, w0, w. cbn [tcd_gpl tcd_gpf tcd_tool].
    split; [reflexivity|]. split; [exact Hw0|]. split; [|reflexivity].
    apply (reach_invoke _ _ _ _ OPERATOR_RUNNING_MODAL).
    unfold curve_draw_invoke_stroke. by rewrite Hinit.
  - destruct IH as (acquired & w0 & w & Hacq & Hw0 & Hreach & ->).
    unfold curve_draw_modal_gpd in Hm.
    rewrite (frame_world_set _ _ _ _ w Hw0) in Hm. cbn [mbind option_bind] in Hm.
    destruct (gpencil_curve_draw_modal w (tcd_tool cd) ev) as [[[w' tcd'] r']|] eqn:Hmodal;
      [|discriminate].
    cbn [mbind option_bind] in Hm. destruct tcd' as [tcd'|]; [|discriminate].
    injection Hm as <- <- _. cbn [tcd_gpl tcd_gpf tcd_tool].
    exists acquired, w0, w'.
    split; [exact Hacq|]. split; [exact Hw0|].
    split; [by eapply reach_modal|]. apply set_frame_world_twice.
Qed.

(** What the invocation does to a data block whose active layer has a
    frame at the current frame of the scene: it makes that frame the active
    frame of the layer and recalculates the layer matrices; frames, stroke
    lists and allocations are as they were. *)
Lemma curve_draw_init_frame_found gpd cfra retain_last acquired gpl' gpf gpl l :
  curve_draw_init_frame gpd cfra retain_last = Some (acquired, gpl', gpf) ->
  gpd_active gpd = Some gpl -> gpd_layers gpd !! gpl = Some l ->
  (exists f, f ∈ gpl_frames l /\ framenum f = cfra) ->
  gpl_frames <$> gpd_layers acquired = gpl_frames <$> gpd_layers gpd /\
  gpd_strokes acquired = gpd_strokes gpd /\ gpd_curves acquired = gpd_curves gpd /\
  gpd_active acquired = gpd_active gpd.
Proof.
  intros Hrun Ha Hl (f & Hf & Hnum). unfold curve_draw_init_frame in Hrun.
  unfold CTX_data_active_gpencil_layer in Hrun. rewrite Ha, Hl in Hrun.
  cbn [mbind option_bind] in Hrun. cbv zeta in Hrun.
  assert (Hlt : gpl < length (gpd_layers gpd)) by (eapply lookup_lt_Some; eassumption).
  unfold BKE_gpencil_layer_frame_get in Hrun. cbn [set_layer gpd_layers] in Hrun.
  rewrite list_lookup_insert_eq in Hrun by exact Hlt. cbn [mbind option_bind] in Hrun.
  cbn [set_layer_mat gpl_frames] in Hrun.
  destruct (list_find_elem_of (fun f0 => framenum f0 = cfra) (gpl_frames l) f Hf Hnum)
    as [[i fr] Hfind].
  rewrite Hfind in Hrun. cbn in Hrun. injection Hrun as <- _ _.
  unfold set_layer. cbn [gpd_layers gpd_strokes gpd_curves gpd_active].
  split; [|auto]. rewrite list_insert_insert_eq, list_fmap_insert.
  cbn [set_gpl_frames gpl_frames].
  apply list_insert_id. by rewrite list_lookup_fmap, Hl.
Qed.

(** C3, as the code has it.  On a data block whose linked strokes are
    allocated, in whatever state the running tool is, the CANCEL command
    ends the tool and leaves the data block exactly as it was when the
    invocation had obtained its layer and frame (lines 436-463): the tool's
    stroke is unlinked from the stroke list of the tool's frame and freed
    together with its edit curve, and nothing else was changed since.  When
    the active layer had a frame at the current frame of the scene, the
    frames, their stroke lists and the allocations are those of before the
    invocation.  A layer or a frame that the invocation created stays. *)
Theorem cancel_restores_frame
    (gpd0 : bGPdata) (cfra : Z) (retain_last : bool) (ev0 : wmEvent)
    (gpd : bGPdata) (cd : customdata) (ev : wmEvent)
    (Hwf : gpd_wf gpd0)
    (Hreach : reachable_gpd gpd0 cfra retain_last ev0 gpd cd)
    (Htype : type ev = EVT_MODAL_MAP)
    (Hval : val ev = CD_MODAL_CANCEL) :
  exists acquired,
    curve_draw_init_frame gpd0 cfra retain_last
      = Some (acquired, tcd_gpl cd, tcd_gpf cd) /\
    curve_draw_modal_gpd gpd cd ev = Some (acquired, None, OPERATOR_CANCELLED) /\
    gpd_strokes acquired !! gps (tcd_tool cd) = None /\
    gpd_curves acquired !! gpc (tcd_tool cd) = None /\
    (forall gpl l,
       gpd_active gpd0 = Some gpl -> gpd_layers gpd0 !! gpl = Some l ->
       (exists f, f ∈ gpl_frames l /\ framenum f = cfra) ->
       gpl_frames <$> gpd_layers acquired = gpl_frames <$> gpd_layers gpd0 /\
       gpd_strokes acquired = gpd_strokes gpd0 /\
       gpd_curves acquired = gpd_curves gpd0 /\
       gpd_active acquired = gpd_active gpd0).
Proof.
  destruct (reachable_gpd_view _ _ _ _ _ _ Hreach)
    as (acquired & w0 & w & Hacq & Hw0 & Hr & ->).
  destruct (curve_draw_init_frame_view _ _ _ _ _ _ Hwf Hacq) as (w0' & Hw0' & Hwf0).
  assert (w0' = w0) by congruence. subst w0'.
  destruct (modal_cancel_at w0 ev0 w (tcd_tool cd) ev Hwf0 Hr Htype Hval)
    as (w' & Hm & Hf & Hs & Hc & Hgs & Hgc).
  assert (Hw' : w' = w0).
  { destruct w', w0. cbn in Hf, Hs, Hc. by subst. }
  subst w'.
  assert (Hstores : gpd_strokes acquired = strokes w0 /\ gpd_curves acquired = curves w0).
  { unfold frame_world in Hw0.
    destruct (gpd_layers acquired !! tcd_gpl cd) as [l|]; [|discriminate].
    cbn [mbind option_bind] in Hw0.
    destruct (gpl_frames l !! tcd_gpf cd) as [f|]; [|discriminate].
    injection Hw0 as <-. by split. }
  destruct Hstores as [Hss Hcs].
  exists acquired. split; [exact Hacq|]. split.
  { unfold curve_draw_modal_gpd. rewrite (frame_world_set _ _ _ _ w Hw0).
    cbn [mbind option_bind]. rewrite Hm. cbn [mbind option_bind].
    rewrite set_frame_world_twice, (set_frame_world_id _ _ _ _ Hw0). reflexivity. }
  split; [by rewrite Hss|]. split; [by rewrite Hcs|].
  intros gpl l Ha Hl Hfr. by eapply curve_draw_init_frame_found.
Qed.

(** X26.  DELETE_LAST on the running tool.  In MOVE, with a committed point
    before the preview point: the tool stays in MOVE on a newly allocated
    stroke and curve; the old stroke and curve are freed; the new stroke is
    linked where the old one was, last in the frame; the new curve has the
    points of the old one without its last, and its own last point (the
    most recently committed one, handle types kept) is now the preview
    point at the cursor.  In a drag state: the tool goes to MOVE on the same
    stroke and curve, with as many points as before. *)
Theorem delete_last_command
    (w0 : world) (ev0 : wmEvent) (w : world) (tcd : tGPDcurve_draw) (ev : wmEvent)
    (Hwf : world_wf w0)
    (Hreach : reachable w0 ev0 w tcd)
    (Htype : type ev = EVT_MODAL_MAP)
    (Hval : val ev = CD_MODAL_DELETE_LAST) :
  (state tcd = IN_MOVE ->
   forall cv, curves w !! gpc tcd = Some cv -> 2 <= length (curve_points cv) ->
   exists w' tcd' s' cv' (sh : shape_t) a b v x,
     gpencil_curve_draw_modal w tcd ev = Some (w', Some tcd', OPERATOR_RUNNING_MODAL) /\
     state tcd' = IN_MOVE /\
     gps tcd' ≠ gps tcd /\ strokes w !! gps tcd' = None /\
     strokes w' !! gps tcd = None /\ curves w' !! gpc tcd = None /\
     frame_strokes w = frame_strokes w0 ++ [gps tcd] /\
     frame_strokes w' = frame_strokes w0 ++ [gps tcd'] /\
     strokes w' !! gps tcd' = Some s' /\ editcurve s' = Some (gpc tcd') /\
     curves w' !! gpc tcd' = Some cv' /\
     shape cv = sh ++ [(a, b, v); x] /\
     shape cv' = sh ++ [(a, b, gpencil_project_mval_to_v3 (mval ev))]) /\
  (state tcd = IN_DRAG_ALIGNED_HANDLE \/ state tcd = IN_DRAG_FREE_HANDLE ->
   exists w' tcd' cv cv',
     gpencil_curve_draw_modal w tcd ev = Some (w', Some tcd', OPERATOR_RUNNING_MODAL) /\
     state tcd' = IN_MOVE /\ gps tcd' = gps tcd /\ gpc tcd' = gpc tcd /\
     frame_strokes w' = frame_strokes w /\
     curves w !! gpc tcd = Some cv /\ curves w' !! gpc tcd = Some cv' /\
     length (curve_points cv') = length (curve_points cv)).
Proof.
  destruct (reachable_at w0 ev0 w tcd Hwf Hreach) as (sh0 & x & Hat).
  destruct (tool_at_lookup _ _ _ _ _ Hat) as (s & cv & Hs & He & Hc & Hsh).
  split.
  - intros Hst cv_ Hcv_ Hlen. assert (cv_ = cv) by congruence. subst cv_.
    destruct sh0 as [|[[a b] v] sh1 _] using rev_ind.
    { exfalso. unfold shape in Hsh. apply (f_equal length) in Hsh.
      rewrite length_fmap in Hsh. simpl in Hsh. lia. }
    destruct (modal_delete_last_move_at w0 w tcd ev sh1 a b v x Hwf Hat Hst Htype Hval)
      as (w' & tcd' & Hm & Hst' & Hne & Hfresh & Hold & Holdc & Hat').
    destruct (tool_at_lookup _ _ _ _ _ Hat') as (s' & cv' & Hs' & He' & Hc' & Hsh').
    exists w', tcd', s', cv', sh1, a, b, v, x.
    destruct Hat as (? & ? & _ & _ & _ & _ & _ & HF & _).
    destruct Hat' as (? & ? & _ & _ & _ & _ & _ & HF' & _).
    rewrite <- app_assoc in Hsh. simpl in Hsh. auto 15.
  - intros Hst. destruct x as [[a b] v].
    destruct (modal_delete_last_drag_at w0 w tcd ev sh0 a b v Hat Hst Htype Hval)
      as (w' & tcd' & Hm & Hst' & Hg & Hcg & Hat').
    destruct (tool_at_lookup _ _ _ _ _ Hat') as (s' & cv' & Hs' & He' & Hc' & Hsh').
    exists w', tcd', cv, cv'. rewrite Hcg in Hc'.
    destruct Hat as (? & ? & _ & _ & _ & _ & _ & HF & _).
    destruct Hat' as (? & ? & _ & _ & _ & _ & _ & HF' & _).
    rewrite Hg in HF'.
    split; [exact Hm|]. split; [exact Hst'|]. split; [exact Hg|]. split; [exact Hcg|].
    split; [congruence|]. split; [exact Hc|]. split; [exact Hc'|].
    unfold shape in Hsh, Hsh'.
    apply (f_equal length) in Hsh, Hsh'. rewrite length_fmap, length_app in Hsh, Hsh'.
    simpl in Hsh, Hsh'. lia.
Qed.

(** C10.  The operator's cancel callback on the running tool frees the tool
    data and nothing else: the world is as it was, the tool's stroke is
    still linked last in the frame, which did not have it at invocation,
    and the stroke and its edit curve are still allocated. *)
Theorem cancel_callback_leaves_stroke
    (w0 : world) (ev0 : wmEvent) (w : world) (tcd : tGPDcurve_draw)
    (Hwf : world_wf w0)
    (Hreach : reachable w0 ev0 w tcd) :
  exists s cv,
    gpencil_curve_draw_cancel w tcd = (w, None) /\
    frame_strokes w = frame_strokes w0 ++ [gps tcd] /\
    (gps tcd ∉ frame_strokes w0) /\
    strokes w0 !! gps tcd = None /\
    strokes w !! gps tcd = Some s /\ editcurve s = Some (gpc tcd) /\
    curves w !! gpc tcd = Some cv.
Proof.
  destruct (reachable_at w0 ev0 w tcd Hwf Hreach) as (sh0 & x & Hat).
  destruct (tool_at_lookup _ _ _ _ _ Hat) as (s & cv & Hs & He & Hc & _).
  destruct Hat as (? & ? & _ & HS0 & _ & _ & _ & HF & HG & _).
  exists s, cv. split; [reflexivity|]. auto 10.
Qed.


(** ** More on the running tool *)

(** X14.  While the tool runs, everything that was there at invocation is
    left alone: every stroke and every curve allocated then is still
    allocated with the same contents, the frame lists the same strokes in the
    same order followed by the tool's stroke, and the tool's edit curve is
    never empty. *)
Theorem running_tool_leaves_other_strokes
    (w0 : world) (ev0 : wmEvent) (w : world) (tcd : tGPDcurve_draw) :
  world_wf w0 ->
  reachable w0 ev0 w tcd ->
  (forall k s, strokes w0 !! k = Some s -> strokes w !! k = Some s) /\
  (forall k cv, curves w0 !! k = Some cv -> curves w !! k = Some cv) /\
  (forall k, k ≠ gps tcd -> strokes w !! k = strokes w0 !! k) /\
  (forall k, k ≠ gpc tcd -> curves w !! k = curves w0 !! k) /\
  frame_strokes w = frame_strokes w0 ++ [gps tcd] /\
  exists cv, curves w !! gpc tcd = Some cv /\ curve_points cv <> [].
Proof.
  intros Hwf Hreach.
  destruct (reachable_at w0 ev0 w tcd Hwf Hreach) as (sh0 & x & Hat).
  destruct (tool_at_lookup _ _ _ _ _ Hat) as (s & cv & Hs & He & Hc & Hsh).
  destruct Hat as (s_ & cv_ & HS & HS0 & _ & HC & HC0 & HF & HG & _).
  split; [|split; [|split; [|split; [|split]]]].
  - intros k s1 Hk. rewrite HS, lookup_insert_ne; [exact Hk | congruence].
  - intros k cv1 Hk. rewrite HC, lookup_insert_ne; [exact Hk | congruence].
  - intros k Hk. rewrite HS, lookup_insert_ne; [reflexivity | congruence].
  - intros k Hk. rewrite HC, lookup_insert_ne; [reflexivity | congruence].
  - exact HF.
  - exists cv. split; [exact Hc|]. intros Hnil. unfold shape in Hsh.
    rewrite Hnil in Hsh. by destruct sh0.
Qed.

(** X16.  Popping undoes pushing: on the tool's stroke, a push followed by a
    pop leaves an edit curve of the shape it had before the push (handle
    types and positions of all control points), on a newly allocated stroke
    and curve linked last in the frame; the stroke and curve the push worked
    on are freed. *)
Theorem pop_undoes_push (w0 w : world) (tcd : tGPDcurve_draw) (sh0 : shape_t) x :
  world_wf w0 ->
  tool_at w0 w (gps tcd) (gpc tcd) (sh0 ++ [x]) ->
  exists w1 w2 tcd2,
    gpencil_push_curve_point w tcd = Some w1 /\
    gpencil_pop_curve_point w1 tcd = Some (w2, tcd2) /\
    tool_at w0 w2 (gps tcd2) (gpc tcd2) (sh0 ++ [x]) /\
    gps tcd2 ≠ gps tcd /\
    strokes w2 !! gps tcd = None /\ curves w2 !! gpc tcd = None /\
    state tcd2 = state tcd.
Proof.
  intros Hwf Hat. destruct x as [[a b] v].
  destruct (push_curve_point_at w0 w tcd sh0 a b v Hat) as (w1 & Hpush & Hat1).
  destruct (pop_curve_point_at w0 w1 tcd _ _ Hwf Hat1)
    as (w2 & g' & c' & Hpop & Hat2 & Hne & _ & Hold & Holdc).
  exists w1, w2, (set_gps_gpc tcd g' c').
  split; [exact Hpush|]. split; [exact Hpop|]. split; [exact Hat2|].
  split; [exact Hne|]. split; [exact Hold|]. split; [exact Holdc | reflexivity].
Qed.

(** The callback on a tool with a curve of at least two points, or on any
    event other than CONFIRM and DELETE_LAST in MOVE, runs to its end. *)
Lemma modal_defined w0 w tcd ev (sh0 : shape_t) x :
  world_wf w0 ->
  tool_at w0 w (gps tcd) (gpc tcd) (sh0 ++ [x]) ->
  ~ (type ev = EVT_MODAL_MAP /\
     (val ev = CD_MODAL_CONFIRM \/ val ev = CD_MODAL_DELETE_LAST) /\
     state tcd = IN_MOVE /\ sh0 = []) ->
  is_Some (gpencil_curve_draw_modal w tcd ev).
Proof.
  intros Hwf Hat Hnot. destruct x as [[a b] v].
  assert (Hat' : tool_at w0 w (gps (set_imval tcd (mval ev))) (gpc (set_imval tcd (mval ev)))
                   (sh0 ++ [(a, b, v)])) by exact Hat.
  assert (Hst' : state (set_imval tcd (mval ev)) = state tcd) by reflexivity.
  unfold gpencil_curve_draw_modal.
  generalize dependent (set_imval tcd (mval ev)). intros t Hat' Hst'.
  destruct (type ev) eqn:Hty.
  - unfold modal_keymap, modal_continue. repeat case_decide; simpl.
    + (* confirm, in move *)
      destruct sh0 as [|y sh1 _] using rev_ind.
      { exfalso. apply Hnot. rewrite <- Hst'. auto. }
      destruct (pop_curve_point_at _ _ _ _ _ Hwf Hat') as (w1 & g' & c' & Hp & Hat1 & _).
      rewrite Hp. simpl. tool_run Hat1. eauto.
    + tool_run Hat'. eauto.
    + (* cancel *)
      destruct (tool_at_lookup _ _ _ _ _ Hat') as (s & cv & Hs & He & Hc & Hsh).
      unfold BKE_gpencil_free_stroke. simpl. rewrite Hs. simpl. eauto.
    + tool_run Hat'. tool_run Hat0. eauto.
    + eauto.
    + tool_run Hat'. tool_run Hat0. eauto.
    + eauto.
    + (* cyclic toggle *)
      destruct (tool_at_lookup _ _ _ _ _ Hat') as (s & cv & Hs & He & Hc & Hsh).
      rewrite Hs. simpl.
      match goal with
      | |- context [set_stroke w (gps t) ?s'] =>
          pose proof (tool_at_set_stroke _ _ _ _ _ s' Hat' He) as Hat1
      end.
      tool_run Hat1. eauto.
    + (* delete last, in move *)
      destruct sh0 as [|[[a0 b0] v0] sh1 _] using rev_ind.
      { exfalso. apply Hnot. rewrite <- Hst'. auto. }
      destruct (pop_curve_point_at _ _ _ _ _ Hwf Hat') as (w1 & g' & c' & Hp & Hat1 & _).
      rewrite Hp. simpl. tool_run Hat1. eauto.
    + tool_run Hat'. eauto.
    + tool_run Hat'. eauto.
    + eauto.
    + (* set thickness *)
      destruct (tool_at_lookup _ _ _ _ _ Hat') as (s & cv & Hs & He & Hc & Hsh).
      rewrite Hc. simpl.
      destruct (shape_snoc_inv cv sh0 _ Hsh) as (pts0 & cpt & Hp & _).
      unfold last_index. rewrite Hp, length_app. simpl.
      replace (length pts0 + 1)%nat with (S (length pts0)) by lia. simpl.
      rewrite lookup_app_r by lia. rewrite Nat.sub_diag. simpl.
      tool_run Hat'. eauto.
    + eauto.
  - unfold modal_leftmouse, modal_continue. repeat case_decide; simpl; eauto.
    + tool_run Hat'. tool_run Hat0. eauto.
    + tool_run Hat'. eauto.
  - unfold modal_mousemove, modal_continue.
    case_decide; [destruct (Qlt_le_dec _ _)|]; simpl.
    + tool_run Hat'. tool_run Hat0. eauto.
    + tool_run Hat'. eauto.
    + tool_run Hat'. eauto.
  - unfold modal_continue. eauto.
Qed.


(** CONFIRM and DELETE_LAST in MOVE on a curve of one point: the pop leaves
    no point, and the next step addresses the last one. *)
Lemma modal_undefined w0 w tcd ev x :
  world_wf w0 ->
  tool_at w0 w (gps tcd) (gpc tcd) [x] ->
  type ev = EVT_MODAL_MAP ->
  val ev = CD_MODAL_CONFIRM \/ val ev = CD_MODAL_DELETE_LAST ->
  state tcd = IN_MOVE ->
  gpencil_curve_draw_modal w tcd ev = None.
Proof.
  intros Hwf Hat Hty Hval Hst.
  unfold gpencil_curve_draw_modal, modal_keymap. rewrite Hty. simpl.
  destruct (pop_curve_point_at w0 w (set_imval tcd (mval ev)) [] x Hwf Hat)
    as (w1 & g' & c' & Hp & Hat1 & _).
  destruct Hval as [Hval|Hval]; rewrite Hval.
  - rewrite decide_True by reflexivity. rewrite decide_True by exact Hst.
    rewrite Hp. simpl.
    rewrite (confirm_empty w0 w1 (set_gps_gpc (set_imval tcd (mval ev)) g' c') Hat1).
    reflexivity.
  - do 5 (rewrite decide_False by discriminate).
    rewrite decide_True by reflexivity. rewrite decide_True by exact Hst.
    rewrite Hp. simpl.
    rewrite (update_move_empty w0 w1 (set_gps_gpc (set_imval tcd (mval ev)) g' c') Hat1 Hst).
    reflexivity.
Qed.

(** X15.  On the running tool the modal callback addresses a curve point
    that does not exist in exactly one situation: the command is CONFIRM or
    DELETE_LAST, the tool is in MOVE and its curve has the preview point
    only.  The pop then leaves an empty curve, and the step after it takes
    the last point of that curve.  On every other event, in every other
    state, the callback runs to its end. *)
Theorem modal_fails_only_on_lone_preview_point
    (w0 : world) (ev0 : wmEvent) (w : world) (tcd : tGPDcurve_draw) (ev : wmEvent) :
  world_wf w0 ->
  reachable w0 ev0 w tcd ->
  exists cv,
    curves w !! gpc tcd = Some cv /\
    (gpencil_curve_draw_modal w tcd ev = None <->
     type ev = EVT_MODAL_MAP /\
     (val ev = CD_MODAL_CONFIRM \/ val ev = CD_MODAL_DELETE_LAST) /\
     state tcd = IN_MOVE /\ length (curve_points cv) = 1%nat).
Proof.
  intros Hwf Hreach.
  destruct (reachable_at w0 ev0 w tcd Hwf Hreach) as (sh0 & x & Hat).
  destruct (tool_at_lookup _ _ _ _ _ Hat) as (s & cv & Hs & He & Hc & Hsh).
  exists cv. split; [exact Hc|].
  assert (Hlen : length (curve_points cv) = (length sh0 + 1)%nat).
  { unfold shape in Hsh. apply (f_equal length) in Hsh.
    by rewrite length_fmap, length_app in Hsh. }
  split.
  - intros Hnone.
    assert (Hdec :
      (type ev = EVT_MODAL_MAP /\
       (val ev = CD_MODAL_CONFIRM \/ val ev = CD_MODAL_DELETE_LAST) /\
       state tcd = IN_MOVE /\ sh0 = []) \/
      ~ (type ev = EVT_MODAL_MAP /\
         (val ev = CD_MODAL_CONFIRM \/ val ev = CD_MODAL_DELETE_LAST) /\
         state tcd = IN_MOVE /\ sh0 = [])).
    { destruct (type ev); try (right; intros (? & _); discriminate).
      destruct (decide (val ev = CD_MODAL_CONFIRM \/ val ev = CD_MODAL_DELETE_LAST))
        as [Hv|Hv]; [|right; intros (_ & ? & _); contradiction].
      destruct (decide (state tcd = IN_MOVE)) as [Hst|Hst];
        [|right; intros (_ & _ & ? & _); contradiction].
      destruct sh0; [left; auto | right; intros (_ & _ & _ & ?); discriminate]. }
    destruct Hdec as [(Ht & Hv & Hst & ->)|Hnot].
    + by repeat split.
    + destruct (modal_defined w0 w tcd ev sh0 x Hwf Hat Hnot) as [r Hr]. congruence.
  - intros (Ht & Hv & Hst & Hone).
    assert (sh0 = []) by (destruct sh0; [reflexivity | simpl in *; lia]). subst sh0.
    by eapply modal_undefined.
Qed.


(** *** The settings of the tool's stroke *)

(** What a stroke has apart from its points and its edit curve. *)
Definition attributes (w : world) (g : nat) : option (bool * Z * Q * (Q * Q) * Z) :=
  (fun s => (gps_cyclic s, thickness s, hardeness s, aspect_ratio s, mat_nr s))
  <$> strokes w !! g.

Lemma attributes_set_curve w c cv g : attributes (set_curve w c cv) g = attributes w g.
Proof. reflexivity. Qed.

Lemma recalculate_handles_attributes w g w' k :
  BKE_gpencil_editcurve_recalculate_handles w g = Some w' ->
  attributes w' k = attributes w k.
Proof.
  unfold BKE_gpencil_editcurve_recalculate_handles. intros Hr.
  destruct (strokes w !! g) as [s|]; simpl in Hr; [|discriminate].
  destruct (editcurve s) as [c|]; [|by injection Hr as <-].
  destruct (curves w !! c) as [cv|]; simpl in Hr; [|discriminate].
  by injection Hr as <-.
Qed.

Lemma update_geometry_attributes w g res w' k :
  BKE_gpencil_stroke_update_geometry_from_editcurve w g res = Some w' ->
  attributes w' k = attributes w k.
Proof.
  unfold BKE_gpencil_stroke_update_geometry_from_editcurve. intros Hr.
  destruct (strokes w !! g) as [s|] eqn:Hs; simpl in Hr; [|discriminate].
  destruct (editcurve s) as [c|]; [|by injection Hr as <-].
  destruct (curves w !! c) as [cv|]; simpl in Hr; [|discriminate].
  destruct (curve_samples res s cv) as [samples idx].
  injection Hr as <-. unfold attributes. simpl.
  destruct (decide (k = g)) as [->|Hk].
  - by rewrite lookup_insert_eq, Hs.
  - by rewrite lookup_insert_ne.
Qed.

Lemma set_alpha_attributes w tcd alpha w' k :
  gpencil_set_alpha_last_segment w tcd alpha = Some w' ->
  attributes w' k = attributes w k.
Proof.
  unfold gpencil_set_alpha_last_segment. intros Hr.
  destruct (strokes w !! gps tcd) as [s|] eqn:Hs; simpl in Hr; [|discriminate].
  destruct (curves w !! gpc tcd) as [cv|]; simpl in Hr; [|discriminate].
  destruct (length (curve_points cv)) as [|[|n]]; try by injection Hr as <-.
  destruct (curve_points cv !! n) as [old_last|]; simpl in Hr; [|discriminate].
  injection Hr as <-. unfold attributes. simpl.
  destruct (decide (k = gps tcd)) as [->|Hk].
  - by rewrite lookup_insert_eq, Hs.
  - by rewrite lookup_insert_ne.
Qed.

Lemma set_handle_type_attributes w tcd t w' k :
  gpencil_set_handle_type_last_point w tcd t = Some w' ->
  attributes w' k = attributes w k.
Proof.
  unfold gpencil_set_handle_type_last_point. intros Hr.
  destruct (curves w !! gpc tcd) as [cv|]; simpl in Hr; [|discriminate].
  destruct (update_last cv _) as [cv'|]; simpl in Hr; [|discriminate].
  by injection Hr as <-.
Qed.

Lemma curve_draw_update_attributes w tcd w' k :
  gpencil_curve_draw_update w tcd = Some w' ->
  attributes w' k = attributes w k.
Proof.
  unfold gpencil_curve_draw_update. intros Hr.
  destruct (curves w !! gpc tcd) as [cv|]; simpl in Hr; [|discriminate].
  destruct (state tcd).
  - destruct (update_last cv _) as [cv'|]; simpl in Hr; [|discriminate].
    destruct (BKE_gpencil_editcurve_recalculate_handles _ _) as [w1|] eqn:H1;
      simpl in Hr; [|discriminate].
    destruct (BKE_gpencil_stroke_update_geometry_from_editcurve _ _ _) as [w2|] eqn:H2;
      simpl in Hr; [|discriminate].
    rewrite (set_alpha_attributes _ _ _ _ _ Hr), (update_geometry_attributes _ _ _ _ _ H2).
    by rewrite (recalculate_handles_attributes _ _ _ _ H1).
  - by injection Hr as <-.
  - destruct (update_last cv _) as [cv'|]; simpl in Hr; [|discriminate].
    by rewrite (update_geometry_attributes _ _ _ _ _ Hr).
  - destruct (update_last cv _) as [cv'|]; simpl in Hr; [|discriminate].
    by rewrite (update_geometry_attributes _ _ _ _ _ Hr).
  - destruct (update_last cv _) as [cv'|]; simpl in Hr; [|discriminate].
    by rewrite (update_geometry_attributes _ _ _ _ _ Hr).
Qed.

Lemma push_curve_point_attributes w tcd w' k :
  gpencil_push_curve_point w tcd = Some w' ->
  attributes w' k = attributes w k.
Proof.
  unfold gpencil_push_curve_point. intros Hr.
  destruct (curves w !! gpc tcd) as [cv|]; simpl in Hr; [|discriminate].
  destruct (length (curve_points cv)) as [|n]; [discriminate|].
  destruct (_ !! n) as [old_last|]; simpl in Hr; [|discriminate].
  by rewrite (update_geometry_attributes _ _ _ _ _ Hr).
Qed.

Lemma pop_curve_point_attributes w tcd w' tcd' :
  gpencil_pop_curve_point w tcd = Some (w', tcd') ->
  attributes w' (gps tcd') = attributes w (gps tcd) /\
  is_cyclic tcd' = is_cyclic tcd /\ state tcd' = state tcd.
Proof.
  unfold gpencil_pop_curve_point. intros Hr.
  destruct (strokes w !! gps tcd) as [s|] eqn:Hs; simpl in Hr; [|discriminate].
  destruct (curves w !! gpc tcd) as [cv|]; simpl in Hr; [|discriminate].
  destruct (length (curve_points cv)) as [|n]; [discriminate|].
  destruct (BKE_gpencil_stroke_update_geometry_from_editcurve _ _ _) as [w1|] eqn:H1;
    simpl in Hr; [|discriminate].
  pose proof (update_geometry_attributes _ _ _ _ (fresh (dom (strokes w))) H1) as Ha.
  assert (Hfresh : strokes w !! fresh (dom (strokes w)) = None)
    by (apply not_elem_of_dom, is_fresh).
  assert (Hne : fresh (dom (strokes w)) ≠ gps tcd) by (intros E; congruence).
  unfold BKE_gpencil_free_stroke in Hr. simpl in Hr.
  destruct (strokes w1 !! gps tcd) as [s1|]; simpl in Hr; [|discriminate].
  injection Hr as <- <-. simpl. split; [|by split].
  unfold attributes in Ha |- *. simpl in Ha |- *.
  rewrite lookup_delete_ne by done. rewrite Ha, lookup_insert_eq, Hs. reflexivity.
Qed.

(** The stroke the tool works on has the settings of the brush, and its
    cyclic flag is the tool's [is_cyclic]. *)
Definition brush_stroke (w : world) (tcd : tGPDcurve_draw) : Prop :=
  attributes w (gps tcd)
  = Some (is_cyclic tcd, brush_size, brush_hardeness, brush_aspect_ratio, mat_idx).

Lemma modal_brush_stroke w tcd ev w' tcd' r :
  brush_stroke w tcd ->
  gpencil_curve_draw_modal w tcd ev = Some (w', Some tcd', r) ->
  brush_stroke w' tcd'.
Proof.
  unfold brush_stroke. intros Hb Hm. unfold gpencil_curve_draw_modal in Hm.
  change (attributes w (gps (set_imval tcd (mval ev)))
          = Some (is_cyclic (set_imval tcd (mval ev)), brush_size, brush_hardeness,
                  brush_aspect_ratio, mat_idx)) in Hb.
  revert Hb Hm. generalize (set_imval tcd (mval ev)). clear tcd. intros tcd Hb Hm.
  destruct (type ev).
  - unfold modal_keymap, modal_continue in Hm. repeat case_decide; simpl in Hm.
    + destruct (gpencil_pop_curve_point w tcd) as [[? ?]|]; simpl in Hm;
        [destruct (gpencil_curve_draw_confirm _ _); simpl in Hm|]; discriminate.
    + destruct (gpencil_curve_draw_confirm _ _); simpl in Hm; discriminate.
    + destruct (BKE_gpencil_free_stroke _ _); simpl in Hm; discriminate.
    + destruct (gpencil_set_handle_type_last_point _ _ _) as [w1|] eqn:E1;
        simpl in Hm; [|discriminate].
      destruct (gpencil_curve_draw_update _ _) as [w2|] eqn:E2; simpl in Hm; [|discriminate].
      injection Hm as <- <- _. simpl.
      rewrite (curve_draw_update_attributes _ _ _ _ E2).
      rewrite (set_handle_type_attributes _ _ _ _ _ E1). exact Hb.
    + injection Hm as <- <- _. exact Hb.
    + destruct (gpencil_set_handle_type_last_point _ _ _) as [w1|] eqn:E1;
        simpl in Hm; [|discriminate].
      destruct (gpencil_curve_draw_update _ _) as [w2|] eqn:E2; simpl in Hm; [|discriminate].
      injection Hm as <- <- _. simpl.
      rewrite (curve_draw_update_attributes _ _ _ _ E2).
      rewrite (set_handle_type_attributes _ _ _ _ _ E1). exact Hb.
    + injection Hm as <- <- _. exact Hb.
    + (* cyclic toggle *)
      destruct (strokes w !! gps tcd) as [s|] eqn:Hs; simpl in Hm; [|discriminate].
      destruct (gpencil_curve_draw_update _ _) as [w2|] eqn:E2; simpl in Hm; [|discriminate].
      injection Hm as <- <- _. simpl.
      rewrite (curve_draw_update_attributes _ _ _ _ E2).
      unfold attributes in Hb |- *. simpl. rewrite lookup_insert_eq. simpl.
      rewrite Hs in Hb. simpl in Hb. injection Hb as _ -> -> -> ->. reflexivity.
    + (* delete last, in move *)
      destruct (gpencil_pop_curve_point w tcd) as [[w1 tcd1]|] eqn:E1;
        simpl in Hm; [|discriminate].
      destruct (gpencil_curve_draw_update _ _) as [w2|] eqn:E2; simpl in Hm; [|discriminate].
      injection Hm as <- <- _. simpl.
      destruct (pop_curve_point_attributes _ _ _ _ E1) as (Ha & Hc & _).
      rewrite (curve_draw_update_attributes _ _ _ _ E2), Ha, Hc. exact Hb.
    + destruct (gpencil_curve_draw_update _ _) as [w2|] eqn:E2; simpl in Hm; [|discriminate].
      injection Hm as <- <- _. simpl.
      rewrite (curve_draw_update_attributes _ _ _ _ E2). exact Hb.
    + destruct (gpencil_curve_draw_update _ _) as [w2|] eqn:E2; simpl in Hm; [|discriminate].
      injection Hm as <- <- _. simpl.
      rewrite (curve_draw_update_attributes _ _ _ _ E2). exact Hb.
    + injection Hm as <- <- _. exact Hb.
    + simpl in Hm.
      destruct (curves w !! gpc tcd) as [cv|]; simpl in Hm; [|discriminate].
      destruct (last_index cv) as [i|]; simpl in Hm; [|discriminate].
      destruct (curve_points cv !! i) as [cpt|]; simpl in Hm; [|discriminate].
      destruct (gpencil_curve_draw_update _ _) as [w2|] eqn:E2; simpl in Hm; [|discriminate].
      injection Hm as <- <- _. simpl.
      rewrite (curve_draw_update_attributes _ _ _ _ E2). exact Hb.
    + injection Hm as <- <- _. exact Hb.
  - unfold modal_leftmouse, modal_continue in Hm. repeat case_decide; simpl in Hm.
    + injection Hm as <- <- _. exact Hb.
    + injection Hm as <- <- _. exact Hb.
    + injection Hm as <- <- _. exact Hb.
    + destruct (gpencil_push_curve_point _ _) as [w1|] eqn:E1; simpl in Hm; [|discriminate].
      destruct (gpencil_curve_draw_update _ _) as [w2|] eqn:E2; simpl in Hm; [|discriminate].
      injection Hm as <- <- _. simpl.
      rewrite (curve_draw_update_attributes _ _ _ _ E2).
      rewrite (push_curve_point_attributes _ _ _ _ E1). exact Hb.
    + destruct (gpencil_curve_draw_update _ _) as [w2|] eqn:E2; simpl in Hm; [|discriminate].
      injection Hm as <- <- _. simpl.
      rewrite (curve_draw_update_attributes _ _ _ _ E2). exact Hb.
    + injection Hm as <- <- _. exact Hb.
  - unfold modal_mousemove, modal_continue in Hm.
    case_decide; [destruct (Qlt_le_dec _ _)|]; simpl in Hm.
    + destruct (gpencil_set_handle_type_last_point _ _ _) as [w1|] eqn:E1;
        simpl in Hm; [|discriminate].
      destruct (gpencil_curve_draw_update _ _) as [w2|] eqn:E2; simpl in Hm; [|discriminate].
      injection Hm as <- <- _. simpl.
      rewrite (curve_draw_update_attributes _ _ _ _ E2).
      rewrite (set_handle_type_attributes _ _ _ _ _ E1). exact Hb.
    + destruct (gpencil_curve_draw_update _ _) as [w2|] eqn:E2; simpl in Hm; [|discriminate].
      injection Hm as <- <- _. simpl.
      rewrite (curve_draw_update_attributes _ _ _ _ E2). exact Hb.
    + destruct (gpencil_curve_draw_update _ _) as [w2|] eqn:E2; simpl in Hm; [|discriminate].
      injection Hm as <- <- _. simpl.
      rewrite (curve_draw_update_attributes _ _ _ _ E2). exact Hb.
  - unfold modal_continue in Hm. injection Hm as <- <- _. exact Hb.
Qed.

(** X17.  Whatever events the running tool has handled, its stroke has the
    settings the invocation took from the brush (thickness, hardness, aspect
    ratio, material), also after DELETE_LAST has replaced the stroke by a new
    one, and the cyclic flag of the stroke is the tool's [is_cyclic]. *)
Theorem stroke_keeps_brush_settings
    (w0 : world) (ev0 : wmEvent) (w : world) (tcd : tGPDcurve_draw) :
  reachable w0 ev0 w tcd ->
  exists s,
    strokes w !! gps tcd = Some s /\
    thickness s = brush_size /\ hardeness s = brush_hardeness /\
    aspect_ratio s = brush_aspect_ratio /\ mat_nr s = mat_idx /\
    gps_cyclic s = is_cyclic tcd.
Proof.
  intros Hreach.
  assert (Hb : brush_stroke w tcd).
  { induction Hreach as [w tcd r Hi | w tcd ev w' tcd' r _ IH Hm].
    - unfold curve_draw_invoke_stroke, curve_draw_init_stroke in Hi.
      destruct (gpencil_curve_draw_update _ _) as [w1|] eqn:H1; simpl in Hi; [|discriminate].
      injection Hi as <- <- _. unfold brush_stroke.
      rewrite (curve_draw_update_attributes _ _ _ _ H1). unfold attributes. simpl.
      rewrite lookup_insert_eq. reflexivity.
    - by eapply modal_brush_stroke. }
  unfold brush_stroke, attributes in Hb.
  destruct (strokes w !! gps tcd) as [s|]; [|discriminate].
  simpl in Hb. injection Hb as H1 H2 H3 H4 H5. exists s. auto 10.
Qed.


(** *** Thickness mode *)

Lemma fmap_imap_same {A B} (f : A -> B) (g : nat -> A -> A) (l : list A) :
  (forall i a, f (g i a) = f a) -> f <$> imap g l = f <$> l.
Proof.
  revert g. induction l as [|a l IH]; intros g Hg; simpl; [reflexivity|].
  rewrite Hg. f_equal. apply IH. intros i b. apply Hg.
Qed.

Lemma update_geometry_pressures w g res w' c cv :
  BKE_gpencil_stroke_update_geometry_from_editcurve w g res = Some w' ->
  curves w !! c = Some cv ->
  exists cv', curves w' !! c = Some cv' /\
              cpt_pressure <$> curve_points cv' = cpt_pressure <$> curve_points cv.
Proof.
  unfold BKE_gpencil_stroke_update_geometry_from_editcurve. intros Hr Hc.
  destruct (strokes w !! g) as [s|]; simpl in Hr; [|discriminate].
  destruct (editcurve s) as [c0|]; [|injection Hr as <-; eauto].
  destruct (curves w !! c0) as [cv0|] eqn:Hc0; simpl in Hr; [|discriminate].
  destruct (curve_samples res s cv0) as [samples idx].
  injection Hr as <-. simpl.
  destruct (decide (c = c0)) as [->|Hne].
  - rewrite lookup_insert_eq. eexists. split; [reflexivity|]. simpl.
    assert (cv0 = cv) by congruence. subst cv0.
    apply fmap_imap_same. intros i cpt. by destruct (idx !! i).
  - rewrite lookup_insert_ne by done. eauto.
Qed.

(** X18.  In thickness mode a mouse move sets the pressure of the last
    control point to the pressure it had when the mode was entered plus a
    tenth of the Manhattan distance of the cursor from where the mode was
    entered, counted positive only when the cursor is to the right of that
    place, and never lets it go under zero; the pressures of the other
    control points are not changed and the tool stays in thickness mode. *)
Theorem thickness_drag_sets_clamped_pressure
    (w0 : world) (ev0 : wmEvent) (w : world) (tcd : tGPDcurve_draw) (ev : wmEvent) :
  world_wf w0 ->
  reachable w0 ev0 w tcd ->
  state tcd = IN_SET_THICKNESS ->
  type ev = MOUSEMOVE ->
  let move := sub_v2_v2v2_int (mval ev) (imval_start tcd) in
  let dir := if (0 <? move.1)%Z then 1%Z else (-1)%Z in
  let p := (prev_pressure tcd
            + inject_Z dir * (inject_Z (len_manhattan_v2_int move) / 10))%Q in
  let clamped := if Qlt_le_dec p 0 then 0%Q else p in
  exists w' tcd' cv cv' ps p0,
    gpencil_curve_draw_modal w tcd ev = Some (w', Some tcd', OPERATOR_RUNNING_MODAL) /\
    state tcd' = IN_SET_THICKNESS /\
    prev_pressure tcd' = prev_pressure tcd /\ imval_start tcd' = imval_start tcd /\
    gpc tcd' = gpc tcd /\
    curves w !! gpc tcd = Some cv /\ curves w' !! gpc tcd = Some cv' /\
    cpt_pressure <$> curve_points cv = ps ++ [p0] /\
    cpt_pressure <$> curve_points cv' = ps ++ [clamped] /\
    (0 <= clamped)%Q.
Proof.
  intros Hwf Hreach Hst Hty move dir p clamped.
  destruct (reachable_at w0 ev0 w tcd Hwf Hreach) as (sh0 & x & Hat).
  destruct (tool_at_lookup _ _ _ _ _ Hat) as (s & cv & Hs & He & Hc & Hsh).
  destruct (shape_snoc_inv cv sh0 x Hsh) as (pts0 & cpt & Hp & _).
  unfold gpencil_curve_draw_modal, modal_mousemove, modal_continue. rewrite Hty. simpl.
  rewrite Hst. rewrite decide_False by discriminate. simpl.
  unfold gpencil_curve_draw_update. simpl. rewrite Hc, Hst. simpl.
  rewrite (update_last_snoc cv pts0 cpt _ Hp). simpl.
  fold move. fold dir. fold p. fold clamped.
  match goal with
  | |- context [set_curve w (gpc tcd) ?cv1] =>
      pose proof (tool_at_set_curve _ _ _ _ _ cv1 Hat) as Hat1;
      destruct (update_geometry_at _ _ _ _ _ (resolution tcd) Hat1) as (w2 & Hg & _);
      destruct (update_geometry_pressures _ _ _ _ (gpc tcd) cv1 Hg
                  (lookup_insert_eq _ _ _)) as (cv' & Hc' & Hpr)
  end.
  rewrite Hg. simpl.
  eexists w2, _, cv, cv', (cpt_pressure <$> pts0), (cpt_pressure cpt).
  split; [reflexivity|]. simpl.
  split; [reflexivity|]. split; [reflexivity|]. split; [reflexivity|].
  split; [reflexivity|]. split; [reflexivity|]. split; [exact Hc'|].
  split; [by rewrite Hp, fmap_app|].
  split; [rewrite Hpr; simpl; by rewrite fmap_app|].
  unfold clamped. destruct (Qlt_le_dec p 0); [apply Qle_refl | assumption].
Qed.


End tool.

(** ** A concrete view and a concrete session

    An orthographic view looking down the z axis with the drawing plane at
    z = 0: a window position unprojects to itself.  The drag threshold is
    three pixels; handles are left where they are; a curve is sampled at its
    control points.  The layer matrices play no part in what is proved: a
    matrix is kept as the rows of the location and of the scale it is made
    from, and inverting leaves it as it is. *)

Definition fixture_len (a b : V2i) : Q :=
  inject_Z (Z.sqrt ((a.1 - b.1) * (a.1 - b.1) + (a.2 - b.2) * (a.2 - b.2))).

Definition fixture_recalculate (s : bGPDstroke) (l : list bGPDcurve_point)
    : list (V3 * V3) :=
  map (fun p => (vec0 (bezt p), vec2 (bezt p))) l.

Definition fixture_samples (r : Z) (s : bGPDstroke) (c : bGPDcurve)
    : list bGPDspoint * list Z :=
  (map (fun p => {| pt_co := vec1 (bezt p); pt_pressure := cpt_pressure p;
                    pt_strength := cpt_strength p |}) (curve_points c),
   map Z.of_nat (seq 0 (length (curve_points c)))).

#[local] Instance fixture_env : ToolEnv := {|
  drawing_reference := (0, 0, 0)%Q;
  ED_view3d_calc_zfac := fun _ => 1%Q;
  ED_view3d_project_float_global := fun _ => Some (0%Q, 0%Q);
  ED_view3d_win_to_delta := fun m z => (m.1, m.2, 0%Q);
  WM_event_drag_threshold := fun _ => 3%Q;
  len_v2v2_int := fixture_len;
  KM_PRESS := 1;
  KM_RELEASE := 2;
  recalculate_handles := fixture_recalculate;
  curve_samples := fixture_samples;
  curve_edit_resolution := 32;
  brush_size := 10;
  brush_hardeness := 1;
  brush_aspect_ratio := (1, 1)%Q;
  mat_idx := 0;
  loc_eul_size_to_mat4 := fun l r s => [[l.1.1; l.1.2; l.2]; [s.1.1; s.1.2; s.2]];
  invert_m4_m4 := fun m => m
|}.

(** The frame already holds one plain stroke, number 5. *)
Definition fixture_old_stroke : bGPDstroke :=
  {| points := [{| pt_co := (1, 2, 0)%Q; pt_pressure := 1; pt_strength := 1 |}];
     editcurve := None; gps_cyclic := false; thickness := 4; hardeness := 1;
     aspect_ratio := (1, 1)%Q; mat_nr := 0 |}.

Definition fixture_world : world :=
  {| strokes := {[ 5%nat := fixture_old_stroke ]}; curves := ∅; frame_strokes := [5%nat] |}.

Lemma fixture_world_wf : world_wf fixture_world.
Proof.
  intros x Hx. apply list_elem_of_singleton in Hx. subst x.
  exists fixture_old_stroke. reflexivity.
Defined.

Definition fixture_click : wmEvent :=
  {| type := LEFTMOUSE; val := 1; mval := (100, 100)%Z |}.
Definition fixture_drag : wmEvent :=
  {| type := MOUSEMOVE; val := 0; mval := (150, 100)%Z |}.
Definition fixture_release : wmEvent :=
  {| type := LEFTMOUSE; val := 2; mval := (150, 100)%Z |}.
Definition fixture_confirm : wmEvent :=
  {| type := EVT_MODAL_MAP; val := CD_MODAL_CONFIRM; mval := (150, 100)%Z |}.
Definition fixture_cancel : wmEvent :=
  {| type := EVT_MODAL_MAP; val := CD_MODAL_CANCEL; mval := (150, 100)%Z |}.
Definition fixture_delete_last : wmEvent :=
  {| type := EVT_MODAL_MAP; val := CD_MODAL_DELETE_LAST; mval := (170, 120)%Z |}.

Definition fixture_idle : tGPDcurve_draw :=
  {| gps := 0; gpc := 0; imval := (0, 0)%Z; imval_prev := (0, 0)%Z;
     imval_start := (0, 0)%Z; imval_end := (0, 0)%Z;
     is_mouse_down := false; is_cyclic := false; prev_pressure := 0;
     resolution := 32; state := IN_MOVE |}.

(** The world and the tool data after the click and the given events. *)
Definition fixture_after (evs : list wmEvent) : world * tGPDcurve_draw :=
  match curve_draw_session fixture_world fixture_click evs with
  | Some (w, Some tcd, _) => (w, tcd)
  | _ => (fixture_world, fixture_idle)
  end.

Lemma fixture_reach_click :
  reachable fixture_world fixture_click (fixture_after []).1 (fixture_after []).2.
Proof. eapply reach_invoke. vm_compute. reflexivity. Defined.

Lemma fixture_reach_drag :
  reachable fixture_world fixture_click
    (fixture_after [fixture_drag]).1 (fixture_after [fixture_drag]).2.
Proof.
  eapply (reach_modal _ _ _ _ fixture_drag); [exact fixture_reach_click|].
  vm_compute. reflexivity.
Defined.

Lemma fixture_reach_release :
  reachable fixture_world fixture_click
    (fixture_after [fixture_drag; fixture_release]).1
    (fixture_after [fixture_drag; fixture_release]).2.
Proof.
  eapply (reach_modal _ _ _ _ fixture_release); [exact fixture_reach_drag|].
  vm_compute. reflexivity.
Defined.

Example fixture_states :
  state (fixture_after []).2 = IN_SET_VECTOR /\
  state (fixture_after [fixture_drag]).2 = IN_DRAG_ALIGNED_HANDLE /\
  state (fixture_after [fixture_drag; fixture_release]).2 = IN_MOVE /\
  (length <$> last_stroke_curve_points (fixture_after [fixture_drag; fixture_release]).1)
    = Some 2%nat.
Proof. vm_compute. auto. Qed.


(** The round trip as the specification describes its result: the stroke
    linked last in the frame has an edit curve of exactly two control
    points, the first with vector handles at [first], the second with
    aligned handles. *)
Definition spec_round_trip_two_points (first : V3) (w : world) : Prop :=
  exists p1 p2,
    last_stroke_curve_points w = Some [p1; p2] /\
    h1 (bezt p1) = HD_VECT /\ h2 (bezt p1) = HD_VECT /\ vec1 (bezt p1) = first /\
    h1 (bezt p2) = HD_ALIGN /\ h2 (bezt p2) = HD_ALIGN.

Definition fixture_confirmed : world :=
  match curve_draw_session fixture_world fixture_click
          [fixture_drag; fixture_release; fixture_confirm] with
  | Some (w, _, _) => w
  | None => fixture_world
  end.

(** C2, as stated, fails.  Click at (100, 100), drag to (150, 100), release,
    CONFIRM: the tool finishes, and the persisted curve has one control
    point, not two; it is at the click position with aligned handles, its
    handles at (50, 100) and (150, 100) mirroring the drag.  The release
    pushed a second point with vector handles, the preview point, and
    CONFIRM in MOVE pops it before persisting. *)
Lemma round_trip_two_points_counterexample :
  curve_draw_session fixture_world fixture_click
    [fixture_drag; fixture_release; fixture_confirm]
    = Some (fixture_confirmed, None, OPERATOR_FINISHED) /\
  (map (fun p => (shape_pt p, vec0 (bezt p), vec2 (bezt p)))
     <$> last_stroke_curve_points fixture_confirmed)
    = Some [((HD_ALIGN, HD_ALIGN, (100, 100, 0)%Q), (50, 100, 0)%Q, (150, 100, 0)%Q)] /\
  ~ spec_round_trip_two_points
      (gpencil_project_mval_to_v3 (mval fixture_click)) fixture_confirmed.
Proof.
  split; [vm_compute; reflexivity|].
  split; [vm_compute; reflexivity|].
  intros (p1 & p2 & Hl & _).
  apply (f_equal (fmap (M:=option) length)) in Hl.
  vm_compute in Hl. discriminate Hl.
Qed.

(** The drag of the first point is measured from [imval_start], which the
    invocation leaves at (0, 0).  Click at (4, 0) and move to (0, 0): four
    pixels from the click, past the threshold of three, but no distance from
    (0, 0), so the tool stays in SET_VECTOR and sets no aligned handles;
    after the release and CONFIRM the persisted point has the handle types
    of zeroed memory. *)
Example fixture_drag_measured_from_origin :
  let click := {| type := LEFTMOUSE; val := 1; mval := (4, 0)%Z |} in
  let move := {| type := MOUSEMOVE; val := 0; mval := (0, 0)%Z |} in
  let release := {| type := LEFTMOUSE; val := 2; mval := (0, 0)%Z |} in
  (3 < len_v2v2_int (mval move) (mval click))%Q /\
  match curve_draw_session fixture_world click [move] with
  | Some (_, Some tcd, _) => state tcd = IN_SET_VECTOR
  | _ => False
  end /\
  match curve_draw_session fixture_world click [move; release; fixture_confirm] with
  | Some (w, None, OPERATOR_FINISHED) =>
      option_map (map shape_pt) (last_stroke_curve_points w)
      = Some [(HD_FREE, HD_FREE, (4, 0, 0)%Q)]
  | _ => False
  end.
Proof. vm_compute. auto. Qed.

Lemma round_trip_one_aligned_point_witness :
  exists w g c s cv p,
    curve_draw_session fixture_world fixture_click
      [fixture_drag; fixture_release; fixture_confirm]
      = Some (w, None, OPERATOR_FINISHED) /\
    frame_strokes w = frame_strokes fixture_world ++ [g] /\
    strokes w !! g = Some s /\ editcurve s = Some c /\ curves w !! c = Some cv /\
    curve_points cv = [p] /\
    h1 (bezt p) = HD_ALIGN /\ h2 (bezt p) = HD_ALIGN /\
    vec1 (bezt p) = gpencil_project_mval_to_v3 (mval fixture_click).
Proof.
  apply (round_trip_one_aligned_point fixture_world fixture_click
           fixture_drag fixture_release fixture_confirm).
  - exact fixture_world_wf.
  - simpl. lia.
  - reflexivity.
  - vm_compute. reflexivity.
  - vm_compute. reflexivity.
  - reflexivity.
  - reflexivity.
  - reflexivity.
  - reflexivity.
Defined.

(** A data block with one layer, the active one, whose only frame, at
    frame 1, holds the plain stroke number 5: the view of that frame is
    [fixture_world]. *)
Definition fixture_layer : bGPDlayer :=
  {| gpl_info := "GP_Layer";
     gpl_frames := [{| framenum := 1; gpf_strokes := [5%nat] |}];
     gpl_actframe := Some 0%nat;
     gpl_location := zero_v3; gpl_rotation := zero_v3; gpl_scale := (1, 1, 1)%Q;
     layer_mat := []; layer_invmat := [] |}.

Definition fixture_gpd : bGPdata :=
  {| gpd_layers := [fixture_layer]; gpd_active := Some 0%nat;
     gpd_strokes := {[ 5%nat := fixture_old_stroke ]}; gpd_curves := ∅ |}.

Lemma fixture_gpd_wf : gpd_wf fixture_gpd.
Proof.
  intros gpl gpf l f x Hl Hf Hx.
  destruct gpl as [|gpl]; [|discriminate Hl]. injection Hl as <-.
  destruct gpf as [|gpf]; [|discriminate Hf]. injection Hf as <-.
  apply list_elem_of_singleton in Hx. subst x.
  exists fixture_old_stroke. reflexivity.
Defined.

(** The data block and the tool data after the click at the scene frame
    [cfra], and after the drag that follows. *)
Definition fixture_invoked (cfra : Z) (retain_last : bool) : bGPdata * customdata :=
  match gpencil_curve_draw_invoke fixture_gpd cfra retain_last fixture_click with
  | Some (gpd, Some cd, _) => (gpd, cd)
  | _ => (fixture_gpd,
          {| tcd_gpl := 0; tcd_gpf := 0; tcd_cframe := 0; tcd_tool := fixture_idle |})
  end.

Definition fixture_dragged (cfra : Z) (retain_last : bool) : bGPdata * customdata :=
  match curve_draw_modal_gpd (fixture_invoked cfra retain_last).1
          (fixture_invoked cfra retain_last).2 fixture_drag with
  | Some (gpd, Some cd, _) => (gpd, cd)
  | _ => fixture_invoked cfra retain_last
  end.

Definition fixture_cancelled (cfra : Z) (retain_last : bool) : bGPdata :=
  match curve_draw_modal_gpd (fixture_dragged cfra retain_last).1
          (fixture_dragged cfra retain_last).2 fixture_cancel with
  | Some (gpd, _, _) => gpd
  | None => fixture_gpd
  end.

Lemma fixture_reach_gpd_drag (cfra : Z) (retain_last : bool) :
  (cfra = 1%Z \/ cfra = 3%Z) ->
  reachable_gpd fixture_gpd cfra retain_last fixture_click
    (fixture_dragged cfra retain_last).1 (fixture_dragged cfra retain_last).2.
Proof.
  intros [-> | ->]; destruct retain_last;
    (eapply (reach_gpd_modal _ _ _ _ _ _ fixture_drag);
     [eapply reach_gpd_invoke|]; vm_compute; reflexivity).
Defined.

(** The frame numbers and stroke lists of the layers, and the stroke list
    of the active frame of the active layer. *)
Definition frame_lists (gpd : bGPdata) : list (list (Z * list nat)) :=
  map (fun l => map (fun f => (framenum f, gpf_strokes f)) (gpl_frames l)) (gpd_layers gpd).

Definition active_frame_strokes (gpd : bGPdata) : option (list nat) :=
  gpl ← gpd_active gpd;
  l ← gpd_layers gpd !! gpl;
  i ← gpl_actframe l;
  f ← gpl_frames l !! i;
  Some (gpf_strokes f).

(** Invoking, dragging and cancelling at frame 1, where the layer has a
    frame, and at frame 3, where it has none: blank, and with a copy of the
    stroke of the prior frame. *)
Example fixture_cancelled_frames :
  frame_lists (fixture_cancelled 1 false) = [[(1%Z, [5%nat])]] /\
  frame_lists (fixture_cancelled 3 false) = [[(1%Z, [5%nat]); (3%Z, [])]] /\
  frame_lists (fixture_cancelled 3 true) = [[(1%Z, [5%nat]); (3%Z, [6%nat])]].
Proof. vm_compute. auto. Qed.

(** Invoking on a data block without a layer makes the layer Curve with a
    blank frame at the scene frame, in which the tool links its stroke. *)
Example fixture_invoke_without_layer :
  (fun r => (map gpl_info (gpd_layers r.1.1), frame_lists r.1.1, gpd_active r.1.1))
    <$> gpencil_curve_draw_invoke
          {| gpd_layers := []; gpd_active := None; gpd_strokes := ∅; gpd_curves := ∅ |}
          7 false fixture_click
  = Some (["Curve"], [[(7%Z, [0%nat])]], Some 0%nat).
Proof. vm_compute. reflexivity. Qed.

(** C3, as stated, fails.  The scene is at frame 3 and the active layer has
    one frame, at frame 1, the active frame, with stroke 5 linked.  Click,
    drag, CANCEL: the tool is cancelled and its stroke is gone, but the
    blank frame that the invocation added at frame 3 is still there and is
    the active frame: the stroke list of the active frame was [5] before the
    invocation and is empty after the cancellation. *)
Lemma cancel_restores_frame_counterexample :
  gpencil_curve_draw_invoke fixture_gpd 3 false fixture_click
    = Some ((fixture_invoked 3 false).1, Some (fixture_invoked 3 false).2,
            OPERATOR_RUNNING_MODAL) /\
  curve_draw_modal_gpd (fixture_invoked 3 false).1 (fixture_invoked 3 false).2
    fixture_drag
    = Some ((fixture_dragged 3 false).1, Some (fixture_dragged 3 false).2,
            OPERATOR_RUNNING_MODAL) /\
  curve_draw_modal_gpd (fixture_dragged 3 false).1 (fixture_dragged 3 false).2
    fixture_cancel
    = Some (fixture_cancelled 3 false, None, OPERATOR_CANCELLED) /\
  active_frame_strokes fixture_gpd = Some [5%nat] /\
  active_frame_strokes (fixture_cancelled 3 false) = Some [] /\
  frame_lists fixture_gpd = [[(1%Z, [5%nat])]] /\
  frame_lists (fixture_cancelled 3 false) = [[(1%Z, [5%nat]); (3%Z, [])]] /\
  active_frame_strokes (fixture_cancelled 3 false) <> active_frame_strokes fixture_gpd.
Proof.
  split; [vm_compute; reflexivity|]. split; [vm_compute; reflexivity|].
  split; [vm_compute; reflexivity|]. split; [reflexivity|].
  split; [vm_compute; reflexivity|]. split; [reflexivity|].
  split; [vm_compute; reflexivity|]. vm_compute. discriminate.
Qed.

Lemma cancel_restores_frame_witness :
  curve_draw_modal_gpd (fixture_dragged 1 false).1 (fixture_dragged 1 false).2
    fixture_cancel
    = Some (fixture_cancelled 1 false, None, OPERATOR_CANCELLED) /\
  gpd_strokes (fixture_cancelled 1 false)
    !! gps (tcd_tool (fixture_dragged 1 false).2) = None /\
  gpl_frames <$> gpd_layers (fixture_cancelled 1 false)
    = gpl_frames <$> gpd_layers fixture_gpd /\
  gpd_strokes (fixture_cancelled 1 false) = gpd_strokes fixture_gpd /\
  gpd_curves (fixture_cancelled 1 false) = gpd_curves fixture_gpd.
Proof.
  destruct (cancel_restores_frame fixture_gpd 1 false fixture_click
              (fixture_dragged 1 false).1 (fixture_dragged 1 false).2 fixture_cancel
              fixture_gpd_wf (fixture_reach_gpd_drag 1 false (or_introl eq_refl))
              eq_refl eq_refl)
    as (acquired & _ & Hm & Hgs & _ & Hsame).
  assert (Hacq : acquired = fixture_cancelled 1 false).
  { unfold fixture_cancelled. by rewrite Hm. }
  subst acquired.
  destruct (Hsame 0%nat fixture_layer eq_refl eq_refl) as (Hf & Hs & Hc & _).
  { exists {| framenum := 1; gpf_strokes := [5%nat] |}.
    split; [by apply list_elem_of_singleton | reflexivity]. }
  split; [exact Hm|]. split; [exact Hgs|]. split; [exact Hf|].
  split; [exact Hs | exact Hc].
Defined.

Lemma cancel_callback_leaves_stroke_witness :
  exists s cv,
    gpencil_curve_draw_cancel (fixture_after [fixture_drag; fixture_release]).1
      (fixture_after [fixture_drag; fixture_release]).2
      = ((fixture_after [fixture_drag; fixture_release]).1, None) /\
    frame_strokes (fixture_after [fixture_drag; fixture_release]).1
      = frame_strokes fixture_world
          ++ [gps (fixture_after [fixture_drag; fixture_release]).2] /\
    (gps (fixture_after [fixture_drag; fixture_release]).2
       ∉ frame_strokes fixture_world) /\
    strokes fixture_world !! gps (fixture_after [fixture_drag; fixture_release]).2 = None /\
    strokes (fixture_after [fixture_drag; fixture_release]).1
      !! gps (fixture_after [fixture_drag; fixture_release]).2 = Some s /\
    editcurve s = Some (gpc (fixture_after [fixture_drag; fixture_release]).2) /\
    curves (fixture_after [fixture_drag; fixture_release]).1
      !! gpc (fixture_after [fixture_drag; fixture_release]).2 = Some cv.
Proof.
  apply (cancel_callback_leaves_stroke fixture_world fixture_click).
  - exact fixture_world_wf.
  - exact fixture_reach_release.
Defined.

Lemma delete_last_command_witness :
  (exists w' tcd',
     gpencil_curve_draw_modal (fixture_after [fixture_drag; fixture_release]).1
       (fixture_after [fixture_drag; fixture_release]).2 fixture_delete_last
       = Some (w', Some tcd', OPERATOR_RUNNING_MODAL) /\
     state tcd' = IN_MOVE /\
     gps tcd' ≠ gps (fixture_after [fixture_drag; fixture_release]).2 /\
     strokes w' !! gps (fixture_after [fixture_drag; fixture_release]).2 = None /\
     frame_strokes w' = frame_strokes fixture_world ++ [gps tcd']) /\
  (exists w' tcd',
     gpencil_curve_draw_modal (fixture_after [fixture_drag]).1
       (fixture_after [fixture_drag]).2 fixture_delete_last
       = Some (w', Some tcd', OPERATOR_RUNNING_MODAL) /\
     state tcd' = IN_MOVE /\
     gps tcd' = gps (fixture_after [fixture_drag]).2 /\
     frame_strokes w' = frame_strokes (fixture_after [fixture_drag]).1).
Proof.
  split.
  - destruct (delete_last_command fixture_world fixture_click _ _ fixture_delete_last
                fixture_world_wf fixture_reach_release eq_refl eq_refl) as [Hmove _].
    assert (Hcv : exists cv,
               curves (fixture_after [fixture_drag; fixture_release]).1
                 !! gpc (fixture_after [fixture_drag; fixture_release]).2 = Some cv /\
               2 <= length (curve_points cv)).
    { vm_compute. eexists. split; [reflexivity|]. simpl. lia. }
    destruct Hcv as (cv & Hcv & Hlen).
    destruct (Hmove ltac:(vm_compute; reflexivity) cv Hcv Hlen)
      as (w' & tcd' & s' & cv' & sh & a & b & v & x & Hm & Hst & Hne & _ & Hold & _ & _ & HF & _).
    exists w', tcd'. auto.
  - destruct (delete_last_command fixture_world fixture_click _ _ fixture_delete_last
                fixture_world_wf fixture_reach_drag eq_refl eq_refl) as [_ Hdrag].
    destruct (Hdrag ltac:(left; vm_compute; reflexivity))
      as (w' & tcd' & cv & cv' & Hm & Hst & Hg & _ & HF & _).
    exists w', tcd'. auto.
Defined.


(** More sessions: a release at once and a DELETE_LAST leave the preview
    point alone; the thickness command at the click position. *)
Definition fixture_set_thickness : wmEvent :=
  {| type := EVT_MODAL_MAP; val := CD_MODAL_SET_THICKNESS; mval := (100, 100)%Z |}.
Definition fixture_thicken : wmEvent :=
  {| type := MOUSEMOVE; val := 0; mval := (120, 100)%Z |}.

Lemma fixture_reach_lone_preview :
  reachable fixture_world fixture_click
    (fixture_after [fixture_release; fixture_delete_last]).1
    (fixture_after [fixture_release; fixture_delete_last]).2.
Proof.
  eapply (reach_modal _ _ _ _ fixture_delete_last).
  - eapply (reach_modal _ _ _ _ fixture_release); [exact fixture_reach_click|].
    vm_compute. reflexivity.
  - vm_compute. reflexivity.
Defined.

(** C9 at the failing input.  Click, release at once, DELETE_LAST: the tool
    is in MOVE and its edit curve has one point, the preview point; no
    committed point is left.  On DELETE_LAST once more,
    [gpencil_pop_curve_point] replaces the stroke by one whose edit curve
    has no point at all, and [gpencil_curve_draw_update] then addresses the
    last point of that curve, the point before its array: the callback does
    not run to its end. *)
Theorem delete_last_without_committed_point :
  curve_draw_session fixture_world fixture_click [fixture_release; fixture_delete_last]
    = Some ((fixture_after [fixture_release; fixture_delete_last]).1,
            Some (fixture_after [fixture_release; fixture_delete_last]).2,
            OPERATOR_RUNNING_MODAL) /\
  state (fixture_after [fixture_release; fixture_delete_last]).2 = IN_MOVE /\
  (length <$> last_stroke_curve_points
                (fixture_after [fixture_release; fixture_delete_last]).1) = Some 1 /\
  (exists w' tcd',
     gpencil_pop_curve_point (fixture_after [fixture_release; fixture_delete_last]).1
       (fixture_after [fixture_release; fixture_delete_last]).2 = Some (w', tcd') /\
     last_stroke_curve_points w' = Some [] /\
     gpencil_curve_draw_update w' tcd' = None) /\
  gpencil_curve_draw_modal (fixture_after [fixture_release; fixture_delete_last]).1
    (fixture_after [fixture_release; fixture_delete_last]).2 fixture_delete_last = None /\
  curve_draw_session fixture_world fixture_click
    [fixture_release; fixture_delete_last; fixture_delete_last] = None.
Proof.
  split; [vm_compute; reflexivity|]. split; [vm_compute; reflexivity|].
  split; [vm_compute; reflexivity|]. split.
  - destruct (gpencil_pop_curve_point _ _) as [[w' tcd']|] eqn:Hpop;
      [|vm_compute in Hpop; discriminate Hpop].
    exists w', tcd'. split; [reflexivity|].
    vm_compute in Hpop. injection Hpop as <- <-.
    split; vm_compute; reflexivity.
  - split; vm_compute; reflexivity.
Qed.

Lemma fixture_reach_thickness :
  reachable fixture_world fixture_click
    (fixture_after [fixture_set_thickness]).1 (fixture_after [fixture_set_thickness]).2.
Proof.
  eapply (reach_modal _ _ _ _ fixture_set_thickness); [exact fixture_reach_click|].
  vm_compute. reflexivity.
Defined.

Lemma running_tool_leaves_other_strokes_witness :
  let w := (fixture_after [fixture_drag; fixture_release]).1 in
  let tcd := (fixture_after [fixture_drag; fixture_release]).2 in
  strokes w !! 5%nat = Some fixture_old_stroke /\
  frame_strokes w = [5%nat; gps tcd] /\
  exists cv, curves w !! gpc tcd = Some cv /\ curve_points cv <> [].
Proof.
  intros w tcd.
  destruct (running_tool_leaves_other_strokes fixture_world fixture_click w tcd
              fixture_world_wf fixture_reach_release) as (Hs & _ & _ & _ & Hf & Hcv).
  split; [apply Hs; reflexivity|]. split; [exact Hf | exact Hcv].
Defined.

Lemma modal_fails_only_on_lone_preview_point_witness :
  gpencil_curve_draw_modal
    (fixture_after [fixture_release; fixture_delete_last]).1
    (fixture_after [fixture_release; fixture_delete_last]).2 fixture_delete_last = None /\
  gpencil_curve_draw_modal
    (fixture_after [fixture_release; fixture_delete_last]).1
    (fixture_after [fixture_release; fixture_delete_last]).2 fixture_drag <> None.
Proof.
  split.
  - destruct (modal_fails_only_on_lone_preview_point fixture_world fixture_click _ _
                fixture_delete_last fixture_world_wf fixture_reach_lone_preview)
      as (cv & Hcv & Hiff).
    apply Hiff. split; [reflexivity|]. split; [right; reflexivity|].
    split; [reflexivity|].
    vm_compute in Hcv. injection Hcv as <-. reflexivity.
  - destruct (modal_fails_only_on_lone_preview_point fixture_world fixture_click _ _
                fixture_drag fixture_world_wf fixture_reach_lone_preview)
      as (cv & _ & Hiff).
    intros Hnone. apply Hiff in Hnone as (Hty & _). discriminate Hty.
Defined.

Lemma pop_undoes_push_witness :
  exists w1 w2 tcd2,
    gpencil_push_curve_point (fixture_after []).1 (fixture_after []).2 = Some w1 /\
    gpencil_pop_curve_point w1 (fixture_after []).2 = Some (w2, tcd2) /\
    gps tcd2 ≠ gps (fixture_after []).2 /\
    strokes w2 !! gps (fixture_after []).2 = None /\
    state tcd2 = state (fixture_after []).2.
Proof.
  destruct (reachable_at fixture_world fixture_click _ _ fixture_world_wf
              fixture_reach_click) as (sh0 & x & Hat).
  destruct (pop_undoes_push fixture_world _ _ sh0 x fixture_world_wf Hat)
    as (w1 & w2 & tcd2 & Hpush & Hpop & _ & Hne & Hold & _ & Hst).
  exists w1, w2, tcd2. auto.
Defined.

Lemma stroke_keeps_brush_settings_witness :
  exists s,
    strokes (fixture_after [fixture_release; fixture_delete_last]).1
      !! gps (fixture_after [fixture_release; fixture_delete_last]).2 = Some s /\
    thickness s = 10%Z /\ hardeness s = 1%Q /\ aspect_ratio s = (1, 1)%Q /\
    mat_nr s = 0%Z /\ gps_cyclic s = false.
Proof.
  exact (stroke_keeps_brush_settings fixture_world fixture_click _ _
           fixture_reach_lone_preview).
Defined.

Lemma thickness_drag_sets_clamped_pressure_witness :
  exists w' tcd' cv' p1,
    gpencil_curve_draw_modal (fixture_after [fixture_set_thickness]).1
      (fixture_after [fixture_set_thickness]).2 fixture_thicken
      = Some (w', Some tcd', OPERATOR_RUNNING_MODAL) /\
    state tcd' = IN_SET_THICKNESS /\
    curves w' !! gpc (fixture_after [fixture_set_thickness]).2 = Some cv' /\
    cpt_pressure <$> curve_points cv' = [p1] /\ (p1 == 3)%Q.
Proof.
  destruct (thickness_drag_sets_clamped_pressure fixture_world fixture_click _ _
              fixture_thicken fixture_world_wf fixture_reach_thickness eq_refl eq_refl)
    as (w' & tcd' & cv & cv' & ps & p0 & Hm & Hst & _ & _ & _ & Hc & Hc' & Hps & Hps' & _).
  vm_compute in Hc. injection Hc as <-.
  destruct ps as [|? [|? ?]]; try discriminate Hps.
  eexists w', tcd', cv', _.
  split; [exact Hm|]. split; [exact Hst|]. split; [exact Hc'|].
  split; [exact Hps'|]. vm_compute. reflexivity.
Defined.


End CurveDraw.
